(** * Identity-anchored lineage core: canonical encoding, fingerprints,
      the append-only lineage store and the structural three-way merge.

    Shallow embedding of
      appendix/A1_identity_formalization/code/canonicalization.py
      appendix/A1_identity_formalization/code/identity.py
      appendix/A1_identity_formalization/code/lineage_store.py
      appendix/A1_identity_formalization/code/merge_engine.py

    Conventions.
    - A Python [str] is the byte string the UTF-8 scheme gives it, a lone
      surrogate code point being written with its three bytes (0xED, then a
      byte in 0xA0..0xBF, then a continuation byte).  Comparison by code
      point is byte-wise comparison of this form; [s.encode("utf-8")]
      returns it when it holds no surrogate and raises UnicodeEncodeError
      when it holds one.
    - A raised exception is [Raise e]; a [while] loop that is cut off by its
      iteration budget is [Diverge].
    - [json.dumps] refuses an integer whose decimal text is longer than the
      limit of the interpreter ([sys.get_int_max_str_digits()]) with a
      ValueError; the limit is a component of the host.
    - The recursion limit of the interpreter is not modelled: the
      RecursionError of a value nested deeper than the stack allows depends
      on the state of the interpreter stack at the call and is outside this
      development.
    - [uuid.uuid4().hex] and [int(time.time() * 1000)] are inputs of the
      operation that draws them. *)

From Stdlib Require Import ZArith String Ascii List DecimalString DecimalPos DecimalZ Lia.
From stdpp Require Import gmap strings list sorting relations.

Open Scope string_scope.
Open Scope list_scope.
Open Scope nat_scope.

Set Warnings "-clear-no-such-hyp".

(* ================================================================== *)
(** ** Exceptions and results *)

(** The exception classes met in this code.  [ValueError] is the built-in
    class itself: CanonicalizationError, IdentityError and UnicodeEncodeError
    derive from it in Python, and no handler of this code catches the base
    class. *)
Inductive exn :=
| CanonicalizationError
| IdentityError
| LineageError
| MergeError
| AssertionError
| KeyError
| TypeError
| ValueError
| UnicodeEncodeError.

Inductive result (A : Type) :=
| Ok (a : A)
| Raise (e : exn)
| Diverge.
Arguments Ok {A} a.
Arguments Raise {A} e.
Arguments Diverge {A}.

#[global] Instance exn_eq_dec : EqDecision exn.
Proof. solve_decision. Defined.

#[global] Instance result_ret : MRet result := λ A a, Ok a.
#[global] Instance result_bind : MBind result := λ A B f m,
  match m with
  | Ok a => f a
  | Raise e => Raise e
  | Diverge => Diverge
  end.

Section monadic_lists.
Context {A B : Type}.

(** [[f(x) for x in xs]], stopping at the first exception. *)
Definition map_result (f : A → result B) : list A → result (list B) :=
  fix go (xs : list A) : result (list B) :=
    match xs with
    | [] => Ok []
    | x :: xs' => y ← f x; ys ← go xs'; Ok (y :: ys)
    end.

(** [for x in xs: acc = f(acc, x)], stopping at the first exception. *)
Definition fold_result (f : B → A → result B) : B → list A → result B :=
  fix go (acc : B) (xs : list A) : result B :=
    match xs with
    | [] => Ok acc
    | x :: xs' => acc' ← f acc x; go acc' xs'
    end.
End monadic_lists.

(* ================================================================== *)
(** ** Python values *)

(** The values a payload can hold.  A float is its binary64 bit pattern; a
    mapping is its item list in iteration order; a set is its element list in
    iteration order. *)
#[warnings="-register-all"]
Inductive pyobj :=
| PyNone
| PyBool (b : bool)
| PyInt (z : Z)
| PyFloat (bits : Z)
| PyStr (s : string)
| PyDict (items : list (pyobj * pyobj))
| PyList (xs : list pyobj)
| PyTuple (xs : list pyobj)
| PySet (xs : list pyobj)
| PyBytes (data : string)
| PyObject (type_name : string).

(** Induction over values, with the hypothesis for every element of a
    container. *)
Section pyobj_induction.
Variable P : pyobj → Prop.
Hypothesis HNone : P PyNone.
Hypothesis HBool : ∀ b, P (PyBool b).
Hypothesis HInt : ∀ z, P (PyInt z).
Hypothesis HFloat : ∀ f, P (PyFloat f).
Hypothesis HStr : ∀ s, P (PyStr s).
Hypothesis HDict : ∀ items, Forall (λ kv, P kv.2) items → P (PyDict items).
Hypothesis HList : ∀ xs, Forall P xs → P (PyList xs).
Hypothesis HTuple : ∀ xs, Forall P xs → P (PyTuple xs).
Hypothesis HSet : ∀ xs, Forall P xs → P (PySet xs).
Hypothesis HBytes : ∀ b, P (PyBytes b).
Hypothesis HObject : ∀ t, P (PyObject t).

Fixpoint pyobj_elements_ind (x : pyobj) : P x :=
  let all :=
    fix all (l : list pyobj) : Forall P l :=
      match l with
      | [] => @List.Forall_nil _ P
      | y :: l' => @List.Forall_cons _ P y l' (pyobj_elements_ind y) (all l')
      end in
  match x with
  | PyNone => HNone
  | PyBool b => HBool b
  | PyInt z => HInt z
  | PyFloat f => HFloat f
  | PyStr s => HStr s
  | PyDict items =>
      HDict items
        ((fix values (l : list (pyobj * pyobj)) : Forall (λ kv, P kv.2) l :=
            match l with
            | [] => @List.Forall_nil _ _
            | kv :: l' =>
                @List.Forall_cons _ (λ kv, P kv.2) kv l' (pyobj_elements_ind kv.2) (values l')
            end) items)
  | PyList xs => HList xs (all xs)
  | PyTuple xs => HTuple xs (all xs)
  | PySet xs => HSet xs (all xs)
  | PyBytes b => HBytes b
  | PyObject t => HObject t
  end.
End pyobj_induction.

(** What the host interpreter and its libraries provide. *)
Class Host := {
  (** [float(f"{x:.17g}")] *)
  float_g17 : Z → Z;
  (** the text [json.dumps] emits for a float *)
  float_json : Z → string;
  (** [hashlib.blake2b(data, digest_size=32).hexdigest()] *)
  blake2b_hexdigest32 : string → string;
  (** [sys.get_int_max_str_digits()]: the longest decimal text an integer
      may be converted to, [0] when the interpreter has no such limit *)
  int_max_str_digits : nat
}.

(* ================================================================== *)
(** ** Sorting ([sorted], [list.sort], [sort_keys=True]) *)

Section sorting.
Context {A : Type} (ltb : A → A → bool).

(** stable insertion: [x] goes before the first element that is not
    smaller than it *)
Fixpoint insert_sorted (x : A) (l : list A) : list A :=
  match l with
  | [] => [x]
  | y :: l' => if ltb y x then y :: insert_sorted x l' else x :: y :: l'
  end.

Fixpoint py_sorted (l : list A) : list A :=
  match l with
  | [] => []
  | x :: l' => insert_sorted x (py_sorted l')
  end.

(** [le_of x y]: [y] is not smaller than [x]. *)
Definition le_of (x y : A) : Prop := ltb y x = false.
End sorting.

Definition sort_strings : list string → list string := py_sorted String.ltb.

Definition sort_by_key {V : Type} : list (string * V) → list (string * V) :=
  py_sorted (λ a b, String.ltb a.1 b.1).

(* ================================================================== *)
(** ** [json.dumps(..., ensure_ascii=False, sort_keys=True,
       separators=(",", ":"))] *)

Definition dquote : ascii := "034"%char.
Definition quoted (s : string) : string := String dquote (s +:+ String dquote "").

Definition hex_digit (n : N) : ascii :=
  match n with
  | 0 => "0" | 1 => "1" | 2 => "2" | 3 => "3" | 4 => "4" | 5 => "5"
  | 6 => "6" | 7 => "7" | 8 => "8" | 9 => "9" | 10 => "a" | 11 => "b"
  | 12 => "c" | 13 => "d" | 14 => "e" | _ => "f"
  end%N%char.

(** ESCAPE_DCT of [json.encoder]: backslash, double quote and the control
    characters below 0x20. *)
Definition escape_char (c : ascii) : string :=
  let n := N_of_ascii c in
  if (n =? 34)%N then String "\" (String dquote "")
  else if (n =? 92)%N then "\\"
  else if (n =? 8)%N then "\b"
  else if (n =? 12)%N then "\f"
  else if (n =? 10)%N then "\n"
  else if (n =? 13)%N then "\r"
  else if (n =? 9)%N then "\t"
  else if (n <? 32)%N then
    "\u00" +:+ String (hex_digit (n / 16)) (String (hex_digit (n mod 16)) "")
  else String c "".

Fixpoint escape_string (s : string) : string :=
  match s with
  | EmptyString => ""
  | String c s' => escape_char c +:+ escape_string s'
  end.

Definition json_string (s : string) : string := quoted (escape_string s).

Definition int_repr (z : Z) : string := NilZero.string_of_int (Z.to_int z).

(** The number of decimal digits of an integer. *)
Definition int_digits (z : Z) : nat := String.length (int_repr (Z.abs z)).

Section json.
Context `{Host}.

(** Is the decimal text of [z] within the conversion limit?  A text of at
    most 640 characters, the sign included, is never refused; a longer one
    is refused when a limit is set and the digits exceed it. *)
Definition int_text_allowed (z : Z) : bool :=
  (String.length (int_repr z) <=? 640)
  || (int_max_str_digits =? 0)
  || (int_digits z <=? int_max_str_digits).

(** The text [json.dumps] emits for an [int]. *)
Definition int_text (z : Z) : result string :=
  if int_text_allowed z then Ok (int_repr z) else Raise ValueError.

(** Mapping keys: [_normalize] lets only [str] keys through, so the other
    key types [json.dumps] would coerce are never met here. *)
Fixpoint json_dumps (o : pyobj) : result string :=
  match o with
  | PyNone => Ok "null"
  | PyBool b => Ok (if b then "true" else "false")
  | PyInt z => int_text z
  | PyFloat f => Ok (float_json f)
  | PyStr s => Ok (json_string s)
  | PyList xs | PyTuple xs =>
      parts ← map_result json_dumps xs;
      Ok ("[" +:+ String.concat "," parts +:+ "]")
  | PyDict items =>
      enc ← map_result (λ kv,
               match kv with
               | (PyStr k, v) => s ← json_dumps v; Ok (k, s)
               | _ => Raise TypeError
               end) items;
      Ok ("{" +:+ String.concat ","
                    (map (λ ks, json_string ks.1 +:+ ":" +:+ ks.2)
                         (sort_by_key enc)) +:+ "}")
  | PySet _ | PyBytes _ | PyObject _ => Raise TypeError
  end.
End json.

(* ================================================================== *)
(** ** canonicalization.py *)

Definition _is_primitive (x : pyobj) : bool :=
  match x with
  | PyNone | PyBool _ | PyInt _ | PyFloat _ | PyStr _ => true
  | _ => false
  end.

(** [out[k] = v] on a mapping with [str] keys. *)
Fixpoint dict_set (d : list (pyobj * pyobj)) (k : string) (v : pyobj)
  : list (pyobj * pyobj) :=
  match d with
  | [] => [(PyStr k, v)]
  | (PyStr k', v') :: d' =>
      if String.eqb k' k then (PyStr k', v) :: d'
      else (PyStr k', v') :: dict_set d' k v
  | kv :: d' => kv :: dict_set d' k v
  end.

(** Nesting depth of a value; it bounds the recursion of [_normalize]. *)
Fixpoint depth (x : pyobj) : nat :=
  match x with
  | PyDict items => S (list_max (map (λ kv, depth kv.2) items))
  | PyList xs | PyTuple xs | PySet xs => S (list_max (map depth xs))
  | _ => 0
  end.

(** One turn of the mapping loop of [_normalize]: a key that is not a [str]
    raises, otherwise the normalized value is stored under the key. *)
Definition dict_step (normalize : pyobj → result pyobj)
    (out : list (pyobj * pyobj)) (kv : pyobj * pyobj)
  : result (list (pyobj * pyobj)) :=
  match kv with
  | (PyStr k, v) => nv ← normalize v; Ok (dict_set out k nv)
  | _ => Raise CanonicalizationError
  end.

Section canonicalization.
Context `{Host}.

Definition _normalize_number (x : pyobj) : pyobj :=
  match x with
  | PyBool _ => x
  | PyInt _ => x
  | PyFloat f => PyFloat (float_g17 f)
  | _ => x
  end.

(** The body of [canonicalize_payload] over a given [_normalize]: the
    [TypeError] of [json.dumps] is re-raised as [CanonicalizationError];
    any other exception of [json.dumps] passes through. *)
Definition canonicalize_with (normalize : pyobj → result pyobj) (obj : pyobj)
  : result string :=
  normalized ← normalize obj;
  match json_dumps normalized with
  | Raise TypeError => Raise CanonicalizationError
  | r => r
  end.

(** [_normalize], with the recursion depth it may use. *)
Fixpoint _normalize_rec (fuel : nat) (obj : pyobj) : result pyobj :=
  match fuel with
  | O => Diverge
  | S fuel' =>
      if _is_primitive obj then Ok (_normalize_number obj)
      else match obj with
      | PyDict items =>
          out ← fold_result (dict_step (_normalize_rec fuel')) [] items;
          Ok (PyDict out)
      | PyList xs | PyTuple xs =>
          ys ← map_result (_normalize_rec fuel') xs; Ok (PyList ys)
      | PySet xs =>
          items ← map_result (_normalize_rec fuel') xs;
          sortable ← map_result (canonicalize_with (_normalize_rec fuel')) items;
          Ok (PyList (map PyStr (sort_strings sortable)))
      | PyBytes _ => Raise CanonicalizationError
      | _ => Raise CanonicalizationError
      end
  end.

Definition _normalize (obj : pyobj) : result pyobj :=
  _normalize_rec (S (depth obj)) obj.

Definition canonicalize_payload (obj : pyobj) : result string :=
  canonicalize_with _normalize obj.
End canonicalization.

(* ================================================================== *)
(** ** identity.py *)

(** Truth value of a [str]. *)
Definition truthy (s : string) : bool := negb (String.eqb s "").

(** Does the text hold a surrogate code point (U+D800..U+DFFF)?  In the
    UTF-8 scheme these are the sequences that start with the byte 0xED
    followed by a byte in 0xA0..0xBF. *)
Fixpoint has_surrogate (s : string) : bool :=
  match s with
  | String c s' =>
      match s' with
      | String d _ =>
          ((N_of_ascii c =? 237)%N && (160 <=? N_of_ascii d)%N
           && (N_of_ascii d <=? 191)%N)
          || has_surrogate s'
      | EmptyString => false
      end
  | EmptyString => false
  end.

Record IdentityAnchor := {
  id : string;
  kind : string;
  namespace : string;
  scope : string;
  version : string
}.

Section identity.
Context `{Host}.

Definition _blake2b_256 (data : string) : string := blake2b_hexdigest32 data.

(** [s.encode("utf-8")] *)
Definition encode_utf8 (s : string) : result string :=
  if has_surrogate s then Raise UnicodeEncodeError else Ok s.

Definition canonical_fingerprint
    (kind namespace : string) (payload : pyobj) (scope version : string)
  : result string :=
  if negb (truthy kind) || negb (truthy namespace) then Raise IdentityError
  else
    canonical ← canonicalize_payload payload;
    let material := PyDict [
      (PyStr "version", PyStr version);
      (PyStr "kind", PyStr kind);
      (PyStr "namespace", PyStr namespace);
      (PyStr "scope", PyStr scope);
      (PyStr "payload", PyStr canonical)] in
    outer ← canonicalize_payload material;
    data ← encode_utf8 outer;
    Ok (_blake2b_256 data).

(** [IdentityAnchor.create] *)
Definition create
    (kind namespace : string) (payload : pyobj) (scope version : string)
  : result IdentityAnchor :=
  fp ← canonical_fingerprint kind namespace payload scope version;
  Ok {| id := fp; kind := kind; namespace := namespace;
        scope := scope; version := version |}.
End identity.

(* ================================================================== *)
(** ** lineage_store.py *)

Record Commit := {
  commit_id : string;
  timestamp_ms : Z;
  parents : list string;
  op : string;
  subject_id : string;
  subject_kind : string;
  subject_namespace : string;
  subject_scope : string;
  payload : list (pyobj * pyobj);
  note : string
}.

Record LineageStore := {
  _commits : gmap string Commit;
  _children : gmap string (gset string)
}.

(** [LineageStore()] *)
Definition empty_store : LineageStore := {| _commits := ∅; _children := ∅ |}.

(** [d.setdefault(k, set())], returning the mapping. *)
Definition setdefault_empty (k : string) (d : gmap string (gset string))
  : gmap string (gset string) :=
  match d !! k with
  | Some _ => d
  | None => <[k := ∅]> d
  end.

(** [d.setdefault(p, set()).add(c)] *)
Definition add_child (d : gmap string (gset string)) (p c : string)
  : gmap string (gset string) :=
  let d' := setdefault_empty p d in
  <[p := default ∅ (d' !! p) ∪ {[c]}]> d'.

(** The first loop of [append]: the first unknown parent raises. *)
Fixpoint check_parents (s : LineageStore) (parent_ids : list string) : result unit :=
  match parent_ids with
  | [] => Ok ()
  | p :: ps =>
      if bool_decide (p ∈ dom (_commits s)) then check_parents s ps
      else Raise LineageError
  end.

(** [append]: [uuid_hex] is the value of [uuid.uuid4().hex] and [now_ms] that
    of [int(time.time() * 1000)].  The store after the call is returned next
    to the outcome. *)
Definition append (s : LineageStore) (uuid_hex : string) (now_ms : Z)
    (parents : list string)
    (op subject_id subject_kind subject_namespace subject_scope : string)
    (payload : option (list (pyobj * pyobj))) (note : string)
  : result Commit * LineageStore :=
  let parent_ids := parents in
  match check_parents s parent_ids with
  | Ok _ =>
      let commit_id := uuid_hex in
      let ts := now_ms in
      let c := {|
        commit_id := commit_id;
        timestamp_ms := ts;
        parents := parent_ids;
        op := op;
        subject_id := subject_id;
        subject_kind := subject_kind;
        subject_namespace := subject_namespace;
        subject_scope := subject_scope;
        payload := default [] payload;
        note := note |} in
      let commits' := <[commit_id := c]> (_commits s) in
      let children' :=
        foldl (λ d p, add_child d p commit_id) (_children s) parent_ids in
      (Ok c, {| _commits := commits';
                _children := setdefault_empty commit_id children' |})
  | Raise e => (Raise e, s)
  | Diverge => (Diverge, s)
  end.

Definition get (s : LineageStore) (commit_id : string) : result Commit :=
  match _commits s !! commit_id with
  | Some c => Ok c
  | None => Raise LineageError
  end.

(** [exists] *)
Definition exists_ (s : LineageStore) (commit_id : string) : bool :=
  bool_decide (commit_id ∈ dom (_commits s)).

Definition children_of (s : LineageStore) (commit_id : string) : gset string :=
  match _children s !! commit_id with
  | Some ch => ch
  | None => ∅
  end.

(** Iterations granted to a [while] loop over the store. *)
Definition loop_budget (s : LineageStore) : nat := S (S (size (_commits s))).

(** The [for p in ...parents] loop of [ancestors_of]; the top of the stack is
    the head of the list. *)
Definition visit_parents (visited : gset string) (stack : list string)
    (ps : list string) : gset string * list string :=
  foldl (λ '(visited, stack) p,
           if bool_decide (p ∈ visited) then (visited, stack)
           else (visited ∪ {[p]}, p :: stack))
        (visited, stack) ps.

(** The [while stack:] loop of [ancestors_of]; [self._commits[cur]] raises
    [KeyError] on a missing key. *)
Fixpoint ancestors_loop (fuel : nat) (s : LineageStore)
    (visited : gset string) (stack : list string) : result (gset string) :=
  match fuel with
  | O => Diverge
  | S fuel' =>
      match stack with
      | [] => Ok visited
      | cur :: stack' =>
          match _commits s !! cur with
          | None => Raise KeyError
          | Some c =>
              let '(visited', stack'') := visit_parents visited stack' (parents c) in
              ancestors_loop fuel' s visited' stack''
          end
      end
  end.

Definition ancestors_of (s : LineageStore) (commit_id : string)
  : result (gset string) :=
  if bool_decide (commit_id ∈ dom (_commits s))
  then ancestors_loop (loop_budget s) s ∅ [commit_id]
  else Raise LineageError.

Definition lca_candidates (s : LineageStore) (a b : string)
  : result (gset string) :=
  if negb (bool_decide (a ∈ dom (_commits s)))
     || negb (bool_decide (b ∈ dom (_commits s)))
  then Raise LineageError
  else
    anc ← ancestors_of s a;
    let anc_a := anc ∪ {[a]} in
    anc' ← ancestors_of s b;
    let anc_b := anc' ∪ {[b]} in
    Ok (anc_a ∩ anc_b).

(* ================================================================== *)
(** ** merge_engine.py *)

(** An action or conflict entry: a mapping from field names to a string or
    [None], in insertion order. *)
Definition entry := list (string * option string).

Record MergeDecision := {
  base_commit : option string;
  left_commit : string;
  right_commit : string;
  actions : list entry;
  conflicts : list entry;
  decision_note : string
}.

Definition _index_latest_by_subject (commits : list Commit) : gmap string Commit :=
  foldl (λ out c, <[subject_id c := c]> out) ∅ commits.

(** The [while True] loop of [_commit_chain]; [chain] is in append order. *)
Fixpoint commit_chain_loop (fuel : nat) (s : LineageStore) (cur : string)
    (chain : list Commit) : result (list Commit) :=
  match fuel with
  | O => Diverge
  | S fuel' =>
      c ← get s cur;
      let chain := chain ++ [c] in
      match parents c with
      | [p] => commit_chain_loop fuel' s p chain
      | _ => Ok chain
      end
  end.

Definition _commit_chain (s : LineageStore) (head : string) : result (list Commit) :=
  chain ← commit_chain_loop (loop_budget s) s head [];
  Ok (rev chain).

(** [key > best_key] on [(timestamp_ms, commit_id)] tuples. *)
Definition key_gt (k1 k2 : Z * string) : bool :=
  (k2.1 <? k1.1)%Z || ((k1.1 =? k2.1)%Z && String.ltb k2.2 k1.2).

(** One turn of the [for cid in cands] loop of [_pick_base]. *)
Definition pick_step (s : LineageStore)
    (st : option string * option (Z * string)) (cid : string)
  : result (option string * option (Z * string)) :=
  let '(best, best_key) := st in
  c ← get s cid;
  let key := (timestamp_ms c, cid) in
  match best, best_key with
  | None, _ => Ok (Some cid, Some key)
  | Some _, Some bk => if key_gt key bk then Ok (Some cid, Some key) else Ok st
  | Some _, None => Raise TypeError
  end.

(** The candidates are visited in the iteration order of the set. *)
Definition _pick_base (s : LineageStore) (left right : string)
  : result (option string) :=
  cands ← lca_candidates s left right;
  if bool_decide (cands = ∅) then Ok None
  else
    st ← fold_result (pick_step s) (None, None) (elements cands);
    Ok st.1.

Definition opaque_payload : string := "<opaque-payload>".

Section merge_engine.
Context `{Host}.

(** Only CanonicalizationError is caught; another exception of
    [canonicalize_payload] leaves the function. *)
Definition _semantic_free_payload_change (commit : Commit) : result string :=
  match canonicalize_payload (PyDict (payload commit)) with
  | Ok s => Ok s
  | Raise CanonicalizationError => Ok opaque_payload
  | Raise e => Raise e
  | Diverge => Diverge
  end.

(** Does [_semantic_free_payload_change] return for the commit? *)
Definition has_signature (commit : Commit) : bool :=
  match _semantic_free_payload_change commit with
  | Ok _ => true
  | _ => false
  end.

(** The body of the [for sid in sorted(all_subjects)] loop. *)
Definition classify_subject
    (left_latest right_latest base_latest : gmap string Commit)
    (acc : list entry * list entry) (sid : string)
  : result (list entry * list entry) :=
  let '(actions, conflicts) := acc in
  let l := left_latest !! sid in
  let r := right_latest !! sid in
  let b := base_latest !! sid in
  match l, r with
  | Some l, None =>
      Ok (actions ++ [[
        ("subject_id", Some sid);
        ("proposal", Some "accept_left");
        ("reason", Some "subject appears only on left branch");
        ("left_commit", Some (commit_id l))]], conflicts)
  | None, Some r =>
      Ok (actions ++ [[
        ("subject_id", Some sid);
        ("proposal", Some "accept_right");
        ("reason", Some "subject appears only on right branch");
        ("right_commit", Some (commit_id r))]], conflicts)
  | None, None => Raise AssertionError
  | Some l, Some r =>
      l_sig ← _semantic_free_payload_change l;
      r_sig ← _semantic_free_payload_change r;
      if String.eqb l_sig r_sig then
        Ok (actions ++ [[
          ("subject_id", Some sid);
          ("proposal", Some "accept_either");
          ("reason", Some "structurally equivalent payload changes");
          ("left_commit", Some (commit_id l));
          ("right_commit", Some (commit_id r))]], conflicts)
      else
        let conflict := [
          ("subject_id", Some sid);
          ("conflict", Some "divergent_updates");
          ("reason", Some "both branches diverged for same subject_id; requires explicit merge policy");
          ("base_commit", commit_id <$> b);
          ("left_commit", Some (commit_id l));
          ("right_commit", Some (commit_id r));
          ("left_payload_sig", Some l_sig);
          ("right_payload_sig", Some r_sig)] in
        match b with
        | Some b =>
            b_sig ← _semantic_free_payload_change b;
            if String.eqb l_sig b_sig && negb (String.eqb r_sig b_sig) then
              Ok (actions ++ [[
                ("subject_id", Some sid);
                ("proposal", Some "accept_right");
                ("reason", Some "left matches base; right diverges");
                ("base_commit", Some (commit_id b));
                ("right_commit", Some (commit_id r))]], conflicts)
            else if String.eqb r_sig b_sig && negb (String.eqb l_sig b_sig) then
              Ok (actions ++ [[
                ("subject_id", Some sid);
                ("proposal", Some "accept_left");
                ("reason", Some "right matches base; left diverges");
                ("base_commit", Some (commit_id b));
                ("left_commit", Some (commit_id l))]], conflicts)
            else Ok (actions, conflicts ++ [conflict])
        | None => Ok (actions, conflicts ++ [conflict])
        end
  end.

Definition analysis_note : string :=
  "This is a structural merge analysis (no semantic resolution). " +:+
  "Conflicts must be resolved by explicit revision decisions.".

Definition three_way_merge_analysis
    (store : LineageStore) (left_head right_head : string)
  : result MergeDecision :=
  if negb (exists_ store left_head) || negb (exists_ store right_head)
  then Raise MergeError
  else
    base ← _pick_base store left_head right_head;
    left_chain ← _commit_chain store left_head;
    right_chain ← _commit_chain store right_head;
    base_commit ← match base with
                  | Some b => if truthy b then c ← get store b; Ok (Some c) else Ok None
                  | None => Ok None
                  end;
    let left_latest := _index_latest_by_subject left_chain in
    let right_latest := _index_latest_by_subject right_chain in
    base_latest ← match base with
                  | Some b =>
                      if truthy b
                      then chain ← _commit_chain store b;
                           Ok (_index_latest_by_subject chain)
                      else Ok ∅
                  | None => Ok ∅
                  end;
    let all_subjects : gset string :=
      dom left_latest ∪ dom right_latest ∪ dom base_latest in
    acc ← fold_result (classify_subject left_latest right_latest base_latest)
            ([], []) (sort_strings (elements all_subjects));
    Ok {| base_commit := base;
          left_commit := left_head;
          right_commit := right_head;
          actions := acc.1;
          conflicts := acc.2;
          decision_note := analysis_note |}.
End merge_engine.

Section commit_merge.
Context `{Host}.

(** The [for subject_id, payload in merged_subject_payloads.items()] loop of
    [commit_merge].  [draws i] is the [(uuid4().hex, time)] pair drawn by the
    [i]-th [append]; the store reached so far is returned with the outcome. *)
Fixpoint commit_merge_loop (store : LineageStore) (draws : nat → string * Z)
    (i : nat) (left right : string)
    (items : list (string * list (pyobj * pyobj)))
    (kind namespace scope note : string) (merge_commits : list Commit)
  : result (list Commit) * LineageStore :=
  match items with
  | [] => (Ok merge_commits, store)
  | (subject_id, payload) :: rest =>
      match create kind namespace (PyDict payload) scope "v1" with
      | Ok anchor =>
          let '(op, sid) :=
            if String.eqb (id anchor) subject_id
            then ("merge", subject_id)
            else ("replace", id anchor) in
          match append store (draws i).1 (draws i).2 [left; right] op sid
                  kind namespace scope (Some payload) note with
          | (Ok c, store') =>
              commit_merge_loop store' draws (S i) left right rest
                kind namespace scope note (merge_commits ++ [c])
          | (Raise e, store') => (Raise e, store')
          | (Diverge, store') => (Diverge, store')
          end
      | Raise e => (Raise e, store)
      | Diverge => (Diverge, store)
      end
  end.

Definition commit_merge (store : LineageStore) (draws : nat → string * Z)
    (parents : string * string) (decision : MergeDecision)
    (merged_subject_payloads : list (string * list (pyobj * pyobj)))
    (kind namespace scope note : string)
  : result (list Commit) * LineageStore :=
  let left := parents.1 in
  let right := parents.2 in
  if negb (exists_ store left) || negb (exists_ store right)
  then (Raise MergeError, store)
  else commit_merge_loop store draws 0 left right
         merged_subject_payloads kind namespace scope note [].
End commit_merge.

(* ================================================================== *)
(** ** The lineage graph and the stores that [append] can build *)

(** [parent_of s x p]: commit [x] of the store lists [p] among its parents. *)
Definition parent_of (s : LineageStore) (x p : string) : Prop :=
  ∃ c, _commits s !! x = Some c ∧ p ∈ parents c.

(** [ancestor s x a]: [a] is reached from [x] by one or more parent edges. *)
Definition ancestor (s : LineageStore) : string → string → Prop :=
  tc (parent_of s).

(** Stores built from [LineageStore()] by successful calls of [append], each
    drawing a non-empty identifier that the store does not hold yet. *)
Inductive reachable : LineageStore → Prop :=
| reachable_empty : reachable empty_store
| reachable_append s uuid_hex now_ms ps o sid sk sn ss pl nt c s' :
    reachable s →
    uuid_hex ≠ "" →
    _commits s !! uuid_hex = None →
    append s uuid_hex now_ms ps o sid sk sn ss pl nt = (Ok c, s') →
    reachable s'.

(** The shape every reachable store has. *)
Record store_wf (s : LineageStore) : Prop := {
  wf_key : ∀ k c, _commits s !! k = Some c → commit_id c = k;
  wf_closed : ∀ k c p,
    _commits s !! k = Some c → p ∈ parents c → p ∈ dom (_commits s);
  wf_nonempty : ∀ k, k ∈ dom (_commits s) → k ≠ "";
  wf_children_dom : dom (_children s) = dom (_commits s);
  wf_children : ∀ p ch,
    _children s !! p = Some ch → ∀ x, x ∈ ch ↔ parent_of s x p;
  wf_rank : ∃ rank : string → nat,
    (∀ k, k ∈ dom (_commits s) → rank k < size (_commits s)) ∧
    (∀ k c p, _commits s !! k = Some c → p ∈ parents c → rank p < rank k)
}.

(** What the loop of [ancestors_of] maintains: everything visited is an
    ancestor of the start, the stack holds only the start or visited nodes,
    and every node met so far is either still on the stack or has all its
    parents visited. *)
Definition loop_inv (s : LineageStore) (start : string)
    (V : gset string) (S : list string) : Prop :=
  (∀ x, x ∈ V → ancestor s start x) ∧
  (∀ x, x ∈ S → x = start ∨ x ∈ V) ∧
  (∀ x, x = start ∨ x ∈ V → x ∈ S ∨ ∀ p, parent_of s x p → p ∈ V).

(* ================================================================== *)
(** ** Reading a merge decision *)

(** [e[k]] on an entry, [None] when the key is absent. *)
Fixpoint entry_get (k : string) (e : entry) : option (option string) :=
  match e with
  | [] => None
  | (k', v) :: e' => if String.eqb k' k then Some v else entry_get k e'
  end.

(** The entries of a list that are about subject [sid]. *)
Definition entries_for (sid : string) (es : list entry) : list entry :=
  filter (λ e, entry_get "subject_id" e = Some (Some sid)) es.

(** The decision holds exactly one action for [sid], with proposal [p], and
    no conflict for it. *)
Definition proposes (d : MergeDecision) (sid p : string) : Prop :=
  ∃ a, entries_for sid (actions d) = [a] ∧
       entry_get "proposal" a = Some (Some p) ∧
       entries_for sid (conflicts d) = [].

(** The decision holds exactly one conflict for [sid] and no action for it. *)
Definition in_conflict (d : MergeDecision) (sid : string) : Prop :=
  entries_for sid (actions d) = [] ∧
  ∃ c, entries_for sid (conflicts d) = [c] ∧
       entry_get "conflict" c = Some (Some "divergent_updates").

Section views.
Context `{Host}.

(** The subject index of the single-parent chain that ends in [head]. *)
Definition view (s : LineageStore) (head : string) : result (gmap string Commit) :=
  chain ← _commit_chain s head; Ok (_index_latest_by_subject chain).

(** The subject index of the chosen base, empty without a usable base. *)
Definition base_view (s : LineageStore) (base : option string)
  : result (gmap string Commit) :=
  match base with
  | Some b => if truthy b then view s b else Ok ∅
  | None => Ok ∅
  end.

(** What one turn of the classification loop contributes. *)
Definition verdict (lv rv bv : gmap string Commit) (sid : string)
  : result (list entry * list entry) :=
  classify_subject lv rv bv ([], []) sid.

(** The classification rules of the analysis, for one subject, read off a
    decision: left only, right only, same canonical payload, one side equal
    to the base, and everything else. *)
Definition classified (lv rv bv : gmap string Commit) (d : MergeDecision)
    (sid : string) : Prop :=
  (∀ lc, lv !! sid = Some lc → rv !! sid = None →
     proposes d sid "accept_left") ∧
  (∀ rc, lv !! sid = None → rv !! sid = Some rc →
     proposes d sid "accept_right") ∧
  (∀ lc rc l_sig r_sig, lv !! sid = Some lc → rv !! sid = Some rc →
     _semantic_free_payload_change lc = Ok l_sig →
     _semantic_free_payload_change rc = Ok r_sig →
     (l_sig = r_sig → proposes d sid "accept_either") ∧
     (l_sig ≠ r_sig →
        (∀ bc, bv !! sid = Some bc →
           _semantic_free_payload_change bc = Ok l_sig →
           proposes d sid "accept_right") ∧
        (∀ bc, bv !! sid = Some bc →
           _semantic_free_payload_change bc = Ok r_sig →
           proposes d sid "accept_left") ∧
        ((bv !! sid = None ∨
          ∃ bc b_sig, bv !! sid = Some bc ∧
                _semantic_free_payload_change bc = Ok b_sig ∧
                l_sig ≠ b_sig ∧ r_sig ≠ b_sig) →
           in_conflict d sid))).

(** Does the view of [head] hold subject [sid]? *)
Definition view_has (s : LineageStore) (head sid : string) : bool :=
  match view s head with
  | Ok v => bool_decide (is_Some (v !! sid))
  | _ => false
  end.
End views.

(* ================================================================== *)
(** ** Example stores *)

(** [append] with the fields the examples do not vary. *)
Definition example_append (s : LineageStore) (cid : string) (ts : Z)
    (ps : list string) (o sid : string) (v : Z) : LineageStore :=
  (append s cid ts ps o sid "motif" "A1.demo" "global"
     (Some [(PyStr "statement", PyInt v)]) "").2.

(** Diamond: genesis [G]; [A] and [B] with parent [G]; merge [M] with
    parents [(A, B)]. *)
Definition diamond_store : LineageStore :=
  let s0 := example_append empty_store "G" 1 [] "add" "s0" 0 in
  let s1 := example_append s0 "A" 2 ["G"] "add" "s1" 1 in
  let s2 := example_append s1 "B" 3 ["G"] "add" "s2" 2 in
  example_append s2 "M" 4 ["A"; "B"] "merge" "s3" 3.

(** Two branches from a genesis, then the two commits a [commit_merge] of
    the heads [l] and [r] leaves: [m1] and [m2], both with parents [(l, r)]. *)
Definition merged_store : LineageStore :=
  let s0 := example_append empty_store "g" 1 [] "add" "A" 0 in
  let s1 := example_append s0 "l" 2 ["g"] "add" "B" 1 in
  let s2 := example_append s1 "r" 3 ["g"] "add" "C" 2 in
  let s3 := example_append s2 "m1" 4 ["l"; "r"] "merge" "B" 1 in
  example_append s3 "m2" 5 ["l"; "r"] "merge" "C" 2.

(** Genesis holding subject [A]; the left branch replaces it, the right
    branch adds subject [C] only. *)
Definition branched_store : LineageStore :=
  let s0 := example_append empty_store "g" 1 [] "add" "A" 0 in
  let s1 := example_append s0 "l" 2 ["g"] "replace" "A" 1 in
  example_append s1 "r" 3 ["g"] "add" "C" 2.

(** A host for the closed examples: floats already in 17-digit form, a
    fixed float text, the identity standing in for the digest, and the
    default limit of 4300 digits. *)
Definition example_host : Host := {|
  float_g17 := λ bits, bits;
  float_json := λ _, "0.0";
  blake2b_hexdigest32 := λ data, data;
  int_max_str_digits := 4300
|}.

(* ================================================================== *)
(** ** The fingerprint as the specification words it *)

Section fingerprint_spec.
Context `{Host}.

(** The envelope {version, kind, namespace, scope, payload} around an
    already canonical payload string. *)
Definition envelope (version kind namespace scope inner : string) : pyobj :=
  PyDict [
    (PyStr "version", PyStr version);
    (PyStr "kind", PyStr kind);
    (PyStr "namespace", PyStr namespace);
    (PyStr "scope", PyStr scope);
    (PyStr "payload", PyStr inner)].

(** Hash256(CanonicalEncode(envelope with payload: CanonicalEncode(payload))) *)
Definition Fingerprint (kind namespace scope version : string) (payload : pyobj)
  : result string :=
  inner ← canonicalize_payload payload;
  outer ← canonicalize_payload (envelope version kind namespace scope inner);
  Ok (blake2b_hexdigest32 outer).

(** The text of the canonical envelope: keys in ascending order, no
    whitespace. *)
Definition envelope_text (version kind namespace scope inner : string) : string :=
  "{" +:+ String.concat "," [
            json_string "kind" +:+ ":" +:+ json_string kind;
            json_string "namespace" +:+ ":" +:+ json_string namespace;
            json_string "payload" +:+ ":" +:+ json_string inner;
            json_string "scope" +:+ ":" +:+ json_string scope;
            json_string "version" +:+ ":" +:+ json_string version]
      +:+ "}".
End fingerprint_spec.

(** The commit that [commit_merge] appends for one resolved payload whose
    recomputed anchor id is [fp]. *)
Definition merge_commit_for (draw : string * Z) (left right : string)
    (subject_id fp : string) (payload : list (pyobj * pyobj))
    (kind namespace scope note : string) : Commit := {|
  commit_id := draw.1;
  timestamp_ms := draw.2;
  parents := [left; right];
  op := if String.eqb fp subject_id then "merge" else "replace";
  subject_id := if String.eqb fp subject_id then subject_id else fp;
  subject_kind := kind;
  subject_namespace := namespace;
  subject_scope := scope;
  payload := payload;
  note := note
|}.

(** The text that holds the single code point U+D800, a surrogate without
    its pair. *)
Definition lone_surrogate : string :=
  String "237"%char (String "160"%char (String "128"%char "")).

(** A decision to hand to [commit_merge], which does not read it. *)
Definition example_decision : MergeDecision := {|
  base_commit := Some "g";
  left_commit := "l";
  right_commit := "r";
  actions := [];
  conflicts := [];
  decision_note := ""
|}.

(** The outcome is a value or the exception [e]: no other exception, and no
    cut-off loop. *)
Definition ok_or_raises {A : Type} (e : exn) (r : result A) : Prop :=
  (∃ a, r = Ok a) ∨ r = Raise e.

(** The outcome is a value or one of the exceptions [es]. *)
Definition returns_or_raises {A : Type} (es : list exn) (r : result A) : Prop :=
  match r with
  | Ok _ => True
  | Raise e => e ∈ es
  | Diverge => False
  end.

(* ================================================================== *)
(** ** String-keyed mappings and their canonical text *)

(** The mapping with the given string keys and values, in this order. *)
Definition str_dict (kvs : list (string * pyobj)) : pyobj :=
  PyDict (map (λ kv, (PyStr kv.1, kv.2)) kvs).

(** The text of a mapping whose values are already encoded: keys in
    ascending order, [","] between entries and [":"] inside an entry. *)
Definition dict_text (enc : list (string * string)) : string :=
  "{" +:+ String.concat ","
            (map (λ ks, json_string ks.1 +:+ ":" +:+ ks.2) (sort_by_key enc))
      +:+ "}".

(** The text of a sequence whose elements are already encoded. *)
Definition list_text (parts : list string) : string :=
  "[" +:+ String.concat "," parts +:+ "]".

(** Byte-wise strict order on keys. *)
Definition key_lt (a b : string) : Prop := String.ltb a b = true.

(** The texts of compact JSON: a literal, the numeral of an integer, the
    text of a float, a string literal, an array [[v,...,v]] of such texts or
    an object [{k:v,...,k:v}] of them under string-literal keys in strictly
    ascending byte-wise order.  Nothing stands between the tokens: the only
    separators are the comma and the colon. *)
Section compact_texts.
Context `{Host}.

#[warnings="-register-all"]
Inductive compact_json : string → Prop :=
| compact_null : compact_json "null"
| compact_true : compact_json "true"
| compact_false : compact_json "false"
| compact_int z : compact_json (int_repr z)
| compact_float f : compact_json (float_json f)
| compact_string s : compact_json (json_string s)
| compact_array parts :
    Forall compact_json parts →
    compact_json ("[" +:+ String.concat "," parts +:+ "]")
| compact_object (enc : list (string * string)) :
    StronglySorted (λ a b, key_lt a.1 b.1) enc →
    Forall (λ ks, compact_json ks.2) enc →
    compact_json
      ("{" +:+ String.concat ","
                 (map (λ ks, json_string ks.1 +:+ ":" +:+ ks.2) enc)
           +:+ "}").
End compact_texts.

(** The value of an outcome, with a default for the other cases. *)
Definition value_or {A : Type} (d : A) (r : result A) : A :=
  match r with Ok a => a | _ => d end.

(* ================================================================== *)
(** ** Values that differ in the order of mapping keys only *)

(** [reordered x y]: [y] is [x] with the entries of some of its mappings, at
    any depth, listed in another order (and, for sets, iterated in another
    order).  A mapping here has distinct string keys. *)
#[warnings="-register-all"]
Inductive reordered : pyobj → pyobj → Prop :=
| reordered_refl x : reordered x x
| reordered_dict (kvs1 kvs kvs2 : list (string * pyobj)) :
    NoDup kvs1.*1 →
    kvs1 ≡ₚ kvs →
    Forall2 (λ a b, a.1 = b.1 ∧ reordered a.2 b.2) kvs kvs2 →
    reordered (str_dict kvs1) (str_dict kvs2)
| reordered_list xs ys :
    Forall2 reordered xs ys → reordered (PyList xs) (PyList ys)
| reordered_tuple xs ys :
    Forall2 reordered xs ys → reordered (PyTuple xs) (PyTuple ys)
| reordered_set xs xs' ys :
    xs ≡ₚ xs' → Forall2 reordered xs' ys → reordered (PySet xs) (PySet ys).

(** Genesis holding subject [A]; both branches replace it, each with its own
    payload. *)
Definition conflict_store : LineageStore :=
  let s0 := example_append empty_store "g" 1 [] "add" "A" 0 in
  let s1 := example_append s0 "l" 2 ["g"] "replace" "A" 1 in
  example_append s1 "r" 3 ["g"] "replace" "A" 2.

(** The proposal of the only action about [sid], if there is exactly one. *)
Definition proposal_for (d : MergeDecision) (sid : string) : option string :=
  match entries_for sid (actions d) with
  | [a] => mjoin (entry_get "proposal" a)
  | _ => None
  end.

(* ================================================================== *)
(** ** Supported values *)

(** Values [json.dumps] can write: primitives, sequences and mappings with
    [str] keys, all the way down. *)
Fixpoint encodable (x : pyobj) : bool :=
  match x with
  | PyNone | PyBool _ | PyInt _ | PyFloat _ | PyStr _ => true
  | PyDict items =>
      forallb (λ kv, match kv.1 with PyStr _ => encodable kv.2 | _ => false end) items
  | PyList xs | PyTuple xs => forallb encodable xs
  | PySet _ | PyBytes _ | PyObject _ => false
  end.

(** Values of the allowed input types: null, boolean, integer, float,
    string, string-keyed mapping, sequence and set, all the way down. *)
Fixpoint supported (x : pyobj) : bool :=
  match x with
  | PyNone | PyBool _ | PyInt _ | PyFloat _ | PyStr _ => true
  | PyDict items =>
      forallb (λ kv, match kv.1 with PyStr _ => supported kv.2 | _ => false end) items
  | PyList xs | PyTuple xs | PySet xs => forallb supported xs
  | PyBytes _ | PyObject _ => false
  end.

(** The [(timestamp_ms, commit_id)] key of a stored commit. *)
Definition commit_key (s : LineageStore) (cid : string) : option (Z * string) :=
  (λ c, (timestamp_ms c, cid)) <$> _commits s !! cid.
(* ================================================================== *)
(** ** lineage_store.py: the listing of all commits *)

(** The sort key of [all_commits]: [(c.timestamp_ms, c.commit_id)]. *)
Definition sort_key (c : Commit) : Z * string := (timestamp_ms c, commit_id c).

(** [key(a) < key(b)] on the tuples. *)
Definition sort_key_ltb (a b : Commit) : bool := key_gt (sort_key b) (sort_key a).

(** [all_commits]: [values()] is read in the order the map lists its
    entries; [sorted] is stable. *)
Definition all_commits (s : LineageStore) : list Commit :=
  py_sorted sort_key_ltb (map_to_list (_commits s)).*2.
(* ================================================================== *)
(** ** Single-parent chains *)

(** [chain_to s cid cs]: [cs] lists, oldest first, the stored commits met by
    walking from [cid] along single parents: it ends in the commit stored
    under [cid], each commit is the only parent of the next, and the first
    one does not have exactly one parent. *)
Inductive chain_to (s : LineageStore) : string → list Commit → Prop :=
| chain_to_root cid c :
    _commits s !! cid = Some c → length (parents c) ≠ 1 → chain_to s cid [c]
| chain_to_step cid c p cs :
    _commits s !! cid = Some c → parents c = [p] → chain_to s p cs →
    chain_to s cid (cs ++ [c]).

(** The head and all its ancestors have at most one parent each. *)
Definition linear_history (s : LineageStore) (head : string) : Prop :=
  ∀ x c, x = head ∨ ancestor s head x →
         _commits s !! x = Some c → length (parents c) ≤ 1.
(* ================================================================== *)
(** ** The order of the entries of a decision *)

(** The subject an entry is about. *)
Definition entry_subject (e : entry) : option string :=
  mjoin (entry_get "subject_id" e).

(** [e1] is about a subject that sorts strictly before the subject of [e2]. *)
Definition by_subject (e1 e2 : entry) : Prop :=
  ∃ s1 s2, entry_subject e1 = Some s1 ∧ entry_subject e2 = Some s2 ∧ key_lt s1 s2.

(** The proposal with the two sides exchanged. *)
Definition mirror_proposal (p : string) : string :=
  if String.eqb p "accept_left" then "accept_right"
  else if String.eqb p "accept_right" then "accept_left"
  else p.

(* ================================================================== *)
(** ** Reading an escaped text *)

(** The value of a lower-case hexadecimal digit. *)
Definition hex_value (c : ascii) : option N :=
  let n := N_of_ascii c in
  if (48 <=? n)%N && (n <=? 57)%N then Some (n - 48)%N
  else if (97 <=? n)%N && (n <=? 102)%N then Some (n - 87)%N
  else None.

(** The character that the front of an escaped text stands for, and the
    text after it; [None] at an unescaped double quote, at the end of the
    text and at an escape [escape_char] does not produce. *)
Definition unescape_first (t : string) : option (ascii * string) :=
  match t with
  | EmptyString => None
  | String c rest =>
      if Ascii.eqb c dquote then None
      else if Ascii.eqb c "\" then
        match rest with
        | EmptyString => None
        | String e rest' =>
            if Ascii.eqb e dquote then Some (dquote, rest')
            else if Ascii.eqb e "\" then Some ("\"%char, rest')
            else if Ascii.eqb e "b" then Some ("008"%char, rest')
            else if Ascii.eqb e "f" then Some ("012"%char, rest')
            else if Ascii.eqb e "n" then Some ("010"%char, rest')
            else if Ascii.eqb e "r" then Some ("013"%char, rest')
            else if Ascii.eqb e "t" then Some ("009"%char, rest')
            else if Ascii.eqb e "u" then
              match rest' with
              | String z1 (String z2 (String h (String l rest''))) =>
                  if Ascii.eqb z1 "0" && Ascii.eqb z2 "0" then
                    match hex_value h, hex_value l with
                    | Some a, Some b => Some (ascii_of_N (16 * a + b), rest'')
                    | _, _ => None
                    end
                  else None
              | _ => None
              end
            else None
        end
      else Some (c, rest)
  end.

(* ================================================================== *)
(** ** identity.py: the methods of an anchor *)

(** A byte of the UTF-8 form that continues a character. *)
Definition is_continuation (c : ascii) : bool :=
  let n := N_of_ascii c in (128 <=? n)%N && (n <? 192)%N.

(** [len(s)]: the number of characters of a [str]. *)
Fixpoint py_len (s : string) : nat :=
  match s with
  | EmptyString => 0
  | String c s' => if is_continuation c then py_len s' else S (py_len s')
  end.

(** [s[:k]] for [k ≥ 0]: the first [k] characters. *)
Fixpoint py_take (k : nat) (s : string) : string :=
  match s with
  | EmptyString => EmptyString
  | String c s' =>
      if is_continuation c then String c (py_take k s')
      else match k with
           | O => EmptyString
           | S k' => String c (py_take k' s')
           end
  end.

(** [IdentityAnchor.short] *)
Definition short (a : IdentityAnchor) (n : Z) : string :=
  py_take (Z.to_nat (Z.max 4 n)) (id a).

(** [IdentityAnchor.validate]; the fields of the record are [str] already. *)
Definition validate (a : IdentityAnchor) : result unit :=
  if py_len (id a) <? 32 then Raise IdentityError
  else if negb (truthy (kind a)) || negb (truthy (namespace a))
  then Raise IdentityError
  else if negb (String.eqb (version a) "v1") then Raise IdentityError
  else Ok ().

Definition maybe_anchor_equal (a b : option IdentityAnchor) : bool :=
  match a, b with
  | Some a, Some b =>
      String.eqb (id a) (id b) && String.eqb (kind a) (kind b)
      && String.eqb (namespace a) (namespace b) && String.eqb (scope a) (scope b)
  | _, _ => false
  end.

(* ================================================================== *)
(** ** merge_engine.py: collision detection *)

(** The text of the IdentityError that [canonical_fingerprint] raises. *)
Definition identity_error_text : string :=
  "kind and namespace must be non-empty strings".

Section collision.
Context `{Host}.

(** [detect_identity_collision]: only IdentityError is caught. *)
Definition detect_identity_collision (anchor : IdentityAnchor)
    (expected_payload observed_payload : pyobj) : result (option string) :=
  match create (kind anchor) (namespace anchor) expected_payload
          (scope anchor) (version anchor) with
  | Raise IdentityError =>
      Ok (Some ("cannot reconstruct expected anchor: " +:+ identity_error_text))
  | Raise e => Raise e
  | Diverge => Diverge
  | Ok expected =>
      let expected_id := id expected in
      if negb (String.eqb expected_id (id anchor)) then
        Ok (Some "anchor mismatch: expected payload does not reconstruct the given anchor id")
      else
        match create (kind anchor) (namespace anchor) observed_payload
                (scope anchor) (version anchor) with
        | Raise IdentityError =>
            Ok (Some ("cannot reconstruct observed anchor: " +:+ identity_error_text))
        | Raise e => Raise e
        | Diverge => Diverge
        | Ok observed =>
            let observed_id := id observed in
            if negb (String.eqb observed_id (id anchor)) then
              Ok (Some ("identity collision (or unauthorized mutation): " +:+
                        "same anchor id, but observed payload does not reconstruct it"))
            else Ok None
        end
  end.
End collision.

(* ================================================================== *)
(** ** Commits whose subject id is the fingerprint of their payload *)

#[global] Instance result_eq_dec {A} `{EqDecision A} : EqDecision (result A).
Proof. solve_decision. Defined.

Section addressing.
Context `{Host}.

(** The subject id of the commit is the fingerprint of its payload under
    the kind, namespace and scope the commit records: the way
    [commit_merge] and the demo scenarios name a subject. *)
Definition content_addressed (c : Commit) : Prop :=
  canonical_fingerprint (subject_kind c) (subject_namespace c)
    (PyDict (payload c)) (subject_scope c) "v1" = Ok (subject_id c).

#[global] Instance content_addressed_dec c : Decision (content_addressed c).
Proof. unfold content_addressed. apply _. Defined.
End addressing.

(** [append] of a commit named by the fingerprint of its payload, on the
    example host. *)
Definition addressed_append (s : LineageStore) (cid : string) (ts : Z)
    (ps : list string) (v : Z) : LineageStore :=
  let pl := [(PyStr "statement", PyInt v)] in
  (append s cid ts ps "add"
     (value_or "" (canonical_fingerprint (H := example_host) "motif" "A1.demo"
                     (PyDict pl) "global" "v1"))
     "motif" "A1.demo" "global" (Some pl) "").2.

(** A genesis and two branches that add the same payload. *)
Definition addressed_store : LineageStore :=
  let s0 := addressed_append empty_store "g" 1 [] 0 in
  let s1 := addressed_append s0 "l" 2 ["g"] 1 in
  addressed_append s1 "r" 3 ["g"] 1.

(* ================================================================== *)
(** * Proofs *)

(** ** Sorting *)

Section sorting_facts.
Context {A : Type} (ltb : A → A → bool).

Lemma insert_sorted_perm x l : insert_sorted ltb x l ≡ₚ x :: l.
Proof.
  induction l as [|y l IH]; simpl; [done|].
  destruct (ltb y x); [|done]. rewrite IH. apply Permutation_swap.
Qed.

Lemma py_sorted_perm l : py_sorted ltb l ≡ₚ l.
Proof.
  induction l as [|x l IH]; simpl; [done|].
  by rewrite insert_sorted_perm, IH.
Qed.

Hypothesis ltb_total : ∀ x y, ltb x y = true → ltb y x = false.
Hypothesis le_trans : ∀ x y z, le_of ltb x y → le_of ltb y z → le_of ltb x z.

Lemma insert_sorted_sorted x l :
  StronglySorted (le_of ltb) l → StronglySorted (le_of ltb) (insert_sorted ltb x l).
Proof.
  induction 1 as [|y l Hl IH Hy]; simpl.
  - repeat constructor.
  - destruct (ltb y x) eqn:Hyx.
    + constructor; [done|]. rewrite insert_sorted_perm.
      constructor; [|done]. by apply ltb_total.
    + constructor; [by constructor|]. constructor; [done|].
      eapply Forall_impl; [done|]. intros z Hz. by eapply le_trans.
Qed.

Lemma py_sorted_sorted l : StronglySorted (le_of ltb) (py_sorted ltb l).
Proof.
  induction l as [|x l IH]; simpl; [constructor|].
  by apply insert_sorted_sorted.
Qed.
End sorting_facts.

(* ================================================================== *)
(** * The canonical encoder *)

(** ** Lists of results *)

Section result_lists.
Context {A B : Type}.

Lemma map_result_Ok (f : A → result B) (g : A → B) (xs : list A) :
  (∀ x, x ∈ xs → f x = Ok (g x)) → map_result f xs = Ok (map g xs).
Proof.
  induction xs as [|x xs IH]; intros Hf; simpl; [done|].
  rewrite Hf by left. simpl. rewrite IH; [done|].
  intros y Hy. apply Hf. by right.
Qed.

Lemma map_result_cons (f : A → result B) x xs :
  map_result f (x :: xs) = y ← f x; ys ← map_result f xs; Ok (y :: ys).
Proof. done. Qed.

Lemma map_result_ext_in (f g : A → result B) xs :
  (∀ x, x ∈ xs → f x = g x) → map_result f xs = map_result g xs.
Proof.
  induction xs as [|x xs IH]; intros Hfg; simpl; [done|].
  rewrite Hfg by left. rewrite IH; [done|]. intros y Hy. apply Hfg. by right.
Qed.

Lemma fold_result_ext_in (f g : B → A → result B) acc xs :
  (∀ a x, x ∈ xs → f a x = g a x) →
  fold_result f acc xs = fold_result g acc xs.
Proof.
  revert acc. induction xs as [|x xs IH]; intros acc Hfg; simpl; [done|].
  rewrite Hfg by left. destruct (g acc x); simpl; [|done..].
  apply IH. intros a' y Hy. apply Hfg. by right.
Qed.

Lemma map_result_Ok_inv (f : A → result B) xs ys :
  map_result f xs = Ok ys → Forall2 (λ x y, f x = Ok y) xs ys.
Proof.
  revert ys. induction xs as [|x xs IH]; intros ys; simpl.
  - intros [= <-]. constructor.
  - destruct (f x) as [y| |] eqn:Hx; simpl; [|done..].
    destruct (map_result f xs) as [ys'| |]; simpl; [|done..].
    intros [= <-]. constructor; [done|]. by apply IH.
Qed.

Lemma Forall2_impl_in (P Q : A → B → Prop) xs ys :
  Forall2 P xs ys → (∀ x y, x ∈ xs → P x y → Q x y) → Forall2 Q xs ys.
Proof.
  induction 1 as [|x y xs ys Hxy _ IH]; intros HPQ; constructor.
  - apply HPQ; [by left|done].
  - apply IH. intros x' y' Hx'. apply HPQ. by right.
Qed.

Lemma map_result_Ok_intro (f : A → result B) xs ys :
  Forall2 (λ x y, f x = Ok y) xs ys → map_result f xs = Ok ys.
Proof.
  induction 1 as [|x y xs ys Hxy _ IH]; simpl; [done|]. by rewrite Hxy, IH.
Qed.

Lemma map_result_Ok_iff (f : A → result B) xs ys :
  map_result f xs = Ok ys ↔ Forall2 (λ x y, f x = Ok y) xs ys.
Proof. split; [apply map_result_Ok_inv|apply map_result_Ok_intro]. Qed.

Lemma returns_or_raises_bind es (m : result A) (k : A → result B) :
  returns_or_raises es m →
  (∀ a, m = Ok a → returns_or_raises es (k a)) →
  returns_or_raises es (m ≫= k).
Proof. destruct m as [a| |]; simpl; [|done..]. intros _ Hk. by apply Hk. Qed.

Lemma map_result_outcome es (f : A → result B) xs :
  (∀ x, x ∈ xs → returns_or_raises es (f x)) →
  returns_or_raises es (map_result f xs).
Proof.
  induction xs as [|x xs IH]; intros Hf; simpl; [done|].
  pose proof (Hf x (list_elem_of_here _ _)) as Hx.
  destruct (f x) as [y| |]; simpl; [|done..].
  assert (Hrest : returns_or_raises es (map_result f xs)).
  { apply IH. intros z Hz. apply Hf. by right. }
  by destruct (map_result f xs).
Qed.

Lemma map_result_kinds e (f : A → result B) xs :
  (∀ x, x ∈ xs → ok_or_raises e (f x)) → ok_or_raises e (map_result f xs).
Proof.
  induction xs as [|x xs IH]; intros Hf; simpl; [left; eauto|].
  destruct (Hf x) as [[y ->]| ->]; [by left| |by right]. simpl.
  destruct IH as [[ys ->]| ->]; [|left; eauto|by right].
  intros z Hz. apply Hf. by right.
Qed.

Lemma map_result_Raise e (f : A → result B) xs :
  (∀ x, x ∈ xs → ok_or_raises e (f x)) →
  map_result f xs = Raise e ↔ ∃ x, x ∈ xs ∧ f x = Raise e.
Proof.
  induction xs as [|x xs IH]; intros Hf; simpl.
  - split; [done|]. intros (x & Hx & _). inversion Hx.
  - destruct (Hf x) as [[y Hy]|Hy]; [by left| |]; rewrite Hy; simpl.
    + assert (Hf' : ∀ z, z ∈ xs → ok_or_raises e (f z))
        by (intros z Hz; apply Hf; by right).
      destruct (map_result_kinds e f xs Hf') as [[ys Hys]|Hys].
      * rewrite Hys. simpl. split; [done|].
        intros (z & [->|Hz]%elem_of_cons & Hzr); [congruence|].
        assert (map_result f xs = Raise e) by (apply IH; eauto). congruence.
      * rewrite Hys. simpl. split; [|done]. intros _.
        apply IH in Hys as (z & Hz & Hzr); [|done]. exists z. split; [by right|done].
    + split; [|done]. intros _. exists x. split; [by left|done].
Qed.
End result_lists.

(** ** [json.dumps] raises nothing but TypeError and ValueError *)

Lemma returns_or_raises_mono {A} es es' (r : result A) :
  es ⊆ es' → returns_or_raises es r → returns_or_raises es' r.
Proof. intros Hsub. destruct r; simpl; [done| |done]. apply Hsub. Qed.

Section json_facts.
Context `{Host}.

Lemma int_text_outcome z : returns_or_raises [ValueError] (int_text z).
Proof. unfold int_text. destruct (int_text_allowed z); simpl; [done|by left]. Qed.

Lemma json_dumps_outcome y :
  returns_or_raises [TypeError; ValueError] (json_dumps y).
Proof.
  induction y as [ | | z | | |items IH|xs IH|xs IH|xs IH| | ]
    using pyobj_elements_ind; simpl; try done; try (by left).
  - eapply returns_or_raises_mono; [|apply int_text_outcome]. set_solver.
  - apply returns_or_raises_bind; [|done].
    apply map_result_outcome. intros [k v] Hkv.
    rewrite Forall_forall in IH. specialize (IH _ Hkv). simpl in IH.
    destruct k; try (by left).
    by destruct (json_dumps v).
  - apply returns_or_raises_bind; [|done].
    apply map_result_outcome. intros x Hx. rewrite Forall_forall in IH. auto.
  - apply returns_or_raises_bind; [|done].
    apply map_result_outcome. intros x Hx. rewrite Forall_forall in IH. auto.
Qed.

Lemma canonicalize_with_outcome normalize obj :
  returns_or_raises [CanonicalizationError; ValueError] (normalize obj) →
  returns_or_raises [CanonicalizationError; ValueError]
    (canonicalize_with normalize obj).
Proof.
  unfold canonicalize_with. destruct (normalize obj) as [y| |]; simpl; [|done..].
  intros _. pose proof (json_dumps_outcome y) as Hy.
  destruct (json_dumps y) as [s|e|]; simpl in *; [done| |done].
  destruct e; set_solver.
Qed.
End json_facts.

(** ** The recursion budget of [_normalize] suffices *)

Lemma depth_elem xs x : x ∈ xs → depth x ≤ list_max (map depth xs).
Proof.
  intros Hx. assert (Forall (λ k, k ≤ list_max (map depth xs)) (map depth xs)) as Hall
    by (by apply list_max_le).
  rewrite List.Forall_forall in Hall. apply Hall, in_map. by apply list_elem_of_In.
Qed.

Lemma depth_value (items : list (pyobj * pyobj)) kv :
  kv ∈ items → depth kv.2 ≤ list_max (map (λ kv, depth kv.2) items).
Proof.
  intros Hx.
  assert (Forall (λ k, k ≤ list_max (map (λ kv, depth kv.2) items))
                 (map (λ kv, depth kv.2) items)) as Hall
    by (by apply list_max_le).
  rewrite List.Forall_forall in Hall.
  apply Hall, (in_map (λ kv, depth kv.2)). by apply list_elem_of_In.
Qed.

Lemma dict_set_values (Q : pyobj → Prop) out k nv :
  Forall (λ kv, Q kv.2) out → Q nv → Forall (λ kv, Q kv.2) (dict_set out k nv).
Proof.
  intros Hout Hnv. induction Hout as [|[k' v'] out Hkv Hout IH]; simpl.
  - by constructor.
  - destruct k'; try (constructor; done).
    destruct (String.eqb _ _); constructor; done.
Qed.

Section normalize_facts.
Context `{Host}.

Lemma dict_fold_props (f : pyobj → result pyobj) m items acc :
  (∀ kv, kv ∈ items →
     returns_or_raises [CanonicalizationError; ValueError] (f kv.2) ∧
     ∀ y, f kv.2 = Ok y → depth y ≤ m) →
  Forall (λ kv, depth kv.2 ≤ m) acc →
  returns_or_raises [CanonicalizationError; ValueError]
    (fold_result (dict_step f) acc items) ∧
  ∀ out, fold_result (dict_step f) acc items = Ok out →
         Forall (λ kv, depth kv.2 ≤ m) out.
Proof.
  revert acc. induction items as [|[k v] items IH]; intros acc Hf Hacc; simpl.
  { split; [done|]. by intros out [= <-]. }
  destruct (Hf (k, v)) as [Hkind Hdepth]; [by left|]. simpl in *.
  assert (Hf' : ∀ kv, kv ∈ items →
     returns_or_raises [CanonicalizationError; ValueError] (f kv.2) ∧
     ∀ y, f kv.2 = Ok y → depth y ≤ m)
    by (intros kv Hkv; apply Hf; by right).
  destruct k; simpl; try (split; [by left|done]).
  destruct (f v) as [nv| |]; simpl in *; [|by split..].
  apply IH; [done|]. apply (dict_set_values (λ y, depth y ≤ m)); [done|]. by apply Hdepth.
Qed.

(** With fuel above the depth of the value, [_normalize_rec] returns a
    value no deeper than its argument, or raises CanonicalizationError, or
    the ValueError of an integer in a set that is too long to write. *)
Lemma normalize_rec_adequate n x :
  depth x < n →
  returns_or_raises [CanonicalizationError; ValueError] (_normalize_rec n x) ∧
  ∀ y, _normalize_rec n x = Ok y → depth y ≤ depth x.
Proof.
  revert x. induction n as [|n IH]; intros x Hn; [lia|].
  assert (Hlist : ∀ xs, list_max (map depth xs) < n →
    returns_or_raises [CanonicalizationError; ValueError]
      (map_result (_normalize_rec n) xs) ∧
    ∀ ys, map_result (_normalize_rec n) xs = Ok ys →
          Forall2 (λ x y, _normalize_rec n x = Ok y ∧ depth y ≤ depth x) xs ys).
  { intros xs Hxs. split.
    - apply map_result_outcome. intros z Hz. apply IH.
      pose proof (depth_elem xs z Hz). lia.
    - intros ys Hys%map_result_Ok_inv.
      eapply Forall2_impl_in; [done|].
      intros z y Hz Hzy. split; [done|]. apply IH; [|done].
      pose proof (depth_elem xs z Hz). lia. }
  assert (Hdeep : ∀ xs ys,
    Forall2 (λ x y, _normalize_rec n x = Ok y ∧ depth y ≤ depth x) xs ys →
    list_max (map depth ys) ≤ list_max (map depth xs)).
  { intros xs ys Hxy. apply list_max_le, List.Forall_forall.
    intros d (y & <- & Hy)%in_map_iff. apply list_elem_of_In in Hy.
    apply list_elem_of_lookup in Hy as [i Hi].
    destruct (Forall2_lookup_r _ _ _ _ _ Hxy Hi) as (z & Hz & _ & Hle).
    pose proof (depth_elem xs z (list_elem_of_lookup_2 _ _ _ Hz)). lia. }
  destruct x as [ | | | | |items|xs|xs|xs| | ]; simpl in *;
    try (split; [by left|done]);
    try (split; [done|intros ? [= <-]; simpl; lia]).
  - destruct (dict_fold_props (_normalize_rec n)
                (list_max (map (λ kv, depth kv.2) items)) items [])
      as [Hkind Hout]; [|constructor|].
    { intros kv Hkv. pose proof (depth_value items kv Hkv) as Hle. split.
      - apply IH. lia.
      - intros y Hy. etransitivity; [|exact Hle]. apply IH; [lia|done]. }
    destruct (fold_result _ [] items) as [out| |] eqn:Hfold; simpl in *;
      [|by split..].
    split; [done|]. intros y [= <-]. simpl. apply le_n_S.
    apply list_max_le. apply List.Forall_forall.
    intros d (kv & <- & Hkv)%in_map_iff.
    specialize (Hout out eq_refl). rewrite Forall_forall in Hout.
    apply Hout. by apply list_elem_of_In.
  - destruct (Hlist xs) as [Hkind Hspec]; [lia|].
    destruct (map_result _ xs) as [ys| |] eqn:Hys; simpl in *; [|by split..].
    split; [done|]. intros y [= <-]. simpl. apply le_n_S.
    by apply Hdeep, Hspec.
  - destruct (Hlist xs) as [Hkind Hspec]; [lia|].
    destruct (map_result _ xs) as [ys| |] eqn:Hys; simpl in *; [|by split..].
    split; [done|]. intros y [= <-]. simpl. apply le_n_S.
    by apply Hdeep, Hspec.
  - destruct (Hlist xs) as [Hkind Hspec]; [lia|].
    destruct (map_result _ xs) as [ys| |] eqn:Hys; simpl in *; [|by split..].
    pose proof (Hdeep xs ys (Hspec ys eq_refl)) as Hle.
    assert (Hsort : returns_or_raises [CanonicalizationError; ValueError]
              (map_result (canonicalize_with (_normalize_rec n)) ys)).
    { apply map_result_outcome. intros y Hy. apply canonicalize_with_outcome.
      apply IH. pose proof (depth_elem ys y Hy). lia. }
    destruct (map_result (canonicalize_with _) ys) as [strs| |]; simpl in *;
      [|by split..].
    split; [done|]. intros y [= <-]. simpl. apply le_n_S.
    etransitivity; [|apply Nat.le_0_l].
    apply list_max_le, List.Forall_forall.
    intros d (y & <- & Hy)%in_map_iff.
    apply in_map_iff in Hy as (str & <- & _). done.
Qed.

Lemma normalize_rec_fuel n m x :
  depth x < n → n ≤ m → _normalize_rec m x = _normalize_rec n x.
Proof.
  revert m x. induction n as [|n IH]; intros m x Hn Hm; [lia|].
  destruct m as [|m]; [lia|].
  assert (Hsub : ∀ z, depth z < n → _normalize_rec m z = _normalize_rec n z)
    by (intros z Hz; apply IH; lia).
  assert (Hlist : ∀ xs, list_max (map depth xs) < n →
    map_result (_normalize_rec m) xs = map_result (_normalize_rec n) xs).
  { intros xs Hxs. apply map_result_ext_in. intros z Hz. apply Hsub.
    pose proof (depth_elem xs z Hz). lia. }
  destruct x as [ | | | | |items|xs|xs|xs| | ]; simpl in *; try done.
  - assert (fold_result (dict_step (_normalize_rec m)) [] items
            = fold_result (dict_step (_normalize_rec n)) [] items) as ->; [|done].
    apply fold_result_ext_in. intros a [k v] Hkv. destruct k; try done. simpl.
    rewrite Hsub; [done|]. pose proof (depth_value items _ Hkv). simpl in *. lia.
  - rewrite Hlist by lia. done.
  - rewrite Hlist by lia. done.
  - rewrite Hlist by lia.
    destruct (map_result (_normalize_rec n) xs) as [ys| |] eqn:Hys; simpl; [|done..].
    assert (map_result (canonicalize_with (_normalize_rec m)) ys
            = map_result (canonicalize_with (_normalize_rec n)) ys) as ->; [|done].
    apply map_result_ext_in. intros y Hy. unfold canonicalize_with.
    rewrite Hsub; [done|].
    apply map_result_Ok_inv in Hys.
    apply list_elem_of_lookup in Hy as [i Hi].
    destruct (Forall2_lookup_r _ _ _ _ _ Hys Hi) as (z & Hz & Hzy).
    pose proof (depth_elem xs z (list_elem_of_lookup_2 _ _ _ Hz)) as Hle.
    assert (depth z < n) as Hzn by lia.
    destruct (normalize_rec_adequate n z Hzn) as [_ Hdepth].
    specialize (Hdepth y Hzy). lia.
Qed.

Lemma normalize_rec_eq n x : depth x < n → _normalize_rec n x = _normalize x.
Proof. intros Hn. unfold _normalize. apply normalize_rec_fuel; lia. Qed.

(** The recursion equations of [_normalize], free of fuel. *)
Lemma normalize_primitive x :
  _is_primitive x = true → _normalize x = Ok (_normalize_number x).
Proof. intros Hx. unfold _normalize. simpl. by rewrite Hx. Qed.

Lemma normalize_dict items :
  _normalize (PyDict items) =
    out ← fold_result (dict_step _normalize) [] items; Ok (PyDict out).
Proof.
  unfold _normalize at 1.
  change (_normalize_rec (S (depth (PyDict items))) (PyDict items))
    with (out ← fold_result (dict_step (_normalize_rec (depth (PyDict items))))
                  [] items; Ok (PyDict out)).
  assert (fold_result (dict_step (_normalize_rec (depth (PyDict items)))) [] items
          = fold_result (dict_step _normalize) [] items) as ->; [|done].
  apply fold_result_ext_in. intros a [k v] Hkv. destruct k; try done.
  unfold dict_step. rewrite normalize_rec_eq; [done|].
  pose proof (depth_value items _ Hkv). simpl in *. lia.
Qed.

Lemma normalize_elements n xs :
  list_max (map depth xs) < n →
  map_result (_normalize_rec n) xs = map_result _normalize xs.
Proof.
  intros Hn. apply map_result_ext_in. intros z Hz. apply normalize_rec_eq.
  pose proof (depth_elem xs z Hz). lia.
Qed.

Lemma normalize_list xs :
  _normalize (PyList xs) = ys ← map_result _normalize xs; Ok (PyList ys).
Proof.
  unfold _normalize at 1.
  change (_normalize_rec (S (depth (PyList xs))) (PyList xs))
    with (ys ← map_result (_normalize_rec (depth (PyList xs))) xs; Ok (PyList ys)).
  rewrite normalize_elements; [done|]. simpl. lia.
Qed.

Lemma normalize_tuple xs :
  _normalize (PyTuple xs) = ys ← map_result _normalize xs; Ok (PyList ys).
Proof.
  unfold _normalize at 1.
  change (_normalize_rec (S (depth (PyTuple xs))) (PyTuple xs))
    with (ys ← map_result (_normalize_rec (depth (PyTuple xs))) xs; Ok (PyList ys)).
  rewrite normalize_elements; [done|]. simpl. lia.
Qed.

Lemma normalize_set xs :
  _normalize (PySet xs) =
    items ← map_result _normalize xs;
    sortable ← map_result canonicalize_payload items;
    Ok (PyList (map PyStr (sort_strings sortable))).
Proof.
  unfold _normalize at 1.
  change (_normalize_rec (S (depth (PySet xs))) (PySet xs))
    with (items ← map_result (_normalize_rec (depth (PySet xs))) xs;
          sortable ← map_result
            (canonicalize_with (_normalize_rec (depth (PySet xs)))) items;
          Ok (PyList (map PyStr (sort_strings sortable)))).
  rewrite normalize_elements by (simpl; lia).
  destruct (map_result _normalize xs) as [ys| |] eqn:Hys; [|done..].
  cbn [mbind result_bind].
  assert (map_result (canonicalize_with (_normalize_rec (depth (PySet xs)))) ys
          = map_result canonicalize_payload ys) as ->; [|done].
  apply map_result_ext_in. intros y Hy. unfold canonicalize_payload, canonicalize_with.
  rewrite normalize_rec_eq; [done|].
  apply map_result_Ok_inv in Hys.
  apply list_elem_of_lookup in Hy as [i Hi].
  destruct (Forall2_lookup_r _ _ _ _ _ Hys Hi) as (z & Hz & Hzy).
  pose proof (depth_elem xs z (list_elem_of_lookup_2 _ _ _ Hz)) as Hle.
  destruct (normalize_rec_adequate (S (depth z)) z) as [_ Hdepth]; [lia|].
  specialize (Hdepth y Hzy). simpl. lia.
Qed.

Lemma normalize_outcome x :
  returns_or_raises [CanonicalizationError; ValueError] (_normalize x).
Proof. apply normalize_rec_adequate. lia. Qed.

(** [canonicalize_payload] returns a string or raises
    CanonicalizationError or ValueError; the recursion budget of
    [_normalize_rec] is never used up. *)
Lemma canonicalize_payload_outcome x :
  returns_or_raises [CanonicalizationError; ValueError] (canonicalize_payload x).
Proof. apply canonicalize_with_outcome, normalize_outcome. Qed.

Lemma normalize_depth x y : _normalize x = Ok y → depth y ≤ depth x.
Proof. apply normalize_rec_adequate. lia. Qed.
End normalize_facts.

(** ** The byte-wise order on strings *)

Lemma ascii_compare_refl a : Ascii.compare a a = Eq.
Proof. unfold Ascii.compare. apply N.compare_refl. Qed.

Lemma string_compare_refl x : String.compare x x = Eq.
Proof. induction x as [|a x IH]; simpl; [done|]. by rewrite ascii_compare_refl. Qed.

Lemma string_compare_lt_trans x y z :
  String.compare x y = Lt → String.compare y z = Lt → String.compare x z = Lt.
Proof.
  revert y z. induction x as [|a x IH]; intros [|b y] [|c z]; simpl; try done.
  destruct (Ascii.compare a b) eqn:Hab; try done;
    destruct (Ascii.compare b c) eqn:Hbc; try done; intros Hxy Hyz.
  - apply Ascii.compare_eq_iff in Hab as ->. rewrite Hbc. by eapply IH.
  - apply Ascii.compare_eq_iff in Hab as ->. by rewrite Hbc.
  - apply Ascii.compare_eq_iff in Hbc as <-. by rewrite Hab.
  - unfold Ascii.compare in *. rewrite N.compare_lt_iff in Hab, Hbc.
    assert (N_of_ascii a < N_of_ascii c)%N as Hac by lia.
    apply N.compare_lt_iff in Hac. by rewrite Hac.
Qed.

Lemma string_ltb_asym x y : String.ltb x y = true → String.ltb y x = false.
Proof.
  unfold String.ltb. rewrite (String.compare_antisym y x).
  by destruct (String.compare x y).
Qed.

Lemma string_le_cases x y :
  le_of String.ltb x y ↔ String.compare x y = Lt ∨ x = y.
Proof.
  unfold le_of, String.ltb. rewrite (String.compare_antisym y x). split.
  - destruct (String.compare x y) eqn:Hxy; simpl; try done; [|by left].
    intros _. right. by apply String.compare_eq_iff.
  - intros [->| ->]; [done|]. by rewrite string_compare_refl.
Qed.

Lemma string_le_trans x y z :
  le_of String.ltb x y → le_of String.ltb y z → le_of String.ltb x z.
Proof.
  rewrite !string_le_cases. intros [Hxy| ->] [Hyz| ->]; auto.
  left. by eapply string_compare_lt_trans.
Qed.

Lemma string_le_antisym x y :
  le_of String.ltb x y → le_of String.ltb y x → x = y.
Proof.
  rewrite !string_le_cases. intros [Hxy| ->] [Hyx|Heq]; auto.
  rewrite (String.compare_antisym x y), Hyx in Hxy. done.
Qed.

Lemma string_le_ne_lt x y : le_of String.ltb x y → x ≠ y → key_lt x y.
Proof.
  rewrite string_le_cases. intros [Hxy| ->] Hne; [|done].
  unfold key_lt, String.ltb. by rewrite Hxy.
Qed.

(** ** Sorting does not depend on the order of its input *)

Lemma sort_strings_sorted l : StronglySorted (le_of String.ltb) (sort_strings l).
Proof. apply py_sorted_sorted; [apply string_ltb_asym|apply string_le_trans]. Qed.

Lemma sort_strings_perm l1 l2 : l1 ≡ₚ l2 → sort_strings l1 = sort_strings l2.
Proof.
  intros Hperm.
  apply (StronglySorted_unique_strong (le_of String.ltb)).
  - intros x y _ _. apply string_le_antisym.
  - apply sort_strings_sorted.
  - apply sort_strings_sorted.
  - unfold sort_strings. by rewrite !py_sorted_perm.
Qed.

Section sort_by_key_facts.
Context {V : Type}.
Implicit Types l : list (string * V).

Lemma sort_by_key_perm_self l : sort_by_key l ≡ₚ l.
Proof. apply py_sorted_perm. Qed.

Lemma sort_by_key_sorted l :
  StronglySorted (λ a b, le_of String.ltb a.1 b.1) (sort_by_key l).
Proof.
  apply (py_sorted_sorted (λ a b : string * V, String.ltb a.1 b.1)).
  - intros x y. apply string_ltb_asym.
  - intros x y z. apply string_le_trans.
Qed.

Lemma NoDup_fst_inj l x y :
  NoDup l.*1 → x ∈ l → y ∈ l → x.1 = y.1 → x = y.
Proof.
  induction l as [|z l IH]; intros Hnd Hx Hy Hxy; [inversion Hx|].
  rewrite fmap_cons in Hnd. apply NoDup_cons in Hnd as [Hz Hnd].
  apply elem_of_cons in Hx as [->|Hx]; apply elem_of_cons in Hy as [->|Hy].
  - done.
  - exfalso. apply Hz. rewrite Hxy. by apply list_elem_of_fmap_2.
  - exfalso. apply Hz. rewrite <- Hxy. by apply list_elem_of_fmap_2.
  - by apply IH.
Qed.

Lemma sort_by_key_perm l1 l2 :
  NoDup l1.*1 → l1 ≡ₚ l2 → sort_by_key l1 = sort_by_key l2.
Proof.
  intros Hnd Hperm.
  apply (StronglySorted_unique_strong (λ a b, le_of String.ltb a.1 b.1)).
  - intros x y Hx Hy Hxy Hyx.
    rewrite sort_by_key_perm_self in Hx. rewrite sort_by_key_perm_self, <- Hperm in Hy.
    apply (NoDup_fst_inj l1); [done..|]. by apply string_le_antisym.
  - apply sort_by_key_sorted.
  - apply sort_by_key_sorted.
  - by rewrite !sort_by_key_perm_self.
Qed.

(** With distinct keys, the sorted entries are in strictly ascending key
    order. *)
Lemma sort_by_key_strict l :
  NoDup l.*1 → StronglySorted (λ a b, key_lt a.1 b.1) (sort_by_key l).
Proof.
  intros Hnd.
  assert (Hnd' : NoDup (sort_by_key l).*1) by (by rewrite sort_by_key_perm_self).
  pose proof (sort_by_key_sorted l) as Hsorted.
  induction Hsorted as [|a l' Hl' IH Ha]; [constructor|].
  rewrite fmap_cons in Hnd'. apply NoDup_cons in Hnd' as [Hal Hnd'].
  constructor; [by apply IH|].
  rewrite Forall_forall in Ha |- *. intros b Hb.
  apply string_le_ne_lt; [by apply Ha|].
  intros Heq. apply Hal. rewrite Heq. by apply list_elem_of_fmap_2.
Qed.
End sort_by_key_facts.
(** ** The texts the encoder returns *)

Lemma map_result_map {A B C} (f : B → result C) (g : A → B) xs :
  map_result f (map g xs) = map_result (λ x, f (g x)) xs.
Proof. induction xs as [|x xs IH]; simpl; [done|]. by rewrite IH. Qed.

Lemma dict_set_fresh (accl : list (string * pyobj)) k nv :
  k ∉ accl.*1 →
  dict_set (map (λ kv, (PyStr kv.1, kv.2)) accl) k nv
    = map (λ kv, (PyStr kv.1, kv.2)) (accl ++ [(k, nv)]).
Proof.
  induction accl as [|[k' v'] accl IH]; intros Hk; simpl; [done|].
  rewrite fmap_cons in Hk. apply not_elem_of_cons in Hk as [Hne Hk].
  simpl in Hne. assert (String.eqb k' k = false) as -> by (by apply String.eqb_neq).
  by rewrite IH.
Qed.

Lemma keyed_results_keys {V W} (f : V → result W) (kvs : list (string * V)) enc :
  map_result (λ kv, s ← f kv.2; Ok (kv.1, s)) kvs = Ok enc → enc.*1 = kvs.*1.
Proof.
  intros Henc%map_result_Ok_inv.
  induction Henc as [|[k v] [k' t] kvs enc Hkv _ IH]; [done|].
  simpl in Hkv. destruct (f v); [|done..]. simpl in Hkv. injection Hkv as <- <-.
  by rewrite !fmap_cons, IH.
Qed.

Lemma json_dumps_strings `{Host} (l : list string) :
  json_dumps (PyList (map PyStr l)) = Ok (list_text (map json_string l)).
Proof.
  cbn [json_dumps]. rewrite map_result_map.
  rewrite (map_result_Ok _ json_string); [done|]. done.
Qed.

Section returned_texts.
Context `{Host}.

(** [canonicalize_payload] returns a text exactly when [_normalize]
    returns a value and [json.dumps] returns the text for it. *)
Lemma canonicalize_Ok x s :
  canonicalize_payload x = Ok s ↔
  ∃ y, _normalize x = Ok y ∧ json_dumps y = Ok s.
Proof.
  unfold canonicalize_payload, canonicalize_with.
  destruct (_normalize x) as [y| |]; simpl.
  - split.
    + intros Hs. exists y. split; [done|].
      destruct (json_dumps y) as [t|e|]; [done| |done]. by destruct e.
    + intros (y' & [= <-] & ->). done.
  - split; [done|]. by intros (? & ? & _).
  - split; [done|]. by intros (? & ? & _).
Qed.

Lemma canonicalize_Raise_normalize x e :
  _normalize x = Raise e → canonicalize_payload x = Raise e.
Proof.
  intros Hx. unfold canonicalize_payload, canonicalize_with. by rewrite Hx.
Qed.

Lemma canonicalize_payload_not_Diverge x : canonicalize_payload x ≠ Diverge.
Proof.
  pose proof (canonicalize_payload_outcome x) as Hx. intros Hd.
  by rewrite Hd in Hx.
Qed.

Lemma normalize_fold_str_dict (kvs accl : list (string * pyobj)) :
  NoDup (accl.*1 ++ kvs.*1) →
  fold_result (dict_step _normalize)
      (map (λ kv, (PyStr kv.1, kv.2)) accl)
      (map (λ kv, (PyStr kv.1, kv.2)) kvs)
    = nvs ← map_result (λ kv, nv ← _normalize kv.2; Ok (kv.1, nv)) kvs;
      Ok (map (λ kv, (PyStr kv.1, kv.2)) (accl ++ nvs)).
Proof.
  revert accl. induction kvs as [|[k v] kvs IH]; intros accl Hnd; simpl.
  { by rewrite app_nil_r. }
  destruct (_normalize v) as [nv| |]; simpl; [|done..].
  rewrite dict_set_fresh.
  - rewrite IH.
    + destruct (map_result _ kvs); simpl; [|done..]. by rewrite <- app_assoc.
    + rewrite fmap_app, <- app_assoc. done.
  - apply NoDup_app in Hnd as (_ & Hdisj & _). intros Hk.
    apply (Hdisj k Hk). rewrite fmap_cons. by left.
Qed.

Lemma normalize_str_dict (kvs : list (string * pyobj)) :
  NoDup kvs.*1 →
  _normalize (str_dict kvs)
    = nvs ← map_result (λ kv, nv ← _normalize kv.2; Ok (kv.1, nv)) kvs;
      Ok (str_dict nvs).
Proof.
  intros Hnd. unfold str_dict. rewrite normalize_dict.
  pose proof (normalize_fold_str_dict kvs []) as Hfold.
  change (map (λ kv : string * pyobj, (PyStr kv.1, kv.2)) [])
    with (@nil (pyobj * pyobj)) in Hfold.
  rewrite Hfold by done.
  by destruct (map_result _ kvs).
Qed.

Lemma json_dumps_str_dict (nvs : list (string * pyobj)) :
  json_dumps (str_dict nvs)
    = enc ← map_result (λ kv, s ← json_dumps kv.2; Ok (kv.1, s)) nvs;
      Ok (dict_text enc).
Proof.
  unfold str_dict. cbn [json_dumps]. rewrite map_result_map. done.
Qed.

(** Element by element: the canonical texts of a list of values are the
    texts [json.dumps] gives for their normal forms. *)
Lemma canonicalize_each_Ok xs parts :
  map_result canonicalize_payload xs = Ok parts ↔
  ∃ ys, map_result _normalize xs = Ok ys ∧ map_result json_dumps ys = Ok parts.
Proof.
  revert parts. induction xs as [|x xs IH]; intros parts; simpl.
  { split.
    - intros [= <-]. by exists [].
    - intros (ys & [= <-] & Hp). done. }
  split.
  - destruct (canonicalize_payload x) as [p| |] eqn:Hx; simpl; [|done..].
    destruct (map_result canonicalize_payload xs) as [ps| |] eqn:Hxs;
      simpl; [|done..].
    intros [= <-]. apply canonicalize_Ok in Hx as (y & Hy & Hp).
    destruct (proj1 (IH ps) eq_refl) as (ys & Hys & Hps).
    exists (y :: ys). rewrite Hy, Hys. simpl. by rewrite Hp, Hps.
  - intros (ys' & Hys' & Hparts).
    destruct (_normalize x) as [y| |] eqn:Hy; simpl in Hys'; [|done..].
    destruct (map_result _normalize xs) as [ys| |] eqn:Hys; simpl in Hys'; [|done..].
    injection Hys' as <-. simpl in Hparts.
    destruct (json_dumps y) as [p| |] eqn:Hp; simpl in Hparts; [|done..].
    destruct (map_result json_dumps ys) as [ps| |] eqn:Hps; simpl in Hparts; [|done..].
    injection Hparts as <-.
    assert (canonicalize_payload x = Ok p) as -> by (apply canonicalize_Ok; eauto).
    simpl. rewrite (proj2 (IH ps)); [done|]. eauto.
Qed.

Lemma canonicalize_entries_Ok (kvs : list (string * pyobj)) enc :
  map_result (λ kv, s ← canonicalize_payload kv.2; Ok (kv.1, s)) kvs = Ok enc ↔
  ∃ nvs, map_result (λ kv, nv ← _normalize kv.2; Ok (kv.1, nv)) kvs = Ok nvs ∧
         map_result (λ kv, s ← json_dumps kv.2; Ok (kv.1, s)) nvs = Ok enc.
Proof.
  revert enc. induction kvs as [|[k v] kvs IH]; intros enc; simpl.
  { split.
    - intros [= <-]. by exists [].
    - intros (ys & [= <-] & Hp). done. }
  split.
  - destruct (canonicalize_payload v) as [p| |] eqn:Hx; simpl; [|done..].
    destruct (map_result _ kvs) as [ps| |] eqn:Hxs; simpl; [|done..].
    intros [= <-]. apply canonicalize_Ok in Hx as (y & Hy & Hp).
    destruct (proj1 (IH ps) eq_refl) as (ys & Hys & Hps).
    exists ((k, y) :: ys). rewrite Hy. simpl. rewrite Hys. simpl.
    rewrite Hp. simpl. by rewrite Hps.
  - intros (ys' & Hys' & Hparts).
    destruct (_normalize v) as [y| |] eqn:Hy; simpl in Hys'; [|done..].
    destruct (map_result (λ kv : string * pyobj, nv ← _normalize kv.2; Ok (kv.1, nv))
                kvs) as [ys| |] eqn:Hys; simpl in Hys'; [|done..].
    injection Hys' as <-. simpl in Hparts.
    destruct (json_dumps y) as [p| |] eqn:Hp; simpl in Hparts; [|done..].
    destruct (map_result (λ kv : string * pyobj, s ← json_dumps kv.2; Ok (kv.1, s))
                ys) as [ps| |] eqn:Hps; simpl in Hparts; [|done..].
    injection Hparts as <-.
    assert (canonicalize_payload v = Ok p) as -> by (apply canonicalize_Ok; eauto).
    simpl. rewrite (proj2 (IH ps)); [done|]. eauto.
Qed.

(** The text of a list is the bracketed, comma-separated row of the texts
    of its elements. *)
Lemma canonicalize_list_Ok xs s :
  canonicalize_payload (PyList xs) = Ok s ↔
  ∃ parts, map_result canonicalize_payload xs = Ok parts ∧ s = list_text parts.
Proof.
  rewrite canonicalize_Ok, normalize_list. split.
  - intros (y & Hy & Hs).
    destruct (map_result _normalize xs) as [ys| |] eqn:Hys; simpl in Hy; [|done..].
    injection Hy as <-. cbn [json_dumps] in Hs.
    destruct (map_result json_dumps ys) as [parts| |] eqn:Hparts;
      simpl in Hs; [|done..].
    injection Hs as <-. exists parts. split; [|done].
    apply canonicalize_each_Ok. eauto.
  - intros (parts & (ys & Hys & Hparts)%canonicalize_each_Ok & ->).
    exists (PyList ys). rewrite Hys. split; [done|].
    cbn [json_dumps]. by rewrite Hparts.
Qed.

Lemma canonicalize_tuple xs :
  canonicalize_payload (PyTuple xs) = canonicalize_payload (PyList xs).
Proof.
  unfold canonicalize_payload, canonicalize_with.
  by rewrite normalize_tuple, normalize_list.
Qed.

(** The text of a mapping with distinct string keys is the text of its
    encoded entries. *)
Lemma canonicalize_str_dict_Ok (kvs : list (string * pyobj)) s :
  NoDup kvs.*1 →
  canonicalize_payload (str_dict kvs) = Ok s ↔
  ∃ enc, map_result (λ kv, s ← canonicalize_payload kv.2; Ok (kv.1, s)) kvs
           = Ok enc ∧ s = dict_text enc.
Proof.
  intros Hnd. rewrite canonicalize_Ok, normalize_str_dict by done. split.
  - intros (y & Hy & Hs).
    destruct (map_result _ kvs) as [nvs| |] eqn:Hnvs; simpl in Hy; [|done..].
    injection Hy as <-. rewrite json_dumps_str_dict in Hs.
    destruct (map_result _ nvs) as [enc| |] eqn:Henc; simpl in Hs; [|done..].
    injection Hs as <-. exists enc. split; [|done].
    apply canonicalize_entries_Ok. eauto.
  - intros (enc & (nvs & Hnvs & Henc)%canonicalize_entries_Ok & ->).
    exists (str_dict nvs). rewrite Hnvs. split; [done|].
    rewrite json_dumps_str_dict. by rewrite Henc.
Qed.

Lemma canonicalize_set xs :
  canonicalize_payload (PySet xs) =
    items ← map_result _normalize xs;
    sortable ← map_result canonicalize_payload items;
    Ok (list_text (map json_string (sort_strings sortable))).
Proof.
  unfold canonicalize_payload at 1, canonicalize_with. rewrite normalize_set.
  destruct (map_result _normalize xs) as [items| |]; [|done..].
  cbn [mbind result_bind].
  destruct (map_result canonicalize_payload items) as [strs| |]; [|done..].
  cbn [mbind result_bind]. by rewrite json_dumps_strings.
Qed.

Lemma canonicalize_set_Ok xs s :
  canonicalize_payload (PySet xs) = Ok s ↔
  ∃ items strs, map_result _normalize xs = Ok items ∧
                map_result canonicalize_payload items = Ok strs ∧
                s = list_text (map json_string (sort_strings strs)).
Proof.
  rewrite canonicalize_set. split.
  - destruct (map_result _normalize xs) as [items| |]; simpl; [|done..].
    destruct (map_result canonicalize_payload items) as [strs| |] eqn:Hstrs;
      simpl; [|done..].
    intros [= <-]. by exists items, strs.
  - intros (items & strs & -> & Hstrs & ->). simpl. by rewrite Hstrs.
Qed.

Lemma str_dict_entries (kvs : list (string * pyobj)) enc :
  map_result (λ kv, s ← canonicalize_payload kv.2; Ok (kv.1, s)) kvs = Ok enc →
  enc.*1 = kvs.*1 ∧
  ∀ k t, (k, t) ∈ enc ↔ ∃ v, (k, v) ∈ kvs ∧ canonicalize_payload v = Ok t.
Proof.
  intros Henc%map_result_Ok_inv.
  induction Henc as [|[k v] [k' t] kvs enc Hkv _ [IHk IH]].
  { split; [done|]. intros k t. split; [by intros ?%elem_of_nil|].
    by intros (v & ?%elem_of_nil & _). }
  simpl in Hkv. destruct (canonicalize_payload v) as [t'| |] eqn:Hv; [|done..].
  simpl in Hkv. injection Hkv as <- <-. split; [by rewrite !fmap_cons, IHk|].
  intros k0 t0. rewrite elem_of_cons, IH. split.
  - intros [[= -> ->]|(v0 & Hv0 & Ht0)].
    + exists v. split; [by left|done].
    + exists v0. split; [by right|done].
  - intros (v0 & [[= -> ->]|Hv0]%elem_of_cons & Ht0).
    + left. congruence.
    + right. eauto.
Qed.
End returned_texts.
(** ** Values of the allowed types *)

Lemma map_result_all_Ok {A B} (f : A → result B) xs :
  (∀ x, x ∈ xs → ∃ y, f x = Ok y) →
  ∃ ys, map_result f xs = Ok ys ∧ Forall2 (λ x y, f x = Ok y) xs ys.
Proof.
  induction xs as [|x xs IH]; intros Hf.
  { exists []. split; [done|constructor]. }
  destruct (Hf x) as [y Hy]; [by left|].
  destruct IH as (ys & Hys & Hall); [intros z Hz; apply Hf; by right|].
  exists (y :: ys). rewrite map_result_cons, Hy, Hys. split; [done|by constructor].
Qed.

Lemma dict_set_entries (Q : pyobj → Prop) out k nv :
  Forall (λ kv, ∃ k', kv.1 = PyStr k' ∧ Q kv.2) out → Q nv →
  Forall (λ kv, ∃ k', kv.1 = PyStr k' ∧ Q kv.2) (dict_set out k nv).
Proof.
  intros Hout Hnv. induction Hout as [|[k0 v0] out (k' & Hk' & Hv0) Hout IH]; simpl.
  - constructor; [|constructor]. eauto.
  - simpl in Hk'. subst k0. destruct (String.eqb k' k).
    + constructor; [|done]. eauto.
    + constructor; [|done]. eauto.
Qed.

Lemma encodable_dict items :
  encodable (PyDict items) = true ↔
  Forall (λ kv, ∃ k', kv.1 = PyStr k' ∧ encodable kv.2 = true) items.
Proof.
  cbn [encodable]. rewrite forallb_forall, List.Forall_forall. split.
  - intros Hall [k v] Hkv. specialize (Hall _ Hkv). simpl in *.
    destruct k; try done. eauto.
  - intros Hall [k v] Hkv. destruct (Hall _ Hkv) as (k' & Hk' & Hv).
    simpl in *. by subst k.
Qed.

Lemma supported_dict items :
  supported (PyDict items) = true ↔
  Forall (λ kv, ∃ k', kv.1 = PyStr k' ∧ supported kv.2 = true) items.
Proof.
  cbn [supported]. rewrite forallb_forall, List.Forall_forall. split.
  - intros Hall [k v] Hkv. specialize (Hall _ Hkv). simpl in *.
    destruct k; try done. eauto.
  - intros Hall [k v] Hkv. destruct (Hall _ Hkv) as (k' & Hk' & Hv).
    simpl in *. by subst k.
Qed.

Lemma forallb_Forall {A} (p : A → bool) xs :
  forallb p xs = true ↔ Forall (λ x, p x = true) xs.
Proof. by rewrite forallb_forall, List.Forall_forall. Qed.

Section supported_values.
Context `{Host}.

(** On a value made of primitives, lists and string-keyed mappings,
  [json.dumps] returns or meets an integer that is too long to write. *)
Lemma json_dumps_encodable y :
encodable y = true → returns_or_raises [ValueError] (json_dumps y).
Proof.
induction y as [ | | | | |items IH|xs IH|xs IH|xs IH| | ]
  using pyobj_elements_ind; intros Hy; try done.
- apply int_text_outcome.
- apply encodable_dict in Hy. cbn [json_dumps].
  apply returns_or_raises_bind; [|done].
  apply map_result_outcome. intros [k v] Hkv. rewrite Forall_forall in IH, Hy.
  destruct (Hy _ Hkv) as (k' & Hk' & Hv). simpl in Hk', Hv. subst k.
  specialize (IH _ Hkv Hv). simpl in IH. by destruct (json_dumps v).
- cbn [encodable] in Hy. apply forallb_Forall in Hy. cbn [json_dumps].
  apply returns_or_raises_bind; [|done].
  apply map_result_outcome. intros x Hx. rewrite Forall_forall in IH, Hy. auto.
- cbn [encodable] in Hy. apply forallb_Forall in Hy. cbn [json_dumps].
  apply returns_or_raises_bind; [|done].
  apply map_result_outcome. intros x Hx. rewrite Forall_forall in IH, Hy. auto.
Qed.

Lemma dict_fold_entries (Q : pyobj → Prop) items acc out :
fold_result (dict_step _normalize) acc items = Ok out →
Forall (λ kv, ∃ k', kv.1 = PyStr k' ∧ Q kv.2) acc →
(∀ kv, kv ∈ items → ∀ y, _normalize kv.2 = Ok y → Q y) →
Forall (λ kv, ∃ k', kv.1 = PyStr k' ∧ Q kv.2) out.
Proof.
revert acc. induction items as [|[k v] items IH]; intros acc Hfold Hacc Hitems.
{ simpl in Hfold. by injection Hfold as <-. }
simpl in Hfold. destruct k; try done. simpl in Hfold.
destruct (_normalize v) as [nv| |] eqn:Hv; [|done..]. simpl in Hfold.
apply (IH _ Hfold).
- apply dict_set_entries; [done|]. apply (Hitems (PyStr s, v)); [by left|done].
- intros kv Hkv. apply Hitems. by right.
Qed.

(** What [_normalize] returns is made of primitives, lists and string-keyed
  mappings. *)
Lemma normalize_Ok_encodable x y : _normalize x = Ok y → encodable y = true.
Proof.
revert y. induction x as [ | | | | |items IH|xs IH|xs IH|xs IH| | ]
  using pyobj_elements_ind; intros y; try done;
  try (rewrite normalize_primitive by done; by intros [= <-]).
- rewrite normalize_dict.
  destruct (fold_result _ [] items) as [out| |] eqn:Hfold; [|done..].
  intros [= <-]. apply encodable_dict.
  apply (dict_fold_entries (λ y, encodable y = true) items [] out Hfold);
    [constructor|].
  intros kv Hkv z Hz. rewrite Forall_forall in IH. by apply (IH kv Hkv).
- rewrite normalize_list.
  destruct (map_result _normalize xs) as [ys| |] eqn:Hys; [|done..].
  intros [= <-]. cbn [encodable]. apply forallb_Forall, Forall_forall.
  intros z Hz. apply map_result_Ok_inv in Hys.
  apply list_elem_of_lookup in Hz as [i Hi].
  destruct (Forall2_lookup_r _ _ _ _ _ Hys Hi) as (x & Hx & Hxz).
  rewrite Forall_forall in IH. apply (IH x); [|done].
  by eapply list_elem_of_lookup_2.
- rewrite normalize_tuple.
  destruct (map_result _normalize xs) as [ys| |] eqn:Hys; [|done..].
  intros [= <-]. cbn [encodable]. apply forallb_Forall, Forall_forall.
  intros z Hz. apply map_result_Ok_inv in Hys.
  apply list_elem_of_lookup in Hz as [i Hi].
  destruct (Forall2_lookup_r _ _ _ _ _ Hys Hi) as (x & Hx & Hxz).
  rewrite Forall_forall in IH. apply (IH x); [|done].
  by eapply list_elem_of_lookup_2.
- rewrite normalize_set.
  destruct (map_result _normalize xs) as [items| |]; [|done..].
  cbn [mbind result_bind].
  destruct (map_result canonicalize_payload items) as [strs| |]; [|done..].
  intros [= <-]. cbn [encodable]. apply forallb_Forall, Forall_forall.
  by intros z (str & -> & _)%list_elem_of_fmap.
Qed.

Lemma dict_fold_encodable (Q : pyobj → Prop) items acc :
Forall (λ kv, ∃ k', kv.1 = PyStr k' ∧ ∃ y, _normalize kv.2 = Ok y ∧ Q y) items →
Forall (λ kv, ∃ k', kv.1 = PyStr k' ∧ Q kv.2) acc →
∃ out, fold_result (dict_step _normalize) acc items = Ok out ∧
       Forall (λ kv, ∃ k', kv.1 = PyStr k' ∧ Q kv.2) out.
Proof.
intros Hitems. revert acc.
induction Hitems as [|[k v] items (k' & Hk' & y & Hy & HQ) _ IH]; intros acc Hacc.
{ exists acc. done. }
simpl in *. subst k. rewrite Hy. simpl. apply IH. by apply dict_set_entries.
Qed.

Lemma normalize_elements_Ok (P Q : pyobj → Prop) xs :
Forall P xs →
(∀ x, x ∈ xs → P x → ∃ y, _normalize x = Ok y ∧ Q y) →
∃ ys, map_result _normalize xs = Ok ys ∧ Forall Q ys.
Proof.
intros Hxs Hstep. rewrite Forall_forall in Hxs.
destruct (map_result_all_Ok _normalize xs) as (ys & Hys & Hall).
{ intros x Hx. destruct (Hstep x Hx (Hxs x Hx)) as (y & Hy & _). eauto. }
exists ys. split; [done|]. apply Forall_forall. intros y Hy.
apply list_elem_of_lookup in Hy as [i Hi].
destruct (Forall2_lookup_r _ _ _ _ _ Hall Hi) as (x & Hx & Hxy).
apply list_elem_of_lookup_2 in Hx.
destruct (Hstep x Hx (Hxs x Hx)) as (y' & Hy' & HQ). congruence.
Qed.

(** Normalizing a value [json.dumps] can write gives such a value again. *)
Lemma normalize_encodable x :
encodable x = true → ∃ y, _normalize x = Ok y ∧ encodable y = true.
Proof.
induction x as [ | | | | |items IH|xs IH|xs IH|xs IH| | ]
  using pyobj_elements_ind; intros Hx; try done;
  try (rewrite normalize_primitive by done; eauto; fail).
- apply encodable_dict in Hx. rewrite normalize_dict.
  destruct (dict_fold_encodable (λ y, encodable y = true) items []) as (out & -> & Hout);
    [|constructor|].
  + rewrite Forall_forall in IH, Hx |- *. intros kv Hkv.
    destruct (Hx _ Hkv) as (k' & Hk' & Hv). eauto.
  + simpl. eexists. split; [done|]. by apply encodable_dict.
- cbn [encodable] in Hx. apply forallb_Forall in Hx. rewrite normalize_list.
  destruct (normalize_elements_Ok (λ x, encodable x = true)
              (λ y, encodable y = true) xs Hx) as (ys & -> & Hys).
  { rewrite Forall_forall in IH. auto. }
  simpl. eexists. split; [done|]. cbn [encodable]. by apply forallb_Forall.
- cbn [encodable] in Hx. apply forallb_Forall in Hx. rewrite normalize_tuple.
  destruct (normalize_elements_Ok (λ x, encodable x = true)
              (λ y, encodable y = true) xs Hx) as (ys & -> & Hys).
  { rewrite Forall_forall in IH. auto. }
  simpl. eexists. split; [done|]. cbn [encodable]. by apply forallb_Forall.
Qed.

Lemma canonicalize_encodable x :
encodable x = true → returns_or_raises [ValueError] (canonicalize_payload x).
Proof.
intros Hx. destruct (normalize_encodable x Hx) as (y & Hy & Henc).
unfold canonicalize_payload, canonicalize_with. rewrite Hy. simpl.
pose proof (json_dumps_encodable y Henc) as Hout.
destruct (json_dumps y) as [s|e|]; [done| |done].
simpl in Hout. apply list_elem_of_singleton in Hout as ->. by left.
Qed.

Lemma dict_fold_supported items acc :
Forall (λ kv, ∃ k', kv.1 = PyStr k' ∧
                    returns_or_raises [ValueError] (_normalize kv.2)) items →
returns_or_raises [ValueError] (fold_result (dict_step _normalize) acc items).
Proof.
intros Hitems. revert acc.
induction Hitems as [|[k v] items (k' & Hk' & Hv) _ IH]; intros acc; [done|].
simpl in *. subst k. destruct (_normalize v) as [nv| |]; simpl; [|done..].
apply IH.
Qed.

(** A value of the allowed types is never refused by [_normalize]; a set
  that holds an integer too long to write makes it raise ValueError. *)
Lemma normalize_supported x :
supported x = true → returns_or_raises [ValueError] (_normalize x).
Proof.
induction x as [ | | | | |items IH|xs IH|xs IH|xs IH| | ]
  using pyobj_elements_ind; intros Hx; try done;
  try (rewrite normalize_primitive by done; done).
- apply supported_dict in Hx. rewrite normalize_dict.
  apply returns_or_raises_bind; [|done]. apply dict_fold_supported.
  rewrite Forall_forall in IH, Hx |- *. intros kv Hkv.
  destruct (Hx _ Hkv) as (k' & Hk' & Hv). eauto.
- cbn [supported] in Hx. apply forallb_Forall in Hx. rewrite normalize_list.
  apply returns_or_raises_bind; [|done]. apply map_result_outcome.
  rewrite Forall_forall in IH, Hx. auto.
- cbn [supported] in Hx. apply forallb_Forall in Hx. rewrite normalize_tuple.
  apply returns_or_raises_bind; [|done]. apply map_result_outcome.
  rewrite Forall_forall in IH, Hx. auto.
- cbn [supported] in Hx. apply forallb_Forall in Hx. rewrite normalize_set.
  apply returns_or_raises_bind.
  { apply map_result_outcome. rewrite Forall_forall in IH, Hx. auto. }
  intros items Hitems. apply returns_or_raises_bind; [|done].
  apply map_result_outcome. intros y Hy. apply canonicalize_encodable.
  apply map_result_Ok_inv in Hitems.
  apply list_elem_of_lookup in Hy as [i Hi].
  destruct (Forall2_lookup_r _ _ _ _ _ Hitems Hi) as (x & _ & Hxy).
  by eapply normalize_Ok_encodable.
Qed.

(** So the only exception of [canonicalize_payload] on a value of the
  allowed types is the ValueError of an integer too long to write. *)
Lemma canonicalize_supported x :
supported x = true → returns_or_raises [ValueError] (canonicalize_payload x).
Proof.
intros Hx. pose proof (normalize_supported x Hx) as Hn.
unfold canonicalize_payload, canonicalize_with.
destruct (_normalize x) as [y| |] eqn:Hy; simpl in *; [|done..].
pose proof (json_dumps_encodable y (normalize_Ok_encodable x y Hy)) as Hout.
destruct (json_dumps y) as [s|e|]; [done| |done].
simpl in Hout. apply list_elem_of_singleton in Hout as ->. by left.
Qed.

Lemma dict_fold_inv items acc out :
fold_result (dict_step _normalize) acc items = Ok out →
Forall (λ kv, ∃ k', kv.1 = PyStr k' ∧ ∃ y, _normalize kv.2 = Ok y) items.
Proof.
revert acc. induction items as [|[k v] items IH]; intros acc Hfold; [constructor|].
simpl in Hfold. destruct k; try done. simpl in Hfold.
destruct (_normalize v) as [nv| |] eqn:Hv; [|done..]. simpl in Hfold.
constructor; [simpl; eauto|]. by eapply IH.
Qed.

Lemma normalize_Ok_supported x y : _normalize x = Ok y → supported x = true.
Proof.
revert y. induction x as [ | | | | |items IH|xs IH|xs IH|xs IH| | ]
  using pyobj_elements_ind; intros y; try done.
- rewrite normalize_dict.
  destruct (fold_result _ [] items) as [out| |] eqn:Hfold; [|done..]. intros _.
  apply dict_fold_inv in Hfold. apply supported_dict.
  rewrite Forall_forall in IH, Hfold |- *. intros kv Hkv.
  destruct (Hfold _ Hkv) as (k' & Hk' & z & Hz). eauto.
- rewrite normalize_list.
  destruct (map_result _normalize xs) as [ys| |] eqn:Hys; [|done..]. intros _.
  apply map_result_Ok_inv in Hys. cbn [supported]. apply forallb_Forall.
  rewrite Forall_forall in IH |- *. intros x Hx.
  apply list_elem_of_lookup in Hx as [i Hi].
  destruct (Forall2_lookup_l _ _ _ _ _ Hys Hi) as (z & _ & Hz).
  eapply IH; [by eapply list_elem_of_lookup_2|done].
- rewrite normalize_tuple.
  destruct (map_result _normalize xs) as [ys| |] eqn:Hys; [|done..]. intros _.
  apply map_result_Ok_inv in Hys. cbn [supported]. apply forallb_Forall.
  rewrite Forall_forall in IH |- *. intros x Hx.
  apply list_elem_of_lookup in Hx as [i Hi].
  destruct (Forall2_lookup_l _ _ _ _ _ Hys Hi) as (z & _ & Hz).
  eapply IH; [by eapply list_elem_of_lookup_2|done].
- rewrite normalize_set.
  destruct (map_result _normalize xs) as [ys| |] eqn:Hys; [|done..]. intros _.
  apply map_result_Ok_inv in Hys. cbn [supported]. apply forallb_Forall.
  rewrite Forall_forall in IH |- *. intros x Hx.
  apply list_elem_of_lookup in Hx as [i Hi].
  destruct (Forall2_lookup_l _ _ _ _ _ Hys Hi) as (z & _ & Hz).
  eapply IH; [by eapply list_elem_of_lookup_2|done].
Qed.

(** Only a value of the allowed types has a canonical text. *)
Lemma canonicalize_Ok_supported x s :
canonicalize_payload x = Ok s → supported x = true.
Proof.
intros (y & Hy & _)%canonicalize_Ok. by eapply normalize_Ok_supported.
Qed.

(** CanonicalizationError comes from [_normalize] only: what it returns,
  [json.dumps] accepts. *)
Lemma canonicalize_Raise_CE x :
canonicalize_payload x = Raise CanonicalizationError ↔
_normalize x = Raise CanonicalizationError.
Proof.
split; [|apply canonicalize_Raise_normalize].
unfold canonicalize_payload, canonicalize_with.
destruct (_normalize x) as [y| |] eqn:Hy; simpl; [|by intros [= ->]|done].
pose proof (json_dumps_encodable y (normalize_Ok_encodable x y Hy)) as Hout.
destruct (json_dumps y) as [s|e|]; [done| |done].
simpl in Hout. apply list_elem_of_singleton in Hout as ->. done.
Qed.

(** Apart from the ValueError of an integer too long to write, the outcome
  is the text or CanonicalizationError. *)
Lemma canonicalize_without_ValueError x :
canonicalize_payload x ≠ Raise ValueError →
ok_or_raises CanonicalizationError (canonicalize_payload x).
Proof.
intros Hx. pose proof (canonicalize_payload_outcome x) as Hout.
destruct (canonicalize_payload x) as [s|e|]; [left; eauto| |done].
simpl in Hout. apply elem_of_cons in Hout as [->|Hout]; [by right|].
apply list_elem_of_singleton in Hout as ->. done.
Qed.

Lemma canonicalize_unsupported x :
supported x = false → canonicalize_payload x ≠ Raise ValueError →
canonicalize_payload x = Raise CanonicalizationError.
Proof.
intros Hsup Hx. destruct (canonicalize_without_ValueError x Hx) as [[s Hs]|Hr];
  [|done].
apply canonicalize_Ok_supported in Hs. congruence.
Qed.

(** Without a ValueError, the normal form of a value has a text, which is
  the canonical text of the value. *)
Lemma canonicalize_of_normal_form x y :
canonicalize_payload x ≠ Raise ValueError → _normalize x = Ok y →
∃ s, json_dumps y = Ok s ∧ canonicalize_payload x = Ok s.
Proof.
intros Hx Hy. unfold canonicalize_payload, canonicalize_with in *.
rewrite Hy in *. simpl in *.
pose proof (json_dumps_encodable y (normalize_Ok_encodable x y Hy)) as Hout.
destruct (json_dumps y) as [s|e|]; [eauto| |done].
simpl in Hout. apply list_elem_of_singleton in Hout as ->. done.
Qed.
End supported_values.
(** ** Reordering the input of an encoding step *)

Lemma Forall2_perm_l {A B} (R : A → B → Prop) xs xs' ys :
  xs ≡ₚ xs' → Forall2 R xs ys → ∃ ys', ys ≡ₚ ys' ∧ Forall2 R xs' ys'.
Proof.
  intros Hp. revert ys.
  induction Hp as [|x xs xs' _ IH|x x' xs|xs xs' xs'' _ IH1 _ IH2]; intros ys Hxy.
  - inversion Hxy; subst. by exists [].
  - inversion Hxy as [|? y ? ys0 Hy Hrest]; subst.
    destruct (IH ys0 Hrest) as (ys' & Hp' & Hall).
    exists (y :: ys'). split; [by constructor|by constructor].
  - inversion Hxy as [|? y ? ys0 Hy Hrest]; subst.
    inversion Hrest as [|? y' ? ys1 Hy' Hrest']; subst.
    exists (y' :: y :: ys1). split; [apply Permutation_swap|].
    by repeat constructor.
  - destruct (IH1 ys Hxy) as (ys' & Hp' & Hall).
    destruct (IH2 ys' Hall) as (ys'' & Hp'' & Hall').
    exists ys''. split; [by etransitivity|done].
Qed.

Lemma Forall2_perm_r {A B} (R : A → B → Prop) xs ys ys' :
  ys ≡ₚ ys' → Forall2 R xs ys → ∃ xs', xs ≡ₚ xs' ∧ Forall2 R xs' ys'.
Proof.
  intros Hp Hxy. apply Forall2_flip in Hxy.
  destruct (Forall2_perm_l (flip R) ys ys' xs Hp Hxy) as (xs' & Hp' & Hall).
  exists xs'. split; [done|]. by apply Forall2_flip.
Qed.

Section related_lists.
Context {A A' B B' : Type}.

(** A permutation of the input permutes the output. *)
Lemma map_result_Ok_perm (f : A → result B) xs ys l1 :
  xs ≡ₚ ys → map_result f xs = Ok l1 →
  ∃ l2, map_result f ys = Ok l2 ∧ l1 ≡ₚ l2.
Proof.
  intros Hp Hl%map_result_Ok_inv.
  destruct (Forall2_perm_l _ xs ys l1 Hp Hl) as (l2 & Hp' & Hall).
  exists l2. split; [by apply map_result_Ok_intro|done].
Qed.

(** Element-wise related inputs give element-wise related outputs. *)
Lemma map_result_Ok_rel (R : A → A' → Prop) (Q : B → B' → Prop)
    (f : A → result B) (g : A' → result B') xs ys l :
  Forall2 R xs ys →
  (∀ x y a, x ∈ xs → R x y → f x = Ok a → ∃ b, g y = Ok b ∧ Q a b) →
  map_result f xs = Ok l →
  ∃ l', map_result g ys = Ok l' ∧ Forall2 Q l l'.
Proof.
  intros Hxy. revert l.
  induction Hxy as [|x y xs ys Hxy _ IH]; intros l Hrel; simpl.
  { intros [= <-]. exists []. split; [done|constructor]. }
  destruct (f x) as [a| |] eqn:Hx; simpl; [|done..].
  destruct (map_result f xs) as [l0| |] eqn:Hxs; simpl; [|done..].
  intros [= <-].
  destruct (Hrel x y a) as (b & -> & Hab); [by left|done..|].
  destruct (IH l0) as (l' & -> & Hall); [|done|].
  { intros x' y' a' Hx'. apply Hrel. by right. }
  exists (b :: l'). split; [done|by constructor].
Qed.
End related_lists.

Lemma map_result_Ok_same {A A' B} (R : A → A' → Prop)
    (f : A → result B) (g : A' → result B) xs ys l :
  Forall2 R xs ys →
  (∀ x y a, x ∈ xs → R x y → f x = Ok a → g y = Ok a) →
  map_result f xs = Ok l → map_result g ys = Ok l.
Proof.
  intros Hxy Hrel Hl.
  destruct (map_result_Ok_rel R eq f g xs ys l Hxy) as (l' & Hl' & Heq); [|done|].
  { intros x y a Hx HR Ha. exists a. split; [by eapply Hrel|done]. }
  assert (l = l') as ->; [|done].
  clear -Heq. induction Heq; congruence.
Qed.

Lemma str_dict_value_depth (kvs : list (string * pyobj)) kv :
  kv ∈ kvs → depth kv.2 < depth (str_dict kvs).
Proof.
  intros Hkv. unfold str_dict. cbn [depth].
  pose proof (depth_value (map (λ kv, (PyStr kv.1, kv.2)) kvs) (PyStr kv.1, kv.2)) as Hle.
  simpl in Hle. apply Nat.lt_succ_r, Hle.
  apply (list_elem_of_fmap_2 (λ kv : string * pyobj, (PyStr kv.1, kv.2))), Hkv.
Qed.

Lemma keyed_relation_keys {V W} (R : V → W → Prop)
    (kvs : list (string * V)) (kvs' : list (string * W)) :
  Forall2 (λ a b, a.1 = b.1 ∧ R a.2 b.2) kvs kvs' → kvs.*1 = kvs'.*1.
Proof.
  induction 1 as [|a b ? ? [Hk _] _ IH]; [done|]. by rewrite !fmap_cons, Hk, IH.
Qed.

(** Sorting the encoded entries gives the same text for every order. *)
Lemma dict_text_perm (enc1 enc2 : list (string * string)) :
  NoDup enc1.*1 → enc1 ≡ₚ enc2 → dict_text enc1 = dict_text enc2.
Proof.
  intros Hnd Hp. unfold dict_text. by rewrite (sort_by_key_perm enc1 enc2).
Qed.

Section reordered_values.
Context `{Host}.

(** The text of a set does not depend on its iteration order. *)
Lemma canonicalize_set_perm xs ys s :
  xs ≡ₚ ys → canonicalize_payload (PySet xs) = Ok s →
  canonicalize_payload (PySet ys) = Ok s.
Proof.
  intros Hp (items & strs & Hitems & Hstrs & ->)%canonicalize_set_Ok.
  destruct (map_result_Ok_perm _ xs ys items Hp Hitems) as (items' & Hitems' & Hip).
  destruct (map_result_Ok_perm _ items items' strs Hip Hstrs) as (strs' & Hstrs' & Hsp).
  apply canonicalize_set_Ok. exists items', strs'. split_and!; [done..|].
  by rewrite (sort_strings_perm strs strs').
Qed.

(** The text of a mapping does not depend on the order of its entries. *)
Lemma canonicalize_str_dict_perm (kvs1 kvs2 : list (string * pyobj)) s :
  NoDup kvs1.*1 → kvs1 ≡ₚ kvs2 →
  canonicalize_payload (str_dict kvs1) = Ok s →
  canonicalize_payload (str_dict kvs2) = Ok s.
Proof.
  intros Hnd Hp.
  assert (Hnd2 : NoDup kvs2.*1) by (by rewrite <- Hp).
  rewrite !canonicalize_str_dict_Ok by done.
  intros (enc & Henc & ->).
  destruct (map_result_Ok_perm _ kvs1 kvs2 enc Hp Henc) as (enc' & Henc' & Hep).
  exists enc'. split; [done|]. apply dict_text_perm; [|done].
  by rewrite (keyed_results_keys canonicalize_payload kvs1 enc).
Qed.

(** [json.dumps] gives reordered values the same text. *)
Lemma json_dumps_reordered n a b s :
  depth a < n → reordered a b → json_dumps a = Ok s → json_dumps b = Ok s.
Proof.
  revert a b s. induction n as [|n IH]; intros a b s Hn Hab; [lia|].
  destruct Hab as [x|kvs1 kvs kvs2 Hnd Hperm Hrel|xs ys Hrel|xs ys Hrel|xs xs' ys _ _];
    [done| | | |done].
  - rewrite !json_dumps_str_dict.
    destruct (map_result _ kvs1) as [enc1| |] eqn:Henc1; simpl; [|done..].
    intros [= <-].
    destruct (map_result_Ok_perm _ kvs1 kvs enc1 Hperm Henc1) as (enc & Henc & Hep).
    rewrite (map_result_Ok_same
               (λ a b : string * pyobj, a.1 = b.1 ∧ reordered a.2 b.2)
               (λ kv : string * pyobj, s ← json_dumps kv.2; Ok (kv.1, s))
               (λ kv : string * pyobj, s ← json_dumps kv.2; Ok (kv.1, s))
               kvs kvs2 enc Hrel); [| |done].
    + simpl. f_equal. symmetry. apply dict_text_perm; [|done].
      by rewrite (keyed_results_keys json_dumps kvs1 enc1).
    + intros [k v] [k' v'] e Hkv [Hk Hv]. simpl in *. subst k'.
      destruct (json_dumps v) as [t| |] eqn:Ht; simpl; [|done..].
      intros [= <-]. rewrite (IH v v' t); [done| |done..].
      rewrite <- Hperm in Hkv. pose proof (str_dict_value_depth kvs1 _ Hkv).
      simpl in *. lia.
  - cbn [json_dumps].
    destruct (map_result json_dumps xs) as [parts| |] eqn:Hparts; simpl; [|done..].
    intros [= <-].
    rewrite (map_result_Ok_same reordered json_dumps json_dumps xs ys parts Hrel);
      [done| |done].
    intros x y t Hx Hxy. apply IH; [|done].
    pose proof (depth_elem xs x Hx). simpl in Hn. lia.
  - cbn [json_dumps].
    destruct (map_result json_dumps xs) as [parts| |] eqn:Hparts; simpl; [|done..].
    intros [= <-].
    rewrite (map_result_Ok_same reordered json_dumps json_dumps xs ys parts Hrel);
      [done| |done].
    intros x y t Hx Hxy. apply IH; [|done].
    pose proof (depth_elem xs x Hx). simpl in Hn. lia.
Qed.

(** [_normalize] keeps reordered values reordered. *)
Lemma normalize_reordered n x y x' :
  depth x < n → reordered x y → _normalize x = Ok x' →
  ∃ y', _normalize y = Ok y' ∧ reordered x' y'.
Proof.
  revert x y x'. induction n as [|n IH]; intros x y x' Hn Hxy; [lia|].
  assert (Hcanon : ∀ a b s, depth a < n → reordered a b →
            canonicalize_payload a = Ok s → canonicalize_payload b = Ok s).
  { intros a b s Ha Hab (a' & Ha' & Hs)%canonicalize_Ok.
    destruct (IH a b a' Ha Hab Ha') as (b' & Hb' & Hab').
    apply canonicalize_Ok. exists b'. split; [done|].
    apply (json_dumps_reordered (S (depth a')) a' b'); [lia|done..]. }
  assert (Hlist : ∀ xs ys l, list_max (map depth xs) < n →
            Forall2 reordered xs ys → map_result _normalize xs = Ok l →
            ∃ l', map_result _normalize ys = Ok l' ∧ Forall2 reordered l l').
  { intros xs ys l Hd Hrel. apply (map_result_Ok_rel reordered reordered); [done|].
    intros a b a' Ha Hab. apply IH; [|done].
    pose proof (depth_elem xs a Ha). lia. }
  destruct Hxy as [x|kvs1 kvs kvs2 Hnd Hperm Hrel|xs ys Hrel|xs ys Hrel
                   |xs xs' ys Hperm Hrel].
  - intros Hx. exists x'. split; [done|apply reordered_refl].
  - assert (Hnd2 : NoDup kvs2.*1).
    { rewrite <- (keyed_relation_keys reordered kvs kvs2 Hrel). by rewrite <- Hperm. }
    rewrite !normalize_str_dict by done.
    set (g := λ kv : string * pyobj, nv ← _normalize kv.2; Ok (kv.1, nv)).
    destruct (map_result g kvs1) as [nvs1| |] eqn:Hn1; simpl; [|done..].
    intros [= <-].
    destruct (map_result_Ok_perm g kvs1 kvs nvs1 Hperm Hn1) as (nvs & Hnvs & Hnp).
    destruct (map_result_Ok_rel
                (λ a b : string * pyobj, a.1 = b.1 ∧ reordered a.2 b.2)
                (λ a b : string * pyobj, a.1 = b.1 ∧ reordered a.2 b.2)
                g g kvs kvs2 nvs Hrel) as (nvs2 & Hn2 & Hnrel); [|done|].
    { intros [k v] [k' v'] [k0 nv] Hkv [Hk Hv]. simpl in *. subst k'. unfold g. simpl.
      destruct (_normalize v) as [z| |] eqn:Hz; simpl; [|done..].
      intros [= <- <-].
      destruct (IH v v' z) as (z' & -> & Hzz'); [|done..|].
      - rewrite <- Hperm in Hkv.
        pose proof (str_dict_value_depth kvs1 _ Hkv). simpl in *. lia.
      - simpl. by exists (k, z'). }
    rewrite Hn2. simpl. exists (str_dict nvs2). split; [done|].
    apply (reordered_dict nvs1 nvs nvs2); [|done..].
    by rewrite (keyed_results_keys _normalize kvs1 nvs1).
  - rewrite !normalize_list.
    destruct (map_result _normalize xs) as [l| |] eqn:Hl; simpl; [|done..].
    intros [= <-].
    destruct (Hlist xs ys l) as (l' & -> & Hll); [simpl in Hn; lia|done..|].
    simpl. eexists. split; [done|]. by apply reordered_list.
  - rewrite !normalize_tuple.
    destruct (map_result _normalize xs) as [l| |] eqn:Hl; simpl; [|done..].
    intros [= <-].
    destruct (Hlist xs ys l) as (l' & -> & Hll); [simpl in Hn; lia|done..|].
    simpl. eexists. split; [done|]. by apply reordered_list.
  - rewrite !normalize_set.
    destruct (map_result _normalize xs) as [items1| |] eqn:Hi1; simpl; [|done..].
    destruct (map_result canonicalize_payload items1) as [strs1| |] eqn:Hs1;
      simpl; [|done..].
    intros [= <-].
    assert (Hdepth' : ∀ a, a ∈ xs' → depth a < n).
    { intros a Ha. rewrite <- Hperm in Ha.
      pose proof (depth_elem xs a Ha). simpl in Hn. lia. }
    destruct (map_result_Ok_perm _ xs xs' items1 Hperm Hi1) as (items' & Hi' & Hip).
    destruct (map_result_Ok_rel reordered reordered _normalize _normalize
                xs' ys items' Hrel) as (items2 & Hi2 & Hirel); [|done|].
    { intros a b a' Ha Hab. apply IH; [by apply Hdepth'|done]. }
    destruct (map_result_Ok_perm _ items1 items' strs1 Hip Hs1)
      as (strs' & Hs' & Hsp).
    assert (Hs2 : map_result canonicalize_payload items2 = Ok strs').
    { apply (map_result_Ok_same reordered canonicalize_payload canonicalize_payload
               items' items2 strs' Hirel); [|done].
      intros a b t Ha Hab. apply Hcanon; [|done].
      apply map_result_Ok_inv in Hi'.
      apply list_elem_of_lookup in Ha as [i Hi].
      destruct (Forall2_lookup_r _ _ _ _ _ Hi' Hi) as (z & Hz & Hza).
      pose proof (normalize_depth z a Hza).
      pose proof (Hdepth' z (list_elem_of_lookup_2 _ _ _ Hz)). lia. }
    rewrite Hi2. simpl. rewrite Hs2. simpl.
    rewrite (sort_strings_perm strs1 strs') by done.
    eexists. split; [done|apply reordered_refl].
Qed.

(** Values that differ in the order of mapping entries or of set
    elements only have the same canonical text. *)
Lemma canonicalize_reordered x y s :
  reordered x y → canonicalize_payload x = Ok s → canonicalize_payload y = Ok s.
Proof.
  intros Hxy (x' & Hx' & Hs)%canonicalize_Ok.
  destruct (normalize_reordered (S (depth x)) x y x') as (y' & Hy' & Hxy');
    [lia|done..|].
  apply canonicalize_Ok. exists y'. split; [done|].
  apply (json_dumps_reordered (S (depth x')) x' y'); [lia|done..].
Qed.
End reordered_values.

(** Being reordered is symmetric. *)
Lemma reordered_sym_depth n x y : depth x < n → reordered x y → reordered y x.
Proof.
  revert x y. induction n as [|n IH]; intros x y Hn Hxy; [lia|].
  assert (Hlist : ∀ xs ys, list_max (map depth xs) < n →
            Forall2 reordered xs ys → Forall2 reordered ys xs).
  { intros xs ys Hd Hrel. apply Forall2_flip.
    eapply Forall2_impl_in; [exact Hrel|].
    intros a b Ha Hab. apply IH; [|done]. pose proof (depth_elem xs a Ha). lia. }
  destruct Hxy as [x|kvs1 kvs kvs2 Hnd Hperm Hrel|xs ys Hrel|xs ys Hrel
                   |xs xs' ys Hperm Hrel].
  - apply reordered_refl.
  - assert (Hrel' : Forall2 (λ a b : string * pyobj, a.1 = b.1 ∧ reordered a.2 b.2)
                      kvs2 kvs).
    { apply Forall2_flip. eapply Forall2_impl_in; [exact Hrel|].
      intros [k v] [k' v'] Hkv [Hk Hv]. simpl in *. split; [done|].
      apply IH; [|done]. rewrite <- Hperm in Hkv.
      pose proof (str_dict_value_depth kvs1 _ Hkv). simpl in *. lia. }
    destruct (Forall2_perm_r _ kvs2 kvs kvs1 (symmetry Hperm) Hrel')
      as (kvs' & Hp' & Hall).
    apply (reordered_dict kvs2 kvs' kvs1); [|done..].
    rewrite <- (keyed_relation_keys reordered kvs kvs2 Hrel). by rewrite <- Hperm.
  - apply reordered_list, Hlist; [simpl in Hn; lia|done].
  - apply reordered_tuple, Hlist; [simpl in Hn; lia|done].
  - assert (Hrel' : Forall2 reordered ys xs').
    { apply Hlist; [|done]. rewrite <- Hperm. simpl in Hn. lia. }
    destruct (Forall2_perm_r _ ys xs' xs (symmetry Hperm) Hrel') as (ys' & Hp' & Hall).
    by apply (reordered_set ys ys' xs).
Qed.

Lemma reordered_sym x y : reordered x y → reordered y x.
Proof. apply (reordered_sym_depth (S (depth x))). lia. Qed.
(** ** Encoding element by element *)

Section elementwise.
Context `{Host}.

Lemma normalize_then_dump xs :
  Forall (λ x, canonicalize_payload x ≠ Raise ValueError) xs →
  (ys ← map_result _normalize xs;
   match map_result json_dumps ys with
   | Raise TypeError => Raise CanonicalizationError
   | r => r
   end) = map_result canonicalize_payload xs.
Proof.
  induction 1 as [|x xs Hx _ IH]; simpl; [done|]. rewrite <- IH. clear IH.
  destruct (_normalize x) as [y| |] eqn:Hy; simpl.
  - destruct (canonicalize_of_normal_form x y Hx Hy) as (s & Hs & ->). simpl.
    destruct (map_result _normalize xs) as [ys| |]; simpl; [|done..].
    rewrite Hs. simpl. by destruct (map_result json_dumps ys) as [parts|[]|].
  - by rewrite (canonicalize_Raise_normalize x e Hy).
  - unfold canonicalize_payload, canonicalize_with. by rewrite Hy.
Qed.

(** When no element holds an integer too long to write, the outcome for a
    list is the outcome of encoding its elements in their order. *)
Lemma canonicalize_list xs :
  Forall (λ x, canonicalize_payload x ≠ Raise ValueError) xs →
  canonicalize_payload (PyList xs)
    = parts ← map_result canonicalize_payload xs; Ok (list_text parts).
Proof.
  intros Hxs. rewrite <- (normalize_then_dump xs Hxs).
  unfold canonicalize_payload at 1, canonicalize_with. rewrite normalize_list.
  destruct (map_result _normalize xs) as [ys| |]; simpl; [|done..].
  by destruct (map_result json_dumps ys) as [parts|[]|].
Qed.

Lemma canonicalize_list_Raise xs :
  Forall (λ x, canonicalize_payload x ≠ Raise ValueError) xs →
  canonicalize_payload (PyList xs) = Raise CanonicalizationError ↔
  ∃ x, x ∈ xs ∧ canonicalize_payload x = Raise CanonicalizationError.
Proof.
  intros Hxs. rewrite canonicalize_list by done.
  rewrite <- (map_result_Raise CanonicalizationError canonicalize_payload xs).
  - destruct (map_result canonicalize_payload xs) as [parts| |];
      cbn [mbind result_bind]; split; try done; by intros [= ->].
  - intros x Hx. apply canonicalize_without_ValueError.
    rewrite Forall_forall in Hxs. by apply Hxs.
Qed.
End elementwise.

(** ** Normalizing twice *)

Lemma dict_set_shape (accl : list (string * pyobj)) k nv :
  ∃ accl', dict_set (map (λ kv, (PyStr kv.1, kv.2)) accl) k nv
             = map (λ kv, (PyStr kv.1, kv.2)) accl' ∧
           (NoDup accl.*1 → NoDup accl'.*1) ∧
           (∀ kv, kv ∈ accl' → kv ∈ accl ∨ kv = (k, nv)).
Proof.
  induction accl as [|[k' v'] accl (accl' & Heq & Hnd & Hin)]; simpl.
  { exists [(k, nv)]. split_and!; [done| |].
    - intros _. apply NoDup_singleton.
    - intros kv ->%list_elem_of_singleton. by right. }
  destruct (String.eqb k' k) eqn:Hk.
  - exists ((k', nv) :: accl). split_and!; [done|done|].
    apply String.eqb_eq in Hk as ->.
    intros kv [->|Hkv]%elem_of_cons; [by right|]. left. by right.
  - exists ((k', v') :: accl'). split_and!.
    + simpl. by rewrite Heq.
    + rewrite !fmap_cons. intros [Hk' Hnd']%NoDup_cons. apply NoDup_cons.
      split; [|by apply Hnd]. simpl in *.
      intros (kv & Hkv1 & Hkv)%list_elem_of_fmap.
      destruct (Hin kv Hkv) as [Hold| ->].
      * apply Hk'. rewrite Hkv1. by apply list_elem_of_fmap_2.
      * simpl in Hkv1. subst k'. by rewrite String.eqb_refl in Hk.
    + intros kv [->|Hkv]%elem_of_cons; [left; by left|].
      destruct (Hin kv Hkv) as [?| ->]; [left; by right|by right].
Qed.

(** The mapping that the loop of [_normalize] builds has distinct string
    keys, and every value in it is the normal form of a value of the
    input. *)
Lemma dict_fold_shape `{Host} (Q : pyobj → Prop) items
    (accl : list (string * pyobj)) out :
  fold_result (dict_step _normalize)
    (map (λ kv, (PyStr kv.1, kv.2)) accl) items = Ok out →
  NoDup accl.*1 →
  (∀ kv, kv ∈ accl → Q kv.2) →
  (∀ kv, kv ∈ items → ∀ y, _normalize kv.2 = Ok y → Q y) →
  ∃ outl, out = map (λ kv, (PyStr kv.1, kv.2)) outl ∧ NoDup outl.*1 ∧
          ∀ kv, kv ∈ outl → Q kv.2.
Proof.
  revert accl. induction items as [|[k v] items IH]; intros accl Hfold Hnd Hacc Hitems.
  { simpl in Hfold. injection Hfold as <-. eauto. }
  simpl in Hfold. destruct k; try done. simpl in Hfold.
  destruct (_normalize v) as [nv| |] eqn:Hv; [|done..]. simpl in Hfold.
  destruct (dict_set_shape accl s nv) as (accl' & Heq & Hnd' & Hin).
  rewrite Heq in Hfold. apply (IH accl'); [done|by apply Hnd'| |].
  - intros kv Hkv. destruct (Hin kv Hkv) as [?| ->]; [by apply Hacc|].
    simpl. apply (Hitems (PyStr s, v)); [by left|done].
  - intros kv Hkv. apply Hitems. by right.
Qed.

Section normalize_twice.
Context `{Host}.
Hypothesis float_g17_idempotent : ∀ bits, float_g17 (float_g17 bits) = float_g17 bits.

(** A normalized value is a fixed point of [_normalize]. *)
Lemma normalize_idempotent x y : _normalize x = Ok y → _normalize y = Ok y.
Proof.
  revert y.
  induction x as [ |b|z|f|s|items IH|xs IH|xs IH|xs IH|b|t]
    using pyobj_elements_ind; intros y.
  1-5: rewrite normalize_primitive by done; intros [= <-]; simpl;
       rewrite normalize_primitive by done; simpl;
       rewrite ?float_g17_idempotent; done.
  - rewrite normalize_dict.
    destruct (fold_result _ [] items) as [out| |] eqn:Hfold; [|done..].
    intros [= <-].
    destruct (dict_fold_shape (λ y, _normalize y = Ok y) items [] out Hfold)
      as (outl & -> & Hnd & Hfix).
    + constructor.
    + intros kv Hkv. inversion Hkv.
    + intros kv Hkv. rewrite Forall_forall in IH. by apply IH.
    + change (PyDict _) with (str_dict outl). rewrite normalize_str_dict by done.
      rewrite (map_result_Ok _ (λ kv, kv)); [by rewrite map_id|].
      intros [k v] Hkv. pose proof (Hfix _ Hkv) as Hv. simpl in *. by rewrite Hv.
  - rewrite normalize_list.
    destruct (map_result _normalize xs) as [ys| |] eqn:Hys; [|done..].
    intros [= <-]. rewrite normalize_list.
    rewrite (map_result_Ok _ (λ y, y)); [by rewrite map_id|].
    intros y Hy. apply map_result_Ok_inv in Hys.
    apply list_elem_of_lookup in Hy as [i Hi].
    destruct (Forall2_lookup_r _ _ _ _ _ Hys Hi) as (x & Hx & Hxy).
    rewrite Forall_forall in IH. apply (IH x); [|done].
    by eapply list_elem_of_lookup_2.
  - rewrite normalize_tuple.
    destruct (map_result _normalize xs) as [ys| |] eqn:Hys; [|done..].
    intros [= <-]. rewrite normalize_list.
    rewrite (map_result_Ok _ (λ y, y)); [by rewrite map_id|].
    intros y Hy. apply map_result_Ok_inv in Hys.
    apply list_elem_of_lookup in Hy as [i Hi].
    destruct (Forall2_lookup_r _ _ _ _ _ Hys Hi) as (x & Hx & Hxy).
    rewrite Forall_forall in IH. apply (IH x); [|done].
    by eapply list_elem_of_lookup_2.
  - rewrite normalize_set.
    destruct (map_result _normalize xs) as [items| |]; [|done..].
    cbn [mbind result_bind].
    destruct (map_result canonicalize_payload items) as [strs| |]; [|done..].
    intros [= <-]. rewrite normalize_list.
    rewrite (map_result_Ok _ (λ y, y)); [by rewrite map_id|].
    intros y (str & -> & _)%list_elem_of_fmap. done.
  - done.
  - done.
Qed.

Lemma canonicalize_normalized x y :
  _normalize x = Ok y → canonicalize_payload y = canonicalize_payload x.
Proof.
  intros Hx. unfold canonicalize_payload, canonicalize_with.
  by rewrite (normalize_idempotent x y Hx), Hx.
Qed.

Lemma canonicalize_elements xs :
  Forall (λ x, canonicalize_payload x ≠ Raise ValueError) xs →
  (items ← map_result _normalize xs; map_result canonicalize_payload items)
  = map_result canonicalize_payload xs.
Proof.
  induction 1 as [|x xs Hx _ IH]; [done|].
  rewrite !map_result_cons, <- IH. clear IH.
  destruct (_normalize x) as [y| |] eqn:Hy.
  - destruct (canonicalize_of_normal_form x y Hx Hy) as (s & _ & Hs).
    rewrite Hs. cbn [mbind result_bind].
    destruct (map_result _normalize xs) as [items| |]; cbn [mbind result_bind];
      [|done..].
    by rewrite map_result_cons, (canonicalize_normalized x y Hy), Hs.
  - by rewrite (canonicalize_Raise_normalize x e Hy).
  - unfold canonicalize_payload, canonicalize_with. by rewrite Hy.
Qed.

(** A set is encoded as the sorted list of the canonical strings of its
    elements. *)
Lemma canonicalize_set_elements xs :
  Forall (λ x, canonicalize_payload x ≠ Raise ValueError) xs →
  canonicalize_payload (PySet xs) =
    strs ← map_result canonicalize_payload xs;
    Ok (list_text (map json_string (sort_strings strs))).
Proof.
  intros Hxs. rewrite canonicalize_set, <- canonicalize_elements by done.
  by destruct (map_result _normalize xs).
Qed.
End normalize_twice.
(** ** The canonical text is compact JSON *)

Section compact.
Context `{Host}.

Lemma canonicalize_compact x s :
  canonicalize_payload x = Ok s → compact_json s.
Proof.
  revert s. induction x as [ |b|z|f|t|items IH|xs IH|xs IH|xs IH|b|t]
    using pyobj_elements_ind; intros s.
  - intros [= <-]. constructor.
  - intros [= <-]. destruct b; constructor.
  - unfold canonicalize_payload, canonicalize_with. simpl. unfold int_text.
    destruct (int_text_allowed z); [|done]. intros [= <-]. constructor.
  - intros [= <-]. constructor.
  - intros [= <-]. constructor.
  - intros (y & Hy & Hs)%canonicalize_Ok. rewrite normalize_dict in Hy.
    destruct (fold_result _ [] items) as [out| |] eqn:Hfold; [|done..].
    injection Hy as <-.
    destruct (dict_fold_shape (λ y, ∀ t, json_dumps y = Ok t → compact_json t)
                items [] out Hfold) as (outl & -> & Hnd & Hvals).
    + constructor.
    + intros kv Hkv. inversion Hkv.
    + intros kv Hkv z Hz t Ht. rewrite Forall_forall in IH.
      apply (IH kv Hkv). apply canonicalize_Ok. eauto.
    + change (PyDict _) with (str_dict outl) in Hs.
      rewrite json_dumps_str_dict in Hs.
      destruct (map_result _ outl) as [enc| |] eqn:Henc; [|done..].
      injection Hs as <-.
      pose proof (keyed_results_keys json_dumps outl enc Henc) as Hkeys.
      apply (compact_object (sort_by_key enc)).
      * apply sort_by_key_strict. by rewrite Hkeys.
      * apply Forall_forall. intros [k t] Hkt.
        rewrite sort_by_key_perm_self in Hkt.
        apply map_result_Ok_inv in Henc.
        apply list_elem_of_lookup in Hkt as [i Hi].
        destruct (Forall2_lookup_r _ _ _ _ _ Henc Hi) as ([k' v] & Hv & Hkv).
        simpl in Hkv. destruct (json_dumps v) as [t'| |] eqn:Ht'; [|done..].
        simpl in Hkv. injection Hkv as <- <-. simpl.
        apply (Hvals (k', v)); [by eapply list_elem_of_lookup_2|done].
  - intros (parts & Hparts & ->)%canonicalize_list_Ok.
    apply compact_array, Forall_forall. intros p Hp.
    apply map_result_Ok_inv in Hparts.
    apply list_elem_of_lookup in Hp as [i Hi].
    destruct (Forall2_lookup_r _ _ _ _ _ Hparts Hi) as (x & Hx & Hxp).
    rewrite Forall_forall in IH. apply (IH x); [|done].
    by eapply list_elem_of_lookup_2.
  - rewrite canonicalize_tuple.
    intros (parts & Hparts & ->)%canonicalize_list_Ok.
    apply compact_array, Forall_forall. intros p Hp.
    apply map_result_Ok_inv in Hparts.
    apply list_elem_of_lookup in Hp as [i Hi].
    destruct (Forall2_lookup_r _ _ _ _ _ Hparts Hi) as (x & Hx & Hxp).
    rewrite Forall_forall in IH. apply (IH x); [|done].
    by eapply list_elem_of_lookup_2.
  - intros (items & strs & _ & _ & ->)%canonicalize_set_Ok.
    apply compact_array, Forall_forall.
    intros p (str & -> & _)%list_elem_of_fmap. constructor.
  - done.
  - done.
Qed.
End compact.
Section encoder_claims.
Context `{Host}.

(** C5. The canonical encoding is a function of the value.  It never
    refuses a value of the allowed input types with
    CanonicalizationError, and it returns a string for no other value.
    Two string-keyed mappings with the same entries in different orders
    have the same canonical string: when one of them is encoded as [s], so
    is the other.  That string lists the entries in strictly ascending
    byte-wise key order, each as the quoted key, a colon and the canonical
    string of the value, separated by commas, with nothing else between
    them; a sequence is written as its elements' canonical strings between
    brackets, separated by commas and nothing else.  Every canonical
    string is a text of the compact JSON grammar, in which no whitespace
    stands between tokens: a space occurs only where a string value holds
    it.  The encoding of a set does not depend on its iteration order, and
    the same holds at any depth: two values that differ only in the order
    of the entries of their mappings have the same canonical string. *)
Theorem canonicalize_key_order_insensitive :
  (∀ x, canonicalize_payload x = canonicalize_payload x ∧
        (supported x = true →
           canonicalize_payload x ≠ Raise CanonicalizationError) ∧
        (supported x = false → ∀ s, canonicalize_payload x ≠ Ok s)) ∧
  (∀ (kvs1 kvs2 : list (string * pyobj)) s,
     NoDup kvs1.*1 → kvs1 ≡ₚ kvs2 →
     canonicalize_payload (str_dict kvs1) = Ok s ↔
     canonicalize_payload (str_dict kvs2) = Ok s) ∧
  (∀ (kvs : list (string * pyobj)) s,
     NoDup kvs.*1 → canonicalize_payload (str_dict kvs) = Ok s →
     ∃ enc : list (string * string),
       s = "{" +:+ String.concat ","
                     (map (λ ks, json_string ks.1 +:+ ":" +:+ ks.2) enc)
               +:+ "}" ∧
       StronglySorted (λ a b, key_lt a.1 b.1) enc ∧
       ∀ k t, (k, t) ∈ enc ↔
              ∃ v, (k, v) ∈ kvs ∧ canonicalize_payload v = Ok t) ∧
  (∀ xs s,
     canonicalize_payload (PyList xs) = Ok s →
     ∃ parts, Forall2 (λ x p, canonicalize_payload x = Ok p) xs parts ∧
              s = "[" +:+ String.concat "," parts +:+ "]") ∧
  (∀ x s, canonicalize_payload x = Ok s → compact_json s) ∧
  canonicalize_payload
    (PyDict [(PyStr "b", PyList [PyInt 1; PyNone; PyStr "x y"]);
             (PyStr "a", PyDict [(PyStr "c", PyBool true)])])
    = Ok ("{" +:+ quoted "a" +:+ ":{" +:+ quoted "c" +:+ ":true},"
              +:+ quoted "b" +:+ ":[1,null," +:+ quoted "x y" +:+ "]}") ∧
  (∀ xs ys s, xs ≡ₚ ys →
     canonicalize_payload (PySet xs) = Ok s ↔
     canonicalize_payload (PySet ys) = Ok s) ∧
  (∀ x y s, reordered x y →
     canonicalize_payload x = Ok s ↔ canonicalize_payload y = Ok s).
Proof.
  split_and!.
  - intros x. split_and!; [done| |].
    + intros Hsup Hx. pose proof (canonicalize_supported x Hsup) as Hout.
      rewrite Hx in Hout. simpl in Hout.
      by apply list_elem_of_singleton in Hout.
    + intros Hsup s Hs. apply canonicalize_Ok_supported in Hs. congruence.
  - intros kvs1 kvs2 s Hnd Hp. split.
    + by apply canonicalize_str_dict_perm.
    + apply canonicalize_str_dict_perm; [by rewrite <- Hp|done].
  - intros kvs s Hnd (enc & Henc & ->)%canonicalize_str_dict_Ok; [|done].
    apply str_dict_entries in Henc as [Hkeys Hmem].
    exists (sort_by_key enc). split_and!; [done| |].
    + apply sort_by_key_strict. by rewrite Hkeys.
    + intros k t. rewrite sort_by_key_perm_self. apply Hmem.
  - intros xs s (parts & Hparts & ->)%canonicalize_list_Ok.
    exists parts. split; [by apply map_result_Ok_inv|done].
  - apply canonicalize_compact.
  - vm_compute. reflexivity.
  - intros xs ys s Hp. split; by apply canonicalize_set_perm.
  - intros x y s Hxy. split; apply canonicalize_reordered; [done|].
    by apply reordered_sym.
Qed.
End encoder_claims.

Lemma canonicalize_key_order_insensitive_witness :
  let H := example_host in
  canonicalize_payload (str_dict [("a", PyList [PyNone]); ("b", PyInt 1)])
    = Ok ("{" +:+ quoted "a" +:+ ":[null]," +:+ quoted "b" +:+ ":1}").
Proof.
  intros H.
  refine (proj1 (proj1 (proj2 (canonicalize_key_order_insensitive (H := H)))
                   [("b", PyInt 1); ("a", PyList [PyNone])] _ _ _ _) _).
  - apply (bool_decide_unpack _). vm_compute. reflexivity.
  - apply Permutation_swap.
  - vm_compute. reflexivity.
Defined.

Section injectivity.
Context `{Host}.

(** C10. A set is encoded as the sorted list of the canonical strings of
    its (normalized) elements, and of the elements themselves when
    formatting a float to 17 digits twice changes nothing and no element
    holds an integer too long to be written; so the encoding is not
    injective: the set {1} and the list ["1"] are different values with
    the same canonical string, and mappings that hold the one or the other
    have the same fingerprint, whatever the identity metadata. *)
Theorem canonical_encoding_not_injective :
  (∀ xs, canonicalize_payload (PySet xs) =
           items ← map_result _normalize xs;
           strs ← map_result canonicalize_payload items;
           Ok (list_text (map json_string (sort_strings strs)))) ∧
  ((∀ bits, float_g17 (float_g17 bits) = float_g17 bits) →
   ∀ xs, Forall (λ x, canonicalize_payload x ≠ Raise ValueError) xs →
         canonicalize_payload (PySet xs) =
           strs ← map_result canonicalize_payload xs;
           Ok (list_text (map json_string (sort_strings strs)))) ∧
  (∀ strs, StronglySorted (le_of String.ltb) (sort_strings strs) ∧
           sort_strings strs ≡ₚ strs) ∧
  PySet [PyInt 1] ≠ PyList [PyStr "1"] ∧
  canonicalize_payload (PySet [PyInt 1]) = Ok ("[" +:+ quoted "1" +:+ "]") ∧
  canonicalize_payload (PyList [PyStr "1"]) = Ok ("[" +:+ quoted "1" +:+ "]") ∧
  ∀ key kind namespace scope version,
    canonical_fingerprint kind namespace
      (PyDict [(PyStr key, PySet [PyInt 1])]) scope version
    = canonical_fingerprint kind namespace
      (PyDict [(PyStr key, PyList [PyStr "1"])]) scope version.
Proof.
  split_and!; [apply canonicalize_set|apply canonicalize_set_elements|
               |done|reflexivity|reflexivity|].
  - intros strs. split; [apply sort_strings_sorted|apply py_sorted_perm].
  - intros key kind namespace scope version. unfold canonical_fingerprint.
    assert (canonicalize_payload (PyDict [(PyStr key, PySet [PyInt 1])])
            = canonicalize_payload (PyDict [(PyStr key, PyList [PyStr "1"])])) as ->;
      [reflexivity|done].
Qed.
End injectivity.

Lemma canonical_encoding_not_injective_witness :
  let H := example_host in
  canonicalize_payload (PySet [PyInt 2; PyInt 1; PyStr "1"])
    = Ok (list_text [json_string (quoted "1"); json_string "1"; json_string "2"]).
Proof.
  intros H.
  rewrite (proj1 (proj2 (canonical_encoding_not_injective (H := H)))).
  - vm_compute. reflexivity.
  - intros bits. reflexivity.
  - repeat constructor; vm_compute; discriminate.
Defined.

(* ================================================================== *)
(** * The lineage store *)

(** ** [append] *)

Lemma check_parents_Ok s ps :
  check_parents s ps = Ok () ↔ ∀ p, p ∈ ps → p ∈ dom (_commits s).
Proof.
  induction ps as [|p ps IH]; simpl.
  - split; [|done]. intros _ p Hp. inversion Hp.
  - case_bool_decide as Hp.
    + rewrite IH. split.
      * intros Hps q Hq. apply elem_of_cons in Hq as [->|Hq]; auto.
      * intros Hps q Hq. apply Hps. by right.
    + split; [done|]. intros Hps. exfalso. apply Hp, Hps. by left.
Qed.

Lemma check_parents_cases s ps :
  check_parents s ps = Ok () ∨ check_parents s ps = Raise LineageError.
Proof.
  induction ps as [|p ps IH]; simpl; [by left|].
  case_bool_decide; [done|by right].
Qed.


Lemma append_inv s u t ps o sid sk sn ss pl nt c s' :
  append s u t ps o sid sk sn ss pl nt = (Ok c, s') →
  (∀ p, p ∈ ps → p ∈ dom (_commits s)) ∧
  c = {| commit_id := u; timestamp_ms := t; parents := ps; op := o;
         subject_id := sid; subject_kind := sk; subject_namespace := sn;
         subject_scope := ss; payload := default [] pl; note := nt |} ∧
  _commits s' = <[u := c]> (_commits s) ∧
  _children s' =
    setdefault_empty u (foldl (λ d p, add_child d p u) (_children s) ps).
Proof.
  unfold append. destruct (check_parents s ps) as [[]| |] eqn:Hchk; [|done..].
  intros [= <- <-]. rewrite check_parents_Ok in Hchk. done.
Qed.

Lemma append_Ok s u t ps o sid sk sn ss pl nt :
  (∀ p, p ∈ ps → p ∈ dom (_commits s)) →
  ∃ c s', append s u t ps o sid sk sn ss pl nt = (Ok c, s').
Proof.
  intros Hps. apply check_parents_Ok in Hps. unfold append. rewrite Hps. eauto.
Qed.

Lemma add_child_lookup d p c q :
  add_child d p c !! q =
    if decide (p = q) then Some (default ∅ (d !! p) ∪ {[c]}) else d !! q.
Proof.
  unfold add_child, setdefault_empty. case_decide as Hpq.
  - subst q. rewrite lookup_insert_eq. destruct (d !! p) eqn:Hd; simpl.
    + by rewrite Hd.
    + by rewrite lookup_insert_eq.
  - rewrite lookup_insert_ne by done. destruct (d !! p) eqn:Hd; [done|].
    by rewrite lookup_insert_ne.
Qed.

Lemma add_children_lookup ps d c q :
  foldl (λ d p, add_child d p c) d ps !! q =
    if decide (q ∈ ps) then Some (default ∅ (d !! q) ∪ {[c]}) else d !! q.
Proof.
  revert d. induction ps as [|p ps IH]; intros d; cbn [foldl].
  - rewrite decide_False; [done|]. intros Hq. inversion Hq.
  - rewrite IH, add_child_lookup. destruct (decide (p = q)) as [->|Hpq].
    + rewrite (decide_True (P := q ∈ q :: ps)) by left.
      case_decide; [|done]. simpl. f_equal. set_solver.
    + case_decide as Hq.
      * rewrite decide_True; [done|by right].
      * rewrite decide_False; [done|]. intros Hq'.
        apply elem_of_cons in Hq' as [->|]; done.
Qed.

Lemma setdefault_empty_lookup k d q :
  setdefault_empty k d !! q =
    if decide (k = q) then Some (default ∅ (d !! k)) else d !! q.
Proof.
  unfold setdefault_empty. case_decide as Hkq.
  - subst q. destruct (d !! k) eqn:Hd; simpl; [done|]. by rewrite lookup_insert_eq.
  - destruct (d !! k); [done|]. by rewrite lookup_insert_ne.
Qed.

Lemma append_children_dom s u t ps o sid sk sn ss pl nt c s' :
  append s u t ps o sid sk sn ss pl nt = (Ok c, s') →
  dom (_children s) = dom (_commits s) →
  dom (_children s') = dom (_commits s').
Proof.
  intros (Hps & _ & Hc & Hch)%append_inv Hdom.
  rewrite Hc, Hch, dom_insert_L. apply set_eq. intros q.
  rewrite elem_of_dom, setdefault_empty_lookup, !add_children_lookup.
  rewrite elem_of_union, elem_of_singleton.
  destruct (decide (u = q)) as [->|Hne].
  - split; [by left|]. intros _. eauto.
  - case_decide as Hq.
    + split; [|eauto]. intros _. right. by apply Hps.
    + rewrite <- elem_of_dom, Hdom. naive_solver.
Qed.

(** ** Reachable stores are well formed *)

Lemma empty_store_wf : store_wf empty_store.
Proof.
  split; simpl.
  - intros k c Hk. by rewrite lookup_empty in Hk.
  - intros k c p Hk. by rewrite lookup_empty in Hk.
  - intros k Hk. by rewrite dom_empty_L in Hk.
  - by rewrite !dom_empty_L.
  - intros p ch Hp. by rewrite lookup_empty in Hp.
  - exists (λ _, 0). split.
    + intros k Hk. by rewrite dom_empty_L in Hk.
    + intros k c p Hk. by rewrite lookup_empty in Hk.
Qed.

Lemma parent_of_closed s x p :
  store_wf s → parent_of s x p → p ∈ dom (_commits s).
Proof. intros Hwf (c & Hc & Hp). by eapply wf_closed. Qed.

Lemma append_wf s u t ps o sid sk sn ss pl nt c s' :
  store_wf s →
  u ≠ "" →
  _commits s !! u = None →
  append s u t ps o sid sk sn ss pl nt = (Ok c, s') →
  store_wf s'.
Proof.
  intros Hwf Hu Hfresh Happ.
  pose proof (append_children_dom _ _ _ _ _ _ _ _ _ _ _ _ _ Happ
                (wf_children_dom _ Hwf)) as Hdom'.
  apply append_inv in Happ as (Hps & Hc & Hcs & Hch).
  assert (Hpar : parents c = ps) by (by subst c).
  assert (Hcid : commit_id c = u) by (by subst c).
  clear Hc. split.
  - intros k c' Hk. rewrite Hcs in Hk.
    destruct (decide (u = k)) as [->|Hne].
    + rewrite lookup_insert_eq in Hk. by injection Hk as <-.
    + rewrite lookup_insert_ne in Hk by done. by eapply wf_key.
  - intros k c' p Hk Hp. rewrite Hcs, dom_insert_L in *.
    apply elem_of_union_r.
    destruct (decide (u = k)) as [->|Hne].
    + rewrite lookup_insert_eq in Hk. injection Hk as <-.
      apply Hps. by rewrite <- Hpar.
    + rewrite lookup_insert_ne in Hk by done. by eapply wf_closed.
  - intros k. rewrite Hcs, dom_insert_L, elem_of_union, elem_of_singleton.
    intros [->|Hk]; [done|]. by eapply wf_nonempty.
  - done.
  - intros p ch' Hp x.
    assert (Hnew : parent_of s' x p ↔ (x = u ∧ p ∈ ps) ∨ parent_of s x p).
    { unfold parent_of. rewrite Hcs. split.
      - intros (c' & Hc' & Hpc).
        destruct (decide (u = x)) as [->|Hne].
        + rewrite lookup_insert_eq in Hc'. injection Hc' as <-.
          left. by rewrite <- Hpar.
        + rewrite lookup_insert_ne in Hc' by done. right. eauto.
      - intros [[-> Hpp]|(c' & Hc' & Hpc)].
        + exists c. rewrite lookup_insert_eq, Hpar. done.
        + exists c'. rewrite lookup_insert_ne; [done|]. congruence. }
    rewrite Hnew. clear Hnew.
    assert (Hufresh : u ∉ dom (_commits s)) by (by apply not_elem_of_dom).
    rewrite Hch, setdefault_empty_lookup, !add_children_lookup in Hp.
    destruct (decide (u = p)) as [->|Hne].
    + rewrite decide_False in Hp by (intros Hin; by apply Hufresh, Hps).
      assert (_children s !! p = None) as Hnone.
      { apply not_elem_of_dom. by rewrite (wf_children_dom _ Hwf). }
      rewrite Hnone in Hp. injection Hp as <-. split; [set_solver|].
      intros [[_ Hin]|Hpar']; exfalso; apply Hufresh.
      * by apply Hps.
      * by eapply parent_of_closed.
    + case_decide as Hin.
      * pose proof (Hps _ Hin) as Hpd.
        rewrite <- (wf_children_dom _ Hwf) in Hpd.
        apply elem_of_dom in Hpd as [ch0 Hch0]. rewrite Hch0 in Hp.
        injection Hp as <-. simpl.
        rewrite elem_of_union, elem_of_singleton,
          (wf_children _ Hwf _ _ Hch0 x). naive_solver.
      * rewrite (wf_children _ Hwf _ _ Hp x). naive_solver.
  - destruct (wf_rank _ Hwf) as (rank & Hbound & Hdec).
    exists (λ k, if decide (k = u) then size (_commits s) else rank k).
    rewrite Hcs. rewrite map_size_insert_None by done. split.
    + intros k. rewrite dom_insert_L, elem_of_union, elem_of_singleton.
      case_decide; [lia|]. intros [?|Hk]; [done|].
      specialize (Hbound k Hk). lia.
    + intros k c' p Hk Hp.
      assert (Hpu : p ≠ u → p ∈ dom (_commits s) → rank p < size (_commits s))
        by (intros _; apply Hbound).
      destruct (decide (u = k)) as [->|Hne].
      * rewrite lookup_insert_eq in Hk. injection Hk as <-.
        rewrite Hpar in Hp. pose proof (Hps p Hp) as Hpd.
        rewrite (decide_True (P := k = k)) by done.
        rewrite decide_False; [by apply Hbound|].
        intros ->. apply elem_of_dom in Hpd as [? Hpd]. congruence.
      * rewrite lookup_insert_ne in Hk by done.
        rewrite (decide_False (P := k = u)) by done.
        pose proof (wf_closed _ Hwf _ _ _ Hk Hp) as Hpd.
        rewrite decide_False; [by eapply Hdec|].
        intros ->. apply elem_of_dom in Hpd as [? Hpd]. congruence.
Qed.

Lemma reachable_wf s : reachable s → store_wf s.
Proof.
  induction 1 as [|s u t ps o sid sk sn ss pl nt c s' _ IH Hu Hfresh Happ].
  - apply empty_store_wf.
  - by eapply append_wf.
Qed.

(** ** The ancestor relation of a well-formed store *)

Lemma parent_of_dom s x p :
  store_wf s → parent_of s x p → x ∈ dom (_commits s) ∧ p ∈ dom (_commits s).
Proof.
  intros Hwf (c & Hc & Hp). split.
  - apply elem_of_dom. eauto.
  - by eapply wf_closed.
Qed.

Lemma ancestor_dom s x a :
  store_wf s → ancestor s x a → x ∈ dom (_commits s) ∧ a ∈ dom (_commits s).
Proof.
  intros Hwf. induction 1 as [x y Hxy|x y z Hxy _ [_ IH]].
  - by apply parent_of_dom.
  - split; [|done]. apply (parent_of_dom _ _ _ Hwf Hxy).
Qed.

Lemma ancestor_irrefl s x : store_wf s → ¬ ancestor s x x.
Proof.
  intros Hwf Hxx. destruct (wf_rank _ Hwf) as (rank & _ & Hdec).
  assert (Hlt : ∀ a b, ancestor s a b → rank b < rank a).
  { induction 1 as [a b (c & Hc & Hp)|a b c' (c & Hc & Hp) _ IH].
    - by eapply Hdec.
    - specialize (Hdec _ _ _ Hc Hp). lia. }
  specialize (Hlt _ _ Hxx). lia.
Qed.

(** ** [ancestors_of] computes the strict ancestors *)

Lemma visit_parents_spec ps (V : gset string) (S : list string) V' S' :
  visit_parents V S ps = (V', S') →
  V' = V ∪ list_to_set ps ∧
  (∀ x, x ∈ S' ↔ x ∈ S ∨ (x ∈ ps ∧ x ∉ V)) ∧
  size V' + length S = size V + length S'.
Proof.
  unfold visit_parents. revert V S.
  induction ps as [|p ps IH]; intros V S; cbn [foldl].
  - intros [= <- <-]. split_and!; [set_solver| |done].
    intros x. split; [by left|]. intros [?|[Hx _]]; [done|]. inversion Hx.
  - case_bool_decide as Hp; intros Hfold; apply IH in Hfold as (HV & HS & Hsz).
    + split_and!; [set_solver| |done].
      intros x. rewrite HS, elem_of_cons. split; [naive_solver|].
      intros [?|[[->|?] ?]]; naive_solver.
    + split_and!.
      * set_solver.
      * intros x. rewrite HS, !elem_of_cons, elem_of_union, elem_of_singleton.
        destruct (decide (x = p)) as [->|]; naive_solver.
      * rewrite size_union, size_singleton in Hsz by set_solver.
        simpl in Hsz. lia.
Qed.

Section ancestors.
Variable s : LineageStore.
Hypothesis Hwf : store_wf s.
Variable start : string.
Hypothesis Hstart : start ∈ dom (_commits s).

Lemma loop_inv_dom V : (∀ x, x ∈ V → ancestor s start x) → V ⊆ dom (_commits s).
Proof. intros HV x Hx. by apply (ancestor_dom s start x Hwf), HV. Qed.

Lemma ancestors_loop_spec fuel V S :
  loop_inv s start V S →
  size (_commits s) + length S < fuel + size V →
  ∃ A, ancestors_loop fuel s V S = Ok A ∧ ∀ x, x ∈ A ↔ ancestor s start x.
Proof.
  revert V S. induction fuel as [|fuel IH]; intros V S (I1 & I2 & I3) Hfuel.
  { pose proof (subseteq_size _ _ (loop_inv_dom V I1)) as Hle.
    rewrite size_dom in Hle. lia. }
  destruct S as [|cur S]; simpl.
  - exists V. split; [done|]. intros x. split; [apply I1|].
    assert (Hclosed : ∀ a b, ancestor s a b → a = start ∨ a ∈ V → b ∈ V).
    { induction 1 as [a b Hab|a b c Hab _ IHtc]; intros Ha.
      - destruct (I3 a Ha) as [Hin|Hall]; [inversion Hin|]. by apply Hall.
      - apply IHtc. right.
        destruct (I3 a Ha) as [Hin|Hall]; [inversion Hin|]. by apply Hall. }
    intros Hx. apply (Hclosed _ _ Hx). by left.
  - assert (Hcur : cur ∈ dom (_commits s)).
    { destruct (I2 cur) as [->|Hc]; [by left|done|].
      by apply (loop_inv_dom V I1). }
    apply elem_of_dom in Hcur as [c Hc]. rewrite Hc.
    destruct (visit_parents V S (parents c)) as [V' S'] eqn:Hvisit.
    apply visit_parents_spec in Hvisit as (HV' & HS' & Hsz).
    assert (Hcur_anc : ∀ p, p ∈ parents c → ancestor s start p).
    { intros p Hp. assert (parent_of s cur p) as Hpar by (exists c; done).
      destruct (I2 cur) as [->|Hin]; [by left|by apply tc_once|].
      eapply tc_r; [by apply I1|done]. }
    assert (I1' : ∀ x, x ∈ V' → ancestor s start x).
    { intros x. rewrite HV', elem_of_union, elem_of_list_to_set.
      intros [?|?]; auto. }
    apply IH.
    + split_and!; [done| |].
      * intros x. rewrite HS', HV', elem_of_union, elem_of_list_to_set.
        intros [Hx|[Hx _]]; [|by auto].
        destruct (I2 x) as [?|?]; [by right|by left|by auto].
      * intros x Hx.
        destruct (decide (x = cur)) as [->|Hne].
        { right. intros p (c' & Hc' & Hp). rewrite HV'.
          apply elem_of_union_r, elem_of_list_to_set. congruence. }
        rewrite HS'. rewrite HV', elem_of_union, elem_of_list_to_set in Hx.
        destruct (decide (x ∈ V)) as [HxV|HxV].
        { destruct (I3 x) as [Hin|Hall]; [by right| |].
          - apply elem_of_cons in Hin as [?|?]; [done|by auto].
          - right. intros p Hp. rewrite HV'. apply elem_of_union_l. auto. }
        destruct Hx as [->|[?|Hx]]; [|done|by auto].
        destruct (I3 start) as [Hin|Hall]; [by left| |].
        -- apply elem_of_cons in Hin as [?|?]; [done|by auto].
        -- right. intros p Hp. rewrite HV'. apply elem_of_union_l. auto.
    + pose proof (subseteq_size _ _ (loop_inv_dom V' I1')) as Hle.
      rewrite size_dom in Hle. simpl in Hfuel. lia.
Qed.

Lemma ancestors_of_spec :
  ∃ A, ancestors_of s start = Ok A ∧ ∀ x, x ∈ A ↔ ancestor s start x.
Proof.
  unfold ancestors_of. rewrite bool_decide_eq_true_2 by done.
  apply ancestors_loop_spec.
  - split_and!.
    + intros x Hx. set_solver.
    + intros x Hx. left. by apply list_elem_of_singleton in Hx.
    + intros x [->|Hx]; [left; by left|set_solver].
  - unfold loop_budget. rewrite size_empty. simpl. lia.
Qed.
End ancestors.

Lemma ancestors_of_unknown s cid :
  cid ∉ dom (_commits s) → ancestors_of s cid = Raise LineageError.
Proof. intros Hn. unfold ancestors_of. by rewrite bool_decide_eq_false_2. Qed.

(** ** [lca_candidates], [_pick_base] and [_commit_chain] on well-formed
       stores *)

Lemma lca_candidates_spec s a b :
  store_wf s → a ∈ dom (_commits s) → b ∈ dom (_commits s) →
  ∃ A B, ancestors_of s a = Ok A ∧ ancestors_of s b = Ok B ∧
         lca_candidates s a b = Ok ((A ∪ {[a]}) ∩ (B ∪ {[b]})).
Proof.
  intros Hwf Ha Hb.
  destruct (ancestors_of_spec s Hwf a Ha) as (A & HA & _).
  destruct (ancestors_of_spec s Hwf b Hb) as (B & HB & _).
  exists A, B. split_and!; [done..|].
  unfold lca_candidates.
  rewrite !bool_decide_eq_true_2 by done. simpl. by rewrite HA, HB.
Qed.

Lemma lca_candidates_unknown s a b :
  a ∉ dom (_commits s) ∨ b ∉ dom (_commits s) →
  lca_candidates s a b = Raise LineageError.
Proof.
  intros Hab. unfold lca_candidates.
  destruct (bool_decide (a ∈ dom (_commits s))) eqn:Ha; simpl; [|done].
  destruct (bool_decide (b ∈ dom (_commits s))) eqn:Hb; simpl; [|done].
  apply bool_decide_eq_true in Ha, Hb. naive_solver.
Qed.

Lemma lca_candidates_dom s a b C :
  store_wf s → lca_candidates s a b = Ok C → C ⊆ dom (_commits s).
Proof.
  intros Hwf Hl.
  destruct (decide (a ∈ dom (_commits s))) as [Ha|Ha];
    [|by rewrite lca_candidates_unknown in Hl by auto].
  destruct (decide (b ∈ dom (_commits s))) as [Hb|Hb];
    [|by rewrite lca_candidates_unknown in Hl by auto].
  destruct (lca_candidates_spec s a b Hwf Ha Hb) as (A & B & HA & HB & HC).
  rewrite HC in Hl. injection Hl as <-.
  destruct (ancestors_of_spec s Hwf a Ha) as (A' & HA' & HAspec).
  assert (A' = A) as -> by congruence.
  intros x [[Hx|Hx%elem_of_singleton]%elem_of_union _]%elem_of_intersection.
  - by apply (ancestor_dom s a x Hwf), HAspec.
  - by subst.
Qed.

(** The state of the [_pick_base] loop: nothing picked yet, or a stored
    commit together with its key. *)
Lemma pick_fold_spec s xs st :
  (∀ x, x ∈ xs → x ∈ dom (_commits s)) →
  (st = (None, None) ∨
   ∃ b c, _commits s !! b = Some c ∧ st = (Some b, Some (timestamp_ms c, b))) →
  ∃ st', fold_result (pick_step s) st xs = Ok st' ∧
    (st' = (None, None) ∧ xs = [] ∧ st = (None, None) ∨
     ∃ b c, _commits s !! b = Some c ∧
            st' = (Some b, Some (timestamp_ms c, b)) ∧
            (b ∈ xs ∨ st.1 = Some b)).
Proof.
  revert st. induction xs as [|x xs IH]; intros st Hxs Hst; cbn [fold_result].
  - exists st. split; [done|]. destruct Hst as [->|(b & c & Hc & ->)]; [by left|].
    right. exists b, c. auto.
  - assert (x ∈ dom (_commits s)) as [cx Hcx]%elem_of_dom by (apply Hxs; by left).
    assert (∃ st1, pick_step s st x = Ok st1 ∧
              ∃ b c, _commits s !! b = Some c ∧
                     st1 = (Some b, Some (timestamp_ms c, b)) ∧
                     (b = x ∨ st.1 = Some b)) as (st1 & Hstep & b1 & c1 & Hc1 & -> & Hb1).
    { unfold pick_step, get. rewrite Hcx.
      destruct Hst as [->|(b & c & Hc & ->)]; simpl.
      - eexists. split; [done|]. exists x, cx. auto.
      - destruct (key_gt _ _); eexists; (split; [done|]).
        + exists x, cx. auto.
        + exists b, c. auto. }
    rewrite Hstep. simpl.
    destruct (IH (Some b1, Some (timestamp_ms c1, b1))) as (st' & Hfold & Hst').
    { intros y Hy. apply Hxs. by right. }
    { right. eauto. }
    exists st'. split; [done|]. right.
    destruct Hst' as [(_ & _ & [=])|(b & c & Hc & -> & Hb)].
    exists b, c. split_and!; [done..|].
    destruct Hb as [Hb|[= <-]].
    + left. by right.
    + destruct Hb1 as [->|Hb1]; [left; by left|by right].
Qed.

Lemma pick_base_spec s l r :
  store_wf s → l ∈ dom (_commits s) → r ∈ dom (_commits s) →
  ∃ base, _pick_base s l r = Ok base ∧
    ∀ b, base = Some b → b ∈ dom (_commits s) ∧ truthy b = true ∧
         ∃ C, lca_candidates s l r = Ok C ∧ b ∈ C.
Proof.
  intros Hwf Hl Hr.
  destruct (lca_candidates_spec s l r Hwf Hl Hr) as (A & B & _ & _ & HC).
  pose proof (lca_candidates_dom s l r _ Hwf HC) as Hdom.
  unfold _pick_base. rewrite HC. simpl.
  case_bool_decide as Hempty; [by exists None|].
  destruct (pick_fold_spec s (elements ((A ∪ {[l]}) ∩ (B ∪ {[r]}))) (None, None))
    as (st' & Hfold & Hst'); [|by left|].
  { intros x Hx%elem_of_elements. by apply Hdom. }
  rewrite Hfold. simpl. exists st'.1. split; [done|].
  destruct Hst' as [(-> & Hnil & _)|(b & c & Hc & -> & Hb)].
  { by apply elements_empty_inv, leibniz_equiv in Hnil. }
  simpl. intros ? [= <-].
  destruct Hb as [Hb%elem_of_elements|[=]].
  assert (b ∈ dom (_commits s)) as Hbd by (by apply Hdom).
  split_and!; [done| |by eauto].
  pose proof (wf_nonempty s Hwf b Hbd) as Hne.
  unfold truthy. apply negb_true_iff, String.eqb_neq. done.
Qed.

Lemma string_ltb_trans x y z :
  String.ltb x y = true → String.ltb y z = true → String.ltb x z = true.
Proof.
  unfold String.ltb. intros Hxy Hyz.
  destruct (String.compare x y) eqn:Hc1; try done.
  destruct (String.compare y z) eqn:Hc2; try done.
  by rewrite (string_compare_lt_trans x y z).
Qed.

Lemma string_ltb_total x y : x ≠ y → String.ltb x y = false → String.ltb y x = true.
Proof.
  unfold String.ltb. rewrite (String.compare_antisym y x). intros Hne.
  destruct (String.compare x y) eqn:Hc; try done.
  by apply String.compare_eq_iff in Hc.
Qed.

Lemma key_gt_trans a b c : key_gt a b = true → key_gt b c = true → key_gt a c = true.
Proof.
  unfold key_gt. destruct a as [ta ia], b as [tb ib], c as [tc ic]. simpl.
  intros [Hab|[Hab Hiab]%andb_prop]%orb_prop [Hbc|[Hbc Hibc]%andb_prop]%orb_prop;
    apply orb_true_iff.
  - left. lia.
  - left. lia.
  - left. lia.
  - right. apply andb_true_iff. split; [lia|]. by eapply string_ltb_trans.
Qed.

Lemma key_gt_total a b : a.2 ≠ b.2 → key_gt a b = false → key_gt b a = true.
Proof.
  unfold key_gt. destruct a as [ta ia], b as [tb ib]. simpl.
  intros Hne [Hlt Heq]%orb_false_iff. apply orb_true_iff.
  destruct (Z.lt_trichotomy ta tb) as [?|[->|?]]; [left; lia| |lia].
  right. rewrite Z.eqb_refl in *. simpl in *.
  by apply string_ltb_total.
Qed.

(** The loop of [_pick_base] keeps the candidate with the greatest key among
    those seen. *)
Lemma pick_fold_max s xs b0 c0 :
  (∀ x, x ∈ xs → x ∈ dom (_commits s)) →
  _commits s !! b0 = Some c0 →
  ∃ b c, fold_result (pick_step s) (Some b0, Some (timestamp_ms c0, b0)) xs
           = Ok (Some b, Some (timestamp_ms c, b)) ∧
         _commits s !! b = Some c ∧
         (b = b0 ∨ b ∈ xs) ∧
         (b = b0 ∨ key_gt (timestamp_ms c, b) (timestamp_ms c0, b0) = true) ∧
         ∀ x cx, x ∈ xs → _commits s !! x = Some cx → x ≠ b →
                 key_gt (timestamp_ms c, b) (timestamp_ms cx, x) = true.
Proof.
  revert b0 c0. induction xs as [|x xs IH]; intros b0 c0 Hxs Hb0; cbn [fold_result].
  { exists b0, c0. split_and!; [done|done|by left|by left|].
    intros x cx Hx. inversion Hx. }
  assert (x ∈ dom (_commits s)) as [cx Hcx]%elem_of_dom by (apply Hxs; by left).
  assert (Hxs' : ∀ y, y ∈ xs → y ∈ dom (_commits s)) by (intros y Hy; apply Hxs; by right).
  assert (Hstep : pick_step s (Some b0, Some (timestamp_ms c0, b0)) x =
            Ok (if key_gt (timestamp_ms cx, x) (timestamp_ms c0, b0)
                then (Some x, Some (timestamp_ms cx, x))
                else (Some b0, Some (timestamp_ms c0, b0)))).
  { unfold pick_step, get. rewrite Hcx. simpl. by destruct (key_gt _ _). }
  rewrite Hstep. cbn [mbind result_bind].
  destruct (key_gt (timestamp_ms cx, x) (timestamp_ms c0, b0)) eqn:Hgt.
  - destruct (IH x cx Hxs' Hcx) as (b & c & -> & Hc & Hmem & Hge & Hmax).
    exists b, c. split_and!; [done|done| | |].
    + destruct Hmem as [->|?]; right; [by left|by right].
    + right. destruct Hge as [->|Hge]; [|by eapply key_gt_trans].
      by assert (c = cx) as -> by congruence.
    + intros y cy [->|Hy]%elem_of_cons Hcy Hne; [|by apply Hmax].
      assert (cy = cx) as -> by congruence.
      by destruct Hge as [->|Hge].
  - destruct (IH b0 c0 Hxs' Hb0) as (b & c & -> & Hc & Hmem & Hge & Hmax).
    exists b, c. split_and!; [done|done| |done|].
    + destruct Hmem as [->|?]; [by left|right; by right].
    + intros y cy [->|Hy]%elem_of_cons Hcy Hne; [|by apply Hmax].
      assert (cy = cx) as -> by congruence.
      destruct (decide (x = b0)) as [->|Hxb0].
      * assert (cx = c0) as -> by congruence. by destruct Hge as [->|Hge].
      * assert (key_gt (timestamp_ms c0, b0) (timestamp_ms cx, x) = true) as Hb0x.
        { apply key_gt_total; [simpl; congruence|done]. }
        destruct Hge as [->|Hge]; [|by eapply key_gt_trans].
        by assert (c = c0) as -> by congruence.
Qed.

(** [_pick_base] returns no base when there is no common ancestor, and
    otherwise the candidate with the greatest (timestamp, id) key. *)
Lemma pick_base_greatest s l r :
  store_wf s → l ∈ dom (_commits s) → r ∈ dom (_commits s) →
  ∃ C, lca_candidates s l r = Ok C ∧
    ((C = ∅ ∧ _pick_base s l r = Ok None) ∨
     (∃ b kb, _pick_base s l r = Ok (Some b) ∧ b ∈ C ∧ commit_key s b = Some kb ∧
        ∀ x kx, x ∈ C → x ≠ b → commit_key s x = Some kx → key_gt kb kx = true)).
Proof.
  intros Hwf Hl Hr.
  destruct (lca_candidates_spec s l r Hwf Hl Hr) as (A & B & _ & _ & HC).
  pose proof (lca_candidates_dom s l r _ Hwf HC) as Hdom.
  eexists. split; [done|]. unfold _pick_base. rewrite HC. cbn [mbind result_bind].
  set (C := (A ∪ {[l]}) ∩ (B ∪ {[r]})) in *.
  case_bool_decide as Hempty; [by left|]. right.
  destruct (elements C) as [|x xs] eqn:Hel.
  { by apply elements_empty_inv, leibniz_equiv in Hel. }
  assert (Hin : ∀ y, y ∈ C ↔ y = x ∨ y ∈ xs).
  { intros y. by rewrite <- elem_of_elements, Hel, elem_of_cons. }
  assert (x ∈ dom (_commits s)) as [cx Hcx]%elem_of_dom by (apply Hdom, Hin; by left).
  cbn [fold_result].
  assert (Hstep : pick_step s (None, None) x = Ok (Some x, Some (timestamp_ms cx, x))).
  { unfold pick_step, get. by rewrite Hcx. }
  rewrite Hstep. cbn [mbind result_bind].
  destruct (pick_fold_max s xs x cx) as (b & c & -> & Hc & Hmem & Hge & Hmax); [|done|].
  { intros y Hy. apply Hdom, Hin. by right. }
  simpl. exists b, (timestamp_ms c, b). split_and!; [done| | |].
  - apply Hin. destruct Hmem; auto.
  - unfold commit_key. by rewrite Hc.
  - intros y ky [->|Hy]%Hin Hne; unfold commit_key.
    + rewrite Hcx. intros [= <-]. by destruct Hge as [->|Hge].
    + destruct (_commits s !! y) as [cy|] eqn:Hcy; [|done]. intros [= <-].
      by eapply Hmax.
Qed.

Lemma commit_chain_loop_Ok s (rank : string → nat) fuel cur chain :
  store_wf s →
  (∀ k c p, _commits s !! k = Some c → p ∈ parents c → rank p < rank k) →
  cur ∈ dom (_commits s) → rank cur < fuel →
  ∃ r, commit_chain_loop fuel s cur chain = Ok r.
Proof.
  intros Hwf Hdec. revert cur chain.
  induction fuel as [|fuel IH]; intros cur chain Hcur Hfuel; [lia|].
  apply elem_of_dom in Hcur as [c Hc]. simpl. unfold get. rewrite Hc. simpl.
  destruct (parents c) as [|p [|q ps]] eqn:Hps; [by eauto| |by eauto].
  assert (p ∈ parents c) as Hp by (rewrite Hps; by left).
  apply IH.
  - by eapply wf_closed.
  - specialize (Hdec _ _ _ Hc Hp). lia.
Qed.

Lemma commit_chain_Ok s head :
  store_wf s → head ∈ dom (_commits s) → ∃ chain, _commit_chain s head = Ok chain.
Proof.
  intros Hwf Hhead. destruct (wf_rank s Hwf) as (rank & Hbound & Hdec).
  destruct (commit_chain_loop_Ok s rank (loop_budget s) head [] Hwf Hdec Hhead)
    as (r & Hr).
  { specialize (Hbound _ Hhead). unfold loop_budget. lia. }
  unfold _commit_chain. rewrite Hr. simpl. eauto.
Qed.

(** ** Example stores are reachable *)

Lemma append_reachable s u t ps o sid sk sn ss pl nt :
  reachable s → u ≠ "" → _commits s !! u = None →
  check_parents s ps = Ok () →
  reachable (append s u t ps o sid sk sn ss pl nt).2.
Proof.
  intros Hs Hu Hfresh Hps.
  destruct (append_Ok s u t ps o sid sk sn ss pl nt) as (c & s' & Happ).
  { by apply check_parents_Ok. }
  rewrite Happ. simpl. by eapply reachable_append.
Qed.

Ltac example_reachable :=
  repeat (apply append_reachable;
          [ | done | vm_compute; reflexivity | vm_compute; reflexivity ]);
  apply reachable_empty.

Lemma diamond_store_reachable : reachable diamond_store.
Proof. unfold diamond_store, example_append. example_reachable. Qed.

Lemma merged_store_reachable : reachable merged_store.
Proof. unfold merged_store, example_append. example_reachable. Qed.

Lemma branched_store_reachable : reachable branched_store.
Proof. unfold branched_store, example_append. example_reachable. Qed.

(** ** [append], [ancestors_of] and [lca_candidates] *)

Lemma ancestor_unfold s x z :
  ancestor s x z → parent_of s x z ∨ ∃ y, parent_of s x y ∧ ancestor s y z.
Proof. destruct 1 as [x z Hxz|x y z Hxy Hyz]; eauto. Qed.






(** C7. [ancestors_of] raises LineageError on an unknown id; on a known id
    of a store built by [append] it returns exactly the commits reached by
    one or more parent edges, which never include the id itself; in a
    diamond (genesis G, A and B with the single parent G, M with parents
    (A, B)) the ancestors of M are G, A and B. *)
Theorem ancestors_of_transitive_closure s :
  reachable s →
  (∀ cid, cid ∉ dom (_commits s) → ancestors_of s cid = Raise LineageError) ∧
  (∀ cid, cid ∈ dom (_commits s) →
     ∃ A, ancestors_of s cid = Ok A ∧
          (∀ x, x ∈ A ↔ ancestor s cid x) ∧ cid ∉ A) ∧
  (∀ G A B M cG cA cB cM,
     _commits s !! G = Some cG → parents cG = [] →
     _commits s !! A = Some cA → parents cA = [G] →
     _commits s !! B = Some cB → parents cB = [G] →
     _commits s !! M = Some cM → parents cM = [A; B] →
     ancestors_of s M = Ok {[G; A; B]}).
Proof.
  intros Hwf%reachable_wf.
  assert (Hknown : ∀ cid, cid ∈ dom (_commits s) →
     ∃ A, ancestors_of s cid = Ok A ∧
          (∀ x, x ∈ A ↔ ancestor s cid x) ∧ cid ∉ A).
  { intros cid Hcid. destruct (ancestors_of_spec s Hwf cid Hcid) as (A & HA & Hspec).
    exists A. split_and!; [done..|]. rewrite Hspec. by apply ancestor_irrefl. }
  split_and!; [apply ancestors_of_unknown|done|].
  intros G A B M cG cA cB cM HG HpG HA HpA HB HpB HM HpM.
  destruct (Hknown M) as (X & HX & Hspec & _); [apply elem_of_dom; eauto|].
  rewrite HX. f_equal. apply set_eq. intros x. rewrite Hspec.
  assert (HparG : ∀ y, ¬ parent_of s G y).
  { intros y (c & Hc & Hy). assert (c = cG) as -> by congruence.
    rewrite HpG in Hy. inversion Hy. }
  assert (HparA : ∀ y, parent_of s A y ↔ y = G).
  { intros y. split.
    - intros (c & Hc & Hy). assert (c = cA) as -> by congruence.
      rewrite HpA in Hy. by apply list_elem_of_singleton in Hy.
    - intros ->. exists cA. rewrite HpA. split; [done|by left]. }
  assert (HparB : ∀ y, parent_of s B y ↔ y = G).
  { intros y. split.
    - intros (c & Hc & Hy). assert (c = cB) as -> by congruence.
      rewrite HpB in Hy. by apply list_elem_of_singleton in Hy.
    - intros ->. exists cB. rewrite HpB. split; [done|by left]. }
  assert (HparM : ∀ y, parent_of s M y ↔ y = A ∨ y = B).
  { intros y. split.
    - intros (c & Hc & Hy). assert (c = cM) as -> by congruence.
      rewrite HpM in Hy. set_solver.
    - intros Hy. exists cM. rewrite HpM. split; [done|]. set_solver. }
  assert (HancG : ∀ y, ¬ ancestor s G y).
  { intros y [?|(z & ? & _)]%ancestor_unfold; by eapply HparG. }
  assert (HancA : ∀ y, ancestor s A y → y = G).
  { intros y [?|(z & Hz & Hzy)]%ancestor_unfold; [by apply HparA|].
    apply HparA in Hz as ->. by apply HancG in Hzy. }
  assert (HancB : ∀ y, ancestor s B y → y = G).
  { intros y [?|(z & Hz & Hzy)]%ancestor_unfold; [by apply HparB|].
    apply HparB in Hz as ->. by apply HancG in Hzy. }
  split.
  - intros [Hx|(z & Hz & Hzx)]%ancestor_unfold.
    + apply HparM in Hx. set_solver.
    + apply HparM in Hz as [->| ->].
      * apply HancA in Hzx. set_solver.
      * apply HancB in Hzx. set_solver.
  - rewrite !elem_of_union, !elem_of_singleton. intros [[->| ->]| ->].
    + eapply tc_l; [apply HparM; by left|]. apply tc_once. by apply HparA.
    + apply tc_once. apply HparM. by left.
    + apply tc_once. apply HparM. by right.
Qed.

Lemma ancestors_of_transitive_closure_witness :
  reachable diamond_store ∧
  ancestors_of diamond_store "M" = Ok {[ "G"; "A"; "B" ]}.
Proof.
  split; [exact diamond_store_reachable|].
  eapply (proj2 (proj2 (ancestors_of_transitive_closure diamond_store
                          diamond_store_reachable)));
    vm_compute; reflexivity.
Defined.

(** C8. For two ids of a store built by [append], [lca_candidates] is the
    intersection of (ancestors_of(a) ∪ {a}) and (ancestors_of(b) ∪ {b}),
    that is, every common ancestor-or-self; and for all x and y the call
    gives the same outcome in either order. *)
Theorem lca_candidates_intersection_symmetric s :
  reachable s →
  (∀ a b, a ∈ dom (_commits s) → b ∈ dom (_commits s) →
     ∃ A B, ancestors_of s a = Ok A ∧ ancestors_of s b = Ok B ∧
       lca_candidates s a b = Ok ((A ∪ {[a]}) ∩ (B ∪ {[b]})) ∧
       ∀ x, x ∈ (A ∪ {[a]}) ∩ (B ∪ {[b]}) ↔
            (x = a ∨ ancestor s a x) ∧ (x = b ∨ ancestor s b x)) ∧
  (∀ x y, lca_candidates s x y = lca_candidates s y x).
Proof.
  intros Hwf%reachable_wf.
  assert (Hknown : ∀ a b, a ∈ dom (_commits s) → b ∈ dom (_commits s) →
     ∃ A B, ancestors_of s a = Ok A ∧ ancestors_of s b = Ok B ∧
       lca_candidates s a b = Ok ((A ∪ {[a]}) ∩ (B ∪ {[b]})) ∧
       ∀ x, x ∈ (A ∪ {[a]}) ∩ (B ∪ {[b]}) ↔
            (x = a ∨ ancestor s a x) ∧ (x = b ∨ ancestor s b x)).
  { intros a b Ha Hb.
    destruct (lca_candidates_spec s a b Hwf Ha Hb) as (A & B & HA & HB & HC).
    exists A, B. split_and!; [done..|]. intros x.
    destruct (ancestors_of_spec s Hwf a Ha) as (A' & HA' & HAspec).
    destruct (ancestors_of_spec s Hwf b Hb) as (B' & HB' & HBspec).
    assert (A' = A) as -> by congruence. assert (B' = B) as -> by congruence.
    rewrite elem_of_intersection, !elem_of_union, !elem_of_singleton,
      HAspec, HBspec. naive_solver. }
  split; [done|]. intros x y.
  destruct (decide (x ∈ dom (_commits s))) as [Hx|Hx];
    [|by rewrite !lca_candidates_unknown by auto].
  destruct (decide (y ∈ dom (_commits s))) as [Hy|Hy];
    [|by rewrite !lca_candidates_unknown by auto].
  destruct (Hknown x y Hx Hy) as (A & B & HA & HB & -> & _).
  destruct (Hknown y x Hy Hx) as (B' & A' & HB' & HA' & -> & _).
  assert (A' = A) as -> by congruence. assert (B' = B) as -> by congruence.
  f_equal. set_solver.
Qed.

Lemma lca_candidates_intersection_symmetric_witness :
  reachable diamond_store ∧
  lca_candidates diamond_store "A" "B" = lca_candidates diamond_store "B" "A".
Proof.
  split; [exact diamond_store_reachable|].
  apply (proj2 (lca_candidates_intersection_symmetric diamond_store
                  diamond_store_reachable)).
Defined.

(** C9. In every store built by [append] from the empty store, each parent
    id a commit refers to is itself stored, no commit is its own ancestor,
    the traversal of [ancestors_of] always finishes, and the set it returns
    for an id never holds that id. *)
Theorem reachable_store_acyclic s :
  reachable s →
  (∀ k c p, _commits s !! k = Some c → p ∈ parents c →
            p ∈ dom (_commits s) ∧ p ≠ k) ∧
  (∀ x, ¬ ancestor s x x) ∧
  (∀ cid, ancestors_of s cid ≠ Diverge) ∧
  (∀ cid A, ancestors_of s cid = Ok A → cid ∉ A).
Proof.
  intros Hwf%reachable_wf.
  assert (Hirr : ∀ x, ¬ ancestor s x x) by (intros x; by apply ancestor_irrefl).
  split_and!; [|done| |].
  - intros k c p Hk Hp. split; [by eapply wf_closed|].
    intros ->. apply (Hirr k), tc_once. by exists c.
  - intros cid. destruct (decide (cid ∈ dom (_commits s))) as [Hc|Hc].
    + destruct (ancestors_of_spec s Hwf cid Hc) as (A & -> & _). done.
    + by rewrite ancestors_of_unknown.
  - intros cid A HA. destruct (decide (cid ∈ dom (_commits s))) as [Hc|Hc].
    + destruct (ancestors_of_spec s Hwf cid Hc) as (A' & HA' & Hspec).
      assert (A' = A) as -> by congruence. rewrite Hspec. apply Hirr.
    + by rewrite ancestors_of_unknown in HA.
Qed.

Lemma reachable_store_acyclic_witness :
  reachable diamond_store ∧
  ancestors_of diamond_store "M" ≠ Diverge ∧ ¬ ancestor diamond_store "M" "M".
Proof.
  split; [exact diamond_store_reachable|].
  destruct (reachable_store_acyclic diamond_store diamond_store_reachable)
    as (_ & Hirr & Hterm & _).
  split; [apply Hterm|apply Hirr].
Defined.

(* ================================================================== *)
(** * The merge analyzer *)

(** ** The classification loop of [three_way_merge_analysis] *)

Lemma entries_for_app sid es1 es2 :
  entries_for sid (es1 ++ es2) = entries_for sid es1 ++ entries_for sid es2.
Proof. apply filter_app. Qed.

Section classification.
Context `{Host}.
Variables lv rv bv : gmap string Commit.

(** A signature is returned unless the payload holds an integer too long
    to write. *)
Lemma signature_outcome c :
  returns_or_raises [ValueError] (_semantic_free_payload_change c).
Proof.
  unfold _semantic_free_payload_change.
  pose proof (canonicalize_payload_outcome (PyDict (payload c))) as Hout.
  destruct (canonicalize_payload _) as [t|e|]; [done| |done].
  simpl in Hout. apply elem_of_cons in Hout as [->|Hout]; [done|].
  apply list_elem_of_singleton in Hout as ->. by left.
Qed.

Lemma has_signature_Ok c :
  has_signature c = true ↔ ∃ t, _semantic_free_payload_change c = Ok t.
Proof.
  unfold has_signature. destruct (_semantic_free_payload_change c); split;
    try done; eauto; by intros [? ?].
Qed.

Lemma classify_subject_acc acts confs sid :
  classify_subject lv rv bv (acts, confs) sid =
    match verdict lv rv bv sid with
    | Ok ac => Ok (acts ++ ac.1, confs ++ ac.2)
    | Raise e => Raise e
    | Diverge => Diverge
    end.
Proof.
  unfold verdict, classify_subject.
  destruct (lv !! sid) as [lc|], (rv !! sid) as [rc|]; simpl;
    rewrite ?app_nil_r; try done.
  destruct (_semantic_free_payload_change lc) as [l_sig| |]; simpl; [|done..].
  destruct (_semantic_free_payload_change rc) as [r_sig| |]; simpl; [|done..].
  destruct (String.eqb _ _); simpl; rewrite ?app_nil_r; [done|].
  destruct (bv !! sid) as [bc|]; simpl; rewrite ?app_nil_r; [|done].
  destruct (_semantic_free_payload_change bc) as [b_sig| |]; simpl; [|done..].
  repeat (destruct (_ && _); simpl; rewrite ?app_nil_r; try done).
Qed.

Lemma verdict_None sid :
  lv !! sid = None → rv !! sid = None →
  verdict lv rv bv sid = Raise AssertionError.
Proof. intros Hl Hr. unfold verdict, classify_subject. by rewrite Hl, Hr. Qed.

(** A verdict that is returned is about a subject that a head view holds,
    and its entries are all about the subject it was asked for. *)
Lemma verdict_Ok_entries sid a c :
  verdict lv rv bv sid = Ok (a, c) →
  (is_Some (lv !! sid) ∨ is_Some (rv !! sid)) ∧
  (∀ sid', entries_for sid' a = if decide (sid' = sid) then a else []) ∧
  (∀ sid', entries_for sid' c = if decide (sid' = sid) then c else []).
Proof.
  assert (Hfilter : ∀ (e : entry) sid',
    entry_get "subject_id" e = Some (Some sid) →
    entries_for sid' [e] = if decide (sid' = sid) then [e] else []).
  { intros e sid' He. unfold entries_for. rewrite filter_cons, filter_nil, He.
    destruct (decide (sid' = sid)) as [->|Hne].
    - by rewrite decide_True.
    - rewrite decide_False; [done|]. congruence. }
  assert (Hnil : ∀ sid', entries_for sid' [] = if decide (sid' = sid) then [] else [])
    by (intros; by case_decide).
  unfold verdict, classify_subject.
  destruct (lv !! sid) as [lc|], (rv !! sid) as [rc|]; simpl; [| | |done].
  - destruct (_semantic_free_payload_change lc) as [l_sig| |]; simpl; [|done..].
    destruct (_semantic_free_payload_change rc) as [r_sig| |]; simpl; [|done..].
    destruct (String.eqb _ _); simpl.
    { intros [= <- <-]. split; [eauto|]. split; intros; [by apply Hfilter|done]. }
    destruct (bv !! sid) as [bc|]; simpl.
    + destruct (_semantic_free_payload_change bc) as [b_sig| |]; simpl; [|done..].
      repeat (destruct (_ && _); simpl);
        intros [= <- <-]; (split; [eauto|]); split; intros;
        try (by apply Hfilter); done.
    + intros [= <- <-]. split; [eauto|]. split; intros; [done|by apply Hfilter].
  - intros [= <- <-]. split; [eauto|]. split; intros; [by apply Hfilter|done].
  - intros [= <- <-]. split; [eauto|]. split; intros; [by apply Hfilter|done].
Qed.

(** A verdict is returned for a subject of a head view when the commits
    the three views hold for it have signatures. *)
Lemma verdict_signed sid :
  is_Some (lv !! sid) ∨ is_Some (rv !! sid) →
  (∀ c, lv !! sid = Some c ∨ rv !! sid = Some c ∨ bv !! sid = Some c →
        has_signature c = true) →
  ∃ a c, verdict lv rv bv sid = Ok (a, c).
Proof.
  intros Hsome Hsig. unfold verdict, classify_subject.
  destruct (lv !! sid) as [lc|] eqn:Hl, (rv !! sid) as [rc|] eqn:Hr; simpl;
    [|by eauto..|].
  - destruct (proj1 (has_signature_Ok lc)) as [l_sig ->]; [by auto|].
    destruct (proj1 (has_signature_Ok rc)) as [r_sig ->]; [by auto|].
    simpl. destruct (String.eqb _ _); simpl; [by eauto|].
    destruct (bv !! sid) as [bc|] eqn:Hb; simpl; [|by eauto].
    destruct (proj1 (has_signature_Ok bc)) as [b_sig ->]; [by auto|].
    simpl. repeat (destruct (_ && _); simpl); eauto.
  - destruct Hsome as [[? ?]|[? ?]]; done.
Qed.

Lemma verdict_outcome sid :
  returns_or_raises [AssertionError; ValueError] (verdict lv rv bv sid).
Proof.
  assert (Hsig : ∀ c B (k : string → result B),
    (∀ t, returns_or_raises [AssertionError; ValueError] (k t)) →
    returns_or_raises [AssertionError; ValueError]
      (_semantic_free_payload_change c ≫= k)).
  { intros c B k Hk. pose proof (signature_outcome c) as Hc.
    destruct (_semantic_free_payload_change c) as [t|e|]; simpl in *; [done| |done].
    apply list_elem_of_singleton in Hc as ->. set_solver. }
  unfold verdict, classify_subject.
  destruct (lv !! sid) as [lc|], (rv !! sid) as [rc|]; simpl;
    [|done..|by left].
  apply Hsig. intros l_sig. apply Hsig. intros r_sig.
  destruct (String.eqb _ _); simpl; [done|].
  destruct (bv !! sid) as [bc|]; simpl; [|done].
  apply Hsig. intros b_sig. by repeat (destruct (_ && _); simpl).
Qed.

(** What a finished loop has added: for every subject of the list, the
    entries of its verdict, and nothing for any other subject. *)
Lemma classify_fold_inv subs acts confs acc' :
  NoDup subs →
  fold_result (classify_subject lv rv bv) (acts, confs) subs = Ok acc' →
  ∃ na nc, acc' = (acts ++ na, confs ++ nc) ∧
    ∀ sid,
      (sid ∈ subs →
         ∃ a c, verdict lv rv bv sid = Ok (a, c) ∧
                entries_for sid na = a ∧ entries_for sid nc = c) ∧
      (sid ∉ subs → entries_for sid na = [] ∧ entries_for sid nc = []).
Proof.
  revert acts confs.
  induction subs as [|x subs IH]; intros acts confs Hnd; cbn [fold_result].
  - intros [= <-]. exists [], []. rewrite !app_nil_r. split; [done|].
    intros sid. split; [|done]. intros Hin. inversion Hin.
  - apply NoDup_cons in Hnd as [Hx Hnd].
    rewrite classify_subject_acc.
    destruct (verdict lv rv bv x) as [[a c]| |] eqn:Hv; simpl; [|done..].
    intros Hfold.
    destruct (verdict_Ok_entries x a c Hv) as (_ & Ha & Hc).
    destruct (IH (acts ++ a) (confs ++ c) Hnd Hfold) as (na & nc & -> & Hspec).
    exists (a ++ na), (c ++ nc). rewrite !app_assoc. split; [done|].
    intros sid. rewrite !entries_for_app, Ha, Hc.
    destruct (Hspec sid) as [Hin Hout].
    destruct (decide (sid = x)) as [->|Hne].
    + split; [|intros Hn; exfalso; apply Hn; by left].
      intros _. destruct (Hout Hx) as [-> ->]. rewrite !app_nil_r. eauto.
    + split.
      * intros [?|Hsid]%elem_of_cons; [done|]. by apply Hin.
      * intros Hn. apply Hout. intros ?. apply Hn. by right.
Qed.

Lemma classify_fold_Ok subs acts confs :
  (∀ sid, sid ∈ subs → ∃ a c, verdict lv rv bv sid = Ok (a, c)) →
  ∃ acc', fold_result (classify_subject lv rv bv) (acts, confs) subs = Ok acc'.
Proof.
  revert acts confs.
  induction subs as [|x subs IH]; intros acts confs Hall; cbn [fold_result].
  { eauto. }
  rewrite classify_subject_acc.
  destruct (Hall x) as (a & c & ->); [by left|]. simpl.
  apply IH. intros sid Hsid. apply Hall. by right.
Qed.

(** A subject that neither head view holds stops the loop: with the
    failed assertion when every verdict before it is returned. *)
Lemma classify_fold_missing subs acts confs acc' :
  (∃ sid, sid ∈ subs ∧ lv !! sid = None ∧ rv !! sid = None) →
  fold_result (classify_subject lv rv bv) (acts, confs) subs ≠ Ok acc'.
Proof.
  revert acts confs.
  induction subs as [|x subs IH]; intros acts confs (sid & Hin & Hl & Hr).
  { inversion Hin. }
  cbn [fold_result]. rewrite classify_subject_acc.
  destruct (verdict lv rv bv x) as [[a c]| |] eqn:Hv; simpl; [|done..].
  apply IH. exists sid. split_and!; [|done..].
  apply elem_of_cons in Hin as [->|]; [|done].
  rewrite verdict_None in Hv by done. done.
Qed.

Lemma classify_fold_Raise subs acts confs :
  (∀ sid, sid ∈ subs → verdict lv rv bv sid ≠ Raise ValueError) →
  (∃ sid, sid ∈ subs ∧ lv !! sid = None ∧ rv !! sid = None) →
  fold_result (classify_subject lv rv bv) (acts, confs) subs
    = Raise AssertionError.
Proof.
  revert acts confs.
  induction subs as [|x subs IH]; intros acts confs Hno (sid & Hin & Hl & Hr).
  { inversion Hin. }
  cbn [fold_result]. rewrite classify_subject_acc.
  pose proof (verdict_outcome x) as Hout.
  pose proof (Hno x (list_elem_of_here _ _)) as Hx.
  destruct (verdict lv rv bv x) as [[a c]|e|] eqn:Hv; simpl in *; [| |done].
  - apply IH; [intros sid' Hsid'; apply Hno; by right|].
    exists sid. split_and!; [|done..].
    apply elem_of_cons in Hin as [->|]; [|done].
    rewrite verdict_None in Hv by done. done.
  - apply elem_of_cons in Hout as [->|Hout]; [done|].
    apply list_elem_of_singleton in Hout as ->. done.
Qed.

Lemma classify_fold_outcome subs acc :
  returns_or_raises [AssertionError; ValueError]
    (fold_result (classify_subject lv rv bv) acc subs).
Proof.
  revert acc. induction subs as [|x subs IH]; intros [acts confs]; [done|].
  cbn [fold_result]. rewrite classify_subject_acc.
  pose proof (verdict_outcome x) as Hout.
  destruct (verdict lv rv bv x) as [[a c]|e|]; simpl in *; [|done..].
  apply IH.
Qed.
End classification.

(** ** [three_way_merge_analysis] on well-formed stores *)

Section analysis.
Context `{Host}.

Lemma view_Ok s head :
  store_wf s → head ∈ dom (_commits s) → ∃ v, view s head = Ok v.
Proof.
  intros Hwf Hhead. destruct (commit_chain_Ok s head Hwf Hhead) as (chain & Hc).
  unfold view. rewrite Hc. simpl. eauto.
Qed.

Lemma base_view_Ok s base :
  store_wf s → (∀ b, base = Some b → b ∈ dom (_commits s)) →
  ∃ v, base_view s base = Ok v.
Proof.
  intros Hwf Hbase. destruct base as [b|]; simpl; [|by eauto].
  destruct (truthy b); [|by eauto]. apply view_Ok; auto.
Qed.

Lemma subjects_sorted (S : gset string) :
  NoDup (sort_strings (elements S)) ∧
  ∀ sid, sid ∈ sort_strings (elements S) ↔ sid ∈ S.
Proof.
  unfold sort_strings. split.
  - rewrite py_sorted_perm. apply NoDup_elements.
  - intros sid. rewrite py_sorted_perm. apply elem_of_elements.
Qed.

(** The analysis is the classification loop run over the three views. *)
Lemma analysis_unfold s l r base lv rv bv :
  store_wf s → l ∈ dom (_commits s) → r ∈ dom (_commits s) →
  _pick_base s l r = Ok base →
  (∀ b, base = Some b → b ∈ dom (_commits s)) →
  view s l = Ok lv → view s r = Ok rv → base_view s base = Ok bv →
  three_way_merge_analysis s l r =
    acc ← fold_result (classify_subject lv rv bv) ([], [])
            (sort_strings (elements (dom lv ∪ dom rv ∪ dom bv)));
    Ok {| base_commit := base; left_commit := l; right_commit := r;
          actions := acc.1; conflicts := acc.2;
          decision_note := analysis_note |}.
Proof.
  intros Hwf Hl Hr Hbase Hbdom Hlv Hrv Hbv.
  unfold three_way_merge_analysis, exists_.
  rewrite !bool_decide_eq_true_2 by done. simpl. rewrite Hbase. simpl.
  unfold view in Hlv, Hrv.
  destruct (_commit_chain s l) as [lc| |]; [|done..].
  destruct (_commit_chain s r) as [rc| |]; [|done..].
  simpl in *. injection Hlv as <-. injection Hrv as <-.
  destruct base as [b|]; simpl in *.
  - destruct (truthy b).
    + assert (b ∈ dom (_commits s)) as [cb Hcb]%elem_of_dom by auto.
      unfold get. rewrite Hcb. simpl. unfold view in Hbv.
      destruct (_commit_chain s b) as [bc| |]; [|done..].
      simpl in *. by injection Hbv as <-.
    + by injection Hbv as <-.
  - by injection Hbv as <-.
Qed.

Lemma verdict_left lv rv bv sid lc :
  lv !! sid = Some lc → rv !! sid = None →
  ∃ a, verdict lv rv bv sid = Ok ([a], []) ∧
       entry_get "proposal" a = Some (Some "accept_left").
Proof.
  intros Hl Hr. unfold verdict, classify_subject. rewrite Hl, Hr. eauto.
Qed.

Lemma verdict_right lv rv bv sid rc :
  lv !! sid = None → rv !! sid = Some rc →
  ∃ a, verdict lv rv bv sid = Ok ([a], []) ∧
       entry_get "proposal" a = Some (Some "accept_right").
Proof.
  intros Hl Hr. unfold verdict, classify_subject. rewrite Hl, Hr. eauto.
Qed.

Lemma verdict_either lv rv bv sid lc rc sig :
  lv !! sid = Some lc → rv !! sid = Some rc →
  _semantic_free_payload_change lc = Ok sig →
  _semantic_free_payload_change rc = Ok sig →
  ∃ a, verdict lv rv bv sid = Ok ([a], []) ∧
       entry_get "proposal" a = Some (Some "accept_either").
Proof.
  intros Hl Hr Hls Hrs. unfold verdict, classify_subject.
  rewrite Hl, Hr, Hls, Hrs. simpl. rewrite String.eqb_refl. eauto.
Qed.

Lemma verdict_left_is_base lv rv bv sid lc rc bc l_sig r_sig :
  lv !! sid = Some lc → rv !! sid = Some rc → bv !! sid = Some bc →
  _semantic_free_payload_change lc = Ok l_sig →
  _semantic_free_payload_change rc = Ok r_sig →
  l_sig ≠ r_sig →
  _semantic_free_payload_change bc = Ok l_sig →
  ∃ a, verdict lv rv bv sid = Ok ([a], []) ∧
       entry_get "proposal" a = Some (Some "accept_right").
Proof.
  intros Hl Hr Hb Hls Hrs Hne Hbs. unfold verdict, classify_subject.
  rewrite Hl, Hr, Hb, Hls, Hrs. simpl.
  rewrite (proj2 (String.eqb_neq _ _) Hne). rewrite Hbs. simpl.
  rewrite String.eqb_refl.
  assert (r_sig ≠ l_sig) as Hne' by congruence.
  rewrite (proj2 (String.eqb_neq _ _) Hne'). simpl. eauto.
Qed.

Lemma verdict_right_is_base lv rv bv sid lc rc bc l_sig r_sig :
  lv !! sid = Some lc → rv !! sid = Some rc → bv !! sid = Some bc →
  _semantic_free_payload_change lc = Ok l_sig →
  _semantic_free_payload_change rc = Ok r_sig →
  l_sig ≠ r_sig →
  _semantic_free_payload_change bc = Ok r_sig →
  ∃ a, verdict lv rv bv sid = Ok ([a], []) ∧
       entry_get "proposal" a = Some (Some "accept_left").
Proof.
  intros Hl Hr Hb Hls Hrs Hne Hbs. unfold verdict, classify_subject.
  rewrite Hl, Hr, Hb, Hls, Hrs. simpl.
  rewrite (proj2 (String.eqb_neq _ _) Hne). rewrite Hbs. simpl.
  rewrite String.eqb_refl.
  rewrite (proj2 (String.eqb_neq _ _) Hne). simpl. eauto.
Qed.

Lemma verdict_conflict lv rv bv sid lc rc l_sig r_sig :
  lv !! sid = Some lc → rv !! sid = Some rc →
  _semantic_free_payload_change lc = Ok l_sig →
  _semantic_free_payload_change rc = Ok r_sig →
  l_sig ≠ r_sig →
  (bv !! sid = None ∨
   ∃ bc b_sig, bv !! sid = Some bc ∧
     _semantic_free_payload_change bc = Ok b_sig ∧
     l_sig ≠ b_sig ∧ r_sig ≠ b_sig) →
  ∃ c, verdict lv rv bv sid = Ok ([], [c]) ∧
       entry_get "conflict" c = Some (Some "divergent_updates").
Proof.
  intros Hl Hr Hls Hrs Hne Hb. unfold verdict, classify_subject.
  rewrite Hl, Hr, Hls, Hrs. simpl.
  rewrite (proj2 (String.eqb_neq _ _) Hne).
  destruct Hb as [->|(bc & b_sig & -> & -> & Hlb & Hrb)]; [by eauto|]. simpl.
  rewrite (proj2 (String.eqb_neq _ _) Hlb), (proj2 (String.eqb_neq _ _) Hrb).
  simpl. eauto.
Qed.
End analysis.

(** ** What the analysis returns *)

Section analyzer.
Context `{Host}.

Lemma three_way_merge_analysis_MergeError s l r :
  l ∉ dom (_commits s) ∨ r ∉ dom (_commits s) →
  three_way_merge_analysis s l r = Raise MergeError.
Proof.
  intros Hlr. unfold three_way_merge_analysis, exists_.
  destruct (bool_decide (l ∈ dom (_commits s))) eqn:Hl; simpl; [|done].
  destruct (bool_decide (r ∈ dom (_commits s))) eqn:Hr; simpl; [|done].
  apply bool_decide_eq_true in Hl, Hr. naive_solver.
Qed.

(** On a store built by [append] and two stored heads whose views hold
    commits with signatures only, the analysis stops with a failed
    assertion exactly when some subject of the base view is in neither
    head view; in every other case it returns a decision that classifies
    each subject by the stated rules. *)
Lemma three_way_merge_analysis_spec s l r :
  reachable s → l ∈ dom (_commits s) → r ∈ dom (_commits s) →
  ∃ base lv rv bv,
    _pick_base s l r = Ok base ∧ view s l = Ok lv ∧ view s r = Ok rv ∧
    base_view s base = Ok bv ∧
    ((∀ sid c, lv !! sid = Some c ∨ rv !! sid = Some c ∨ bv !! sid = Some c →
               has_signature c = true) →
     (((∃ sid, sid ∈ dom bv ∧ lv !! sid = None ∧ rv !! sid = None) ∧
       three_way_merge_analysis s l r = Raise AssertionError) ∨
      ((∀ sid, sid ∈ dom bv → is_Some (lv !! sid) ∨ is_Some (rv !! sid)) ∧
       ∃ d, three_way_merge_analysis s l r = Ok d ∧
            base_commit d = base ∧ left_commit d = l ∧ right_commit d = r ∧
            ∀ sid, classified lv rv bv d sid))).
Proof.
  intros Hwf%reachable_wf Hl Hr.
  destruct (pick_base_spec s l r Hwf Hl Hr) as (base & Hbase & Hb).
  assert (Hbdom : ∀ b, base = Some b → b ∈ dom (_commits s))
    by (intros b Hbb; by apply Hb).
  destruct (view_Ok s l Hwf Hl) as (lv & Hlv).
  destruct (view_Ok s r Hwf Hr) as (rv & Hrv).
  destruct (base_view_Ok s base Hwf Hbdom) as (bv & Hbv).
  exists base, lv, rv, bv. split_and!; [done..|]. intros Hsig.
  rewrite (analysis_unfold s l r base lv rv bv) by done.
  destruct (subjects_sorted (dom lv ∪ dom rv ∪ dom bv)) as [Hnd Hin].
  set (subs := sort_strings (elements (dom lv ∪ dom rv ∪ dom bv))) in *.
  assert (Hverdicts : ∀ sid, is_Some (lv !! sid) ∨ is_Some (rv !! sid) →
            ∃ a c, verdict lv rv bv sid = Ok (a, c)).
  { intros sid Hsome. apply verdict_signed; [done|]. intros c. apply Hsig. }
  destruct (decide (Exists (λ sid, lv !! sid = None ∧ rv !! sid = None) subs))
    as [Hbad|Hgood]; rewrite Exists_exists in *.
  - left. split.
    + destruct Hbad as (sid & Hsid & Hlnone & Hrnone). exists sid.
      split_and!; [|done..]. apply Hin in Hsid.
      rewrite !elem_of_union, !elem_of_dom, Hlnone, Hrnone in Hsid.
      destruct Hsid as [[[? ?]|[? ?]]|?]; [done..|]. by apply elem_of_dom.
    + rewrite classify_fold_Raise; [done| |done].
      intros sid _ Hv.
      destruct (lv !! sid) eqn:Hlsid;
        [destruct (Hverdicts sid) as (? & ? & ?); [rewrite Hlsid; eauto|congruence]|].
      destruct (rv !! sid) eqn:Hrsid;
        [destruct (Hverdicts sid) as (? & ? & ?); [rewrite Hrsid; eauto|congruence]|].
      rewrite verdict_None in Hv by done. done.
  - right.
    assert (Hall : ∀ sid, sid ∈ subs → is_Some (lv !! sid) ∨ is_Some (rv !! sid)).
    { intros sid Hsid.
      destruct (lv !! sid) eqn:Hlsid; [by eauto|].
      destruct (rv !! sid) eqn:Hrsid; [by eauto|].
      exfalso. apply Hgood. by exists sid. }
    split.
    { intros sid Hsid. apply Hall, Hin. set_solver. }
    destruct (classify_fold_Ok lv rv bv subs [] []) as (acc' & Hfold).
    { intros sid Hsid. by apply Hverdicts, Hall. }
    destruct (classify_fold_inv lv rv bv subs [] [] acc' Hnd Hfold)
      as (na & nc & -> & Hspec).
    rewrite Hfold. simpl. eexists. split; [done|]. simpl.
    split_and!; [done..|]. intros sid.
    destruct (Hspec sid) as [Hspec_in _].
    assert (Hverdict_act : ∀ a p,
      sid ∈ subs → verdict lv rv bv sid = Ok ([a], []) →
      entry_get "proposal" a = Some (Some p) →
      proposes {| base_commit := base; left_commit := l; right_commit := r;
                  actions := na; conflicts := nc;
                  decision_note := analysis_note |} sid p).
    { intros a p Hsid Hv Hp.
      destruct (Hspec_in Hsid) as (a' & c' & Hv' & Ha' & Hc').
      rewrite Hv in Hv'. injection Hv' as <- <-.
      exists a. by simpl. }
    assert (Hsub_l : ∀ lc, lv !! sid = Some lc → sid ∈ subs).
    { intros lc Hlc. apply Hin. rewrite !elem_of_union, !elem_of_dom, Hlc. eauto. }
    assert (Hsub_r : ∀ rc, rv !! sid = Some rc → sid ∈ subs).
    { intros rc Hrc. apply Hin. rewrite !elem_of_union, !elem_of_dom, Hrc. eauto. }
    split_and!.
    + intros lc Hlc Hrn.
      destruct (verdict_left lv rv bv sid lc Hlc Hrn) as (a & Hv & Hp). eauto.
    + intros rc Hln Hrc.
      destruct (verdict_right lv rv bv sid rc Hln Hrc) as (a & Hv & Hp). eauto.
    + intros lc rc l_sig r_sig Hlc Hrc Hls Hrs. split_and!.
      * intros <-.
        destruct (verdict_either lv rv bv sid lc rc l_sig Hlc Hrc Hls Hrs)
          as (a & Hv & Hp).
        eauto.
      * intros Hne. split_and!.
        -- intros bc Hbc Hbs.
           destruct (verdict_left_is_base lv rv bv sid lc rc bc l_sig r_sig
                       Hlc Hrc Hbc Hls Hrs Hne Hbs) as (a & Hv & Hp). eauto.
        -- intros bc Hbc Hbs.
           destruct (verdict_right_is_base lv rv bv sid lc rc bc l_sig r_sig
                       Hlc Hrc Hbc Hls Hrs Hne Hbs) as (a & Hv & Hp). eauto.
        -- intros Hbcase.
           destruct (verdict_conflict lv rv bv sid lc rc l_sig r_sig
                       Hlc Hrc Hls Hrs Hne Hbcase) as (c & Hv & Hp).
           destruct (Hspec_in (Hsub_l _ Hlc)) as (a' & c' & Hv' & Ha' & Hc').
           rewrite Hv in Hv'. injection Hv' as <- <-.
           split; simpl; [done|]. by exists c.
Qed.

(** On two stored heads the analysis returns a decision, or stops with a
    failed assertion or with the ValueError of a signature. *)
Lemma three_way_merge_analysis_outcome s l r :
  reachable s → l ∈ dom (_commits s) → r ∈ dom (_commits s) →
  returns_or_raises [AssertionError; ValueError] (three_way_merge_analysis s l r).
Proof.
  intros Hwf%reachable_wf Hl Hr.
  destruct (pick_base_spec s l r Hwf Hl Hr) as (base & Hbase & Hb).
  assert (Hbdom : ∀ b, base = Some b → b ∈ dom (_commits s))
    by (intros b Hbb; by apply Hb).
  destruct (view_Ok s l Hwf Hl) as (lv & Hlv).
  destruct (view_Ok s r Hwf Hr) as (rv & Hrv).
  destruct (base_view_Ok s base Hwf Hbdom) as (bv & Hbv).
  rewrite (analysis_unfold s l r base lv rv bv) by done.
  pose proof (classify_fold_outcome lv rv bv
    (sort_strings (elements (dom lv ∪ dom rv ∪ dom bv))) ([], [])) as Hout.
  by destruct (fold_result _ _ _).
Qed.

(** MergeError is raised exactly when a head is not in the store. *)
Lemma three_way_merge_analysis_MergeError_iff s l r :
  reachable s →
  three_way_merge_analysis s l r = Raise MergeError ↔
  l ∉ dom (_commits s) ∨ r ∉ dom (_commits s).
Proof.
  intros Hs. split; [|apply three_way_merge_analysis_MergeError].
  intros Hraise.
  destruct (decide (l ∈ dom (_commits s))) as [Hl|Hl]; [|by left].
  destruct (decide (r ∈ dom (_commits s))) as [Hr|Hr]; [|by right].
  pose proof (three_way_merge_analysis_outcome s l r Hs Hl Hr) as Hout.
  rewrite Hraise in Hout. simpl in Hout. set_solver.
Qed.

(** C1. The store [merged_store] holds two branches [l] and [r] of a
    genesis and the two merge commits [m1] and [m2] with parents (l, r).
    Subject B is in the view of the head [m1] and not in the view of the
    head [m2], so the rules ask for an accept_left action; the analysis of
    the two heads returns no decision at all: it stops with a failed
    assertion. *)
Theorem analysis_drops_left_only_subject :
  exists_ merged_store "m1" = true ∧ exists_ merged_store "m2" = true ∧
  view_has merged_store "m1" "B" = true ∧
  view_has merged_store "m2" "B" = false ∧
  ∀ d, three_way_merge_analysis merged_store "m1" "m2" ≠ Ok d.
Proof.
  split_and!; [vm_compute; reflexivity..|].
  intros d. assert (three_way_merge_analysis merged_store "m1" "m2"
                    = Raise AssertionError) as ->; [|done].
  vm_compute. reflexivity.
Qed.

(** C2. Both heads [m1] and [m2] are in [merged_store], and the analysis
    still fails: it raises AssertionError, because subject A of the base
    view is in neither head view. *)
Theorem analysis_fails_on_stored_heads :
  exists_ merged_store "m1" = true ∧ exists_ merged_store "m2" = true ∧
  three_way_merge_analysis merged_store "m1" "m2" = Raise AssertionError.
Proof. split_and!; vm_compute; reflexivity. Qed.
End analyzer.
(* ================================================================== *)
(** * Fingerprints and the merge committer *)

Section fingerprints.
Context `{Host}.

Lemma truthy_true s : truthy s = true ↔ s ≠ "".
Proof. unfold truthy. rewrite negb_true_iff. apply String.eqb_neq. Qed.

Lemma canonicalize_envelope version kind namespace scope inner :
  canonicalize_payload (envelope version kind namespace scope inner)
    = Ok (envelope_text version kind namespace scope inner).
Proof. reflexivity. Qed.

Lemma canonical_fingerprint_guard kind namespace payload scope version :
  kind = "" ∨ namespace = "" →
  canonical_fingerprint kind namespace payload scope version = Raise IdentityError.
Proof. intros [-> | ->]; unfold canonical_fingerprint; [done|]. by rewrite orb_true_r. Qed.

(** Past the guard, the fingerprint is the digest of the UTF-8 form of the
    canonical envelope around the canonical payload. *)
Lemma canonical_fingerprint_unfold kind namespace payload scope version :
  kind ≠ "" → namespace ≠ "" →
  canonical_fingerprint kind namespace payload scope version =
    inner ← canonicalize_payload payload;
    data ← encode_utf8 (envelope_text version kind namespace scope inner);
    Ok (blake2b_hexdigest32 data).
Proof.
  intros Hk%truthy_true Hn%truthy_true. unfold canonical_fingerprint.
  rewrite Hk, Hn. cbn [negb orb].
  destruct (canonicalize_payload payload) as [inner| |]; [|done..].
  cbn [mbind result_bind].
  change (PyDict _) with (envelope version kind namespace scope inner).
  by rewrite canonicalize_envelope.
Qed.

Lemma canonical_fingerprint_Ok kind namespace payload scope version inner :
  kind ≠ "" → namespace ≠ "" → canonicalize_payload payload = Ok inner →
  has_surrogate (envelope_text version kind namespace scope inner) = false →
  canonical_fingerprint kind namespace payload scope version
    = Ok (blake2b_hexdigest32 (envelope_text version kind namespace scope inner)).
Proof.
  intros Hk Hn Hp Hsur. rewrite canonical_fingerprint_unfold by done.
  rewrite Hp. cbn [mbind result_bind]. unfold encode_utf8. by rewrite Hsur.
Qed.

Lemma canonical_fingerprint_surrogate kind namespace payload scope version inner :
  kind ≠ "" → namespace ≠ "" → canonicalize_payload payload = Ok inner →
  has_surrogate (envelope_text version kind namespace scope inner) = true →
  canonical_fingerprint kind namespace payload scope version
    = Raise UnicodeEncodeError.
Proof.
  intros Hk Hn Hp Hsur. rewrite canonical_fingerprint_unfold by done.
  rewrite Hp. cbn [mbind result_bind]. unfold encode_utf8. by rewrite Hsur.
Qed.

Lemma canonical_fingerprint_payload_raises kind namespace payload scope version e :
  kind ≠ "" → namespace ≠ "" → canonicalize_payload payload = Raise e →
  canonical_fingerprint kind namespace payload scope version = Raise e.
Proof.
  intros Hk Hn Hp. rewrite canonical_fingerprint_unfold by done. by rewrite Hp.
Qed.

(** A fingerprint that is returned. *)
Lemma canonical_fingerprint_Ok_inv k n p s v f :
  canonical_fingerprint k n p s v = Ok f →
  k ≠ "" ∧ n ≠ "" ∧
  ∃ inner, canonicalize_payload p = Ok inner ∧
           has_surrogate (envelope_text v k n s inner) = false ∧
           f = blake2b_hexdigest32 (envelope_text v k n s inner).
Proof.
  intros Hf.
  destruct (decide (k = "")) as [->|Hk];
    [by rewrite canonical_fingerprint_guard in Hf by (by left)|].
  destruct (decide (n = "")) as [->|Hn];
    [by rewrite canonical_fingerprint_guard in Hf by (by right)|].
  rewrite canonical_fingerprint_unfold in Hf by done.
  destruct (canonicalize_payload p) as [inner| |]; [|done..].
  cbn [mbind result_bind] in Hf. unfold encode_utf8 in Hf.
  destruct (has_surrogate _) eqn:Hsur; [done|]. injection Hf as <-.
  split_and!; [done..|]. by exists inner.
Qed.

Lemma canonical_fingerprint_shape k n p s v f :
  canonical_fingerprint k n p s v = Ok f →
  k ≠ "" ∧ n ≠ "" ∧
  ∃ inner, canonicalize_payload p = Ok inner ∧
           f = blake2b_hexdigest32 (envelope_text v k n s inner).
Proof.
  intros (Hk & Hn & inner & Hp & _ & Hf)%canonical_fingerprint_Ok_inv.
  split_and!; [done..|]. by exists inner.
Qed.

(** The fingerprint depends on the payload through its canonical text
    only. *)
Lemma canonical_fingerprint_same_text k n p p' s v inner :
  canonicalize_payload p = Ok inner → canonicalize_payload p' = Ok inner →
  canonical_fingerprint k n p' s v = canonical_fingerprint k n p s v.
Proof.
  intros Hp Hp'. unfold canonical_fingerprint. by rewrite Hp, Hp'.
Qed.

Lemma canonical_fingerprint_outcome k n p s v :
  returns_or_raises
    [IdentityError; CanonicalizationError; ValueError; UnicodeEncodeError]
    (canonical_fingerprint k n p s v).
Proof.
  destruct (decide (k = "")) as [->|Hk];
    [rewrite canonical_fingerprint_guard by (by left); by left|].
  destruct (decide (n = "")) as [->|Hn];
    [rewrite canonical_fingerprint_guard by (by right); by left|].
  rewrite canonical_fingerprint_unfold by done.
  pose proof (canonicalize_payload_outcome p) as Hp.
  destruct (canonicalize_payload p) as [inner|e|]; simpl in *; [| |done].
  - unfold encode_utf8. destruct (has_surrogate _); simpl; [|done]. set_solver.
  - set_solver.
Qed.

(** [create] returns the anchor with the fingerprint as its id, and raises
    what [canonical_fingerprint] raises. *)
Lemma create_unfold kind namespace payload scope version :
  create kind namespace payload scope version =
    match canonical_fingerprint kind namespace payload scope version with
    | Ok fp => Ok {| id := fp; kind := kind; namespace := namespace;
                     scope := scope; version := version |}
    | Raise e => Raise e
    | Diverge => Diverge
    end.
Proof. unfold create. by destruct (canonical_fingerprint _ _ _ _ _). Qed.
End fingerprints.

Section committer.
Context `{Host}.
Variables (draws : nat → string * Z) (l r kind namespace scope note : string).

(** One turn of the loop for a pair whose anchor is recomputed. *)
Lemma commit_merge_loop_cons store i sid pl rest acc fp :
  l ∈ dom (_commits store) → r ∈ dom (_commits store) →
  canonical_fingerprint kind namespace (PyDict pl) scope "v1" = Ok fp →
  ∃ store1 o sid',
    append store (draws i).1 (draws i).2 [l; r] o sid' kind namespace scope
      (Some pl) note
    = (Ok (merge_commit_for (draws i) l r sid fp pl kind namespace scope note),
       store1) ∧
    commit_merge_loop store draws i l r ((sid, pl) :: rest)
      kind namespace scope note acc
    = commit_merge_loop store1 draws (S i) l r rest kind namespace scope note
        (acc ++ [merge_commit_for (draws i) l r sid fp pl
                   kind namespace scope note]).
Proof.
  intros Hl Hr Hfp.
  cbn [commit_merge_loop]. rewrite create_unfold, Hfp. cbn [id].
  assert (Hps : ∀ p, p ∈ [l; r] → p ∈ dom (_commits store)) by set_solver.
  unfold merge_commit_for. destruct (String.eqb fp sid).
  - destruct (append_Ok store (draws i).1 (draws i).2 [l; r] "merge" sid
                kind namespace scope (Some pl) note Hps) as (c & store1 & Happ).
    pose proof Happ as (_ & -> & _)%append_inv.
    exists store1, "merge", sid. by rewrite Happ.
  - destruct (append_Ok store (draws i).1 (draws i).2 [l; r] "replace" fp
                kind namespace scope (Some pl) note Hps) as (c & store1 & Happ).
    pose proof Happ as (_ & -> & _)%append_inv.
    exists store1, "replace", fp. by rewrite Happ.
Qed.

(** One turn of the loop for a pair whose anchor cannot be recomputed:
    nothing is appended. *)
Lemma commit_merge_loop_raises store i sid pl rest acc e :
  canonical_fingerprint kind namespace (PyDict pl) scope "v1" = Raise e →
  commit_merge_loop store draws i l r ((sid, pl) :: rest)
    kind namespace scope note acc
  = (Raise e, store).
Proof.
  intros Hfp. cbn [commit_merge_loop]. by rewrite create_unfold, Hfp.
Qed.

Lemma commit_merge_loop_app xs ys store i acc :
  commit_merge_loop store draws i l r (xs ++ ys) kind namespace scope note acc =
    match commit_merge_loop store draws i l r xs kind namespace scope note acc with
    | (Ok acc', store') =>
        commit_merge_loop store' draws (i + length xs) l r ys
          kind namespace scope note acc'
    | other => other
    end.
Proof.
  revert store i acc. induction xs as [|[sid pl] xs IH]; intros store i acc.
  { cbn [app commit_merge_loop length]. by rewrite Nat.add_0_r. }
  cbn [app commit_merge_loop length].
  destruct (create kind namespace (PyDict pl) scope "v1") as [anchor| |]; [|done..].
  destruct (if String.eqb (id anchor) sid then ("merge", sid)
            else ("replace", id anchor)) as [o sid'].
  destruct (append store (draws i).1 (draws i).2 [l; r] o sid' kind namespace
              scope (Some pl) note) as [[c| |] store1]; [|done..].
  rewrite IH. by replace (S i + length xs) with (i + S (length xs)) by lia.
Qed.

(** The loop over pairs whose anchors can all be recomputed. *)
Lemma commit_merge_loop_spec store i items acc :
  l ∈ dom (_commits store) → r ∈ dom (_commits store) →
  (∀ sid pl, (sid, pl) ∈ items →
     ∃ fp, canonical_fingerprint kind namespace (PyDict pl) scope "v1" = Ok fp) →
  ∃ cs store',
    commit_merge_loop store draws i l r items kind namespace scope note acc
      = (Ok (acc ++ cs), store') ∧
    length cs = length items ∧
    _commits store' = foldl (λ m c, <[commit_id c := c]> m) (_commits store) cs ∧
    (∀ j sid pl, items !! j = Some (sid, pl) →
      ∃ fp, canonical_fingerprint kind namespace (PyDict pl) scope "v1" = Ok fp ∧
            cs !! j = Some (merge_commit_for (draws (i + j)) l r sid fp pl
                              kind namespace scope note)) ∧
    (∀ j c, cs !! j = Some c → commit_id c = (draws (i + j)).1) ∧
    (∀ k, k ∈ dom (_commits store') ↔
          k ∈ dom (_commits store) ∨
          ∃ j, j < length items ∧ k = (draws (i + j)).1).
Proof.
  revert store i acc.
  induction items as [|[sid pl] items IH]; intros store i acc Hl Hr Hcan.
  { exists [], store. rewrite app_nil_r. split_and!; [done..| | |].
    - intros j ? ? Hj. by rewrite lookup_nil in Hj.
    - intros j c Hj. by rewrite lookup_nil in Hj.
    - intros k. split; [by left|]. intros [?|(j & Hj & _)]; [done|].
      simpl in Hj. lia. }
  destruct (Hcan sid pl) as (fp & Hfp); [by left|].
  destruct (commit_merge_loop_cons store i sid pl items acc fp Hl Hr Hfp)
    as (store1 & o & sid' & Happ & Hstep).
  set (c := merge_commit_for (draws i) l r sid fp pl kind namespace scope note) in *.
  destruct (append_inv _ _ _ _ _ _ _ _ _ _ _ _ _ Happ) as (_ & _ & Hcs1 & _).
  assert (Hdom1 : ∀ k, k ∈ dom (_commits store1) ↔
                       k = (draws i).1 ∨ k ∈ dom (_commits store)).
  { intros k. rewrite Hcs1, dom_insert. set_solver. }
  destruct (IH store1 (S i) (acc ++ [c]))
    as (cs & store' & Hloop & Hlen & Hcs & Hspec & Hids & Hdom).
  { apply Hdom1. by right. }
  { apply Hdom1. by right. }
  { intros sid0 pl0 Hin. apply (Hcan sid0 pl0). by right. }
  exists (c :: cs), store'. rewrite Hstep, Hloop, <- app_assoc.
  split_and!; [done| | | | |].
  - simpl. by rewrite Hlen.
  - rewrite Hcs, Hcs1. done.
  - intros [|j] sid0 pl0 Hj; simpl in Hj.
    + injection Hj as <- <-. exists fp. rewrite Nat.add_0_r. done.
    + destruct (Hspec j sid0 pl0 Hj) as (fp0 & Hfp0 & Hc0).
      exists fp0. split; [done|]. simpl.
      by replace (i + S j) with (S i + j) by lia.
  - intros [|j] c0 Hj; simpl in Hj.
    + injection Hj as <-. by rewrite Nat.add_0_r.
    + rewrite (Hids j c0 Hj). by replace (S i + j) with (i + S j) by lia.
  - intros k. rewrite Hdom, Hdom1. split.
    + intros [[->|Hk]|(j & Hj & ->)].
      * right. exists 0. split; [simpl; lia|]. by rewrite Nat.add_0_r.
      * by left.
      * right. exists (S j). split; [simpl; lia|].
        by replace (i + S j) with (S i + j) by lia.
    + intros [Hk|([|j] & Hj & ->)].
      * left. by right.
      * left. left. by rewrite Nat.add_0_r.
      * right. exists j. split; [simpl in Hj; lia|].
        by replace (i + S j) with (S i + j) by lia.
Qed.

Lemma commit_merge_MergeError store decision items :
  l ∉ dom (_commits store) ∨ r ∉ dom (_commits store) →
  commit_merge store draws (l, r) decision items kind namespace scope note
    = (Raise MergeError, store).
Proof.
  intros Hlr. unfold commit_merge, exists_. simpl.
  destruct (bool_decide (l ∈ dom (_commits store))) eqn:Hl; simpl; [|done].
  destruct (bool_decide (r ∈ dom (_commits store))) eqn:Hr; simpl; [|done].
  apply bool_decide_eq_true in Hl, Hr. naive_solver.
Qed.

Lemma commit_merge_stored_heads store decision items :
  l ∈ dom (_commits store) → r ∈ dom (_commits store) →
  commit_merge store draws (l, r) decision items kind namespace scope note
    = commit_merge_loop store draws 0 l r items kind namespace scope note [].
Proof.
  intros Hl Hr. unfold commit_merge, exists_. cbn [fst snd].
  by rewrite !bool_decide_eq_true_2 by done.
Qed.

(** The first pair whose anchor cannot be recomputed stops the call with
    the exception of the recomputation; the store is then the one that the
    call on the pairs before it leaves. *)
Lemma commit_merge_stops store decision good sid bad rest e :
  l ∈ dom (_commits store) → r ∈ dom (_commits store) →
  (∀ sid' pl, (sid', pl) ∈ good →
     ∃ fp, canonical_fingerprint kind namespace (PyDict pl) scope "v1" = Ok fp) →
  canonical_fingerprint kind namespace (PyDict bad) scope "v1" = Raise e →
  ∃ cs store',
    commit_merge store draws (l, r) decision good kind namespace scope note
      = (Ok cs, store') ∧
    commit_merge store draws (l, r) decision (good ++ (sid, bad) :: rest)
      kind namespace scope note
      = (Raise e, store') ∧
    length cs = length good ∧
    (∀ j c, cs !! j = Some c → commit_id c = (draws j).1) ∧
    (∀ k, k ∈ dom (_commits store') ↔
          k ∈ dom (_commits store) ∨ ∃ j, j < length good ∧ k = (draws j).1).
Proof.
  intros Hl Hr Hgood Hbad.
  destruct (commit_merge_loop_spec store 0 good [] Hl Hr Hgood)
    as (cs & store' & Hloop & Hlen & _ & _ & Hids & Hdom).
  exists cs, store'. rewrite !commit_merge_stored_heads by done.
  rewrite commit_merge_loop_app, Hloop. cbn [app].
  rewrite (commit_merge_loop_raises _ _ _ _ _ _ e) by done.
  split_and!; done.
Qed.
End committer.

Lemma insert_commits_lookup (m : gmap string Commit) cs :
  NoDup (commit_id <$> cs) →
  (∀ c, c ∈ cs → foldl (λ m c, <[commit_id c := c]> m) m cs !! commit_id c = Some c) ∧
  (∀ k, k ∉ commit_id <$> cs →
        foldl (λ m c, <[commit_id c := c]> m) m cs !! k = m !! k).
Proof.
  revert m. induction cs as [|c cs IH]; intros m Hnd; simpl.
  { split; [|done]. intros c Hc. inversion Hc. }
  rewrite fmap_cons in Hnd. apply NoDup_cons in Hnd as [Hc Hnd].
  destruct (IH (<[commit_id c := c]> m) Hnd) as [IH1 IH2]. split.
  - intros c' [->|Hc']%elem_of_cons; [|by apply IH1].
    rewrite IH2 by done. apply lookup_insert_eq.
  - intros k Hk. apply not_elem_of_cons in Hk as [Hk1 Hk2].
    rewrite IH2 by done. by rewrite lookup_insert_ne.
Qed.
Section committer_claims.
Context `{Host}.

(** C6 (amended). [commit_merge] raises MergeError when a parent head is
    not in the store.  With both heads stored, the anchor id of every
    (subject id, payload) pair is recomputed, in order, from kind,
    namespace, scope and the payload.  When every recomputation returns,
    each pair gets one commit: it has the two heads as parents and carries
    the payload; it has operation merge under the given subject id when
    the recomputed id equals it, and operation replace under the
    recomputed id otherwise; when the drawn commit ids are new and
    distinct, each of these commits is stored under its id and the earlier
    commits are unchanged.  When the recomputation for a pair raises, the
    call raises the same exception, appends no commit for that pair or any
    later one, and leaves the commits of the pairs before it in the store;
    in particular an empty kind or namespace stops the call at the first
    pair with IdentityError and the store as it was. *)
Theorem commit_merge_appends store draws l r decision items kind namespace scope note :
  ((l ∉ dom (_commits store) ∨ r ∉ dom (_commits store)) →
     commit_merge store draws (l, r) decision items kind namespace scope note
       = (Raise MergeError, store)) ∧
  (l ∈ dom (_commits store) → r ∈ dom (_commits store) →
   (∀ sid pl, (sid, pl) ∈ items →
      ∃ fp, canonical_fingerprint kind namespace (PyDict pl) scope "v1" = Ok fp) →
   ∃ cs store',
     commit_merge store draws (l, r) decision items kind namespace scope note
       = (Ok cs, store') ∧
     length cs = length items ∧
     (∀ j sid pl, items !! j = Some (sid, pl) →
        ∃ fp c,
          canonical_fingerprint kind namespace (PyDict pl) scope "v1" = Ok fp ∧
          cs !! j = Some c ∧
          commit_id c = (draws j).1 ∧
          parents c = [l; r] ∧ payload c = pl ∧
          (fp = sid → op c = "merge" ∧ subject_id c = sid) ∧
          (fp ≠ sid → op c = "replace" ∧ subject_id c = fp)) ∧
     ((∀ j, j < length items → _commits store !! (draws j).1 = None) →
      (∀ j k, j < k < length items → (draws j).1 ≠ (draws k).1) →
      (∀ c, c ∈ cs → _commits store' !! commit_id c = Some c) ∧
      (∀ k c0, _commits store !! k = Some c0 → _commits store' !! k = Some c0))) ∧
  (l ∈ dom (_commits store) → r ∈ dom (_commits store) →
   ∀ good sid bad rest e,
     items = good ++ (sid, bad) :: rest →
     (∀ sid' pl, (sid', pl) ∈ good →
        ∃ fp, canonical_fingerprint kind namespace (PyDict pl) scope "v1" = Ok fp) →
     canonical_fingerprint kind namespace (PyDict bad) scope "v1" = Raise e →
     ∃ cs store',
       commit_merge store draws (l, r) decision good kind namespace scope note
         = (Ok cs, store') ∧
       commit_merge store draws (l, r) decision items kind namespace scope note
         = (Raise e, store') ∧
       length cs = length good ∧
       (∀ k, k ∈ dom (_commits store') ↔
             k ∈ dom (_commits store) ∨
             ∃ j, j < length good ∧ k = (draws j).1)) ∧
  (l ∈ dom (_commits store) → r ∈ dom (_commits store) →
   kind = "" ∨ namespace = "" → items ≠ [] →
   commit_merge store draws (l, r) decision items kind namespace scope note
     = (Raise IdentityError, store)) ∧
  (∀ pl, canonical_fingerprint kind namespace (PyDict pl) scope "v1" =
         if negb (truthy kind) || negb (truthy namespace)
         then Raise IdentityError
         else inner ← canonicalize_payload (PyDict pl);
              data ← encode_utf8 (envelope_text "v1" kind namespace scope inner);
              Ok (blake2b_hexdigest32 data)).
Proof.
  split_and!; [apply commit_merge_MergeError| | | |].
  - intros Hl Hr Hcan. rewrite commit_merge_stored_heads by done.
    destruct (commit_merge_loop_spec draws l r kind namespace scope note
                store 0 items [] Hl Hr Hcan)
      as (cs & store' & Hloop & Hlen & Hcs & Hspec & Hids & _).
    exists cs, store'. split_and!; [done..| |].
    + intros j sid pl Hj. destruct (Hspec j sid pl Hj) as (fp & Hfp & Hc).
      eexists fp, _. split_and!; [done..| |]; simpl.
      * intros ->. by rewrite String.eqb_refl.
      * intros Hne%String.eqb_neq. by rewrite Hne.
    + intros Hfresh Hdistinct.
      assert (Hnd : NoDup (commit_id <$> cs)).
      { apply NoDup_alt. intros j k u Hju Hku.
        apply list_lookup_fmap_Some in Hju as (cj & -> & Hcj).
        apply list_lookup_fmap_Some in Hku as (ck & Heq & Hck).
        rewrite (Hids _ _ Hcj), (Hids _ _ Hck) in Heq. simpl in Heq.
        pose proof (lookup_lt_Some _ _ _ Hcj) as Hjlt.
        pose proof (lookup_lt_Some _ _ _ Hck) as Hklt.
        destruct (Nat.lt_trichotomy j k) as [Hlt|[->|Hlt]]; [|done|].
        - exfalso. apply (Hdistinct j k); [lia|done].
        - exfalso. apply (Hdistinct k j); [lia|done]. }
      destruct (insert_commits_lookup (_commits store) cs Hnd) as [Hin Hout].
      rewrite Hcs. split; [done|].
      intros k c0 Hk0. rewrite Hout; [done|].
      intros (c & -> & Hc)%list_elem_of_fmap.
      apply list_elem_of_lookup in Hc as [j Hj].
      rewrite (Hids _ _ Hj) in Hk0. simpl in Hk0. rewrite Hfresh in Hk0; [done|].
      rewrite <- Hlen. by eapply lookup_lt_Some.
  - intros Hl Hr good sid bad rest e -> Hgood Hbad.
    destruct (commit_merge_stops draws l r kind namespace scope note store
                decision good sid bad rest e Hl Hr Hgood Hbad)
      as (cs & store' & Hok & Hfail & Hlen & _ & Hdom).
    by exists cs, store'.
  - intros Hl Hr Hempty Hne. rewrite commit_merge_stored_heads by done.
    destruct items as [|[sid pl] rest]; [done|].
    apply commit_merge_loop_raises. by apply canonical_fingerprint_guard.
  - intros pl.
    destruct (decide (kind = "")) as [->|Hk];
      [by rewrite canonical_fingerprint_guard by (by left)|].
    destruct (decide (namespace = "")) as [->|Hn].
    { rewrite canonical_fingerprint_guard by (by right).
      by rewrite orb_true_r. }
    rewrite canonical_fingerprint_unfold by done.
    apply truthy_true in Hk, Hn. by rewrite Hk, Hn.
Qed.

(** C3 (amended). For every non-empty kind and namespace, every scope and
    schema version and every payload that can be canonicalized, when the
    canonical encoding of the envelope {version, kind, namespace, scope,
    payload: CanonicalEncode(payload)} holds no lone surrogate, the
    fingerprint is the digest of that encoding; the encoding lists the
    five fields in ascending key order; the id depends on the payload only
    through its canonical string; and an anchor built from the same inputs
    has the same id.  When the encoding holds a lone surrogate, the code
    raises UnicodeEncodeError instead. *)
Theorem fingerprint_is_digest_of_envelope kind namespace scope version payload inner :
  kind ≠ "" → namespace ≠ "" → canonicalize_payload payload = Ok inner →
  (has_surrogate (envelope_text version kind namespace scope inner) = false →
   canonical_fingerprint kind namespace payload scope version
     = Fingerprint kind namespace scope version payload ∧
   canonical_fingerprint kind namespace payload scope version
     = Ok (blake2b_hexdigest32 (envelope_text version kind namespace scope inner)) ∧
   (∀ payload', canonicalize_payload payload' = Ok inner →
      canonical_fingerprint kind namespace payload' scope version
        = canonical_fingerprint kind namespace payload scope version) ∧
   (∃ a, create kind namespace payload scope version = Ok a ∧
         id a = blake2b_hexdigest32
                  (envelope_text version kind namespace scope inner) ∧
         ∀ a', create kind namespace payload scope version = Ok a' →
               id a' = id a)) ∧
  (has_surrogate (envelope_text version kind namespace scope inner) = true →
   canonical_fingerprint kind namespace payload scope version
     = Raise UnicodeEncodeError ∧
   create kind namespace payload scope version = Raise UnicodeEncodeError).
Proof.
  intros Hk Hn Hp. split.
  - intros Hsur.
    pose proof (canonical_fingerprint_Ok kind namespace payload scope version
                  inner Hk Hn Hp Hsur) as Hfp.
    split_and!; [|done| |].
    + rewrite Hfp. unfold Fingerprint. rewrite Hp. cbn -[canonicalize_payload].
      by rewrite canonicalize_envelope.
    + intros payload' Hp'. by apply (canonical_fingerprint_same_text _ _ _ _ _ _ inner).
    + rewrite create_unfold, Hfp. eexists. split; [done|]. split; [done|].
      by intros a' [= <-].
  - intros Hsur.
    pose proof (canonical_fingerprint_surrogate kind namespace payload scope
                  version inner Hk Hn Hp Hsur) as Hfp.
    split; [done|]. by rewrite create_unfold, Hfp.
Qed.
End committer_claims.

Lemma commit_merge_appends_witness :
  let H := example_host in
  let items := [("A", [(PyStr "statement", PyInt 1)])] in
  "l" ∈ dom (_commits branched_store) ∧ "r" ∈ dom (_commits branched_store) ∧
  ∃ cs store',
    commit_merge branched_store (λ _, ("m", 4%Z)) ("l", "r") example_decision
      items "motif" "A1.demo" "global" "merge commit" = (Ok cs, store') ∧
    length cs = 1.
Proof.
  intros H items.
  assert (Hl : "l" ∈ dom (_commits branched_store))
    by (apply elem_of_dom; vm_compute; eauto).
  assert (Hr : "r" ∈ dom (_commits branched_store))
    by (apply elem_of_dom; vm_compute; eauto).
  split_and!; [done..|].
  destruct (proj1 (proj2 (commit_merge_appends (H := H) branched_store
                     (λ _, ("m", 4%Z)) "l" "r" example_decision items
                     "motif" "A1.demo" "global" "merge commit")) Hl Hr)
    as (cs & store' & Hcm & Hlen & _).
  - intros sid pl Hin. apply list_elem_of_singleton in Hin. injection Hin as -> ->.
    eexists. vm_compute. reflexivity.
  - exists cs, store'. done.
Defined.

(** C6, as stated, fails: both heads are stored and a (subject id, payload)
    pair is passed, but the anchor cannot be recomputed, once because the
    payload holds a bytes value and once because the kind is empty: the call
    raises CanonicalizationError, respectively IdentityError, and appends
    nothing. *)
Lemma commit_merge_anchor_failures :
  exists_ branched_store "l" = true ∧ exists_ branched_store "r" = true ∧
  commit_merge (H := example_host) branched_store (λ _, ("m", 4%Z)) ("l", "r")
    example_decision [("A", [(PyStr "blob", PyBytes "x")])]
    "motif" "A1.demo" "global" "merge commit"
  = (Raise CanonicalizationError, branched_store) ∧
  commit_merge (H := example_host) branched_store (λ _, ("m", 4%Z)) ("l", "r")
    example_decision [("A", [(PyStr "statement", PyInt 1)])]
    "" "A1.demo" "global" "merge commit"
  = (Raise IdentityError, branched_store).
Proof. split_and!; vm_compute; reflexivity. Qed.

Lemma fingerprint_is_digest_of_envelope_witness :
  let H := example_host in
  canonical_fingerprint "motif" "A1.demo" (PyDict [(PyStr "b", PyInt 2); (PyStr "a", PyNone)])
    "global" "v1"
  = Fingerprint "motif" "A1.demo" "global" "v1"
      (PyDict [(PyStr "b", PyInt 2); (PyStr "a", PyNone)]).
Proof.
  intros H.
  destruct (proj1 (fingerprint_is_digest_of_envelope (H := H) "motif" "A1.demo"
                     "global" "v1" (PyDict [(PyStr "b", PyInt 2); (PyStr "a", PyNone)])
                     ("{" +:+ quoted "a" +:+ ":null," +:+ quoted "b" +:+ ":2}")
                     ltac:(done) ltac:(done) ltac:(vm_compute; reflexivity)))
    as [Hfp _].
  - vm_compute. reflexivity.
  - exact Hfp.
Defined.

(** C3, as stated, fails.  With an empty kind the code raises
    IdentityError, and with a payload that holds a lone surrogate, which
    can be canonicalized, it raises UnicodeEncodeError; in both cases the
    digest of the canonical envelope is defined. *)
Lemma fingerprint_raises_where_digest_is_defined :
  (canonical_fingerprint (H := example_host) "" "A1.demo" (PyDict []) "global" "v1"
     = Raise IdentityError ∧
   ∃ digest, Fingerprint (H := example_host) "" "A1.demo" "global" "v1" (PyDict [])
     = Ok digest) ∧
  (canonical_fingerprint (H := example_host) "motif" "A1.demo"
     (PyDict [(PyStr "name", PyStr lone_surrogate)]) "global" "v1"
     = Raise UnicodeEncodeError ∧
   (∃ inner, canonicalize_payload (H := example_host)
               (PyDict [(PyStr "name", PyStr lone_surrogate)]) = Ok inner) ∧
   ∃ digest, Fingerprint (H := example_host) "motif" "A1.demo" "global" "v1"
               (PyDict [(PyStr "name", PyStr lone_surrogate)]) = Ok digest).
Proof.
  split_and!.
  - reflexivity.
  - eexists. vm_compute. reflexivity.
  - vm_compute. reflexivity.
  - eexists. vm_compute. reflexivity.
  - eexists. vm_compute. reflexivity.
Qed.

(* ================================================================== *)
(** * The documented merge scenarios, evaluated *)

Section scenarios.
Context `{Host}.

(** Base divergence: the left branch replaces subject A, the right branch
  leaves it as the base has it and adds subject C. *)
Example base_divergence_scenario :
∃ d, three_way_merge_analysis branched_store "l" "r" = Ok d ∧
     base_commit d = Some "g" ∧
     proposal_for d "A" = Some "accept_left" ∧
     proposal_for d "C" = Some "accept_right" ∧
     conflicts d = [].
Proof. eexists. split; [vm_compute; reflexivity|]. by vm_compute. Qed.

(** Conflict: both branches replace subject A, each with its own payload. *)
Example conflict_scenario :
∃ d c, three_way_merge_analysis conflict_store "l" "r" = Ok d ∧
       actions d = [] ∧ conflicts d = [c] ∧
       entry_get "subject_id" c = Some (Some "A") ∧
       entry_get "conflict" c = Some (Some "divergent_updates").
Proof. do 2 eexists. split; [vm_compute; reflexivity|]. by vm_compute. Qed.

(** An absent head. *)
Example absent_head_scenario :
three_way_merge_analysis branched_store "l" "nowhere" = Raise MergeError.
Proof. vm_compute. reflexivity. Qed.
End scenarios.

(* ================================================================== *)
(** * Further properties of the lineage store *)

Lemma key_gt_asym a b : key_gt a b = true → key_gt b a = false.
Proof.
  unfold key_gt. intros Hab.
  apply orb_true_iff in Hab as [Hlt|[Heq Hs]%andb_true_iff].
  - apply Z.ltb_lt in Hlt. apply orb_false_iff. split; [apply Z.ltb_ge; lia|].
    apply andb_false_iff. left. apply Z.eqb_neq. lia.
  - apply Z.eqb_eq in Heq. apply orb_false_iff. split; [apply Z.ltb_ge; lia|].
    apply andb_false_iff. right. by apply string_ltb_asym.
Qed.

Lemma key_gt_le_trans a b c :
  key_gt a b = false → key_gt b c = false → key_gt a c = false.
Proof.
  destruct (key_gt a c) eqn:Hac; [|done]. intros Hab Hbc.
  destruct (decide (a.2 = b.2)) as [Heq|Hne].
  - unfold key_gt in *. rewrite Heq in *.
    apply orb_false_iff in Hab as [Hab1 Hab2].
    apply orb_false_iff in Hbc as [Hbc1 Hbc2].
    apply Z.ltb_ge in Hab1, Hbc1.
    apply orb_true_iff in Hac as [Hlt%Z.ltb_lt|[Hz%Z.eqb_eq Hs]%andb_true_iff]; [lia|].
    assert (b.1 = c.1) as Hbc by lia. assert (a.1 = b.1) as Hab by lia.
    rewrite Hbc, Z.eqb_refl in Hbc2. simpl in Hbc2. congruence.
  - apply key_gt_total in Hab; [|done].
    pose proof (key_gt_trans _ _ _ Hab Hac) as Hbc'. congruence.
Qed.

Lemma key_gt_antisym a b : key_gt a b = false → key_gt b a = false → a = b.
Proof.
  intros Hab Hba. destruct (decide (a.2 = b.2)) as [Heq|Hne].
  - unfold key_gt in *. rewrite Heq in *.
    apply orb_false_iff in Hab as [Hab1 _]. apply orb_false_iff in Hba as [Hba1 _].
    apply Z.ltb_ge in Hab1, Hba1. destruct a, b; simpl in *. f_equal; [lia|done].
  - apply key_gt_total in Hab; [congruence|done].
Qed.

Lemma store_values s c :
  c ∈ (map_to_list (_commits s)).*2 ↔ ∃ k, _commits s !! k = Some c.
Proof.
  rewrite list_elem_of_fmap. split.
  - intros ([k c'] & -> & Hin). exists k. by apply elem_of_map_to_list.
  - intros (k & Hk). exists (k, c). split; [done|]. by apply elem_of_map_to_list.
Qed.

Lemma store_values_inj s c1 c2 :
  store_wf s →
  c1 ∈ (map_to_list (_commits s)).*2 → c2 ∈ (map_to_list (_commits s)).*2 →
  commit_id c1 = commit_id c2 → c1 = c2.
Proof.
  intros Hwf (k1 & H1)%store_values (k2 & H2)%store_values Heq.
  pose proof (wf_key s Hwf _ _ H1). pose proof (wf_key s Hwf _ _ H2).
  congruence.
Qed.

Lemma store_values_NoDup s : store_wf s → NoDup (map_to_list (_commits s)).*2.
Proof.
  intros Hwf.
  assert (Hfst : NoDup (map_to_list (_commits s)).*1) by apply NoDup_fst_map_to_list.
  assert (Hkey : ∀ kc, kc ∈ map_to_list (_commits s) → commit_id kc.2 = kc.1).
  { intros [k c] Hin. apply elem_of_map_to_list in Hin. by apply (wf_key s Hwf). }
  revert Hfst Hkey. generalize (map_to_list (_commits s)).
  intros l. induction l as [|kc l IH]; intros Hfst Hkey; [constructor|].
  change (NoDup (kc.1 :: l.*1)) in Hfst. change (NoDup (kc.2 :: l.*2)).
  apply NoDup_cons in Hfst as [Hkc Hnd]. apply NoDup_cons. split.
  - intros (kc' & Heq & Hin)%list_elem_of_fmap. apply Hkc.
    apply list_elem_of_fmap. exists kc'. split; [|done].
    rewrite <- (Hkey kc) by left. rewrite <- (Hkey kc') by (by right). by rewrite Heq.
  - apply IH; [done|]. intros kc' Hin. apply Hkey. by right.
Qed.

Lemma all_commits_le_sorted s :
  StronglySorted (le_of sort_key_ltb) (all_commits s).
Proof.
  apply py_sorted_sorted.
  - intros x y. unfold sort_key_ltb. apply key_gt_asym.
  - intros x y z. unfold le_of, sort_key_ltb. intros Hxy Hyz.
    by apply (key_gt_le_trans _ (sort_key y)).
Qed.

(** X2. all_commits lists every stored commit once, in strictly ascending
    (timestamp_ms, commit_id) order, and the result does not depend on the
    order in which the values of the mapping are iterated. *)
Theorem all_commits_strictly_ordered s :
  reachable s →
  all_commits s ≡ₚ (map_to_list (_commits s)).*2 ∧
  length (all_commits s) = size (_commits s) ∧
  (∀ c, c ∈ all_commits s ↔ get s (commit_id c) = Ok c) ∧
  StronglySorted (λ a b, sort_key_ltb a b = true) (all_commits s) ∧
  ∀ vals, vals ≡ₚ (map_to_list (_commits s)).*2 →
          py_sorted sort_key_ltb vals = all_commits s.
Proof.
  intros Hs. pose proof (reachable_wf s Hs) as Hwf.
  assert (Hperm : all_commits s ≡ₚ (map_to_list (_commits s)).*2)
    by apply py_sorted_perm.
  split_and!.
  - done.
  - rewrite Hperm, length_fmap. apply length_map_to_list.
  - intros c. rewrite Hperm, store_values. unfold get. split.
    + intros (k & Hk). rewrite (wf_key s Hwf _ _ Hk). by rewrite Hk.
    + intros Hg. exists (commit_id c). by destruct (_commits s !! commit_id c); simplify_eq.
  - pose proof (all_commits_le_sorted s) as Hsorted.
    assert (Hnd : NoDup (all_commits s)) by (rewrite Hperm; by apply store_values_NoDup).
    assert (Hin : ∀ c, c ∈ all_commits s → c ∈ (map_to_list (_commits s)).*2)
      by (intros c; by rewrite Hperm).
    revert Hsorted Hnd Hin. generalize (all_commits s). clear Hperm.
    intros l Hsorted.
    induction Hsorted as [|a l Hl IH Ha]; intros Hnd Hin; [constructor|].
    apply NoDup_cons in Hnd as [Hal Hnd].
    constructor; [apply IH; [done|]; intros c Hc; apply Hin; by right|].
    rewrite Forall_forall in Ha |- *. intros b Hb.
    unfold sort_key_ltb. apply key_gt_total; [|by apply Ha].
    simpl. intros Heq. apply Hal.
    rewrite (store_values_inj s a b Hwf); [done|apply Hin; by left|apply Hin; by right|done].
  - intros vals Hvals.
    apply (StronglySorted_unique_strong (le_of sort_key_ltb)).
    + intros x y Hx Hy Hxy Hyx.
      rewrite py_sorted_perm, Hvals in Hx. rewrite Hperm in Hy.
      apply (store_values_inj s x y Hwf Hx Hy).
      unfold le_of, sort_key_ltb in Hxy, Hyx.
      pose proof (key_gt_antisym _ _ Hyx Hxy) as Heq. by inversion Heq.
    + apply py_sorted_sorted.
      * intros x y. unfold sort_key_ltb. apply key_gt_asym.
      * intros x y z. unfold le_of, sort_key_ltb. intros Hxy Hyz.
        by apply (key_gt_le_trans _ (sort_key y)).
    + apply all_commits_le_sorted.
    + by rewrite py_sorted_perm, Hvals, Hperm.
Qed.

(** A concrete id is a key of a concrete store. *)
Ltac in_store := apply elem_of_dom; vm_compute; eauto.

Lemma all_commits_strictly_ordered_witness :
  reachable diamond_store ∧
  length (all_commits diamond_store) = size (_commits diamond_store).
Proof.
  split; [exact diamond_store_reachable|].
  apply (all_commits_strictly_ordered diamond_store diamond_store_reachable).
Defined.

(** X3. in a store built by append the child index is the parent relation
    read backwards: x is among children_of(p) exactly when the stored commit
    x lists p as a parent; an id that is not stored has no children, and
    every child and every parent is a stored id. *)
Theorem children_of_reverse_adjacency s :
  reachable s →
  (∀ p x, x ∈ children_of s p ↔ parent_of s x p) ∧
  (∀ p, p ∉ dom (_commits s) → children_of s p = ∅) ∧
  (∀ p x, x ∈ children_of s p → x ∈ dom (_commits s) ∧ p ∈ dom (_commits s) ∧ x ≠ p).
Proof.
  intros Hs. pose proof (reachable_wf s Hs) as Hwf.
  assert (Hadj : ∀ p x, x ∈ children_of s p ↔ parent_of s x p).
  { intros p x. unfold children_of.
    destruct (_children s !! p) as [ch|] eqn:Hp.
    - by apply (wf_children s Hwf).
    - split; [set_solver|]. intros Hpar. exfalso.
      apply (parent_of_closed s x p Hwf) in Hpar.
      rewrite <- (wf_children_dom s Hwf) in Hpar.
      apply elem_of_dom in Hpar as [? ?]. congruence. }
  split_and!.
  - done.
  - intros p Hp. apply set_eq. intros x. rewrite Hadj. split; [|set_solver].
    intros Hpar. exfalso. apply Hp. by apply (parent_of_closed s x p Hwf).
  - intros p x Hx. apply Hadj in Hx.
    destruct (parent_of_dom s x p Hwf Hx) as [Hxd Hpd]. split_and!; [done..|].
    intros ->. apply (ancestor_irrefl s p Hwf). by apply tc_once.
Qed.

Lemma children_of_reverse_adjacency_witness :
  reachable diamond_store ∧
  ("M" ∈ children_of diamond_store "A" ↔ parent_of diamond_store "M" "A").
Proof.
  split; [exact diamond_store_reachable|].
  apply (children_of_reverse_adjacency diamond_store diamond_store_reachable).
Defined.

(** X1. in a store built by append, get returns a commit exactly for the ids
    exists reports, and raises LineageError for every other id; the commit
    returned for an id carries that id in its commit_id field, the id is not
    empty, and the commit is one of those all_commits lists. *)
Theorem get_returns_requested_commit s cid :
  reachable s →
  (exists_ s cid = true ↔ ∃ c, get s cid = Ok c) ∧
  (exists_ s cid = false ↔ get s cid = Raise LineageError) ∧
  (∀ c, get s cid = Ok c → commit_id c = cid ∧ cid ≠ "" ∧ c ∈ all_commits s).
Proof.
  intros Hs. pose proof (reachable_wf s Hs) as Hwf.
  unfold exists_, get. split_and!.
  - rewrite bool_decide_eq_true, elem_of_dom.
    destruct (_commits s !! cid) as [c|]; split.
    + intros _. by exists c.
    + intros _. by exists c.
    + by intros [? ?].
    + by intros [? ?].
  - rewrite bool_decide_eq_false, elem_of_dom.
    destruct (_commits s !! cid) as [c|]; split; try done;
      try (by intros _ [? ?]).
    intros Hn. exfalso. apply Hn. by exists c.
  - intros c Hc. destruct (_commits s !! cid) as [c'|] eqn:Hcid; [|done].
    injection Hc as ->. split_and!.
    + by apply (wf_key s Hwf).
    + apply (wf_nonempty s Hwf). by apply elem_of_dom.
    + unfold all_commits. rewrite py_sorted_perm. apply store_values. by exists cid.
Qed.

Lemma get_returns_requested_commit_witness :
  reachable diamond_store ∧
  (exists_ diamond_store "Z" = false ↔ get diamond_store "Z" = Raise LineageError).
Proof.
  split; [exact diamond_store_reachable|].
  apply (get_returns_requested_commit diamond_store "Z" diamond_store_reachable).
Defined.

(** ** Ancestry after an append *)

Section appended.
Variables (s s' : LineageStore) (u : string) (t : Z) (ps : list string).
Variables (o sid sk sn ss : string) (pl : option (list (pyobj * pyobj))).
Variables (nt : string) (c : Commit).
Hypothesis Hwf : store_wf s.
Hypothesis Hfresh : _commits s !! u = None.
Hypothesis Happ : append s u t ps o sid sk sn ss pl nt = (Ok c, s').

Lemma appended_parent_of x p :
  parent_of s' x p ↔ parent_of s x p ∨ (x = u ∧ p ∈ ps).
Proof.
  destruct (append_inv _ _ _ _ _ _ _ _ _ _ _ _ _ Happ) as (Hps & Hc & Hcs & _).
  unfold parent_of. rewrite Hcs. split.
  - intros (c0 & Hc0 & Hp). destruct (decide (x = u)) as [->|Hne].
    + rewrite lookup_insert_eq in Hc0. injection Hc0 as <-. right. split; [done|].
      by rewrite Hc in Hp.
    + rewrite lookup_insert_ne in Hc0 by done. left. by exists c0.
  - intros [(c0 & Hc0 & Hp)|[-> Hp]].
    + exists c0. split; [|done]. rewrite lookup_insert_ne; [done|]. congruence.
    + exists c. split; [by rewrite lookup_insert_eq|]. by rewrite Hc.
Qed.

Lemma appended_ancestor_old x a : ancestor s x a → ancestor s' x a.
Proof.
  induction 1 as [x y Hxy|x y z Hxy _ IH].
  - apply tc_once, appended_parent_of. by left.
  - eapply tc_l; [|exact IH]. apply appended_parent_of. by left.
Qed.

Lemma appended_ancestor x a :
  ancestor s' x a ↔
  (x ≠ u ∧ ancestor s x a) ∨
  (x = u ∧ (a ∈ ps ∨ ∃ p, p ∈ ps ∧ ancestor s p a)).
Proof.
  assert (Hnu : ∀ y, y ∈ dom (_commits s) → y ≠ u).
  { intros y Hy ->. apply elem_of_dom in Hy as [? ?]. congruence. }
  assert (Hsrc : ∀ y z, parent_of s y z → y ≠ u ∧ z ≠ u).
  { intros y z Hyz. destruct (parent_of_dom s y z Hwf Hyz). split; by apply Hnu. }
  destruct (append_inv _ _ _ _ _ _ _ _ _ _ _ _ _ Happ) as (Hps & _).
  split.
  - induction 1 as [x y Hxy|x y z Hxy Hyz IH].
    + apply appended_parent_of in Hxy as [Hxy|[-> Hy]].
      * left. split; [by apply (Hsrc x y)|by apply tc_once].
      * right. split; [done|by left].
    + apply appended_parent_of in Hxy as [Hxy|[-> Hy]].
      * destruct IH as [[_ IH]|[-> _]]; [|by destruct (Hsrc x u Hxy)].
        left. split; [by apply (Hsrc x y)|]. by eapply tc_l.
      * destruct IH as [[_ IH]|[-> _]]; [|by destruct (Hnu u (Hps u Hy))].
        right. split; [done|]. right. by exists y.
  - intros [[_ Hxa]|[-> [Ha|(p & Hp & Hpa)]]].
    + by apply appended_ancestor_old.
    + apply tc_once, appended_parent_of. by right.
    + eapply tc_l; [|by apply appended_ancestor_old].
      apply appended_parent_of. by right.
Qed.
End appended.

(** X4. an append with a fresh id leaves the ancestry of everything already
    stored as it was: ancestors_of and lca_candidates give the same sets for
    the old ids; the new commit is an ancestor of nothing, and its own
    ancestors are its parents together with their ancestors. *)
Theorem append_preserves_ancestry s u t ps o sid sk sn ss pl nt c s' :
  reachable s → u ≠ "" → _commits s !! u = None →
  append s u t ps o sid sk sn ss pl nt = (Ok c, s') →
  (∀ cid, cid ∈ dom (_commits s) → ancestors_of s' cid = ancestors_of s cid) ∧
  (∀ a b, a ∈ dom (_commits s) → b ∈ dom (_commits s) →
          lca_candidates s' a b = lca_candidates s a b) ∧
  (∀ cid A, cid ≠ u → ancestors_of s' cid = Ok A → u ∉ A) ∧
  (∃ A, ancestors_of s' u = Ok A ∧
        ∀ x, x ∈ A ↔
             x ∈ ps ∨ ∃ p Ap, p ∈ ps ∧ ancestors_of s p = Ok Ap ∧ x ∈ Ap).
Proof.
  intros Hs Hu Hfresh Happ.
  pose proof (reachable_wf s Hs) as Hwf.
  assert (Hs' : reachable s') by (by eapply reachable_append).
  pose proof (reachable_wf s' Hs') as Hwf'.
  destruct (append_inv _ _ _ _ _ _ _ _ _ _ _ _ _ Happ) as (Hps & Hc & Hcs & _).
  assert (Hdom : ∀ k, k ∈ dom (_commits s') ↔ k = u ∨ k ∈ dom (_commits s)).
  { intros k. rewrite Hcs, dom_insert. set_solver. }
  assert (Hnu : ∀ y, y ∈ dom (_commits s) → y ≠ u).
  { intros y Hy ->. apply elem_of_dom in Hy as [? ?]. congruence. }
  assert (Hold : ∀ cid, cid ∈ dom (_commits s) →
                        ancestors_of s' cid = ancestors_of s cid).
  { intros cid Hcid.
    destruct (ancestors_of_spec s Hwf cid Hcid) as (A & HA & HAm).
    destruct (ancestors_of_spec s' Hwf' cid) as (A' & HA' & HAm').
    { apply Hdom. by right. }
    rewrite HA, HA'. f_equal. apply set_eq. intros x.
    rewrite HAm, HAm'.
    rewrite (appended_ancestor s s' u t ps o sid sk sn ss pl nt c Hwf Hfresh Happ).
    split; [|intros Hx; left; split; [by apply Hnu|done]].
    intros [[_ Hx]|[-> _]]; [done|]. by destruct (Hnu u Hcid). }
  split_and!.
  - exact Hold.
  - intros a b Ha Hb. unfold lca_candidates.
    rewrite !bool_decide_eq_true_2 by (apply Hdom; by right).
    rewrite !bool_decide_eq_true_2 by done.
    by rewrite (Hold a Ha), (Hold b Hb).
  - intros cid A Hne HA Hin.
    destruct (decide (cid ∈ dom (_commits s'))) as [Hcid|Hcid].
    + destruct (ancestors_of_spec s' Hwf' cid Hcid) as (A' & HA' & HAm').
      rewrite HA in HA'. injection HA' as <-.
      apply HAm' in Hin.
      apply (appended_ancestor s s' u t ps o sid sk sn ss pl nt c Hwf Hfresh Happ) in Hin.
      destruct Hin as [[_ Hin]|[-> _]]; [|done].
      destruct (ancestor_dom s cid u Hwf Hin) as [_ Hud]. by destruct (Hnu u Hud).
    + by rewrite (ancestors_of_unknown s' cid Hcid) in HA.
  - destruct (ancestors_of_spec s' Hwf' u) as (A & HA & HAm).
    { apply Hdom. by left. }
    exists A. split; [done|]. intros x. rewrite HAm.
    rewrite (appended_ancestor s s' u t ps o sid sk sn ss pl nt c Hwf Hfresh Happ).
    split.
    + intros [[Hne _]|[_ [Hx|(p & Hp & Hpx)]]]; [done|by left|].
      right. destruct (ancestors_of_spec s Hwf p (Hps p Hp)) as (Ap & HAp & HApm).
      exists p, Ap. split_and!; [done..|]. by apply HApm.
    + intros [Hx|(p & Ap & Hp & HAp & Hx)]; right; (split; [done|]); [by left|].
      right. exists p. split; [done|].
      destruct (ancestors_of_spec s Hwf p (Hps p Hp)) as (Ap' & HAp' & HApm).
      rewrite HAp in HAp'. injection HAp' as <-. by apply HApm.
Qed.

Lemma append_preserves_ancestry_witness :
  ∃ c s',
    append diamond_store "N" 5 ["M"] "add" "s4" "motif" "A1.demo" "global" None ""
      = (Ok c, s') ∧
    ancestors_of s' "M" = ancestors_of diamond_store "M".
Proof.
  destruct (append_Ok diamond_store "N" 5 ["M"] "add" "s4" "motif" "A1.demo"
              "global" None "") as (c & s' & Happ).
  { intros p Hp. apply list_elem_of_singleton in Hp as ->. in_store. }
  exists c, s'. split; [done|].
  apply (append_preserves_ancestry diamond_store "N" 5 ["M"] "add" "s4" "motif"
           "A1.demo" "global" None "" c s' diamond_store_reachable).
  - done.
  - vm_compute. reflexivity.
  - done.
  - in_store.
Defined.

(** X5. the set lca_candidates returns is closed under ancestors: with one
    common ancestor-or-self it holds every ancestor of it, so it is the set
    of all common ancestors and not only the lowest ones.  When b is a itself
    or an ancestor of a, the set is b together with the ancestors of b. *)
Theorem lca_candidates_closed_under_ancestors s a b C :
  reachable s → lca_candidates s a b = Ok C →
  a ∈ dom (_commits s) ∧ b ∈ dom (_commits s) ∧
  (∀ x y, x ∈ C → ancestor s x y → y ∈ C) ∧
  (∀ x, x ∈ C → ∃ A, ancestors_of s x = Ok A ∧ A ⊆ C) ∧
  (a = b ∨ ancestor s a b →
   ∃ B, ancestors_of s b = Ok B ∧ C = B ∪ {[b]}).
Proof.
  intros Hs HC. pose proof (reachable_wf s Hs) as Hwf.
  destruct (decide (a ∈ dom (_commits s))) as [Ha|Ha];
    [|rewrite lca_candidates_unknown in HC by (by left); done].
  destruct (decide (b ∈ dom (_commits s))) as [Hb|Hb];
    [|rewrite lca_candidates_unknown in HC by (by right); done].
  destruct (lca_candidates_spec s a b Hwf Ha Hb) as (A & B & HA & HB & Hl).
  rewrite HC in Hl. injection Hl as ->.
  destruct (ancestors_of_spec s Hwf a Ha) as (A' & HA' & HAm).
  rewrite HA in HA'. injection HA' as <-.
  destruct (ancestors_of_spec s Hwf b Hb) as (B' & HB' & HBm).
  rewrite HB in HB'. injection HB' as <-.
  assert (Hcl : ∀ x y, x ∈ (A ∪ {[a]}) ∩ (B ∪ {[b]}) → ancestor s x y →
                       y ∈ (A ∪ {[a]}) ∩ (B ∪ {[b]})).
  { intros x y [Hxa Hxb]%elem_of_intersection Hxy.
    apply elem_of_intersection. split; apply elem_of_union; left.
    - apply HAm. apply elem_of_union in Hxa as [Hxa%HAm|Hxa%elem_of_singleton].
      + by eapply tc_transitive.
      + by subst.
    - apply HBm. apply elem_of_union in Hxb as [Hxb%HBm|Hxb%elem_of_singleton].
      + by eapply tc_transitive.
      + by subst. }
  split_and!; [done|done|exact Hcl| |].
  - intros x Hx.
    assert (Hxd : x ∈ dom (_commits s)).
    { apply (lca_candidates_dom s a b _ Hwf HC), Hx. }
    destruct (ancestors_of_spec s Hwf x Hxd) as (X & HX & HXm).
    exists X. split; [done|]. intros y Hy%HXm. by eapply Hcl.
  - intros Hab. exists B. split; [done|]. apply set_eq. intros x.
    rewrite elem_of_intersection, !elem_of_union, !elem_of_singleton, HAm, HBm.
    split; [tauto|]. intros Hx. split; [|done].
    destruct Hab as [->|Hab]; [done|]. left.
    destruct Hx as [Hx| ->]; [by eapply tc_transitive|done].
Qed.

Lemma lca_candidates_closed_under_ancestors_witness :
  ∃ B, ancestors_of diamond_store "A" = Ok B ∧
       lca_candidates diamond_store "M" "A" = Ok (B ∪ {[ "A" ]}).
Proof.
  destruct (lca_candidates_spec diamond_store "M" "A"
              (reachable_wf _ diamond_store_reachable)) as (A & B & HA & HB & HC).
  { in_store. }
  { in_store. }
  destruct (lca_candidates_closed_under_ancestors diamond_store "M" "A" _
              diamond_store_reachable HC) as (_ & _ & _ & _ & Hsub).
  destruct Hsub as (B' & HB' & Heq).
  { right. apply tc_once. eexists. split; [vm_compute; reflexivity|]. by left. }
  exists B'. split; [done|]. by rewrite HC, Heq.
Defined.
(* ================================================================== *)
(** * Further properties of the merge engine *)

(** ** The subject index *)

Lemma index_latest_fold (m : gmap string Commit) commits sid :
  foldl (λ out c, <[subject_id c := c]> out) m commits !! sid =
    match last (filter (λ c, subject_id c = sid) commits) with
    | Some c => Some c
    | None => m !! sid
    end.
Proof.
  induction commits as [|c commits IH] using rev_ind; [done|].
  rewrite foldl_app, filter_app. cbn [foldl].
  destruct (decide (subject_id c = sid)) as [Heq|Hne].
  - rewrite filter_cons_True by done. rewrite filter_nil, last_snoc, Heq.
    by rewrite lookup_insert_eq.
  - rewrite filter_cons_False by done. rewrite filter_nil, app_nil_r.
    by rewrite lookup_insert_ne.
Qed.

Lemma index_latest_dom commits sid :
  sid ∈ dom (_index_latest_by_subject commits) ↔
  ∃ c, c ∈ commits ∧ subject_id c = sid.
Proof.
  rewrite elem_of_dom. unfold _index_latest_by_subject. rewrite index_latest_fold.
  destruct (last (filter (λ c, subject_id c = sid) commits)) as [c|] eqn:Hlast.
  - split; [|by eauto]. intros _. exists c.
    apply last_Some_elem_of, list_elem_of_filter in Hlast. by destruct Hlast.
  - rewrite lookup_empty. split; [by intros [? ?]|].
    intros (c & Hc & Hsid). apply last_None in Hlast.
    assert (c ∈ filter (λ c, subject_id c = sid) commits) as Hin
      by (by apply list_elem_of_filter).
    rewrite Hlast in Hin. inversion Hin.
Qed.

Lemma index_latest_Some commits sid c :
  _index_latest_by_subject commits !! sid = Some c →
  c ∈ commits ∧ subject_id c = sid.
Proof.
  unfold _index_latest_by_subject. rewrite index_latest_fold.
  destruct (last (filter (λ c, subject_id c = sid) commits)) as [c'|] eqn:Hlast;
    [|by rewrite lookup_empty].
  intros [= <-]. apply last_Some_elem_of, list_elem_of_filter in Hlast.
  by destruct Hlast.
Qed.

(** X6. _index_latest_by_subject maps every subject id that occurs in the
    list to the last commit of the list about that subject, and holds no
    other key. *)
Theorem index_latest_by_subject_last commits sid :
  _index_latest_by_subject commits !! sid
    = last (filter (λ c, subject_id c = sid) commits) ∧
  (sid ∈ dom (_index_latest_by_subject commits) ↔
   ∃ c, c ∈ commits ∧ subject_id c = sid) ∧
  (∀ c, _index_latest_by_subject commits !! sid = Some c →
        c ∈ commits ∧ subject_id c = sid) ∧
  (∀ c, _index_latest_by_subject (commits ++ [c]) !! subject_id c = Some c).
Proof.
  assert (Hlk : ∀ cs, _index_latest_by_subject cs !! sid
                = last (filter (λ c, subject_id c = sid) cs)).
  { intros cs. unfold _index_latest_by_subject. rewrite index_latest_fold.
    by destruct (last _). }
  split_and!; [done|apply index_latest_dom| |].
  - intros c Hc. rewrite Hlk in Hc.
    pose proof (last_Some_elem_of _ _ Hc) as Hin.
    by apply list_elem_of_filter in Hin as [Hsid Hin].
  - intros c. unfold _index_latest_by_subject.
    rewrite foldl_app. cbn [foldl]. by rewrite lookup_insert_eq.
Qed.

(** ** The single-parent chain of a head *)

Lemma commit_chain_loop_acc fuel s cur chain :
  commit_chain_loop fuel s cur chain =
    tail ← commit_chain_loop fuel s cur []; Ok (chain ++ tail).
Proof.
  revert cur chain. induction fuel as [|fuel IH]; intros cur chain; [done|].
  cbn [commit_chain_loop]. destruct (get s cur) as [c| |]; [|done..].
  cbn [mbind result_bind].
  destruct (parents c) as [|p [|q ps]]; cbn [app mbind result_bind]; [done| |done].
  rewrite (IH p (chain ++ [c])), (IH p [c]).
  destruct (commit_chain_loop fuel s p []) as [tail| |]; [|done..].
  cbn [mbind result_bind]. by rewrite <- app_assoc.
Qed.

Lemma commit_chain_loop_chain_to fuel s cur tail :
  commit_chain_loop fuel s cur [] = Ok tail → chain_to s cur (rev tail).
Proof.
  revert cur tail. induction fuel as [|fuel IH]; intros cur tail; [done|].
  cbn [commit_chain_loop]. unfold get.
  destruct (_commits s !! cur) as [c|] eqn:Hc; [|done].
  cbn [mbind result_bind app].
  destruct (parents c) as [|p [|q ps]] eqn:Hps.
  - intros [= <-]. apply chain_to_root with (c := c); [done|]. by rewrite Hps.
  - rewrite commit_chain_loop_acc.
    destruct (commit_chain_loop fuel s p []) as [t| |] eqn:Ht; [|done..].
    cbn [mbind result_bind]. intros [= <-]. cbn [app rev].
    by eapply chain_to_step; [| |apply IH].
  - intros [= <-]. apply chain_to_root with (c := c); [done|]. by rewrite Hps.
Qed.

Lemma chain_to_nonempty s cid cs : chain_to s cid cs → cs ≠ [].
Proof. destruct 1; [done|]. by destruct cs. Qed.

Lemma chain_to_unique s cid cs1 cs2 :
  chain_to s cid cs1 → chain_to s cid cs2 → cs1 = cs2.
Proof.
  intros H1. revert cs2.
  induction H1 as [cid c Hc Hlen|cid c p cs Hc Hps H1 IH]; intros cs2 H2.
  - destruct H2 as [cid c' Hc' _|cid c' p' cs' Hc' Hps' _]; [congruence|].
    assert (c' = c) as -> by congruence. by rewrite Hps' in Hlen.
  - destruct H2 as [cid c' Hc' Hlen|cid c' p' cs' Hc' Hps' H2].
    + assert (c' = c) as -> by congruence. by rewrite Hps in Hlen.
    + assert (c' = c) as -> by congruence.
      assert (p' = p) as -> by congruence. by rewrite (IH cs').
Qed.

Lemma chain_to_last s cid cs :
  chain_to s cid cs → ∃ c, _commits s !! cid = Some c ∧ last cs = Some c.
Proof.
  destruct 1 as [cid c Hc _|cid c p cs Hc _ _]; exists c; [done|].
  by rewrite last_snoc.
Qed.

Lemma chain_to_members s cid cs c :
  store_wf s → chain_to s cid cs → c ∈ cs →
  _commits s !! commit_id c = Some c ∧
  (commit_id c = cid ∨ ancestor s cid (commit_id c)).
Proof.
  intros Hwf Hch. revert c.
  induction Hch as [cid c0 Hc0 _|cid c0 p cs Hc0 Hps _ IH]; intros c Hc.
  - apply list_elem_of_singleton in Hc as ->.
    rewrite (wf_key s Hwf _ _ Hc0). auto.
  - assert (Hpar : parent_of s cid p).
    { exists c0. split; [done|]. rewrite Hps. by left. }
    apply elem_of_app in Hc as [Hc|Hc%list_elem_of_singleton].
    + destruct (IH c Hc) as [Hst [<-|Hanc]]; (split; [done|]); right.
      * by apply tc_once.
      * by eapply tc_l.
    + subst c. rewrite (wf_key s Hwf _ _ Hc0). auto.
Qed.

Lemma chain_to_prefix s cid cs c :
  store_wf s → chain_to s cid cs → c ∈ cs →
  ∃ pre, chain_to s (commit_id c) pre ∧ pre `prefix_of` cs.
Proof.
  intros Hwf Hch. revert c.
  induction Hch as [cid c0 Hc0 Hlen|cid c0 p cs Hc0 Hps Hch IH]; intros c Hc.
  - apply list_elem_of_singleton in Hc as ->. exists [c0]. split; [|done].
    rewrite (wf_key s Hwf _ _ Hc0). by constructor.
  - apply elem_of_app in Hc as [Hc|Hc%list_elem_of_singleton].
    + destruct (IH c Hc) as (pre & Hpre & Hpf). exists pre. split; [done|].
      by apply prefix_app_r.
    + subst c. exists (cs ++ [c0]). split; [|done].
      rewrite (wf_key s Hwf _ _ Hc0). by eapply chain_to_step.
Qed.

Lemma commit_chain_chain_to s head :
  store_wf s → head ∈ dom (_commits s) →
  ∃ chain, _commit_chain s head = Ok chain ∧ chain_to s head chain.
Proof.
  intros Hwf Hhead. destruct (commit_chain_Ok s head Hwf Hhead) as (chain & Hch).
  exists chain. split; [done|]. unfold _commit_chain in Hch.
  destruct (commit_chain_loop (loop_budget s) s head []) as [tail| |] eqn:Ht;
    [|done..].
  cbn [mbind result_bind] in Hch. injection Hch as <-.
  by eapply commit_chain_loop_chain_to.
Qed.

(** X7. on a stored head of a store built by append, _commit_chain returns
    the list, oldest first, obtained by following single parents from the
    head: it ends in the head's commit, every commit is the only parent of
    its successor, and the walk stops at the first commit that has no parent
    or more than one (so it never crosses a merge commit).  Every member is
    the head or one of its ancestors.  On an unknown head it raises
    LineageError. *)
Theorem commit_chain_follows_single_parents s head :
  reachable s →
  (head ∉ dom (_commits s) → _commit_chain s head = Raise LineageError) ∧
  (head ∈ dom (_commits s) →
   ∃ chain, _commit_chain s head = Ok chain ∧
     chain_to s head chain ∧
     (∀ cs, chain_to s head cs → cs = chain) ∧
     (∃ c, get s head = Ok c ∧ last chain = Some c) ∧
     (∃ c0, chain !! 0 = Some c0 ∧ length (parents c0) ≠ 1) ∧
     (∀ i c c', chain !! i = Some c → chain !! S i = Some c' →
                parents c' = [commit_id c]) ∧
     (∀ c, c ∈ chain →
           get s (commit_id c) = Ok c ∧
           (commit_id c = head ∨ ancestor s head (commit_id c)))).
Proof.
  intros Hs. pose proof (reachable_wf s Hs) as Hwf. split.
  - intros Hhead. unfold _commit_chain, loop_budget. cbn [commit_chain_loop].
    unfold get. apply not_elem_of_dom in Hhead. by rewrite Hhead.
  - intros Hhead.
    destruct (commit_chain_chain_to s head Hwf Hhead) as (chain & Hch & Hto).
    exists chain. split_and!; [done|done| | | | |].
    + intros cs Hcs. by eapply chain_to_unique.
    + destruct (chain_to_last s head chain Hto) as (c & Hc & Hl).
      exists c. unfold get. by rewrite Hc.
    + clear Hch. induction Hto as [cid c Hc Hlen|cid c p cs Hc Hps Hto IH].
      * by exists c.
      * destruct IH as (c0 & Hc0 & Hlen).
        { destruct (parent_of_dom s cid p Hwf) as [_ Hp]; [|done].
          exists c. split; [done|]. rewrite Hps. by left. }
        exists c0. split; [|done]. by apply lookup_app_l_Some.
    + clear Hch. induction Hto as [cid c0 Hc0 Hlen|cid c0 p cs Hc0 Hps Hto IH].
      * intros [|i] c c' Hi HSi; [|done]. done.
      * intros i c c' Hi HSi.
        assert (Hp : p ∈ dom (_commits s)).
        { destruct (parent_of_dom s cid p Hwf) as [_ Hp]; [|done].
          exists c0. split; [done|]. rewrite Hps. by left. }
        destruct (decide (S i < length cs)) as [Hlt|Hge].
        { apply (IH Hp i c c').
          - rewrite lookup_app_l in Hi by lia. done.
          - rewrite lookup_app_l in HSi by lia. done. }
        assert (S i = length cs) as HSi'.
        { apply lookup_lt_Some in HSi. rewrite length_app in HSi. simpl in HSi. lia. }
        rewrite lookup_app_l in Hi by lia.
        rewrite lookup_app_r in HSi by lia.
        rewrite HSi', Nat.sub_diag in HSi. injection HSi as <-.
        destruct (chain_to_last s p cs Hto) as (cp & Hcp & Hl).
        rewrite last_lookup in Hl.
        assert (Init.Nat.pred (length cs) = i) as Hpred by lia.
        rewrite Hpred, Hi in Hl. injection Hl as ->.
        by rewrite Hps, (wf_key s Hwf _ _ Hcp).
    + intros c Hc. destruct (chain_to_members s head chain c Hwf Hto Hc) as [Hst Hrel].
      split; [|done]. unfold get. by rewrite Hst.
Qed.

Lemma commit_chain_follows_single_parents_witness :
  ∃ chain, _commit_chain diamond_store "A" = Ok chain ∧
           chain_to diamond_store "A" chain.
Proof.
  destruct (proj2 (commit_chain_follows_single_parents diamond_store "A"
                     diamond_store_reachable)) as (chain & Hch & Hto & _).
  { in_store. }
  by exists chain.
Defined.

(** ** The choice of the base *)

Lemma pick_fold_start s xs :
  xs ≠ [] → (∀ x, x ∈ xs → x ∈ dom (_commits s)) →
  ∃ b c, fold_result (pick_step s) (None, None) xs
           = Ok (Some b, Some (timestamp_ms c, b)) ∧
         _commits s !! b = Some c ∧ b ∈ xs ∧
         ∀ x cx, x ∈ xs → _commits s !! x = Some cx → x ≠ b →
                 key_gt (timestamp_ms c, b) (timestamp_ms cx, x) = true.
Proof.
  destruct xs as [|x xs]; [done|]. intros _ Hxs.
  assert (x ∈ dom (_commits s)) as [cx Hcx]%elem_of_dom by (apply Hxs; by left).
  cbn [fold_result].
  assert (Hstep : pick_step s (None, None) x = Ok (Some x, Some (timestamp_ms cx, x))).
  { unfold pick_step, get. by rewrite Hcx. }
  rewrite Hstep. cbn [mbind result_bind].
  destruct (pick_fold_max s xs x cx) as (b & c & -> & Hc & Hmem & Hge & Hmax); [|done|].
  { intros y Hy. apply Hxs. by right. }
  exists b, c. split_and!; [done|done| |].
  - destruct Hmem as [->|?]; [by left|by right].
  - intros y cy [->|Hy]%elem_of_cons Hcy Hne; [|by eapply Hmax].
    assert (cy = cx) as -> by congruence. by destruct Hge as [->|Hge].
Qed.

Lemma lca_candidates_comm s a b :
  store_wf s → lca_candidates s a b = lca_candidates s b a.
Proof.
  intros Hwf.
  destruct (decide (a ∈ dom (_commits s))) as [Ha|Ha];
    [|rewrite !lca_candidates_unknown by auto; done].
  destruct (decide (b ∈ dom (_commits s))) as [Hb|Hb];
    [|rewrite !lca_candidates_unknown by auto; done].
  destruct (lca_candidates_spec s a b Hwf Ha Hb) as (A & B & HA & HB & ->).
  destruct (lca_candidates_spec s b a Hwf Hb Ha) as (B' & A' & HB' & HA' & ->).
  f_equal. assert (A' = A) as -> by congruence. assert (B' = B) as -> by congruence.
  set_solver.
Qed.

(** X8. for two stored heads of a store built by append, _pick_base returns
    None exactly when the heads have no common ancestor-or-self, and
    otherwise the one common ancestor-or-self whose (timestamp_ms, commit_id)
    key is greater than that of every other; the choice does not depend on
    the order in which the candidate set is iterated, nor on the order of the
    two heads. *)
Theorem pick_base_latest_common_ancestor s l r :
  reachable s → l ∈ dom (_commits s) → r ∈ dom (_commits s) →
  ∃ C, lca_candidates s l r = Ok C ∧
    (C = ∅ → _pick_base s l r = Ok None) ∧
    (C ≠ ∅ →
     ∃ b kb, _pick_base s l r = Ok (Some b) ∧ b ∈ C ∧ b ≠ "" ∧
       commit_key s b = Some kb ∧
       (∀ x kx, x ∈ C → x ≠ b → commit_key s x = Some kx → key_gt kb kx = true) ∧
       (∀ xs, xs ≡ₚ elements C →
              ∃ st, fold_result (pick_step s) (None, None) xs = Ok st ∧
                    st.1 = Some b)) ∧
    _pick_base s r l = _pick_base s l r.
Proof.
  intros Hs Hl Hr. pose proof (reachable_wf s Hs) as Hwf.
  destruct (pick_base_greatest s l r Hwf Hl Hr) as (C & HC & Hcases).
  pose proof (lca_candidates_dom s l r _ Hwf HC) as Hdom.
  exists C. split_and!; [done| | |].
  - intros ->. destruct Hcases as [[_ ?]|(b & kb & _ & Hb & _)]; [done|set_solver].
  - intros Hne. destruct Hcases as [[? _]|(b & kb & Hpick & Hb & Hkb & Hmax)]; [done|].
    exists b, kb. split_and!; [done|done| |done|done|].
    { apply (wf_nonempty s Hwf), Hdom, Hb. }
    intros xs Hxs.
    destruct (pick_fold_start s xs) as (b' & c' & Hfold & Hc' & Hb' & Hmax').
    { intros ->. apply Permutation_nil_l in Hxs. symmetry in Hxs.
      apply elements_empty_inv, leibniz_equiv in Hxs. done. }
    { intros x Hx. rewrite Hxs in Hx. apply Hdom. by apply elem_of_elements. }
    eexists. split; [exact Hfold|]. simpl. f_equal.
    destruct (decide (b' = b)) as [|Hbb]; [done|]. exfalso.
    assert (Hb'C : b' ∈ C) by (apply elem_of_elements; by rewrite <- Hxs).
    assert (HbC : b ∈ xs) by (rewrite Hxs; by apply elem_of_elements).
    assert (b ∈ dom (_commits s)) as [cb Hcb]%elem_of_dom by (by apply Hdom).
    assert (Hkb' : kb = (timestamp_ms cb, b)).
    { unfold commit_key in Hkb. rewrite Hcb in Hkb. by injection Hkb. }
    subst kb.
    assert (H1 : key_gt (timestamp_ms cb, b) (timestamp_ms c', b') = true).
    { apply (Hmax b'); [done|done|]. unfold commit_key. by rewrite Hc'. }
    assert (H2 : key_gt (timestamp_ms c', b') (timestamp_ms cb, b) = true).
    { apply (Hmax' b cb); [done|done|]. congruence. }
    apply key_gt_asym in H1. congruence.
  - unfold _pick_base. by rewrite (lca_candidates_comm s r l Hwf).
Qed.

Lemma pick_base_latest_common_ancestor_witness :
  ∃ C, lca_candidates diamond_store "A" "B" = Ok C ∧
       _pick_base diamond_store "B" "A" = _pick_base diamond_store "A" "B".
Proof.
  destruct (pick_base_latest_common_ancestor diamond_store "A" "B"
              diamond_store_reachable) as (C & HC & _ & _ & Hsym).
  { in_store. }
  { in_store. }
  by exists C.
Defined.

(** ** The analysis on stored heads *)

Section analysis_outcome.
Context `{Host}.

Lemma commit_chain_Ok_chain_to s head chain :
  _commit_chain s head = Ok chain → chain_to s head chain.
Proof.
  unfold _commit_chain.
  destruct (commit_chain_loop (loop_budget s) s head []) as [tail| |] eqn:Ht;
    [|done..].
  cbn [mbind result_bind]. intros [= <-]. by eapply commit_chain_loop_chain_to.
Qed.

(** The commits of a view are commits of the store. *)
Lemma view_members s head v sid c :
  store_wf s → view s head = Ok v → v !! sid = Some c →
  _commits s !! commit_id c = Some c.
Proof.
  intros Hwf Hv Hc. unfold view in Hv.
  destruct (_commit_chain s head) as [chain| |] eqn:Hch; [|done..].
  cbn [mbind result_bind] in Hv. injection Hv as <-.
  apply index_latest_Some in Hc as [Hc _].
  by apply (chain_to_members s head chain c Hwf (commit_chain_Ok_chain_to _ _ _ Hch)).
Qed.

Lemma base_view_members s base v sid c :
  store_wf s → base_view s base = Ok v → v !! sid = Some c →
  _commits s !! commit_id c = Some c.
Proof.
  intros Hwf Hv Hc. destruct base as [b|]; simpl in Hv.
  - destruct (truthy b); [by eapply view_members|].
    injection Hv as <-. by rewrite lookup_empty in Hc.
  - injection Hv as <-. by rewrite lookup_empty in Hc.
Qed.

(** When every stored commit has a signature, so has every commit of the
    three views. *)
Lemma views_signed s l r base lv rv bv :
  store_wf s →
  map_Forall (λ _ c, has_signature c = true) (_commits s) →
  view s l = Ok lv → view s r = Ok rv → base_view s base = Ok bv →
  ∀ sid c, lv !! sid = Some c ∨ rv !! sid = Some c ∨ bv !! sid = Some c →
           has_signature c = true.
Proof.
  intros Hwf Hsig Hlv Hrv Hbv sid c Hc.
  apply (Hsig (commit_id c) c).
  destruct Hc as [Hc|[Hc|Hc]].
  - exact (view_members s l lv sid c Hwf Hlv Hc).
  - exact (view_members s r rv sid c Hwf Hrv Hc).
  - exact (base_view_members s base bv sid c Hwf Hbv Hc).
Qed.

(** X10. for two stored heads of a store built by append in which
    _semantic_free_payload_change returns a signature for every stored
    commit, the analysis has two outcomes only.  It raises AssertionError
    exactly when some subject of the base view is in neither head view;
    otherwise it returns a decision that records the chosen base and the two
    heads and classifies every subject by the rules left only, right only,
    same payload signature, one side equal to the base, conflict. *)
Theorem analysis_outcome_on_stored_heads s l r :
  reachable s → l ∈ dom (_commits s) → r ∈ dom (_commits s) →
  map_Forall (λ _ c, has_signature c = true) (_commits s) →
  ∃ base lv rv bv,
    _pick_base s l r = Ok base ∧ view s l = Ok lv ∧ view s r = Ok rv ∧
    base_view s base = Ok bv ∧
    (three_way_merge_analysis s l r = Raise AssertionError ↔
     ∃ sid, sid ∈ dom bv ∧ lv !! sid = None ∧ rv !! sid = None) ∧
    ((∃ d, three_way_merge_analysis s l r = Ok d) ↔
     ∀ sid, sid ∈ dom bv → is_Some (lv !! sid) ∨ is_Some (rv !! sid)) ∧
    (∀ d, three_way_merge_analysis s l r = Ok d →
          base_commit d = base ∧ left_commit d = l ∧ right_commit d = r ∧
          ∀ sid, classified lv rv bv d sid) ∧
    (∀ e, three_way_merge_analysis s l r = Raise e → e = AssertionError) ∧
    three_way_merge_analysis s l r ≠ Diverge.
Proof.
  intros Hs Hl Hr Hsig.
  destruct (three_way_merge_analysis_spec s l r Hs Hl Hr)
    as (base & lv & rv & bv & Hbase & Hlv & Hrv & Hbv & Hcases).
  specialize (Hcases (views_signed s l r base lv rv bv (reachable_wf s Hs)
                        Hsig Hlv Hrv Hbv)).
  exists base, lv, rv, bv. split_and!; [done..| | | | |].
  - destruct Hcases as [[Hex ->]|[Hall (d & -> & _)]]; [done|].
    split; [done|]. intros (sid & Hsid & Hl' & Hr').
    destruct (Hall sid Hsid) as [[? ?]|[? ?]]; congruence.
  - destruct Hcases as [[(sid & Hsid & Hl' & Hr') ->]|[Hall (d & -> & _)]].
    + split; [by intros [? ?]|]. intros Hall.
      destruct (Hall sid Hsid) as [[? ?]|[? ?]]; congruence.
    + split; [done|]. intros _. by exists d.
  - intros d Hd. destruct Hcases as [[_ Hfail]|[_ (d' & Hd' & Hb & Hlc & Hrc & Hcl)]].
    + congruence.
    + assert (d' = d) as -> by congruence. done.
  - intros e He. destruct Hcases as [[_ Hf]|[_ (d & Hd & _)]]; congruence.
  - destruct Hcases as [[_ Hf]|[_ (d & Hd & _)]]; congruence.
Qed.

(** X11. when the history of one of the two heads is linear (the head and
    each of its ancestors has at most one parent) and
    _semantic_free_payload_change returns a signature for every stored
    commit, the analysis of two stored heads returns a decision: every
    subject of the base view is then in the view of that head. *)
Theorem analysis_total_on_linear_history s l r :
  reachable s → l ∈ dom (_commits s) → r ∈ dom (_commits s) →
  map_Forall (λ _ c, has_signature c = true) (_commits s) →
  linear_history s l ∨ linear_history s r →
  ∃ d base lv rv bv,
    three_way_merge_analysis s l r = Ok d ∧
    _pick_base s l r = Ok base ∧ base_commit d = base ∧
    view s l = Ok lv ∧ view s r = Ok rv ∧ base_view s base = Ok bv ∧
    (dom bv ⊆ dom lv ∨ dom bv ⊆ dom rv) ∧
    ∀ sid, classified lv rv bv d sid.
Proof.
  intros Hs Hl Hr Hsig Hlin. pose proof (reachable_wf s Hs) as Hwf.
  destruct (three_way_merge_analysis_spec s l r Hs Hl Hr)
    as (base & lv & rv & bv & Hbase & Hlv & Hrv & Hbv & Hcases).
  specialize (Hcases (views_signed s l r base lv rv bv Hwf Hsig Hlv Hrv Hbv)).
  destruct (pick_base_spec s l r Hwf Hl Hr) as (base' & Hbase' & Hb).
  assert (base' = base) as -> by congruence.
  (* a linear head view holds every subject of the base view *)
  assert (Hcover : ∀ h hv, h ∈ dom (_commits s) → linear_history s h →
            view s h = Ok hv →
            (∀ b, base = Some b → b = h ∨ ancestor s h b) → dom bv ⊆ dom hv).
  { intros h hv Hh Hhlin Hhv Hrel.
    destruct base as [b|]; simpl in Hbv;
      [|injection Hbv as <-; rewrite dom_empty_L; set_solver].
    destruct (Hb b eq_refl) as (Hbd & Htr & _). rewrite Htr in Hbv.
    destruct (commit_chain_chain_to s h Hwf Hh) as (ch & Hch & Hto).
    destruct (commit_chain_chain_to s b Hwf Hbd) as (cb & Hcb & Htob).
    unfold view in Hhv, Hbv. rewrite Hch in Hhv. rewrite Hcb in Hbv.
    cbn [mbind result_bind] in Hhv, Hbv. injection Hhv as <-. injection Hbv as <-.
    assert (Hmem : ∃ c, c ∈ ch ∧ commit_id c = b).
    { specialize (Hrel b eq_refl). clear Hch. revert Hhlin Hrel.
      induction Hto as [cid c Hc Hlen|cid c p cs Hc Hps Hto IH]; intros Hhlin Hrel.
      - assert (parents c = []) as Hnil.
        { pose proof (Hhlin cid c (or_introl eq_refl) Hc).
          destruct (parents c) as [|? [|? ?]]; simpl in *; [done|done|lia]. }
        destruct Hrel as [->|Hanc].
        + exists c. split; [by left|]. by apply (wf_key s Hwf).
        + apply ancestor_unfold in Hanc as [(c' & Hc' & Hin)|(y & (c' & Hc' & Hin) & _)];
            assert (c' = c) as -> by congruence; rewrite Hnil in Hin; inversion Hin.
      - assert (Hpar : parent_of s cid p).
        { exists c. split; [done|]. rewrite Hps. by left. }
        assert (Honly : ∀ y, parent_of s cid y → y = p).
        { intros y (c' & Hc' & Hin). assert (c' = c) as -> by congruence.
          rewrite Hps in Hin. by apply list_elem_of_singleton in Hin. }
        destruct Hrel as [->|Hanc].
        + exists c. split; [apply elem_of_app; right; by left|].
          by apply (wf_key s Hwf).
        + destruct IH as (c' & Hc' & Hid).
          * by apply (parent_of_closed s cid p Hwf).
          * intros x cx Hx Hcx. apply (Hhlin x cx); [|done]. right.
            destruct Hx as [->|Hx]; [by apply tc_once|by eapply tc_l].
          * apply ancestor_unfold in Hanc as [Hy|(y & Hy & Hyb)].
            -- left. by apply Honly.
            -- right. by rewrite <- (Honly y Hy).
          * exists c'. split; [apply elem_of_app; by left|done]. }
    destruct Hmem as (c & Hc & Hid).
    destruct (chain_to_prefix s h ch c Hwf Hto Hc) as (pre & Hpre & (post & ->)).
    rewrite Hid in Hpre. rewrite (chain_to_unique s b cb pre Htob Hpre).
    intros sid (c' & Hc' & Hsid)%index_latest_dom. apply index_latest_dom.
    exists c'. split; [|done]. apply elem_of_app. by left. }
  assert (Hrel : ∀ b, base = Some b →
            (b = l ∨ ancestor s l b) ∧ (b = r ∨ ancestor s r b)).
  { intros b ->. destruct (Hb b eq_refl) as (_ & _ & C & HC & HbC).
    destruct (lca_candidates_spec s l r Hwf Hl Hr) as (A & B & HA & HB & HC').
    rewrite HC in HC'. injection HC' as ->.
    destruct (ancestors_of_spec s Hwf l Hl) as (A' & HA' & HAm).
    destruct (ancestors_of_spec s Hwf r Hr) as (B' & HB' & HBm).
    assert (A' = A) as -> by congruence. assert (B' = B) as -> by congruence.
    apply elem_of_intersection in HbC as [HbA HbB].
    split.
    - apply elem_of_union in HbA as [?%HAm|?%elem_of_singleton]; auto.
    - apply elem_of_union in HbB as [?%HBm|?%elem_of_singleton]; auto. }
  assert (Hsub : dom bv ⊆ dom lv ∨ dom bv ⊆ dom rv).
  { destruct Hlin as [Hlin|Hlin]; [left|right].
    - apply (Hcover l lv Hl Hlin Hlv). intros b Hbb. by apply Hrel.
    - apply (Hcover r rv Hr Hlin Hrv). intros b Hbb. by apply Hrel. }
  destruct Hcases as [[(sid & Hsid & Hnl & Hnr) _]|[_ (d & Hd & Hbc & _ & _ & Hcl)]].
  - exfalso. destruct Hsub as [Hsub|Hsub]; apply Hsub, elem_of_dom in Hsid as [? ?];
      congruence.
  - exists d, base, lv, rv, bv. by split_and!.
Qed.
End analysis_outcome.

Lemma analysis_outcome_on_stored_heads_witness :
  ∃ base, _pick_base branched_store "l" "r" = Ok base ∧
          three_way_merge_analysis (H := example_host) branched_store "l" "r"
            ≠ Diverge.
Proof.
  destruct (analysis_outcome_on_stored_heads (H := example_host) branched_store
              "l" "r" branched_store_reachable)
    as (base & lv & rv & bv & Hbase & _ & _ & _ & _ & _ & _ & _ & Hnd).
  { in_store. }
  { in_store. }
  { apply (bool_decide_unpack _). vm_compute. reflexivity. }
  by exists base.
Defined.
(* ================================================================== *)
(** * The shape of a merge decision *)

Lemma analysis_total_on_linear_history_witness :
  ∃ d, three_way_merge_analysis (H := example_host) branched_store "l" "r" = Ok d.
Proof.
  destruct (analysis_total_on_linear_history (H := example_host) branched_store
              "l" "r" branched_store_reachable) as (d & _ & _ & _ & _ & Hd & _).
  - in_store.
  - in_store.
  - apply (bool_decide_unpack _). vm_compute. reflexivity.
  - left. intros x c _ Hc.
    assert (Hall : map_Forall (λ _ c, length (parents c) ≤ 1) (_commits branched_store)).
    { apply (bool_decide_unpack _). vm_compute. reflexivity. }
    by apply (Hall x c).
  - by exists d.
Defined.

Lemma sort_strings_strict l :
  NoDup l → StronglySorted key_lt (sort_strings l).
Proof.
  intros Hnd.
  assert (Hnd' : NoDup (sort_strings l))
    by (unfold sort_strings; by rewrite py_sorted_perm).
  pose proof (sort_strings_sorted l) as Hsorted.
  induction Hsorted as [|a l' Hl' IH Ha]; [constructor|].
  apply NoDup_cons in Hnd' as [Hal Hnd'].
  constructor; [by apply IH|].
  rewrite Forall_forall in Ha |- *. intros b Hb.
  apply string_le_ne_lt; [by apply Ha|]. by intros ->.
Qed.

Section decision_shape.
Context `{Host}.
Variables lv rv bv : gmap string Commit.

Lemma verdict_single sid a c :
  verdict lv rv bv sid = Ok (a, c) →
  ∃ e, entry_subject e = Some sid ∧ ((a = [e] ∧ c = []) ∨ (a = [] ∧ c = [e])).
Proof.
  unfold verdict, classify_subject.
  destruct (lv !! sid) as [lc|], (rv !! sid) as [rc|]; [| | |done].
  - destruct (_semantic_free_payload_change lc) as [l_sig| |]; [|done..].
    destruct (_semantic_free_payload_change rc) as [r_sig| |]; [|done..].
    cbn [mbind result_bind]. destruct (String.eqb _ _).
    + intros [= <- <-]. eexists. split; [|left; split; reflexivity]. done.
    + destruct (bv !! sid) as [bc|].
      * destruct (_semantic_free_payload_change bc) as [b_sig| |]; [|done..].
        cbn [mbind result_bind]. destruct (_ && _).
        { intros [= <- <-]. eexists. split; [|left; split; reflexivity]. done. }
        destruct (_ && _).
        { intros [= <- <-]. eexists. split; [|left; split; reflexivity]. done. }
        intros [= <- <-]. eexists. split; [|right; split; reflexivity]. done.
      * intros [= <- <-]. eexists. split; [|right; split; reflexivity]. done.
  - intros [= <- <-]. eexists. split; [|left; split; reflexivity]. done.
  - intros [= <- <-]. eexists. split; [|left; split; reflexivity]. done.
Qed.

Lemma classify_fold_sorted subs acts confs acts' confs' :
  StronglySorted key_lt subs →
  fold_result (classify_subject lv rv bv) (acts, confs) subs = Ok (acts', confs') →
  ∃ na nc, acts' = acts ++ na ∧ confs' = confs ++ nc ∧
    Forall (λ e, ∃ sid, entry_subject e = Some sid ∧ sid ∈ subs) na ∧
    Forall (λ e, ∃ sid, entry_subject e = Some sid ∧ sid ∈ subs) nc ∧
    StronglySorted by_subject na ∧ StronglySorted by_subject nc ∧
    length na + length nc = length subs.
Proof.
  intros Hsorted. revert acts confs acts' confs'.
  induction Hsorted as [|sid subs Hsubs IH Hsid]; intros acts confs acts' confs'.
  - intros [= <- <-]. exists [], []. rewrite !app_nil_r.
    split_and!; try done; constructor.
  - cbn [fold_result]. rewrite classify_subject_acc.
    destruct (verdict lv rv bv sid) as [[a c]| |] eqn:Hv; [|done..].
    cbn [mbind result_bind fst snd]. intros Hfold.
    destruct (IH _ _ _ _ Hfold) as (na & nc & -> & -> & Hna & Hnc & Hsa & Hsc & Hlen).
    destruct (verdict_single sid a c Hv) as (e & He & Hac).
    assert (Hlift : ∀ es,
      Forall (λ e, ∃ sid0, entry_subject e = Some sid0 ∧ sid0 ∈ subs) es →
      Forall (λ e, ∃ sid0, entry_subject e = Some sid0 ∧ sid0 ∈ sid :: subs) es).
    { intros es Hes. eapply Forall_impl; [exact Hes|]. intros e' (s' & Hs' & Hin).
      exists s'. split; [done|by right]. }
    assert (Hhead : ∀ es,
      Forall (λ e, ∃ sid0, entry_subject e = Some sid0 ∧ sid0 ∈ subs) es →
      Forall (by_subject e) es).
    { intros es Hes. eapply Forall_impl; [exact Hes|]. intros e' (s' & Hs' & Hin).
      exists sid, s'. split_and!; [done..|].
      rewrite Forall_forall in Hsid. by apply Hsid. }
    destruct Hac as [[-> ->]|[-> ->]].
    + exists (e :: na), nc. rewrite <- !app_assoc. cbn [app].
      split_and!; [done|done| |by apply Hlift| |done|simpl; lia].
      * constructor; [|by apply Hlift]. exists sid. split; [done|by left].
      * constructor; [done|by apply Hhead].
    + exists na, (e :: nc). rewrite <- !app_assoc. cbn [app].
      split_and!; [done|done|by apply Hlift| |done| |simpl; lia].
      * constructor; [|by apply Hlift]. exists sid. split; [done|by left].
      * constructor; [done|by apply Hhead].
Qed.

End decision_shape.

Section decision_order.
Context `{Host}.

(** X12. in a decision the analysis returns, the actions are in strictly
    ascending order of subject id, and so are the conflicts; every subject of
    the two head views has exactly one entry, an action or a conflict, and no
    other subject has any. *)
Theorem analysis_decision_ordered_and_complete s l r d :
  reachable s → three_way_merge_analysis s l r = Ok d →
  ∃ lv rv,
    view s l = Ok lv ∧ view s r = Ok rv ∧
    StronglySorted by_subject (actions d) ∧
    StronglySorted by_subject (conflicts d) ∧
    length (actions d) + length (conflicts d) = size (dom lv ∪ dom rv) ∧
    (∀ sid, sid ∈ dom lv ∪ dom rv →
       length (entries_for sid (actions d))
       + length (entries_for sid (conflicts d)) = 1) ∧
    (∀ sid, sid ∉ dom lv ∪ dom rv →
       entries_for sid (actions d) = [] ∧ entries_for sid (conflicts d) = []).
Proof.
  intros Hs Hd. pose proof (reachable_wf s Hs) as Hwf.
  destruct (decide (l ∈ dom (_commits s))) as [Hl|Hl];
    [|rewrite three_way_merge_analysis_MergeError in Hd by auto; done].
  destruct (decide (r ∈ dom (_commits s))) as [Hr|Hr];
    [|rewrite three_way_merge_analysis_MergeError in Hd by auto; done].
  destruct (pick_base_spec s l r Hwf Hl Hr) as (base & Hbase & Hb).
  assert (Hbdom : ∀ b, base = Some b → b ∈ dom (_commits s))
    by (intros b Hbb; by apply Hb).
  destruct (view_Ok s l Hwf Hl) as (lv & Hlv).
  destruct (view_Ok s r Hwf Hr) as (rv & Hrv).
  destruct (base_view_Ok s base Hwf Hbdom) as (bv & Hbv).
  exists lv, rv. split; [done|]. split; [done|].
  rewrite (analysis_unfold s l r base lv rv bv) in Hd by done.
  destruct (subjects_sorted (dom lv ∪ dom rv ∪ dom bv)) as [Hnd Hin].
  set (subs := sort_strings (elements (dom lv ∪ dom rv ∪ dom bv))) in *.
  destruct (fold_result (classify_subject lv rv bv) ([], []) subs)
    as [[acts confs]| |] eqn:Hfold; [|done..].
  cbn [mbind result_bind] in Hd. injection Hd as <-. cbn [actions conflicts fst snd].
  assert (Hstrict : StronglySorted key_lt subs).
  { apply sort_strings_strict, NoDup_elements. }
  destruct (classify_fold_sorted lv rv bv subs [] [] acts confs Hstrict Hfold)
    as (na & nc & -> & -> & _ & _ & Hsa & Hsc & Hlen).
  cbn [app].
  (* no subject is missing from both head views *)
  assert (Hall : ∀ sid, sid ∈ subs → is_Some (lv !! sid) ∨ is_Some (rv !! sid)).
  { intros sid Hsid.
    destruct (lv !! sid) eqn:Hlsid; [by eauto|].
    destruct (rv !! sid) eqn:Hrsid; [by eauto|].
    exfalso. apply (classify_fold_missing lv rv bv subs [] [] _) in Hfold; [done|].
    by exists sid. }
  assert (Hunion : dom lv ∪ dom rv ∪ dom bv = dom lv ∪ dom rv).
  { apply set_eq. intros sid. split; [|set_solver].
    intros Hsid. apply Hin in Hsid. apply Hall in Hsid.
    rewrite elem_of_union, !elem_of_dom. done. }
  destruct (classify_fold_inv lv rv bv subs [] [] _ Hnd Hfold)
    as (na' & nc' & Hacc & Hspec).
  cbn [app] in Hacc. injection Hacc as <- <-.
  split_and!; [done|done| | |].
  - rewrite Hlen. unfold subs, sort_strings. rewrite py_sorted_perm.
    by rewrite Hunion.
  - intros sid Hsid. rewrite <- Hunion in Hsid. apply Hin in Hsid.
    destruct (Hspec sid) as [Hspec_in _].
    destruct (Hspec_in Hsid) as (a & c & Hv & <- & <-).
    destruct (verdict_single lv rv bv sid _ _ Hv) as (e & _ & [[-> ->]|[-> ->]]);
      done.
  - intros sid Hsid. rewrite <- Hunion, <- Hin in Hsid.
    by apply (Hspec sid).
Qed.
End decision_order.

Lemma analysis_decision_ordered_and_complete_witness :
  ∃ d lv rv,
    three_way_merge_analysis (H := example_host) branched_store "l" "r" = Ok d ∧
    view branched_store "l" = Ok lv ∧ view branched_store "r" = Ok rv ∧
    length (actions d) + length (conflicts d) = size (dom lv ∪ dom rv).
Proof.
  destruct (base_divergence_scenario (H := example_host)) as (d & Hd & _).
  destruct (analysis_decision_ordered_and_complete (H := example_host)
              branched_store "l" "r" d branched_store_reachable Hd)
    as (lv & rv & Hlv & Hrv & _ & _ & Hlen & _).
  by exists d, lv, rv.
Defined.
(* ================================================================== *)
(** * Exchanging the two heads *)

Lemma mirror_proposal_involutive p : mirror_proposal (mirror_proposal p) = p.
Proof.
  unfold mirror_proposal.
  destruct (String.eqb p "accept_left") eqn:H1.
  { apply String.eqb_eq in H1 as ->. done. }
  destruct (String.eqb p "accept_right") eqn:H2.
  { apply String.eqb_eq in H2 as ->. done. }
  by rewrite H1, H2.
Qed.

Section mirror.
Context `{Host}.
Variables lv rv bv : gmap string Commit.

Lemma verdict_mirror sid a c :
  verdict lv rv bv sid = Ok (a, c) →
  ∃ a' c', verdict rv lv bv sid = Ok (a', c') ∧
    ((∃ e e' p, a = [e] ∧ c = [] ∧ a' = [e'] ∧ c' = [] ∧
        entry_get "proposal" e = Some (Some p) ∧
        entry_get "proposal" e' = Some (Some (mirror_proposal p))) ∨
     (∃ e e', a = [] ∧ c = [e] ∧ a' = [] ∧ c' = [e'] ∧
        entry_get "conflict" e = Some (Some "divergent_updates") ∧
        entry_get "conflict" e' = Some (Some "divergent_updates"))).
Proof.
  unfold verdict, classify_subject.
  destruct (lv !! sid) as [lc|], (rv !! sid) as [rc|]; [| | |done].
  - destruct (_semantic_free_payload_change lc) as [l_sig| |]; [|done..].
    destruct (_semantic_free_payload_change rc) as [r_sig| |]; [|done..].
    cbn [mbind result_bind].
    rewrite (String.eqb_sym r_sig l_sig).
    destruct (String.eqb l_sig r_sig).
    + intros [= <- <-]. do 2 eexists. split; [done|]. left.
      do 3 eexists. split_and!; done.
    + destruct (bv !! sid) as [bc|].
      * destruct (_semantic_free_payload_change bc) as [b_sig| |]; [|done..].
        cbn [mbind result_bind].
        destruct (String.eqb l_sig b_sig), (String.eqb r_sig b_sig);
          cbn [andb negb]; intros [= <- <-]; do 2 eexists; (split; [done|]).
        -- right. do 2 eexists. split_and!; done.
        -- left. do 3 eexists. split_and!; done.
        -- left. do 3 eexists. split_and!; done.
        -- right. do 2 eexists. split_and!; done.
      * intros [= <- <-]. do 2 eexists. split; [done|]. right.
        do 2 eexists. split_and!; done.
  - intros [= <- <-]. do 2 eexists. split; [done|]. left.
    do 3 eexists. split_and!; done.
  - intros [= <- <-]. do 2 eexists. split; [done|]. left.
    do 3 eexists. split_and!; done.
Qed.

(** A verdict that fails, fails in the same way with the heads exchanged:
    the only exception of a signature is ValueError. *)
Lemma verdict_mirror_Raise sid e :
  verdict lv rv bv sid = Raise e → verdict rv lv bv sid = Raise e.
Proof.
  unfold verdict, classify_subject.
  destruct (lv !! sid) as [lc|], (rv !! sid) as [rc|]; try done.
  pose proof (signature_outcome lc) as Hlc.
  pose proof (signature_outcome rc) as Hrc.
  destruct (_semantic_free_payload_change lc) as [l_sig|el|];
    destruct (_semantic_free_payload_change rc) as [r_sig|er|];
    simpl in Hlc, Hrc; try done;
    repeat match goal with
           | Hx : _ ∈ [ValueError] |- _ => apply list_elem_of_singleton in Hx as ->
           end; cbn [mbind result_bind]; try done.
  rewrite (String.eqb_sym r_sig l_sig).
  destruct (String.eqb l_sig r_sig); [done|].
  destruct (bv !! sid) as [bc|]; [|done].
  destruct (_semantic_free_payload_change bc) as [b_sig| |]; [|done..].
  cbn [mbind result_bind].
  by destruct (String.eqb l_sig b_sig), (String.eqb r_sig b_sig).
Qed.

Lemma classify_fold_mirror_Ok subs acts confs acts2 confs2 acc' :
  fold_result (classify_subject lv rv bv) (acts, confs) subs = Ok acc' →
  ∃ acc2', fold_result (classify_subject rv lv bv) (acts2, confs2) subs = Ok acc2'.
Proof.
  revert acts confs acts2 confs2.
  induction subs as [|x subs IH]; intros acts confs acts2 confs2; cbn [fold_result].
  { eauto. }
  rewrite !classify_subject_acc.
  destruct (verdict lv rv bv x) as [[a c]| |] eqn:Hv; [|done..].
  destruct (verdict_mirror x a c Hv) as (a' & c' & -> & _).
  cbn [mbind result_bind]. apply IH.
Qed.

Lemma classify_fold_mirror_Raise subs acts confs acts2 confs2 e :
  fold_result (classify_subject lv rv bv) (acts, confs) subs = Raise e →
  fold_result (classify_subject rv lv bv) (acts2, confs2) subs = Raise e.
Proof.
  revert acts confs acts2 confs2.
  induction subs as [|x subs IH]; intros acts confs acts2 confs2; cbn [fold_result].
  { done. }
  rewrite !classify_subject_acc.
  destruct (verdict lv rv bv x) as [[a c]|e'|] eqn:Hv; [| |done].
  - destruct (verdict_mirror x a c Hv) as (a' & c' & -> & _).
    cbn [mbind result_bind]. apply IH.
  - rewrite (verdict_mirror_Raise x e' Hv). done.
Qed.
End mirror.

Section mirror_analysis.
Context `{Host}.

(** What a decision says about a subject whose verdict is known. *)
Lemma decision_reads_verdict (d : MergeDecision) sid a c :
  entries_for sid (actions d) = a → entries_for sid (conflicts d) = c →
  (∀ p, proposes d sid p ↔
        ∃ e, a = [e] ∧ entry_get "proposal" e = Some (Some p) ∧ c = []) ∧
  (in_conflict d sid ↔
   a = [] ∧ ∃ e, c = [e] ∧ entry_get "conflict" e = Some (Some "divergent_updates")).
Proof. intros <- <-. unfold proposes, in_conflict. done. Qed.

(** X13. the analysis is symmetric in its two heads.  Exchanging them gives
    the same failure, or a decision with the same base in which every
    accept_left has become accept_right and conversely, while accept_either
    and the conflicts are about the same subjects. *)
Theorem analysis_mirror s l r :
  reachable s →
  (∀ e, three_way_merge_analysis s l r = Raise e ↔
        three_way_merge_analysis s r l = Raise e) ∧
  (∀ d, three_way_merge_analysis s l r = Ok d →
     ∃ d', three_way_merge_analysis s r l = Ok d' ∧
       base_commit d' = base_commit d ∧
       left_commit d' = right_commit d ∧ right_commit d' = left_commit d ∧
       ∀ sid,
         (∀ p, proposes d sid p ↔ proposes d' sid (mirror_proposal p)) ∧
         (in_conflict d sid ↔ in_conflict d' sid)).
Proof.
  intros Hs. pose proof (reachable_wf s Hs) as Hwf.
  destruct (decide (l ∈ dom (_commits s) ∧ r ∈ dom (_commits s))) as [[Hl Hr]|Hn].
  2:{ assert (l ∉ dom (_commits s) ∨ r ∉ dom (_commits s)) as Hlr.
      { destruct (decide (l ∈ dom (_commits s))); [|by left].
        destruct (decide (r ∈ dom (_commits s))); [|by right]. by destruct Hn. }
      rewrite (three_way_merge_analysis_MergeError s l r Hlr).
      rewrite (three_way_merge_analysis_MergeError s r l) by tauto.
      split; [done|]. by intros d. }
  destruct (pick_base_spec s l r Hwf Hl Hr) as (base & Hbase & Hb).
  assert (Hbdom : ∀ b, base = Some b → b ∈ dom (_commits s))
    by (intros b Hbb; by apply Hb).
  assert (Hbase' : _pick_base s r l = Ok base).
  { unfold _pick_base in *. by rewrite (lca_candidates_comm s r l Hwf). }
  destruct (view_Ok s l Hwf Hl) as (lv & Hlv).
  destruct (view_Ok s r Hwf Hr) as (rv & Hrv).
  destruct (base_view_Ok s base Hwf Hbdom) as (bv & Hbv).
  rewrite (analysis_unfold s l r base lv rv bv) by done.
  rewrite (analysis_unfold s r l base rv lv bv) by done.
  assert (Hsets : dom rv ∪ dom lv ∪ dom bv = dom lv ∪ dom rv ∪ dom bv) by set_solver.
  rewrite Hsets.
  destruct (subjects_sorted (dom lv ∪ dom rv ∪ dom bv)) as [Hnd Hin].
  set (subs := sort_strings (elements (dom lv ∪ dom rv ∪ dom bv))) in *.
  pose proof (classify_fold_outcome lv rv bv subs ([], [])) as Hout.
  pose proof (classify_fold_outcome rv lv bv subs ([], [])) as Hout'.
  destruct (fold_result (classify_subject lv rv bv) ([], []) subs)
    as [acc|e0|] eqn:Hfold; [| |done].
  2:{ rewrite (classify_fold_mirror_Raise lv rv bv subs [] [] [] [] e0 Hfold).
      split; [done|]. by intros d. }
  destruct (classify_fold_mirror_Ok lv rv bv subs [] [] [] [] acc Hfold)
    as (acc2 & Hfold').
  rewrite Hfold'.
  - destruct (classify_fold_inv lv rv bv subs [] [] acc Hnd Hfold)
      as (na & nc & -> & Hspec).
    destruct (classify_fold_inv rv lv bv subs [] [] acc2 Hnd Hfold')
      as (na' & nc' & -> & Hspec').
    cbn [mbind result_bind app fst snd].
    split; [done|]. intros d [= <-]. eexists. split; [done|].
    cbn [base_commit left_commit right_commit]. split_and!; [done..|].
    intros sid.
    destruct (decide (sid ∈ subs)) as [Hsid|Hsid].
    + destruct (proj1 (Hspec sid) Hsid) as (a & c & Hv & Ha & Hc).
      destruct (proj1 (Hspec' sid) Hsid) as (a' & c' & Hv' & Ha' & Hc').
      destruct (verdict_mirror lv rv bv sid a c Hv) as (a2 & c2 & Hv2 & Hrel).
      rewrite Hv' in Hv2. injection Hv2 as <- <-.
      match goal with
      | |- (∀ p, proposes ?d1 _ _ ↔ proposes ?d2 _ _) ∧ _ =>
          destruct (decision_reads_verdict d1 sid a c Ha Hc) as [Hp1 Hc1];
          destruct (decision_reads_verdict d2 sid a' c' Ha' Hc') as [Hp2 Hc2]
      end.
      split.
      * intros p. rewrite Hp1, Hp2.
        destruct Hrel as [(e & e' & p0 & -> & -> & -> & -> & He & He')
                         |(e & e' & -> & -> & -> & -> & _)].
        -- split.
           ++ intros (e0 & [= <-] & Hp & _). exists e'. split_and!; [done| |done].
              rewrite He in Hp. injection Hp as <-. done.
           ++ intros (e0 & [= <-] & Hp & _). exists e. split_and!; [done| |done].
              rewrite He' in Hp. injection Hp as Hp.
              rewrite He. do 2 f_equal.
              by rewrite <- (mirror_proposal_involutive p0), Hp,
                           mirror_proposal_involutive.
        -- split; by intros (e0 & ? & _).
      * rewrite Hc1, Hc2.
        destruct Hrel as [(e & e' & p0 & -> & -> & -> & -> & He & He')
                         |(e & e' & -> & -> & -> & -> & He & He')].
        -- split; by intros [? _].
        -- split; intros _; (split; [done|]); eexists; by split.
    + destruct (proj2 (Hspec sid) Hsid) as [Ha Hc].
      destruct (proj2 (Hspec' sid) Hsid) as [Ha' Hc'].
      match goal with
      | |- (∀ p, proposes ?d1 _ _ ↔ proposes ?d2 _ _) ∧ _ =>
          destruct (decision_reads_verdict d1 sid [] [] Ha Hc) as [Hp1 Hc1];
          destruct (decision_reads_verdict d2 sid [] [] Ha' Hc') as [Hp2 Hc2]
      end.
      split.
      * intros p. rewrite Hp1, Hp2. split; by intros (e0 & ? & _).
      * rewrite Hc1, Hc2. split; by intros (_ & e0 & ? & _).
Qed.
End mirror_analysis.

Lemma analysis_mirror_witness :
  ∃ d d',
    three_way_merge_analysis (H := example_host) branched_store "l" "r" = Ok d ∧
    three_way_merge_analysis (H := example_host) branched_store "r" "l" = Ok d' ∧
    base_commit d' = base_commit d.
Proof.
  destruct (base_divergence_scenario (H := example_host)) as (d & Hd & _).
  destruct (proj2 (analysis_mirror (H := example_host) branched_store "l" "r"
                     branched_store_reachable) d Hd) as (d' & Hd' & Hb & _).
  by exists d, d'.
Defined.
(* ================================================================== *)
(** * Further properties of commit_merge *)

Lemma children_of_spec s p x :
  store_wf s → x ∈ children_of s p ↔ parent_of s x p.
Proof.
  intros Hwf. unfold children_of.
  destruct (_children s !! p) as [ch|] eqn:Hp.
  - by apply (wf_children s Hwf).
  - split; [set_solver|]. intros Hpar. exfalso.
    apply (parent_of_closed s x p Hwf) in Hpar.
    rewrite <- (wf_children_dom s Hwf) in Hpar.
    apply elem_of_dom in Hpar as [? ?]. congruence.
Qed.

Section merge_commits.
Context `{Host}.
Variables (draws : nat → string * Z) (l r kind namespace scope note : string).

(** X16. commit_merge does not roll back.  When the anchors of the pairs
    before some position can be recomputed and the recomputation for the
    pair at that position raises an exception, the call raises that
    exception and leaves the store exactly as a successful call on the pairs
    before that position leaves it: the commits appended for them stay
    stored, and their ids are the ones drawn first. *)
Theorem commit_merge_keeps_commits_on_failure
    store decision good sid bad rest e :
  l ∈ dom (_commits store) → r ∈ dom (_commits store) →
  (∀ sid' pl, (sid', pl) ∈ good →
     ∃ fp, canonical_fingerprint kind namespace (PyDict pl) scope "v1" = Ok fp) →
  canonical_fingerprint kind namespace (PyDict bad) scope "v1" = Raise e →
  ∃ cs store',
    commit_merge store draws (l, r) decision good kind namespace scope note
      = (Ok cs, store') ∧
    commit_merge store draws (l, r) decision (good ++ (sid, bad) :: rest)
      kind namespace scope note
      = (Raise e, store') ∧
    length cs = length good ∧
    (∀ j c, cs !! j = Some c → commit_id c = (draws j).1) ∧
    (∀ k, k ∈ dom (_commits store') ↔
          k ∈ dom (_commits store) ∨ ∃ j, j < length good ∧ k = (draws j).1) ∧
    (good ≠ [] → _commits store !! (draws 0).1 = None → store' ≠ store).
Proof.
  intros Hl Hr Hgood Hbad.
  destruct (commit_merge_stops draws l r kind namespace scope note store decision
              good sid bad rest e Hl Hr Hgood Hbad)
    as (cs & store' & Hok & Hfail & Hlen & Hids & Hdom).
  exists cs, store'. split_and!; [done..|].
  intros Hne Hfresh ->. apply not_elem_of_dom in Hfresh. apply Hfresh, Hdom.
  right. exists 0. split; [|done]. destruct good; [done|simpl; lia].
Qed.
End merge_commits.

Lemma commit_merge_keeps_commits_on_failure_witness :
  ∃ (cs : list Commit) store',
    commit_merge (H := example_host) branched_store (λ _, ("m", 4%Z)) ("l", "r")
      example_decision
      [("A", [(PyStr "statement", PyInt 1)]); ("C", [(PyStr "blob", PyBytes "x")])]
      "motif" "A1.demo" "global" "merge commit"
    = (Raise CanonicalizationError, store') ∧
    length cs = 1 ∧ store' ≠ branched_store.
Proof.
  destruct (commit_merge_keeps_commits_on_failure (H := example_host)
              (λ _, ("m", 4%Z)) "l" "r" "motif" "A1.demo" "global" "merge commit"
              branched_store example_decision
              [("A", [(PyStr "statement", PyInt 1)])] "C"
              [(PyStr "blob", PyBytes "x")] [] CanonicalizationError)
    as (cs & store' & _ & Hfail & Hlen & _ & _ & Hne).
  - in_store.
  - in_store.
  - intros sid pl Hin. apply list_elem_of_singleton in Hin. injection Hin as -> ->.
    eexists. vm_compute. reflexivity.
  - vm_compute. reflexivity.
  - exists cs, store'. split_and!; [exact Hfail|exact Hlen|].
    apply Hne; [done|]. vm_compute. reflexivity.
Defined.

(** ** The lineage after a merge *)

Lemma appended_ancestor_two s s' u t l r o sid sk sn ss pl nt c x a :
  store_wf s → _commits s !! u = None →
  append s u t [l; r] o sid sk sn ss pl nt = (Ok c, s') →
  ancestor s' x a ↔
  ancestor s x a ∨
  (x = u ∧ (a = l ∨ a = r ∨ ancestor s l a ∨ ancestor s r a)).
Proof.
  intros Hwf Hfresh Happ.
  rewrite (appended_ancestor s s' u t [l; r] o sid sk sn ss pl nt c Hwf Hfresh Happ).
  assert (Hnu : ancestor s x a → x ≠ u).
  { intros Hxa ->. destruct (ancestor_dom s u a Hwf Hxa) as [Hu _].
    apply elem_of_dom in Hu as [? ?]. congruence. }
  split.
  - intros [[_ Hxa]|[-> [Ha|(p & Hp & Hpa)]]]; [by left| |].
    + right. split; [done|]. set_solver.
    + right. split; [done|]. set_solver.
  - intros [Hxa|[-> Ha]].
    + left. split; [by apply Hnu|done].
    + right. split; [done|].
      destruct Ha as [->|[->|[Ha|Ha]]].
      * left. set_solver.
      * left. set_solver.
      * right. exists l. split; [set_solver|done].
      * right. exists r. split; [set_solver|done].
Qed.

Section merge_lineage.
Context `{Host}.
Variables (draws : nat → string * Z) (l r kind namespace scope note : string).

Lemma commit_merge_loop_lineage items store i acc :
  reachable store →
  l ∈ dom (_commits store) → r ∈ dom (_commits store) →
  (∀ sid pl, (sid, pl) ∈ items →
     ∃ fp, canonical_fingerprint kind namespace (PyDict pl) scope "v1" = Ok fp) →
  (∀ j, j < length items →
        (draws (i + j)).1 ≠ "" ∧ _commits store !! (draws (i + j)).1 = None) →
  (∀ j k, j < k < length items → (draws (i + j)).1 ≠ (draws (i + k)).1) →
  ∃ cs store',
    commit_merge_loop store draws i l r items kind namespace scope note acc
      = (Ok (acc ++ cs), store') ∧
    reachable store' ∧
    length cs = length items ∧
    (∀ k c0, _commits store !! k = Some c0 → _commits store' !! k = Some c0) ∧
    (∀ k, k ∈ dom (_commits store') ↔
          k ∈ dom (_commits store) ∨ k ∈ commit_id <$> cs) ∧
    (∀ c, c ∈ cs → _commits store' !! commit_id c = Some c ∧
                   parents c = [l; r] ∧ commit_id c ∉ dom (_commits store)) ∧
    NoDup (commit_id <$> cs) ∧
    (∀ x a, ancestor store' x a ↔
            ancestor store x a ∨
            (x ∈ commit_id <$> cs ∧
             (a = l ∨ a = r ∨ ancestor store l a ∨ ancestor store r a))).
Proof.
  revert store i acc.
  induction items as [|[sid0 pl0] items IH];
    intros store i acc Hs Hl Hr Hsup Hfresh Hdistinct.
  { exists [], store. rewrite app_nil_r.
    split_and!; [done|done|done|done| | |constructor|].
    - intros k. split; [by left|]. intros [?|Hk]; [done|]. inversion Hk.
    - intros c Hc. inversion Hc.
    - intros x a. split; [by left|]. intros [?|[Hk _]]; [done|]. inversion Hk. }
  pose proof (reachable_wf store Hs) as Hwf.
  destruct (Hsup sid0 pl0) as (fp & Hfp); [by left|].
  destruct (commit_merge_loop_cons draws l r kind namespace scope note
              store i sid0 pl0 items acc fp Hl Hr Hfp)
    as (store1 & o & sid' & Happ & Hstep).
  set (c := merge_commit_for (draws i) l r sid0 fp pl0 kind namespace scope note)
    in *.
  destruct (append_inv _ _ _ _ _ _ _ _ _ _ _ _ _ Happ) as (_ & _ & Hcs & Hch).
  destruct (Hfresh 0) as [Hu0 Hfresh0]; [simpl; lia|].
  rewrite Nat.add_0_r in Hu0, Hfresh0.
  assert (Hid : commit_id c = (draws i).1) by done.
  assert (Hpar : parents c = [l; r]) by done.
  assert (Hs1 : reachable store1) by (by eapply reachable_append).
  assert (Hdom1 : ∀ k, k ∈ dom (_commits store1) ↔
                       k = (draws i).1 ∨ k ∈ dom (_commits store)).
  { intros k. rewrite Hcs, dom_insert. set_solver. }
  assert (Hlu : l ≠ (draws i).1).
  { intros ->. apply elem_of_dom in Hl as [? ?]. congruence. }
  assert (Hru : r ≠ (draws i).1).
  { intros ->. apply elem_of_dom in Hr as [? ?]. congruence. }
  destruct (IH store1 (S i) (acc ++ [c]))
    as (cs & store' & Hloop & Hs' & Hlen & Hkeep & Hdom & Hmem & Hnd & Hanc).
  { done. }
  { apply Hdom1. by right. }
  { apply Hdom1. by right. }
  { intros s0 p0 Hin. apply (Hsup s0). by right. }
  { intros j Hj. replace (S i + j) with (i + S j) by lia.
    destruct (Hfresh (S j)) as [Hne Hfr]; [simpl; lia|]. split; [done|].
    rewrite Hcs, lookup_insert_ne; [done|].
    replace i with (i + 0) at 1 by lia. apply Hdistinct. simpl. lia. }
  { intros j k Hjk. replace (S i + j) with (i + S j) by lia.
    replace (S i + k) with (i + S k) by lia. apply Hdistinct. simpl. lia. }
  assert (Hold : ∀ a, ancestor store1 l a ↔ ancestor store l a).
  { intros a. rewrite (appended_ancestor_two store store1 _ _ l r _ _ _ _ _ _ _ c l a
                         Hwf Hfresh0 Happ). naive_solver. }
  assert (Hold' : ∀ a, ancestor store1 r a ↔ ancestor store r a).
  { intros a. rewrite (appended_ancestor_two store store1 _ _ l r _ _ _ _ _ _ _ c r a
                         Hwf Hfresh0 Happ). naive_solver. }
  exists (c :: cs), store'. rewrite Hstep, Hloop, <- app_assoc.
  split_and!; [done|done|simpl; by rewrite Hlen| | | | |].
  - intros k c0 Hk. apply Hkeep. rewrite Hcs, lookup_insert_ne; [done|]. congruence.
  - intros k. rewrite Hdom, Hdom1, fmap_cons, elem_of_cons, Hid. tauto.
  - intros c' [->|Hc']%elem_of_cons.
    + split_and!; [|done|].
      * apply Hkeep. by rewrite Hcs, Hid, lookup_insert_eq.
      * rewrite Hid. by apply not_elem_of_dom.
    + destruct (Hmem c' Hc') as (Hst & Hp & Hnot). split_and!; [done..|].
      intros Hin. apply Hnot, Hdom1. by right.
  - rewrite fmap_cons. apply NoDup_cons. split; [|done].
    intros (c' & Heq & Hc')%list_elem_of_fmap.
    destruct (Hmem c' Hc') as (_ & _ & Hnot). apply Hnot, Hdom1. left.
    by rewrite <- Heq, Hid.
  - intros x a. rewrite Hanc, fmap_cons, elem_of_cons, Hid, Hold, Hold'.
    rewrite (appended_ancestor_two store store1 _ _ l r _ _ _ _ _ _ _ c x a
               Hwf Hfresh0 Happ).
    tauto.
Qed.

(** X17. on a store built by append and two stored heads, when the anchor
    of every pair can be recomputed and fresh, distinct, non-empty ids are
    drawn, commit_merge succeeds and leaves a store that append could have
    built; it adds one commit per payload and changes nothing that was
    stored; every commit it adds is a child of both heads, and its ancestors
    are the two heads together with all their ancestors; the ancestors of
    the commits stored before are as they were. *)
Theorem commit_merge_extends_lineage store decision items :
  reachable store →
  l ∈ dom (_commits store) → r ∈ dom (_commits store) →
  (∀ sid pl, (sid, pl) ∈ items →
     ∃ fp, canonical_fingerprint kind namespace (PyDict pl) scope "v1" = Ok fp) →
  (∀ j, j < length items →
        (draws j).1 ≠ "" ∧ _commits store !! (draws j).1 = None) →
  (∀ j k, j < k < length items → (draws j).1 ≠ (draws k).1) →
  ∃ cs store',
    commit_merge store draws (l, r) decision items kind namespace scope note
      = (Ok cs, store') ∧
    reachable store' ∧
    size (_commits store') = size (_commits store) + length items ∧
    (∀ k c0, get store k = Ok c0 → get store' k = Ok c0) ∧
    (∀ cid, cid ∈ dom (_commits store) →
            ancestors_of store' cid = ancestors_of store cid) ∧
    (∀ c, c ∈ cs →
          get store' (commit_id c) = Ok c ∧
          commit_id c ∈ children_of store' l ∧
          commit_id c ∈ children_of store' r ∧
          children_of store' (commit_id c) = ∅ ∧
          ∃ A, ancestors_of store' (commit_id c) = Ok A ∧
               ∀ x, x ∈ A ↔ x = l ∨ x = r ∨ ancestor store l x ∨ ancestor store r x).
Proof.
  intros Hs Hl Hr Hsup Hfresh Hdistinct.
  pose proof (reachable_wf store Hs) as Hwf.
  destruct (commit_merge_loop_lineage items store 0 [] Hs Hl Hr Hsup Hfresh Hdistinct)
    as (cs & store' & Hloop & Hs' & Hlen & Hkeep & Hdom & Hmem & Hnd & Hanc).
  pose proof (reachable_wf store' Hs') as Hwf'.
  exists cs, store'. unfold commit_merge, exists_. cbn [fst snd].
  rewrite !bool_decide_eq_true_2 by done. cbn [negb orb].
  assert (Hnew : ∀ x, x ∈ commit_id <$> cs → x ∉ dom (_commits store)).
  { intros x (c & -> & Hc)%list_elem_of_fmap. by apply Hmem. }
  split_and!; [done|done| | | |].
  - assert (Hd : dom (_commits store')
                 = dom (_commits store) ∪ list_to_set (commit_id <$> cs)).
    { apply set_eq. intros k. rewrite Hdom, elem_of_union, elem_of_list_to_set. done. }
    rewrite <- !size_dom, Hd, size_union.
    + rewrite size_list_to_set by done. by rewrite length_fmap, Hlen.
    + intros x Hx Hx'. apply elem_of_list_to_set in Hx'. by apply (Hnew x).
  - intros k c0. unfold get. destruct (_commits store !! k) as [c1|] eqn:Hk; [|done].
    intros [= ->]. by rewrite (Hkeep k c0 Hk).
  - intros cid Hcid.
    destruct (ancestors_of_spec store Hwf cid Hcid) as (A & HA & HAm).
    destruct (ancestors_of_spec store' Hwf' cid) as (A' & HA' & HAm').
    { apply Hdom. by left. }
    rewrite HA, HA'. f_equal. apply set_eq. intros x.
    rewrite HAm, HAm', Hanc. split; [|by left].
    intros [?|[Hin _]]; [done|]. by destruct (Hnew cid Hin).
  - intros c Hc. destruct (Hmem c Hc) as (Hst & Hp & Hnot).
    assert (Hin : commit_id c ∈ commit_id <$> cs) by (by apply list_elem_of_fmap_2).
    split_and!.
    + unfold get. by rewrite Hst.
    + apply (children_of_spec store' l _ Hwf'). exists c. split; [done|].
      rewrite Hp. set_solver.
    + apply (children_of_spec store' r _ Hwf'). exists c. split; [done|].
      rewrite Hp. set_solver.
    + apply set_eq. intros x. rewrite (children_of_spec store' _ x Hwf').
      split; [|set_solver]. intros Hx. exfalso.
      assert (Hxa : ancestor store' x (commit_id c)) by (by apply tc_once).
      apply Hanc in Hxa as [Hxa|[_ Hxa]].
      * destruct (ancestor_dom store x _ Hwf Hxa) as [_ Hd]. by apply Hnot.
      * destruct Hxa as [Heq|[Heq|[Hxa|Hxa]]];
          [rewrite Heq in Hnot; by apply Hnot..| |];
          destruct (ancestor_dom store _ _ Hwf Hxa) as [_ Hd]; by apply Hnot.
    + destruct (ancestors_of_spec store' Hwf' (commit_id c)) as (A & HA & HAm).
      { apply Hdom. by right. }
      exists A. split; [done|]. intros x. rewrite HAm, Hanc. split.
      * intros [Hxa|[_ ?]]; [|done].
        destruct (ancestor_dom store _ x Hwf Hxa) as [Hd _]. by destruct Hnot.
      * intros Hx. by right.
Qed.
End merge_lineage.

Lemma commit_merge_extends_lineage_witness :
  ∃ cs store',
    commit_merge (H := example_host) branched_store (λ _, ("m", 4%Z)) ("l", "r")
      example_decision [("A", [(PyStr "statement", PyInt 1)])]
      "motif" "A1.demo" "global" "merge commit" = (Ok cs, store') ∧
    reachable store' ∧
    size (_commits store') = size (_commits branched_store) + 1.
Proof.
  destruct (commit_merge_extends_lineage (H := example_host)
              (λ _, ("m", 4%Z)) "l" "r" "motif" "A1.demo" "global" "merge commit"
              branched_store example_decision
              [("A", [(PyStr "statement", PyInt 1)])] branched_store_reachable)
    as (cs & store' & Hcm & Hs' & Hsize & _).
  - in_store.
  - in_store.
  - intros sid pl Hin. apply list_elem_of_singleton in Hin. injection Hin as -> ->.
    eexists. vm_compute. reflexivity.
  - intros j Hj. split; [done|]. vm_compute. reflexivity.
  - intros j k Hjk. simpl in Hjk. lia.
  - by exists cs, store'.
Defined.
(* ================================================================== *)
(** * Further properties of the canonical encoding *)

(** ** Strings *)

Lemma unescape_first_escape_char c r :
  unescape_first (escape_char c +:+ r) = Some (c, r).
Proof. destruct c as [[] [] [] [] [] [] [] []]; reflexivity. Qed.

Lemma unescape_first_dquote r : unescape_first (String dquote r) = None.
Proof. reflexivity. Qed.

Lemma string_app_nil (b : string) : "" +:+ b = b.
Proof. reflexivity. Qed.

Lemma string_app_cons x (a b : string) : String x a +:+ b = String x (a +:+ b).
Proof. reflexivity. Qed.

Lemma string_app_assoc (a b c : string) : (a +:+ b) +:+ c = a +:+ (b +:+ c).
Proof.
  induction a as [|x a IH]; [done|]. by rewrite !string_app_cons, IH.
Qed.

Lemma escape_string_closed s1 s2 r1 r2 :
  escape_string s1 +:+ String dquote r1 = escape_string s2 +:+ String dquote r2 →
  s1 = s2 ∧ r1 = r2.
Proof.
  revert s2. induction s1 as [|c1 s1 IH]; intros [|c2 s2]; cbn [escape_string].
  - rewrite !string_app_nil. by intros [= ->].
  - rewrite string_app_nil, string_app_assoc. intros Heq.
    apply (f_equal unescape_first) in Heq.
    by rewrite unescape_first_escape_char in Heq.
  - rewrite string_app_nil, string_app_assoc. intros Heq.
    apply (f_equal unescape_first) in Heq.
    by rewrite unescape_first_escape_char in Heq.
  - rewrite !string_app_assoc. intros Heq.
    apply (f_equal unescape_first) in Heq.
    rewrite !unescape_first_escape_char in Heq. injection Heq as -> Heq.
    destruct (IH s2 Heq) as [-> ->]. done.
Qed.

Lemma json_string_app s r :
  json_string s +:+ r = String dquote (escape_string s +:+ String dquote r).
Proof.
  unfold json_string, quoted.
  by rewrite string_app_cons, string_app_assoc, string_app_cons, string_app_nil.
Qed.

Lemma json_string_closed s1 s2 r1 r2 :
  json_string s1 +:+ r1 = json_string s2 +:+ r2 → s1 = s2 ∧ r1 = r2.
Proof.
  rewrite !json_string_app. intros [= Heq]. by apply escape_string_closed.
Qed.

Section string_texts.
Context `{Host}.

(** X24. the canonical text of a string determines the string, and no such
    text is the beginning of another one: if two texts that start with the
    canonical text of a string are equal, the strings are equal and so are
    the remainders.  The text starts and ends with a double quote and has no
    unescaped double quote in between. *)
Theorem string_text_is_injective s1 s2 :
  canonicalize_payload (PyStr s1) = Ok (json_string s1) ∧
  (canonicalize_payload (PyStr s1) = canonicalize_payload (PyStr s2) → s1 = s2) ∧
  (∀ r1 r2, json_string s1 +:+ r1 = json_string s2 +:+ r2 → s1 = s2 ∧ r1 = r2) ∧
  json_string s1 = String dquote (escape_string s1 +:+ String dquote "") ∧
  (∀ c r, unescape_first (escape_char c +:+ r) = Some (c, r)).
Proof.
  assert (Hc : ∀ s, canonicalize_payload (PyStr s) = Ok (json_string s)) by done.
  split_and!.
  - apply Hc.
  - rewrite !Hc. intros [= Heq]. by apply escape_string_closed in Heq as [-> _].
  - apply json_string_closed.
  - done.
  - apply unescape_first_escape_char.
Qed.
End string_texts.

(** ** The envelope of a fingerprint *)

Lemma envelope_text_flat version kind namespace scope inner :
  envelope_text version kind namespace scope inner =
    "{" +:+ json_string "kind" +:+ ":" +:+ json_string kind +:+ "," +:+
    json_string "namespace" +:+ ":" +:+ json_string namespace +:+ "," +:+
    json_string "payload" +:+ ":" +:+ json_string inner +:+ "," +:+
    json_string "scope" +:+ ":" +:+ json_string scope +:+ "," +:+
    json_string "version" +:+ ":" +:+ json_string version +:+ "}".
Proof.
  unfold envelope_text. cbn [String.concat]. by rewrite !string_app_assoc.
Qed.

Lemma envelope_text_inj v k n s i v' k' n' s' i' :
  envelope_text v k n s i = envelope_text v' k' n' s' i' →
  v = v' ∧ k = k' ∧ n = n' ∧ s = s' ∧ i = i'.
Proof.
  rewrite !envelope_text_flat. intros Heq.
  apply (inj (String.append "{")) in Heq.
  apply json_string_closed in Heq as [_ Heq]. apply (inj (String.append ":")) in Heq.
  apply json_string_closed in Heq as [-> Heq]. apply (inj (String.append ",")) in Heq.
  apply json_string_closed in Heq as [_ Heq]. apply (inj (String.append ":")) in Heq.
  apply json_string_closed in Heq as [-> Heq]. apply (inj (String.append ",")) in Heq.
  apply json_string_closed in Heq as [_ Heq]. apply (inj (String.append ":")) in Heq.
  apply json_string_closed in Heq as [-> Heq]. apply (inj (String.append ",")) in Heq.
  apply json_string_closed in Heq as [_ Heq]. apply (inj (String.append ":")) in Heq.
  apply json_string_closed in Heq as [-> Heq]. apply (inj (String.append ",")) in Heq.
  apply json_string_closed in Heq as [_ Heq]. apply (inj (String.append ":")) in Heq.
  apply json_string_closed in Heq as [-> Heq]. done.
Qed.

Section fingerprint_separation.
Context `{Host}.

(** X20. the text that is hashed into a fingerprint determines the five
    inputs: two envelopes with the same canonical text have the same
    version, kind, namespace, scope and canonical payload.  So two
    fingerprints can be equal for inputs that differ in one of them only if
    the digest function maps two different texts to the same digest. *)
Theorem fingerprint_inputs_are_separated
    kind namespace payload scope version kind' namespace' payload' scope' version' fp :
  canonical_fingerprint kind namespace payload scope version = Ok fp →
  canonical_fingerprint kind' namespace' payload' scope' version' = Ok fp →
  (kind = kind' ∧ namespace = namespace' ∧ scope = scope' ∧ version = version' ∧
   canonicalize_payload payload = canonicalize_payload payload') ∨
  (∃ t t', t ≠ t' ∧ blake2b_hexdigest32 t = fp ∧ blake2b_hexdigest32 t' = fp).
Proof.
  intros Hfp Hfp'.
  destruct (canonical_fingerprint_shape _ _ _ _ _ _ Hfp) as (_ & _ & inner & Hp & ->).
  destruct (canonical_fingerprint_shape _ _ _ _ _ _ Hfp') as (_ & _ & inner' & Hp' & Heq).
  destruct (decide (envelope_text version kind namespace scope inner
                    = envelope_text version' kind' namespace' scope' inner'))
    as [Htext|Htext].
  - left. apply envelope_text_inj in Htext as (-> & -> & -> & -> & ->).
    by rewrite Hp, Hp'.
  - right. by eexists _, _.
Qed.
End fingerprint_separation.

Lemma fingerprint_inputs_are_separated_witness :
  let H := example_host in
  let p := PyDict [(PyStr "a", PyInt 1); (PyStr "b", PyInt 2)] in
  let p' := PyDict [(PyStr "b", PyInt 2); (PyStr "a", PyInt 1)] in
  let fp := envelope_text "v1" "motif" "A1.demo" "global"
              (dict_text [("a", "1"); ("b", "2")]) in
  canonical_fingerprint "motif" "A1.demo" p "global" "v1" = Ok fp ∧
  canonical_fingerprint "motif" "A1.demo" p' "global" "v1" = Ok fp ∧
  ((canonicalize_payload p = canonicalize_payload p') ∨
   (∃ t t', t ≠ t' ∧ blake2b_hexdigest32 t = fp ∧ blake2b_hexdigest32 t' = fp)).
Proof.
  intros H p p' fp.
  assert (Hfp : canonical_fingerprint "motif" "A1.demo" p "global" "v1" = Ok fp)
    by (vm_compute; reflexivity).
  assert (Hfp' : canonical_fingerprint "motif" "A1.demo" p' "global" "v1" = Ok fp)
    by (vm_compute; reflexivity).
  split; [done|]. split; [done|].
  destruct (fingerprint_inputs_are_separated (H := example_host) _ _ _ _ _ _ _ _ _ _
              fp Hfp Hfp') as [(_ & _ & _ & _ & Hsame)|Hcoll].
  - by left.
  - by right.
Defined.

(** ** Integers and the other primitives *)

Lemma int_repr_parse z : NilZero.int_of_string (int_repr z) = Some (Z.to_int z).
Proof.
  unfold int_repr. apply NilZero.isi; destruct z as [|p|p]; cbn [Z.to_int]; try done.
  - intros [= Hp]. by apply Unsigned.to_uint_nonnil in Hp.
  - intros [= Hp]. by apply Unsigned.to_uint_nonnil in Hp.
Qed.

Lemma int_repr_inj a b : int_repr a = int_repr b → a = b.
Proof.
  intros Heq. pose proof (int_repr_parse a) as Ha. rewrite Heq, int_repr_parse in Ha.
  injection Ha as Ha. by rewrite <- (DecimalZ.of_to a), <- (DecimalZ.of_to b), Ha.
Qed.

Lemma uint_text_first d :
  ∃ c rest, NilZero.string_of_uint d = String c rest ∧
            (48 ≤ N_of_ascii c ≤ 57)%N.
Proof. destruct d; do 2 eexists; (split; [reflexivity|]); simpl; lia. Qed.

Lemma int_repr_first z :
  ∃ c rest, int_repr z = String c rest ∧
            (c = "-"%char ∨ (48 ≤ N_of_ascii c ≤ 57)%N).
Proof.
  unfold int_repr. destruct (Z.to_int z) as [d|d]; cbn [NilZero.string_of_int].
  - destruct (uint_text_first d) as (c & rest & -> & Hc). by eauto.
  - by eauto.
Qed.

Section primitive_texts.
Context `{Host}.

(** X25. integers are written exactly, within the digit limit of the
    interpreter: the canonical text of an integer whose decimal text has at
    most 640 characters, or whose digits do not exceed the limit, or on an
    interpreter without limit, is its decimal numeral, which reads back to
    the same integer; for any other integer canonicalize_payload raises
    ValueError.  So different integers never have the same canonical text.
    Null, booleans, integers and strings never share a canonical text; in
    particular True and False are not written as 1 and 0. *)
Theorem primitive_texts_are_separated :
  (∀ a, canonicalize_payload (PyInt a)
        = (if int_text_allowed a then Ok (int_repr a) else Raise ValueError) ∧
        int_text_allowed a
        = (String.length (int_repr a) <=? 640)
          || (int_max_str_digits =? 0)
          || (int_digits a <=? int_max_str_digits) ∧
        option_map Z.of_int (NilZero.int_of_string (int_repr a)) = Some a) ∧
  (∀ a b s, canonicalize_payload (PyInt a) = Ok s →
            canonicalize_payload (PyInt b) = Ok s → a = b) ∧
  (∀ t u, canonicalize_payload (PyBool t) = canonicalize_payload (PyBool u) → t = u) ∧
  (∀ t a, canonicalize_payload (PyBool t) ≠ canonicalize_payload (PyInt a)) ∧
  (∀ a, canonicalize_payload PyNone ≠ canonicalize_payload (PyInt a)) ∧
  (∀ t, canonicalize_payload PyNone ≠ canonicalize_payload (PyBool t)) ∧
  (∀ s a, canonicalize_payload (PyStr s) ≠ canonicalize_payload (PyInt a)) ∧
  (∀ s t, canonicalize_payload (PyStr s) ≠ canonicalize_payload (PyBool t)) ∧
  (∀ s, canonicalize_payload (PyStr s) ≠ canonicalize_payload PyNone).
Proof.
  assert (Hi : ∀ a, canonicalize_payload (PyInt a)
                    = (if int_text_allowed a then Ok (int_repr a)
                       else Raise ValueError)).
  { intros a. unfold canonicalize_payload, canonicalize_with. simpl.
    unfold int_text. by destruct (int_text_allowed a). }
  assert (Hi' : ∀ a s, canonicalize_payload (PyInt a) = Ok s → s = int_repr a).
  { intros a s. rewrite Hi. destruct (int_text_allowed a); [|done]. by intros [= <-]. }
  assert (Hb : ∀ t, canonicalize_payload (PyBool t)
                    = Ok (if t then "true" else "false")) by done.
  assert (Hn : canonicalize_payload PyNone = Ok "null") by done.
  assert (Hs : ∀ s, canonicalize_payload (PyStr s) = Ok (json_string s)) by done.
  split_and!.
  - intros a. split_and!; [done|done|]. rewrite int_repr_parse. cbn [option_map].
    by rewrite DecimalZ.of_to.
  - intros a b s Ha%Hi' Hb'%Hi'. apply int_repr_inj. congruence.
  - intros t u. rewrite !Hb. by destruct t, u.
  - intros t a. rewrite Hb. intros Heq. symmetry in Heq. apply Hi' in Heq.
    destruct (int_repr_first a) as (c & rest & Hr & Hc). rewrite Hr in Heq.
    destruct t; injection Heq as <- _; destruct Hc as [?|Hc]; try done;
      simpl in Hc; lia.
  - intros a. rewrite Hn. intros Heq. symmetry in Heq. apply Hi' in Heq.
    destruct (int_repr_first a) as (c & rest & Hr & Hc). rewrite Hr in Heq.
    injection Heq as <- _. destruct Hc as [?|Hc]; [done|]. simpl in Hc. lia.
  - intros t. rewrite Hn, Hb. by destruct t.
  - intros s a. rewrite Hs. intros Heq. symmetry in Heq. apply Hi' in Heq.
    destruct (int_repr_first a) as (c & rest & Hr & Hc).
    unfold json_string, quoted in Heq. rewrite Hr in Heq.
    injection Heq as <- _. destruct Hc as [?|Hc]; [done|]. simpl in Hc. lia.
  - intros s t. rewrite Hs, Hb. unfold json_string, quoted. by destruct t.
  - intros s. rewrite Hs, Hn. unfold json_string, quoted. done.
Qed.
End primitive_texts.

(** ** Sequences *)

Section sequence_texts.
Context `{Host}.

(** X26. a tuple has the canonical text of the list with the same elements.
    The text of a sequence is an opening bracket, the canonical texts of its
    elements in their order with commas in between, and a closing bracket;
    when no element holds an integer too long to be written, the outcome for
    the sequence is the outcome of encoding its elements in order, and the
    sequence cannot be canonicalized exactly when one of its elements
    cannot. *)
Theorem sequences_encode_elementwise xs :
  canonicalize_payload (PyTuple xs) = canonicalize_payload (PyList xs) ∧
  (Forall (λ x, canonicalize_payload x ≠ Raise ValueError) xs →
   canonicalize_payload (PyList xs)
     = (parts ← map_result canonicalize_payload xs; Ok (list_text parts))) ∧
  (∀ s, canonicalize_payload (PyList xs) = Ok s →
        ∃ parts, Forall2 (λ x p, canonicalize_payload x = Ok p) xs parts ∧
                 s = "[" +:+ String.concat "," parts +:+ "]") ∧
  (Forall (λ x, canonicalize_payload x ≠ Raise ValueError) xs →
   (canonicalize_payload (PyList xs) = Raise CanonicalizationError ↔
    ∃ x, x ∈ xs ∧ canonicalize_payload x = Raise CanonicalizationError)).
Proof.
  split_and!.
  - apply canonicalize_tuple.
  - apply canonicalize_list.
  - intros s (parts & Hparts & ->)%canonicalize_list_Ok.
    exists parts. split; [by apply map_result_Ok_inv|done].
  - apply canonicalize_list_Raise.
Qed.
End sequence_texts.

Lemma sequences_encode_elementwise_witness :
  let H := example_host in
  canonicalize_payload (PyList [PyInt 1; PyNone])
    = (parts ← map_result canonicalize_payload [PyInt 1; PyNone];
       Ok (list_text parts)).
Proof.
  intros H.
  apply (proj1 (proj2 (sequences_encode_elementwise (H := H) [PyInt 1; PyNone]))).
  repeat constructor; vm_compute; discriminate.
Defined.

(** ** Normal forms *)

Section normal_forms.
Context `{Host}.

(** X27. when formatting a float with 17 significant digits is idempotent,
    _normalize is idempotent: a value it returns is returned unchanged when
    normalized again, it has the same canonical text as the value it came
    from, it is made of primitives, lists and string-keyed mappings only,
    and it is nested no deeper than the input. *)
Theorem normalize_is_idempotent x y :
  (∀ bits, float_g17 (float_g17 bits) = float_g17 bits) →
  _normalize x = Ok y →
  _normalize y = Ok y ∧
  canonicalize_payload y = canonicalize_payload x ∧
  encodable y = true ∧
  depth y ≤ depth x.
Proof.
  intros Hfloat Hx. split_and!.
  - by apply (normalize_idempotent Hfloat x).
  - by apply (canonicalize_normalized Hfloat).
  - by eapply normalize_Ok_encodable.
  - by apply normalize_depth.
Qed.
End normal_forms.

Lemma normalize_is_idempotent_witness :
  let H := example_host in
  let x := PyDict [(PyStr "b", PyTuple [PyInt 1; PyFloat 2]);
                   (PyStr "a", PySet [PyStr "z"; PyStr "y"])] in
  ∃ y, _normalize x = Ok y ∧ _normalize y = Ok y.
Proof.
  intros H x. eexists. split; [vm_compute; reflexivity|].
  refine (proj1 (normalize_is_idempotent (H := example_host) x _ _ _)).
  - intros bits. reflexivity.
  - vm_compute. reflexivity.
Defined.
(* ================================================================== *)
(** * Further properties of identity anchors *)

Lemma py_take_prefix k s : ∃ rest, s = py_take k s +:+ rest.
Proof.
  revert k. induction s as [|c s IH]; intros k; [by exists ""|].
  cbn [py_take]. destruct (is_continuation c).
  - destruct (IH k) as (rest & Hrest). exists rest.
    by rewrite string_app_cons, <- Hrest.
  - destruct k as [|k]; [by exists (String c s)|].
    destruct (IH k) as (rest & Hrest). exists rest.
    by rewrite string_app_cons, <- Hrest.
Qed.

Lemma py_take_len k s : py_len (py_take k s) = min (py_len s) k.
Proof.
  revert k. induction s as [|c s IH]; intros k; [done|].
  cbn [py_take py_len]. destruct (is_continuation c) eqn:Hc.
  - cbn [py_len]. rewrite Hc. apply IH.
  - destruct k as [|k]; [cbn [py_len]; lia|].
    cbn [py_len]. rewrite Hc, IH. lia.
Qed.

(** X23. short returns a prefix of the anchor id that holds max(4, n)
    characters, or the whole id when it is shorter; a length below 4,
    negative ones included, is read as 4. *)
Theorem short_is_clamped_prefix a n :
  (∃ rest, id a = short a n +:+ rest) ∧
  py_len (short a n) = min (py_len (id a)) (Z.to_nat (Z.max 4 n)) ∧
  ((n ≤ 4)%Z → short a n = short a 4) ∧
  (py_len (id a) ≤ Z.to_nat (Z.max 4 n) → py_len (short a n) = py_len (id a)).
Proof.
  unfold short. split_and!.
  - apply py_take_prefix.
  - apply py_take_len.
  - intros Hn. by replace (Z.max 4 n) with 4%Z by lia.
  - intros Hlen. rewrite py_take_len. lia.
Qed.

Lemma short_is_clamped_prefix_witness :
  short {| id := "0123456789abcdef"; kind := "motif"; namespace := "A1.demo";
           scope := "global"; version := "v1" |} (-3) = "0123".
Proof.
  rewrite (proj1 (proj2 (proj2 (short_is_clamped_prefix _ (-3)))) ltac:(lia)).
  reflexivity.
Defined.

(** X22. maybe_anchor_equal is a partial equivalence: it is symmetric and
    transitive, and it holds between an anchor and itself exactly when the
    anchor is present (None is not equal to None).  Two present anchors are
    equal exactly when id, kind, namespace and scope agree; the version
    field is not compared. *)
Theorem maybe_anchor_equal_partial_equivalence a b c :
  maybe_anchor_equal a b = maybe_anchor_equal b a ∧
  (maybe_anchor_equal a b = true → maybe_anchor_equal b c = true →
   maybe_anchor_equal a c = true) ∧
  (maybe_anchor_equal a a = true ↔ is_Some a) ∧
  (maybe_anchor_equal a b = true ↔
   ∃ x y, a = Some x ∧ b = Some y ∧ id x = id y ∧ kind x = kind y ∧
          namespace x = namespace y ∧ scope x = scope y).
Proof.
  assert (Hspec : ∀ a b, maybe_anchor_equal a b = true ↔
            ∃ x y, a = Some x ∧ b = Some y ∧ id x = id y ∧ kind x = kind y ∧
                   namespace x = namespace y ∧ scope x = scope y).
  { intros [x|] [y|]; cbn [maybe_anchor_equal].
    - rewrite !andb_true_iff, !String.eqb_eq. split.
      + intros [[[? ?] ?] ?]. by exists x, y.
      + intros (x' & y' & [= <-] & [= <-] & ? & ? & ? & ?). done.
    - split; [done|]. by intros (? & ? & _ & ? & _).
    - split; [done|]. by intros (? & ? & ? & _).
    - split; [done|]. by intros (? & ? & ? & _). }
  split_and!.
  - destruct (maybe_anchor_equal a b) eqn:Hab, (maybe_anchor_equal b a) eqn:Hba;
      try done.
    + apply Hspec in Hab as (x & y & -> & -> & ? & ? & ? & ?).
      assert (maybe_anchor_equal (Some y) (Some x) = true); [|congruence].
      apply Hspec. by exists y, x.
    + apply Hspec in Hba as (x & y & -> & -> & ? & ? & ? & ?).
      assert (maybe_anchor_equal (Some y) (Some x) = true); [|congruence].
      apply Hspec. by exists y, x.
  - intros (x & y & -> & -> & ? & ? & ? & ?)%Hspec
           (y' & z & [= <-] & -> & ? & ? & ? & ?)%Hspec.
    apply Hspec. exists x, z. split_and!; congruence.
  - rewrite Hspec. split.
    + intros (x & _ & -> & _). by eexists.
    + intros [x ->]. by exists x, x.
  - apply Hspec.
Qed.

Section validation.
Context `{Host}.

(** X21. validate accepts an anchor exactly when its id has at least 32
    characters, kind and namespace are not empty and the version is v1, and
    raises IdentityError otherwise.  An anchor that create returned, with a
    digest of at least 32 characters, is accepted exactly when it was
    created with version v1: create takes any version, validate rejects
    every other one. *)
Theorem created_anchor_validates k n p sc v a :
  (validate a = Ok () ↔
   32 ≤ py_len (id a) ∧ kind a ≠ "" ∧ namespace a ≠ "" ∧
   version a = "v1") ∧
  (validate a ≠ Ok () → validate a = Raise IdentityError) ∧
  (create k n p sc v = Ok a →
   32 ≤ py_len (id a) →
   (validate a = Ok () ↔ v = "v1")).
Proof.
  assert (Hv : validate a = Ok () ↔
            32 ≤ py_len (id a) ∧ kind a ≠ "" ∧ namespace a ≠ "" ∧
            version a = "v1").
  { unfold validate. destruct (py_len (id a) <? 32) eqn:Hlen.
    { apply Nat.ltb_lt in Hlen. split; [done|]. intros [? _]. lia. }
    apply Nat.ltb_ge in Hlen.
    destruct (truthy (kind a)) eqn:Hk; cbn [negb orb].
    2:{ split; [done|]. intros (_ & Hne & _). apply truthy_true in Hne. congruence. }
    destruct (truthy (namespace a)) eqn:Hn; cbn [negb orb].
    2:{ split; [done|]. intros (_ & _ & Hne & _). apply truthy_true in Hne. congruence. }
    apply truthy_true in Hk, Hn.
    destruct (String.eqb (version a) "v1") eqn:Hver; cbn [negb].
    - apply String.eqb_eq in Hver. done.
    - apply String.eqb_neq in Hver. split; [done|]. by intros (_ & _ & _ & ?). }
  split_and!; [exact Hv| |].
  - unfold validate. destruct (py_len (id a) <? 32); [done|].
    destruct (negb _ || negb _); [done|]. by destruct (negb _).
  - intros Hcreate Hlen. rewrite Hv. unfold create in Hcreate.
    destruct (canonical_fingerprint k n p sc v)
      as [fp| |] eqn:Hfp; [|done..].
    cbn [mbind result_bind] in Hcreate. injection Hcreate as <-.
    cbn [kind namespace version]. cbn [id] in Hlen.
    destruct (decide (k = "")) as [->|Hk];
      [by rewrite canonical_fingerprint_guard in Hfp by auto|].
    destruct (decide (n = "")) as [->|Hn];
      [by rewrite canonical_fingerprint_guard in Hfp by auto|].
    tauto.
Qed.
End validation.

Lemma created_anchor_validates_witness :
  let H := example_host in
  ∃ a, create "motif" "A1.demo" (PyDict []) "global" "v1" = Ok a ∧
       validate a = Ok ().
Proof.
  intros H. eexists. split; [vm_compute; reflexivity|].
  refine (proj2 (proj2 (proj2 (created_anchor_validates (H := example_host)
            "motif" "A1.demo" (PyDict []) "global" "v1" _)) _ _) eq_refl).
  - vm_compute. reflexivity.
  - vm_compute. lia.
Defined.

(** ** Collision detection *)

Section collision_detection.
Context `{Host}.

(** IdentityError comes from the guard on kind and namespace only. *)
Lemma canonical_fingerprint_IdentityError k n p s v :
  canonical_fingerprint k n p s v = Raise IdentityError ↔ k = "" ∨ n = "".
Proof.
  split; [|apply canonical_fingerprint_guard].
  intros Hf.
  destruct (decide (k = "")) as [->|Hk]; [by left|].
  destruct (decide (n = "")) as [->|Hn]; [by right|].
  rewrite canonical_fingerprint_unfold in Hf by done.
  pose proof (canonicalize_payload_outcome p) as Hp.
  destruct (canonicalize_payload p) as [inner|e|]; simpl in *; [| |done].
  - unfold encode_utf8 in Hf. by destruct (has_surrogate _).
  - injection Hf as ->. set_solver.
Qed.

(** The check, read off the two fingerprints. *)
Lemma detect_identity_collision_unfold anchor expected observed :
  detect_identity_collision anchor expected observed =
    match canonical_fingerprint (kind anchor) (namespace anchor) expected
            (scope anchor) (version anchor) with
    | Raise IdentityError =>
        Ok (Some ("cannot reconstruct expected anchor: " +:+ identity_error_text))
    | Raise e => Raise e
    | Diverge => Diverge
    | Ok fe =>
        if String.eqb fe (id anchor) then
          match canonical_fingerprint (kind anchor) (namespace anchor) observed
                  (scope anchor) (version anchor) with
          | Raise IdentityError =>
              Ok (Some ("cannot reconstruct observed anchor: " +:+
                        identity_error_text))
          | Raise e => Raise e
          | Diverge => Diverge
          | Ok fo =>
              if String.eqb fo (id anchor) then Ok None
              else Ok (Some "identity collision (or unauthorized mutation): same anchor id, but observed payload does not reconstruct it")
          end
        else Ok (Some "anchor mismatch: expected payload does not reconstruct the given anchor id")
    end.
Proof.
  unfold detect_identity_collision. rewrite !create_unfold.
  destruct (canonical_fingerprint _ _ expected _ _) as [fe|e|]; [|by destruct e|done].
  cbn [id]. destruct (String.eqb fe (id anchor)); cbn [negb]; [|done].
  destruct (canonical_fingerprint _ _ observed _ _) as [fo|e|]; [|by destruct e|done].
  cbn [id]. by destruct (String.eqb fo (id anchor)).
Qed.

(** X18. detect_identity_collision is determined by the fingerprints of the
    two payloads under the metadata of the anchor.  When the fingerprint of
    the expected payload raises IdentityError, which it does exactly when
    the kind or the namespace of the anchor is empty, the reason that the
    expected anchor cannot be reconstructed is returned.  Any other
    exception of a fingerprint is not caught: the check raises it.  An
    expected fingerprint that is not the anchor id gives the
    anchor-mismatch reason; with the expected fingerprint equal to the
    anchor id, an observed fingerprint that is not the anchor id gives the
    collision reason, and None is returned exactly when both fingerprints
    are the anchor id.  The reason that the observed anchor cannot be
    reconstructed is never returned. *)
Theorem detect_identity_collision_outcomes anchor expected observed :
  let fingerprint p :=
    canonical_fingerprint (kind anchor) (namespace anchor) p
      (scope anchor) (version anchor) in
  let detect := detect_identity_collision anchor expected observed in
  (fingerprint expected = Raise IdentityError ↔
   kind anchor = "" ∨ namespace anchor = "") ∧
  (fingerprint expected = Raise IdentityError →
   detect = Ok (Some ("cannot reconstruct expected anchor: " +:+
                      identity_error_text))) ∧
  (∀ e, e ≠ IdentityError → fingerprint expected = Raise e → detect = Raise e) ∧
  (∀ fe, fingerprint expected = Ok fe → fe ≠ id anchor →
     detect = Ok (Some "anchor mismatch: expected payload does not reconstruct the given anchor id")) ∧
  (fingerprint expected = Ok (id anchor) →
     (∀ e, fingerprint observed = Raise e → detect = Raise e) ∧
     (∀ fo, fingerprint observed = Ok fo → fo ≠ id anchor →
        detect = Ok (Some "identity collision (or unauthorized mutation): same anchor id, but observed payload does not reconstruct it")) ∧
     (fingerprint observed = Ok (id anchor) → detect = Ok None)) ∧
  detect ≠ Ok (Some ("cannot reconstruct observed anchor: " +:+
                     identity_error_text)) ∧
  (∀ e, detect = Raise e →
        fingerprint expected = Raise e ∨ fingerprint observed = Raise e) ∧
  (detect = Ok None ↔
   fingerprint expected = Ok (id anchor) ∧ fingerprint observed = Ok (id anchor)).
Proof.
  intros fingerprint detect. subst fingerprint detect.
  rewrite detect_identity_collision_unfold.
  assert (Hobs : ∀ fe, canonical_fingerprint (kind anchor) (namespace anchor)
                         expected (scope anchor) (version anchor) = Ok fe →
            canonical_fingerprint (kind anchor) (namespace anchor) observed
              (scope anchor) (version anchor) ≠ Raise IdentityError).
  { intros fe (Hk & Hn & _)%canonical_fingerprint_shape
      [?|?]%canonical_fingerprint_IdentityError; done. }
  split_and!.
  - apply canonical_fingerprint_IdentityError.
  - by intros ->.
  - intros e Hne ->. by destruct e.
  - intros fe -> Hne%String.eqb_neq. by rewrite Hne.
  - intros He. specialize (Hobs _ He). rewrite He, String.eqb_refl. split_and!.
    + intros e Ho. rewrite Ho in Hobs |- *. by destruct e.
    + intros fo -> Hne%String.eqb_neq. by rewrite Hne.
    + intros ->. by rewrite String.eqb_refl.
  - destruct (canonical_fingerprint _ _ expected _ _) as [fe|e|] eqn:He;
      [|by destruct e|done].
    specialize (Hobs fe eq_refl).
    destruct (String.eqb fe (id anchor)); [|done].
    destruct (canonical_fingerprint _ _ observed _ _) as [fo|e|];
      [by destruct (String.eqb fo (id anchor))|by destruct e|done].
  - intros e.
    destruct (canonical_fingerprint _ _ expected _ _) as [fe|e'|] eqn:He;
      [|destruct e'; try done; intros [= <-]; by left|done].
    destruct (String.eqb fe (id anchor)); [|done].
    destruct (canonical_fingerprint _ _ observed _ _) as [fo|e'|];
      [by destruct (String.eqb fo (id anchor))
      |destruct e'; try done; intros [= <-]; by right|done].
  - destruct (canonical_fingerprint _ _ expected _ _) as [fe|e|] eqn:He;
      [|destruct e; split; try done; by intros [? _]
       |split; [done|by intros [? _]]].
    destruct (String.eqb fe (id anchor)) eqn:Hfe.
    2:{ apply String.eqb_neq in Hfe. split; [done|]. intros [[= ?] _]. done. }
    apply String.eqb_eq in Hfe as ->.
    destruct (canonical_fingerprint _ _ observed _ _) as [fo|e|];
      [|destruct e; split; try done; by intros [_ ?]
       |split; [done|by intros [_ ?]]].
    destruct (String.eqb fo (id anchor)) eqn:Hfo.
    + apply String.eqb_eq in Hfo as ->. done.
    + apply String.eqb_neq in Hfo. split; [done|]. intros [_ [= ?]]. done.
Qed.

(** The check against the payload an anchor was created from. *)
Lemma detect_identity_collision_created k n P sc v a Q :
  create k n P sc v = Ok a →
  detect_identity_collision a P Q =
    match canonical_fingerprint k n Q sc v with
    | Ok fo =>
        if String.eqb fo (id a) then Ok None
        else Ok (Some "identity collision (or unauthorized mutation): same anchor id, but observed payload does not reconstruct it")
    | Raise e => Raise e
    | Diverge => Diverge
    end.
Proof.
  rewrite create_unfold.
  destruct (canonical_fingerprint k n P sc v) as [fp| |] eqn:Hfp; [|done..].
  intros [= <-]. rewrite detect_identity_collision_unfold.
  cbn [id kind namespace scope version]. rewrite Hfp, String.eqb_refl.
  destruct (canonical_fingerprint k n Q sc v) as [fo|e|] eqn:Hfo; [done| |done].
  destruct (decide (e = IdentityError)) as [->|Hne]; [|by destruct e].
  apply canonical_fingerprint_shape in Hfp as (Hk & Hn & _).
  apply canonical_fingerprint_IdentityError in Hfo as [?|?]; done.
Qed.

(** X19. for an anchor that create built from a payload P, checking an
    observed payload Q against P reports no collision exactly when the
    fingerprint of Q under the anchor's metadata is the anchor id.  This is
    the case whenever Q has the canonical text of P, for instance when Q is
    P with mapping keys in another order; a Q outside the allowed types,
    unless it holds an integer too long to be written, makes the check
    raise CanonicalizationError; and when None is returned for a Q with
    another canonical text, the digest function has mapped two different
    texts to the anchor id. *)
Theorem no_collision_for_same_canonical_payload k n P sc v a Q :
  create k n P sc v = Ok a →
  (detect_identity_collision a P Q = Ok None ↔
   canonical_fingerprint k n Q sc v = Ok (id a)) ∧
  (canonicalize_payload Q = canonicalize_payload P →
   detect_identity_collision a P Q = Ok None) ∧
  (reordered P Q → detect_identity_collision a P Q = Ok None) ∧
  (supported Q = false → canonicalize_payload Q ≠ Raise ValueError →
   detect_identity_collision a P Q = Raise CanonicalizationError) ∧
  (detect_identity_collision a P Q = Ok None →
   canonicalize_payload Q ≠ canonicalize_payload P →
   ∃ t t', t ≠ t' ∧ blake2b_hexdigest32 t = id a ∧ blake2b_hexdigest32 t' = id a).
Proof.
  intros Hcreate.
  rewrite (detect_identity_collision_created k n P sc v a Q Hcreate).
  rewrite create_unfold in Hcreate.
  destruct (canonical_fingerprint k n P sc v) as [fp| |] eqn:Hfp; [|done..].
  injection Hcreate as <-. cbn [id].
  pose proof Hfp as (Hk & Hn & ip & Hip & Hsur & ->)%canonical_fingerprint_Ok_inv.
  assert (Hiff : match canonical_fingerprint k n Q sc v with
                 | Ok fo =>
                     if String.eqb fo (blake2b_hexdigest32 (envelope_text v k n sc ip))
                     then Ok None
                     else Ok (Some "identity collision (or unauthorized mutation): same anchor id, but observed payload does not reconstruct it")
                 | Raise e => Raise e
                 | Diverge => Diverge
                 end = Ok None ↔
                 canonical_fingerprint k n Q sc v
                   = Ok (blake2b_hexdigest32 (envelope_text v k n sc ip))).
  { destruct (canonical_fingerprint k n Q sc v) as [fo| |]; [|done..].
    destruct (String.eqb _ _) eqn:Heq.
    - apply String.eqb_eq in Heq. by rewrite Heq.
    - apply String.eqb_neq in Heq. split; [done|]. intros [= Hd]. done. }
  assert (Hsame : canonicalize_payload Q = canonicalize_payload P →
                  canonical_fingerprint k n Q sc v
                    = Ok (blake2b_hexdigest32 (envelope_text v k n sc ip))).
  { intros HQ. rewrite Hip in HQ. by apply canonical_fingerprint_Ok. }
  split_and!.
  - exact Hiff.
  - intros HQ. by apply Hiff, Hsame.
  - intros Hre. apply Hiff, Hsame. rewrite Hip.
    by apply (canonicalize_reordered P Q ip).
  - intros Hsup Hno.
    by rewrite (canonical_fingerprint_payload_raises k n Q sc v
                  CanonicalizationError Hk Hn (canonicalize_unsupported Q Hsup Hno)).
  - intros Hnone Hdiff. apply Hiff in Hnone.
    apply canonical_fingerprint_Ok_inv in Hnone as (_ & _ & iq & Hiq & _ & Heq).
    exists (envelope_text v k n sc iq), (envelope_text v k n sc ip).
    split_and!; [|done..].
    intros Htext. apply envelope_text_inj in Htext as (_ & _ & _ & _ & ->).
    congruence.
Qed.
End collision_detection.

Lemma detect_identity_collision_outcomes_witness :
  detect_identity_collision (H := example_host)
    {| id := "x"; kind := "motif"; namespace := "A1.demo"; scope := "global";
       version := "v1" |} (PyDict [(PyStr "blob", PyBytes "x")]) (PyDict [])
    = Raise CanonicalizationError.
Proof.
  refine (proj1 (proj2 (proj2 (detect_identity_collision_outcomes
            (H := example_host) _ _ _))) CanonicalizationError _ _);
    [done|vm_compute; reflexivity].
Defined.

Lemma no_collision_for_same_canonical_payload_witness :
  let H := example_host in
  let P := PyDict [(PyStr "a", PyInt 1); (PyStr "b", PyInt 2)] in
  let Q := PyDict [(PyStr "b", PyInt 2); (PyStr "a", PyInt 1)] in
  ∃ a, create "motif" "A1.demo" P "global" "v1" = Ok a ∧
       detect_identity_collision a P Q = Ok None.
Proof.
  intros H P Q. eexists. split; [vm_compute; reflexivity|].
  refine (proj1 (proj2 (no_collision_for_same_canonical_payload
            (H := example_host) "motif" "A1.demo" P "global" "v1" _ Q _)) _).
  - vm_compute. reflexivity.
  - vm_compute. reflexivity.
Defined.
(* ================================================================== *)
(** * Payload signatures and conflicts *)

Section signatures.
Context `{Host}.

Lemma canonicalize_dict_text items s :
  canonicalize_payload (PyDict items) = Ok s → ∃ rest, s = String "{" rest.
Proof.
  unfold canonicalize_payload, canonicalize_with. rewrite normalize_dict.
  destruct (fold_result (dict_step _normalize) [] items) as [out| |]; [|done..].
  cbn [mbind result_bind json_dumps].
  destruct (map_result _ out) as [enc| |]; cbn [mbind result_bind].
  - intros [= <-]. by eexists.
  - by destruct e.
  - done.
Qed.

Lemma canonical_text_not_opaque items s :
  canonicalize_payload (PyDict items) = Ok s → s ≠ opaque_payload.
Proof. intros (rest & ->)%canonicalize_dict_text. done. Qed.

(** X9. the signature _semantic_free_payload_change gives a commit is the
    canonical text of its payload when canonicalize_payload returns one, and
    the marker <opaque-payload> exactly when canonicalize_payload raises
    CanonicalizationError; any other exception of canonicalize_payload
    leaves the function; no canonical text is that marker.  So all payloads
    that are refused with CanonicalizationError have the same signature, and
    a subject whose current payloads on both sides are refused in this way
    is classified accept_either whatever the payloads hold. *)
Theorem payload_signature_is_text_or_opaque c c' :
  (∀ t, canonicalize_payload (PyDict (payload c)) = Ok t →
        _semantic_free_payload_change c = Ok t ∧ t ≠ opaque_payload) ∧
  (_semantic_free_payload_change c = Ok opaque_payload ↔
   canonicalize_payload (PyDict (payload c)) = Raise CanonicalizationError) ∧
  (∀ e, e ≠ CanonicalizationError →
        canonicalize_payload (PyDict (payload c)) = Raise e →
        _semantic_free_payload_change c = Raise e) ∧
  (∀ t, _semantic_free_payload_change c = Ok t →
        canonicalize_payload (PyDict (payload c)) = Ok t ∨
        (canonicalize_payload (PyDict (payload c)) = Raise CanonicalizationError ∧
         t = opaque_payload)) ∧
  (∀ t t', canonicalize_payload (PyDict (payload c)) = Ok t →
           canonicalize_payload (PyDict (payload c')) = Ok t' →
           (_semantic_free_payload_change c = _semantic_free_payload_change c' ↔
            t = t')) ∧
  (canonicalize_payload (PyDict (payload c)) = Raise CanonicalizationError →
   canonicalize_payload (PyDict (payload c')) = Raise CanonicalizationError →
   _semantic_free_payload_change c = _semantic_free_payload_change c' ∧
   ∀ lv rv bv sid, lv !! sid = Some c → rv !! sid = Some c' →
     ∃ a, verdict lv rv bv sid = Ok ([a], []) ∧
          entry_get "proposal" a = Some (Some "accept_either")).
Proof.
  unfold _semantic_free_payload_change. split_and!.
  - intros t Ht. rewrite Ht. split; [done|]. by eapply canonical_text_not_opaque.
  - destruct (canonicalize_payload (PyDict (payload c))) as [t|e|] eqn:Ht.
    + split; [|done]. intros [= ->]. by apply canonical_text_not_opaque in Ht.
    + destruct e; split; try done; by intros [= ?].
    + done.
  - intros e Hne ->. by destruct e.
  - intros t. destruct (canonicalize_payload (PyDict (payload c))) as [t0|e|];
      [intros [= <-]; by left| |done].
    destruct e; try done. intros [= <-]. by right.
  - intros t t' -> ->. split; [by intros [= ->]|by intros ->].
  - intros Hc Hc'. split; [by rewrite Hc, Hc'|].
    intros lv rv bv sid Hl Hr.
    apply (verdict_either lv rv bv sid c c' opaque_payload Hl Hr);
      unfold _semantic_free_payload_change; by rewrite ?Hc, ?Hc'.
Qed.

Lemma forallb_false {A} (f : A → bool) l :
  forallb f l = false → ∃ x, x ∈ l ∧ f x = false.
Proof.
  induction l as [|x l IH]; cbn [forallb]; [done|].
  destruct (f x) eqn:Hx; cbn [andb].
  - intros (y & Hy & Hfy)%IH. exists y. split; [by right|done].
  - intros _. exists x. split; [by left|done].
Qed.

(** X14. when every stored commit is named by the fingerprint of its
    payload, a decision of the analysis holds no conflict, unless the two
    head views hold, for one subject id, two commits with different
    canonical payloads whose envelopes the digest function both maps to
    that subject id: a collision of the digest between two different texts
    that are stored. *)
Theorem content_addressed_subjects_never_conflict s l r d :
  reachable s →
  (∀ k c, _commits s !! k = Some c → content_addressed c) →
  three_way_merge_analysis s l r = Ok d →
  (conflicts d = [] ∧ ∀ sid, ¬ in_conflict d sid) ∨
  (∃ lv rv sid lc rc tl tr,
     view s l = Ok lv ∧ view s r = Ok rv ∧
     lv !! sid = Some lc ∧ rv !! sid = Some rc ∧
     canonicalize_payload (PyDict (payload lc)) = Ok tl ∧
     canonicalize_payload (PyDict (payload rc)) = Ok tr ∧
     tl ≠ tr ∧
     envelope_text "v1" (subject_kind lc) (subject_namespace lc) (subject_scope lc) tl
     ≠ envelope_text "v1" (subject_kind rc) (subject_namespace rc) (subject_scope rc) tr ∧
     blake2b_hexdigest32
       (envelope_text "v1" (subject_kind lc) (subject_namespace lc)
          (subject_scope lc) tl) = sid ∧
     blake2b_hexdigest32
       (envelope_text "v1" (subject_kind rc) (subject_namespace rc)
          (subject_scope rc) tr) = sid).
Proof.
  intros Hs Haddr Hd. pose proof (reachable_wf s Hs) as Hwf.
  destruct (decide (l ∈ dom (_commits s))) as [Hl|Hl];
    [|rewrite three_way_merge_analysis_MergeError in Hd by auto; done].
  destruct (decide (r ∈ dom (_commits s))) as [Hr|Hr];
    [|rewrite three_way_merge_analysis_MergeError in Hd by auto; done].
  destruct (pick_base_spec s l r Hwf Hl Hr) as (base & Hbase & Hb).
  assert (Hbdom : ∀ b, base = Some b → b ∈ dom (_commits s))
    by (intros b Hbb; by apply Hb).
  destruct (view_Ok s l Hwf Hl) as (lv & Hlv).
  destruct (view_Ok s r Hwf Hr) as (rv & Hrv).
  destruct (base_view_Ok s base Hwf Hbdom) as (bv & Hbv).
  rewrite (analysis_unfold s l r base lv rv bv) in Hd by done.
  destruct (subjects_sorted (dom lv ∪ dom rv ∪ dom bv)) as [Hnd Hin].
  set (subs := sort_strings (elements (dom lv ∪ dom rv ∪ dom bv))) in *.
  destruct (fold_result (classify_subject lv rv bv) ([], []) subs)
    as [[acts confs]| |] eqn:Hfold; [|done..].
  cbn [mbind result_bind] in Hd. injection Hd as <-. cbn [conflicts fst snd].
  (* the commits of a view are stored commits about the subject *)
  assert (Hview : ∀ h hv sid c, h ∈ dom (_commits s) → view s h = Ok hv →
            hv !! sid = Some c → subject_id c = sid ∧ content_addressed c).
  { intros h hv sid c Hh Hhv Hc.
    destruct (commit_chain_chain_to s h Hwf Hh) as (ch & Hch & Hto).
    unfold view in Hhv. rewrite Hch in Hhv. cbn [mbind result_bind] in Hhv.
    injection Hhv as <-. apply index_latest_Some in Hc as [Hc Hsid].
    split; [done|].
    destruct (chain_to_members s h ch c Hwf Hto Hc) as [Hst _].
    by apply (Haddr _ _ Hst). }
  (* the canonical text of a commit of a view, and its digest *)
  assert (Htext : ∀ h hv sid c, h ∈ dom (_commits s) → view s h = Ok hv →
            hv !! sid = Some c →
            ∃ t, canonicalize_payload (PyDict (payload c)) = Ok t ∧
                 _semantic_free_payload_change c = Ok t ∧
                 blake2b_hexdigest32
                   (envelope_text "v1" (subject_kind c) (subject_namespace c)
                      (subject_scope c) t) = sid).
  { intros h hv sid c Hh Hhv Hc.
    destruct (Hview h hv sid c Hh Hhv Hc) as [Hsid Hac].
    unfold content_addressed in Hac. rewrite Hsid in Hac.
    apply canonical_fingerprint_shape in Hac as (_ & _ & t & Ht & Hf).
    exists t. split_and!; [done| |done].
    unfold _semantic_free_payload_change. by rewrite Ht. }
  set (agree := λ sid,
         match lv !! sid, rv !! sid with
         | Some lc, Some rc =>
             bool_decide (canonicalize_payload (PyDict (payload lc))
                          = canonicalize_payload (PyDict (payload rc)))
         | _, _ => true
         end).
  destruct (forallb agree subs) eqn:Hagree.
  2:{ right. apply forallb_false in Hagree as (sid & _ & Hsid). unfold agree in Hsid.
      destruct (lv !! sid) as [lc|] eqn:Hlc; [|done].
      destruct (rv !! sid) as [rc|] eqn:Hrc; [|done].
      apply bool_decide_eq_false in Hsid.
      destruct (Htext l lv sid lc Hl Hlv Hlc) as (tl & Htl & _ & Hdl).
      destruct (Htext r rv sid rc Hr Hrv Hrc) as (tr & Htr & _ & Hdr).
      exists lv, rv, sid, lc, rc, tl, tr. split_and!; try done.
      - intros ->. apply Hsid. by rewrite Htl, Htr.
      - intros (_ & _ & _ & _ & ->)%envelope_text_inj.
        apply Hsid. by rewrite Htl, Htr. }
  left.
  assert (Hsame : ∀ sid lc rc, sid ∈ subs → lv !! sid = Some lc → rv !! sid = Some rc →
            ∃ t, _semantic_free_payload_change lc = Ok t ∧
                 _semantic_free_payload_change rc = Ok t).
  { intros sid lc rc Hsid Hlc Hrc.
    rewrite forallb_forall in Hagree. apply list_elem_of_In in Hsid.
    specialize (Hagree sid Hsid). unfold agree in Hagree.
    rewrite Hlc, Hrc in Hagree. apply bool_decide_eq_true in Hagree.
    destruct (Htext l lv sid lc Hl Hlv Hlc) as (tl & Htl & Hsl & _).
    destruct (Htext r rv sid rc Hr Hrv Hrc) as (tr & Htr & Hsr & _).
    exists tl. split; [done|]. rewrite Hsr. congruence. }
  assert (Hstrict : StronglySorted key_lt subs).
  { apply sort_strings_strict, NoDup_elements. }
  destruct (classify_fold_sorted lv rv bv subs [] [] acts confs Hstrict Hfold)
    as (na & nc & -> & -> & _ & Hnc & _ & _ & _).
  cbn [app].
  destruct (classify_fold_inv lv rv bv subs [] [] _ Hnd Hfold)
    as (na' & nc' & Hacc & Hspec).
  cbn [app] in Hacc. injection Hacc as <- <-.
  assert (Hnone : ∀ sid, sid ∈ subs → entries_for sid nc = []).
  { intros sid Hsid. destruct (proj1 (Hspec sid) Hsid) as (a & c & Hv & _ & <-).
    destruct (lv !! sid) as [lc|] eqn:Hlc, (rv !! sid) as [rc|] eqn:Hrc.
    - destruct (Hsame sid lc rc Hsid Hlc Hrc) as (t & Htl & Htr).
      destruct (verdict_either lv rv bv sid lc rc t Hlc Hrc Htl Htr)
        as (a' & Hv' & _). congruence.
    - destruct (verdict_left lv rv bv sid lc Hlc Hrc) as (a' & Hv' & _). congruence.
    - destruct (verdict_right lv rv bv sid rc Hlc Hrc) as (a' & Hv' & _). congruence.
    - rewrite verdict_None in Hv by done. done. }
  assert (Hempty : nc = []).
  { destruct nc as [|e nc']; [done|]. exfalso.
    apply Forall_cons in Hnc as [(sid & He & Hsid) _].
    specialize (Hnone sid Hsid). unfold entries_for in Hnone.
    assert (e ∈ filter (λ e, entry_get "subject_id" e = Some (Some sid)) (e :: nc'))
      as Hin'.
    { apply list_elem_of_filter. split; [|by left].
      unfold entry_subject in He. by destruct (entry_get "subject_id" e) as [[?|]|];
        simplify_eq/=. }
    rewrite Hnone in Hin'. inversion Hin'. }
  split; [done|]. intros sid [_ (c & Hc & _)]. cbn [conflicts] in Hc.
  rewrite Hempty in Hc. done.
Qed.

(** X15. MergeError means an absent head and nothing else.  The analysis and
    commit_merge raise it, before doing anything, when one of the two heads
    is not stored, and commit_merge then leaves the store as it was; with
    both heads stored, commit_merge never raises it, and neither does the
    analysis on a store built by append. *)
Theorem merge_error_exactly_on_absent_head s l r :
  (l ∉ dom (_commits s) ∨ r ∉ dom (_commits s) →
   three_way_merge_analysis s l r = Raise MergeError ∧
   ∀ draws decision items k n sc nt,
     commit_merge s draws (l, r) decision items k n sc nt = (Raise MergeError, s)) ∧
  (reachable s → three_way_merge_analysis s l r = Raise MergeError →
   l ∉ dom (_commits s) ∨ r ∉ dom (_commits s)) ∧
  (∀ draws decision items k n sc nt s',
     commit_merge s draws (l, r) decision items k n sc nt = (Raise MergeError, s') →
     l ∉ dom (_commits s) ∨ r ∉ dom (_commits s)).
Proof.
  split_and!.
  - intros Habs. split; [by apply three_way_merge_analysis_MergeError|].
    intros. by apply commit_merge_MergeError.
  - intros Hs. by apply three_way_merge_analysis_MergeError_iff.
  - intros draws decision items k n sc nt s'.
    unfold commit_merge, exists_. cbn [fst snd].
    destruct (bool_decide (l ∈ dom (_commits s))) eqn:Hl; cbn [negb orb];
      [|intros _; left; by apply bool_decide_eq_false in Hl].
    destruct (bool_decide (r ∈ dom (_commits s))) eqn:Hr; cbn [negb orb];
      [|intros _; right; by apply bool_decide_eq_false in Hr].
    intros Hloop. exfalso. revert Hloop.
    generalize (@nil Commit) as acc. generalize 0 as i. revert s Hl Hr.
    induction items as [|[sid pl] items IH]; intros s Hl Hr i acc;
      cbn [commit_merge_loop]; [done|].
    destruct (create k n (PyDict pl) sc "v1") as [anchor|e|] eqn:Hc; [| |done].
    + destruct (if String.eqb (id anchor) sid then ("merge", sid)
                else ("replace", id anchor)) as [o sid'].
      destruct (append s (draws i).1 (draws i).2 [l; r] o sid' k n sc (Some pl) nt)
        as [[c|e|] s1] eqn:Happ; [| |done].
      * destruct (append_inv _ _ _ _ _ _ _ _ _ _ _ _ _ Happ) as (_ & _ & Hcs & _).
        apply IH.
        -- apply bool_decide_eq_true. apply bool_decide_eq_true in Hl.
           rewrite Hcs, dom_insert. set_solver.
        -- apply bool_decide_eq_true. apply bool_decide_eq_true in Hr.
           rewrite Hcs, dom_insert. set_solver.
      * intros [= -> _]. unfold append in Happ.
        destruct (check_parents_cases s [l; r]) as [Hok|Hbad].
        -- by rewrite Hok in Happ.
        -- by rewrite Hbad in Happ.
    + intros [= -> _]. rewrite create_unfold in Hc.
      pose proof (canonical_fingerprint_outcome k n (PyDict pl) sc "v1") as Hout.
      destruct (canonical_fingerprint k n (PyDict pl) sc "v1") as [fp|e|];
        [done| |done].
      injection Hc as ->. simpl in Hout. set_solver.
Qed.
End signatures.

Lemma addressed_store_reachable : reachable addressed_store.
Proof. unfold addressed_store, addressed_append. example_reachable. Qed.

Lemma content_addressed_subjects_never_conflict_witness :
  ∃ d, three_way_merge_analysis (H := example_host) addressed_store "l" "r" = Ok d ∧
       conflicts d = [].
Proof.
  set (d := value_or example_decision
              (three_way_merge_analysis (H := example_host) addressed_store "l" "r")).
  assert (Hd : three_way_merge_analysis (H := example_host) addressed_store "l" "r"
               = Ok d) by (vm_compute; reflexivity).
  assert (Hall : map_Forall (λ _ c, content_addressed (H := example_host) c)
                   (_commits addressed_store)).
  { apply (bool_decide_unpack _). vm_compute. reflexivity. }
  exists d. split; [exact Hd|].
  destruct (content_addressed_subjects_never_conflict (H := example_host)
              addressed_store "l" "r" d addressed_store_reachable Hall Hd)
    as [[Hnone _]|(lv & rv & sid & lc & rc & tl & tr & _ & _ & _ & _ & _ & _ & _
                   & Hne & Hdl & Hdr)].
  - exact Hnone.
  - destruct Hne. cbn in Hdl, Hdr. congruence.
Defined.

Lemma merge_error_exactly_on_absent_head_witness :
  three_way_merge_analysis (H := example_host) branched_store "l" "nowhere"
    = Raise MergeError.
Proof.
  refine (proj1 (proj1 (merge_error_exactly_on_absent_head (H := example_host)
                          branched_store "l" "nowhere") _)).
  right. apply not_elem_of_dom. vm_compute. reflexivity.
Defined.
(* ================================================================== *)
(** * The base under a monotone clock, and heads that are merge commits *)

Lemma ancestor_older s x a cx ca :
  store_wf s →
  (∀ k c p cp, _commits s !! k = Some c → p ∈ parents c →
               _commits s !! p = Some cp → (timestamp_ms cp < timestamp_ms c)%Z) →
  ancestor s x a → _commits s !! x = Some cx → _commits s !! a = Some ca →
  (timestamp_ms ca < timestamp_ms cx)%Z.
Proof.
  intros Hwf Hclock Hanc. revert cx ca.
  induction Hanc as [x y (c & Hc & Hp)|x y z (c & Hc & Hp) Hyz IH]; intros cx ca Hx Ha.
  - assert (c = cx) as -> by congruence. by eapply Hclock.
  - assert (c = cx) as -> by congruence.
    assert (y ∈ dom (_commits s)) as [cy Hcy]%elem_of_dom
      by (apply (wf_closed s Hwf x cx y Hx Hp)).
    specialize (IH cy ca Hcy Ha). specialize (Hclock x cx y cy Hx Hp Hcy). lia.
Qed.

(** X28. when every stored commit has a later timestamp than each of its
    parents, the base _pick_base chooses is a lowest common ancestor: it is a
    common ancestor-or-self of the two heads and no other common
    ancestor-or-self descends from it.  In particular, when one head is the
    other or an ancestor of it, that head is the base. *)
Theorem pick_base_is_lowest_with_monotone_clock s l r b :
  reachable s →
  (∀ k c p cp, _commits s !! k = Some c → p ∈ parents c →
               _commits s !! p = Some cp → (timestamp_ms cp < timestamp_ms c)%Z) →
  _pick_base s l r = Ok (Some b) →
  (b = l ∨ ancestor s l b) ∧ (b = r ∨ ancestor s r b) ∧
  (∀ x, x = l ∨ ancestor s l x → x = r ∨ ancestor s r x → ¬ ancestor s x b) ∧
  (r = l ∨ ancestor s l r → b = r) ∧
  (l = r ∨ ancestor s r l → b = l).
Proof.
  intros Hs Hclock Hpick. pose proof (reachable_wf s Hs) as Hwf.
  assert (Hlr : l ∈ dom (_commits s) ∧ r ∈ dom (_commits s)).
  { unfold _pick_base in Hpick.
    destruct (decide (l ∈ dom (_commits s))) as [Hl|Hl];
      [|rewrite lca_candidates_unknown in Hpick by auto; done].
    destruct (decide (r ∈ dom (_commits s))) as [Hr|Hr];
      [|rewrite lca_candidates_unknown in Hpick by auto; done].
    done. }
  destruct Hlr as [Hl Hr].
  destruct (pick_base_greatest s l r Hwf Hl Hr) as (C & HC & Hcases).
  destruct Hcases as [[_ Hnone]|(b' & kb & Hpick' & HbC & Hkb & Hmax)]; [congruence|].
  assert (b' = b) as -> by congruence.
  destruct (lca_candidates_spec s l r Hwf Hl Hr) as (A & B & HA & HB & HC').
  rewrite HC in HC'. injection HC' as ->.
  destruct (ancestors_of_spec s Hwf l Hl) as (A' & HA' & HAm).
  destruct (ancestors_of_spec s Hwf r Hr) as (B' & HB' & HBm).
  assert (A' = A) as -> by congruence. assert (B' = B) as -> by congruence.
  assert (Hmem : ∀ x, x ∈ (A ∪ {[l]}) ∩ (B ∪ {[r]}) ↔
                      (x = l ∨ ancestor s l x) ∧ (x = r ∨ ancestor s r x)).
  { intros x. rewrite elem_of_intersection, !elem_of_union, !elem_of_singleton,
      HAm, HBm. tauto. }
  assert (Hlow : ∀ x, x = l ∨ ancestor s l x → x = r ∨ ancestor s r x →
                      ¬ ancestor s x b).
  { intros x Hxl Hxr Hxb.
    assert (HxC : x ∈ (A ∪ {[l]}) ∩ (B ∪ {[r]})) by (by apply Hmem).
    assert (Hne : x ≠ b) by (intros ->; by apply (ancestor_irrefl s b Hwf)).
    destruct (ancestor_dom s x b Hwf Hxb) as [[cx Hcx]%elem_of_dom [cb Hcb]%elem_of_dom].
    pose proof (ancestor_older s x b cx cb Hwf Hclock Hxb Hcx Hcb) as Hts.
    assert (Hkx : commit_key s x = Some (timestamp_ms cx, x))
      by (unfold commit_key; by rewrite Hcx).
    assert (kb = (timestamp_ms cb, b)) as ->.
    { unfold commit_key in Hkb. rewrite Hcb in Hkb. by injection Hkb. }
    specialize (Hmax x _ HxC Hne Hkx). unfold key_gt in Hmax. cbn [fst snd] in Hmax.
    apply orb_true_iff in Hmax as [Hlt%Z.ltb_lt|[Heq%Z.eqb_eq _]%andb_true_iff]; lia. }
  apply Hmem in HbC as [Hbl Hbr].
  split_and!; [done|done|exact Hlow| |].
  - intros Hrl. destruct Hbr as [->|Hrb]; [done|]. exfalso.
    apply (Hlow r); [|by left|done]. destruct Hrl as [->|?]; auto.
  - intros Hlr. destruct Hbl as [->|Hlb]; [done|]. exfalso.
    apply (Hlow l); [by left| |done]. destruct Hlr as [->|?]; auto.
Qed.

Lemma pick_base_is_lowest_with_monotone_clock_witness :
  ∃ b, _pick_base diamond_store "M" "A" = Ok (Some b) ∧ b = "A".
Proof.
  exists "A". split; [vm_compute; reflexivity|].
  refine (proj1 (proj2 (proj2 (proj2 (pick_base_is_lowest_with_monotone_clock
            diamond_store "M" "A" "A" diamond_store_reachable _ _)))) _).
  - assert (Hall : map_Forall (λ _ c,
              Forall (λ p, from_option
                             (λ cp, (timestamp_ms cp <? timestamp_ms c)%Z) true
                             (_commits diamond_store !! p) = true) (parents c))
              (_commits diamond_store)).
    { apply (bool_decide_unpack _). vm_compute. reflexivity. }
    intros k c p cp Hc Hp Hcp. specialize (Hall k c Hc).
    rewrite Forall_forall in Hall. specialize (Hall p Hp).
    rewrite Hcp in Hall. by apply Z.ltb_lt.
  - vm_compute. reflexivity.
  - right. apply tc_once. eexists. split; [vm_compute; reflexivity|]. by left.
Defined.

Section merge_heads.
Context `{Host}.

Lemma view_of_chain_root s h c :
  store_wf s → _commits s !! h = Some c → length (parents c) ≠ 1 →
  view s h = Ok {[subject_id c := c]}.
Proof.
  intros Hwf Hc Hlen.
  destruct (commit_chain_chain_to s h Hwf) as (ch & Hch & Hto).
  { by apply elem_of_dom. }
  rewrite (chain_to_unique s h ch [c] Hto) in Hch by (by constructor).
  unfold view. rewrite Hch. cbn [mbind result_bind].
  unfold _index_latest_by_subject. cbn [foldl]. by rewrite insert_empty.
Qed.

(** X29. a head that has no parent or more than one has a view that holds
    its own subject only.  For two such stored heads (for instance two
    commits that one commit_merge appended), in a store where
    _semantic_free_payload_change returns a signature for every stored
    commit, the analysis raises AssertionError exactly when the base view
    holds a subject other than the subjects of the two heads, and returns a
    decision otherwise. *)
Theorem analysis_of_merge_heads s l r cl cr :
  reachable s →
  map_Forall (λ _ c, has_signature c = true) (_commits s) →
  get s l = Ok cl → get s r = Ok cr →
  length (parents cl) ≠ 1 → length (parents cr) ≠ 1 →
  view s l = Ok {[subject_id cl := cl]} ∧
  view s r = Ok {[subject_id cr := cr]} ∧
  ∃ base bv,
    _pick_base s l r = Ok base ∧ base_view s base = Ok bv ∧
    (three_way_merge_analysis s l r = Raise AssertionError ↔
     ∃ sid, sid ∈ dom bv ∧ sid ≠ subject_id cl ∧ sid ≠ subject_id cr) ∧
    ((∃ d, three_way_merge_analysis s l r = Ok d) ↔
     ∀ sid, sid ∈ dom bv → sid = subject_id cl ∨ sid = subject_id cr).
Proof.
  intros Hs Hsig Hgl Hgr Hpl Hpr. pose proof (reachable_wf s Hs) as Hwf.
  unfold get in Hgl, Hgr.
  destruct (_commits s !! l) as [cl'|] eqn:Hcl; [|done]. injection Hgl as ->.
  destruct (_commits s !! r) as [cr'|] eqn:Hcr; [|done]. injection Hgr as ->.
  pose proof (view_of_chain_root s l cl Hwf Hcl Hpl) as Hvl.
  pose proof (view_of_chain_root s r cr Hwf Hcr Hpr) as Hvr.
  split; [done|]. split; [done|].
  destruct (three_way_merge_analysis_spec s l r Hs)
    as (base & lv & rv & bv & Hbase & Hlv & Hrv & Hbv & Hcases).
  { by apply elem_of_dom. }
  { by apply elem_of_dom. }
  specialize (Hcases (views_signed s l r base lv rv bv Hwf Hsig Hlv Hrv Hbv)).
  rewrite Hvl in Hlv. injection Hlv as <-. rewrite Hvr in Hrv. injection Hrv as <-.
  exists base, bv. split; [done|]. split; [done|].
  assert (Hnone : ∀ (c : Commit) sid,
            ({[subject_id c := c]} : gmap string Commit) !! sid = None
            ↔ sid ≠ subject_id c).
  { intros c sid. rewrite lookup_singleton_None. naive_solver. }
  assert (Hsome : ∀ (c : Commit) sid,
            is_Some (({[subject_id c := c]} : gmap string Commit) !! sid)
            ↔ sid = subject_id c).
  { intros c sid. rewrite <- not_eq_None_Some, Hnone.
    destruct (decide (sid = subject_id c)); naive_solver. }
  destruct Hcases as [[(sid & Hsid & Hl & Hr) Hfail]|[Hall (d & Hd & _)]].
  - rewrite Hfail. split.
    + split; [|done]. intros _. exists sid. rewrite <- !Hnone. done.
    + split; [by intros [? ?]|]. intros Hcov.
      apply Hnone in Hl, Hr. destruct (Hcov sid Hsid); done.
  - rewrite Hd. split.
    + split; [done|]. intros (sid & Hsid & Hnl & Hnr).
      destruct (Hall sid Hsid) as [Hin%Hsome|Hin%Hsome]; done.
    + split; [|by eauto]. intros _ sid Hsid.
      destruct (Hall sid Hsid) as [Hin%Hsome|Hin%Hsome]; auto.
Qed.
End merge_heads.

Lemma analysis_of_merge_heads_witness :
  ∃ cl, get merged_store "m1" = Ok cl ∧
        view merged_store "m1" = Ok {[subject_id cl := cl]}.
Proof.
  set (cl := value_or ({| commit_id := ""; timestamp_ms := 0; parents := [];
                          op := ""; subject_id := ""; subject_kind := "";
                          subject_namespace := ""; subject_scope := "";
                          payload := []; note := "" |})
                      (get merged_store "m1")).
  set (cr := value_or cl (get merged_store "m2")).
  exists cl. split; [vm_compute; reflexivity|].
  refine (proj1 (analysis_of_merge_heads (H := example_host) merged_store
                   "m1" "m2" cl cr merged_store_reachable _ _ _ _ _)).
  - apply (bool_decide_unpack _). vm_compute. reflexivity.
  - vm_compute. reflexivity.
  - vm_compute. reflexivity.
  - vm_compute. lia.
  - vm_compute. lia.
Defined.
